(* ===== verification/_CoqProject ===== *)
-Q . S2P
Prelude.v
Dag.v
DagCycles.v
DagBuild.v
DagSchedule.v
GoStrings.v
Json.v
Regex.v
FieldErrors.v
Substitution.v
SubstitutionSpec.v
ResultRef.v
Params.v
When.v
Matrix.v
Runs.v
PipelineTasks.v
ResolvedTasks.v
ResultRefResolution.v
Apply.v
Skip.v
SkipSpec.v
ValidateDependencies.v
PipelineRunState.v
PipelineRunStateSpec.v
