(* ===== verification/Prelude.v ===== *)
(** * Verification of the Tekton Pipelines controller

    (header: see the end of the sitting) *)
From stdpp Require Export base gmap sets strings list fin_maps relations sorting.
From Stdlib Require Export Lia ZArith.

#[export] Set Warnings "-clear-no-such-hyp".

Open Scope string_scope.
Open Scope nat_scope.
Open Scope list_scope.

(** ** Outcomes of a Go call

    [Ret] is a normal return with a nil error, [Err] a return with a non-nil
    error, [Panic] a run-time panic (nil dereference, index out of range). *)
Inductive outcome (E A : Type) : Type :=
| Ret (a : A)
| Err (e : E)
| Panic.
Arguments Ret {E A} _.
Arguments Err {E A} _.
Arguments Panic {E A}.

Declare Scope go_scope.
Delimit Scope go_scope with go.

Definition obind {E A B} (m : outcome E A) (k : A → outcome E B) : outcome E B :=
  match m with Ret a => k a | Err e => Err e | Panic => Panic end.

Notation "'let*' x ':=' m 'in' k" := (obind m (λ x, k))
  (at level 10, x pattern, m at level 100, k at level 200) : go_scope.
Open Scope go_scope.

(** [for _, x := range xs { st = f(st, x) }] with early return on error. *)
Fixpoint ofold {E A S} (f : S → A → outcome E S) (xs : list A) (st : S) : outcome E S :=
  match xs with
  | [] => Ret st
  | x :: xs => let* st' := f st x in ofold f xs st'
  end.

(** ** Iteration over Go maps

    Go visits every entry of a map exactly once, in an order the language does
    not fix.  An instance of [MapOrder] is one such choice of orders; every
    definition that ranges over a map takes one, and a theorem about it holds
    for every choice. *)
Class MapOrder := {
  range_map : ∀ V : Type, gmap string V → list (string * V);
  range_map_perm : ∀ V (m : gmap string V), range_map V m ≡ₚ map_to_list m;
  range_set : gset string → list string;
  range_set_perm : ∀ s : gset string, range_set s ≡ₚ elements s;
  (* a map whose keys are not strings, given as the list of its entries *)
  range_entries : ∀ A : Type, list A → list A;
  range_entries_perm : ∀ A (l : list A), range_entries A l ≡ₚ l
}.
Arguments range_map {_ V} _.
Arguments range_entries {_ A} _.

(** The order in which stdpp enumerates a map, used by the concrete runs. *)
Definition stdpp_order : MapOrder :=
  {| range_map := λ V m, map_to_list m;
     range_map_perm := λ V m, Permutation_refl _;
     range_set := elements;
     range_set_perm := λ s, Permutation_refl _;
     range_entries := λ A l, l;
     range_entries_perm := λ A l, Permutation_refl _ |}.

(** The opposite order: [stdpp_order] is not the only one. *)
Definition reverse_order : MapOrder :=
  {| range_map := λ V m, reverse (map_to_list m);
     range_map_perm := λ V m, reverse_Permutation _;
     range_set := λ s, reverse (elements s);
     range_set_perm := λ s, reverse_Permutation _;
     range_entries := λ A l, reverse l;
     range_entries_perm := λ A l, reverse_Permutation _ |}.

Section map_order.
Context `{MapOrder}.

Lemma elem_of_range_map {V} (m : gmap string V) k v :
  (k, v) ∈ range_map m ↔ m !! k = Some v.
Proof. rewrite range_map_perm. apply elem_of_map_to_list. Qed.

Lemma elem_of_range_set (s : gset string) x : x ∈ range_set s ↔ x ∈ s.
Proof. rewrite range_set_perm. apply elem_of_elements. Qed.

Lemma NoDup_range_set (s : gset string) : NoDup (range_set s).
Proof. rewrite range_set_perm. apply NoDup_elements. Qed.

Lemma NoDup_fst_range_map {V} (m : gmap string V) : NoDup (range_map m).*1.
Proof. rewrite range_map_perm. apply NoDup_fst_map_to_list. Qed.

End map_order.

(** ** [sort.Slice]

    The result has the same elements; when [less] is a strict weak order it is
    sorted.  The documentation promises nothing more: the sort is not stable, and
    a [less] that is no strict weak order gives some order. *)
Definition strict_weak {A} (less : A → A → bool) : Prop :=
  (∀ x, less x x = false) ∧
  (∀ x y z, less x y = true → less y z = true → less x z = true) ∧
  (∀ x y z, less x y = true → less x z = true ∨ less z y = true).

Definition slice_le {A} (less : A → A → bool) : relation A := λ x y, less y x = false.

#[export] Instance slice_le_dec {A} (less : A → A → bool) : RelDecision (slice_le less) :=
  λ x y, decide (less y x = false).

Class SortSlice := {
  sort_slice : ∀ A : Type, (A → A → bool) → list A → list A;
  sort_slice_perm : ∀ A less (l : list A), sort_slice A less l ≡ₚ l;
  sort_slice_sorted : ∀ A less (l : list A), strict_weak less →
    StronglySorted (slice_le less) (sort_slice A less l)
}.
Arguments sort_slice {_ A} _ _.

Lemma merge_sort_slice A (less : A → A → bool) (l : list A) : strict_weak less →
  StronglySorted (slice_le less) (merge_sort (slice_le less) l).
Proof.
  intros (Hirr & Htr & Hweak).
  assert (Transitive (slice_le less)).
  { intros x y z Hxy Hyz. destruct (less z x) eqn:E; [|done].
    destruct (Hweak z x y E); congruence. }
  assert (Total (slice_le less)).
  { intros x y. destruct (less y x) eqn:E1; [right|by left].
    unfold slice_le. destruct (less x y) eqn:E2; [|done].
    by rewrite <-(Hirr x), (Htr x y x). }
  apply StronglySorted_merge_sort; apply _.
Qed.

(** Merge sort is one such sort, used by the concrete runs. *)
Definition merge_sort_order : SortSlice :=
  {| sort_slice := λ A less l, merge_sort (slice_le less) l;
     sort_slice_perm := λ A less l, merge_sort_Permutation _ l;
     sort_slice_sorted := λ A less l, merge_sort_slice A less l |}.

Create HintDb tekton.
Create Rewrite HintDb tekton.
#[export] Hint Rewrite @elem_of_range_map @elem_of_range_set : tekton.
#[export] Hint Resolve NoDup_range_set NoDup_fst_range_map : tekton.

(** ** [k8s.io/apimachinery/pkg/util/sets.String]: a map used as a set. *)

(** [sets.NewString(items...)]. *)
Definition NewString (items : list string) : gset string := list_to_set items.

(** [PopAny]: remove and return the entry a [range] visits first. *)
Definition PopAny `{MapOrder} (s : gset string) : option (string * gset string) :=
  match range_set s with
  | [] => None
  | x :: _ => Some (x, s ∖ {[x]})
  end.

(** [List]: the entries, sorted. *)
Definition sorted_list (s : gset string) : list string :=
  merge_sort String.le (elements s).

(** [for { x, ok := s.PopAny(); if !ok { break }; body(x) }]: every round
    removes one entry, so [size s] rounds empty the set. *)
Fixpoint pop_loop `{MapOrder} {S} (fuel : nat) (body : string → S → S)
    (s : gset string) (st : S) : S :=
  match fuel with
  | O => st
  | Datatypes.S fuel =>
      match PopAny s with
      | None => st
      | Some (x, s') => pop_loop fuel body s' (body x st)
      end
  end.

Lemma size_remove `{Countable A} (X : gset A) x :
  x ∈ X → S (size (X ∖ {[x]})) = size X.
Proof.
  intros Hx. rewrite (union_difference_L {[x]} X) at 2 by set_solver.
  rewrite (size_union {[x]} (X ∖ {[x]})) by set_solver. by rewrite size_singleton.
Qed.

Section sets.
Context `{MapOrder}.

Lemma PopAny_None (s : gset string) : PopAny s = None ↔ s = ∅.
Proof.
  unfold PopAny. destruct (range_set s) as [|x l] eqn:E; split; try done.
  - intros _. apply set_eq. intros x. rewrite <-elem_of_range_set, E. set_solver.
  - intros ->. assert (x ∈ range_set ∅) as Hx by (rewrite E; left).
    by rewrite elem_of_range_set in Hx.
Qed.

Lemma PopAny_Some (s s' : gset string) x :
  PopAny s = Some (x, s') → x ∈ s ∧ s' = s ∖ {[x]}.
Proof.
  unfold PopAny. destruct (range_set s) as [|y l] eqn:E; [done|].
  intros [= -> <-]. split; [|done]. apply elem_of_range_set. rewrite E. left.
Qed.

(** Emptying a set with [PopAny] runs the body once on each entry. *)
Lemma pop_loop_enum {St} (body : string → St → St) (s : gset string) st :
  ∃ l, l ≡ₚ elements s ∧
    pop_loop (size s) body s st = foldl (λ st x, body x st) st l.
Proof.
  remember (size s) as n eqn:Hn. revert s st Hn.
  induction n as [|n IH]; intros s st Hn; simpl.
  - exists []. split; [|done].
    rewrite (size_empty_inv s (eq_sym Hn)), elements_empty. done.
  - destruct (PopAny s) as [[x s']|] eqn:E.
    + apply PopAny_Some in E as [Hx ->].
      destruct (IH (s ∖ {[x]}) (body x st)) as (l & Hl & ->).
      { pose proof (size_remove s x Hx). lia. }
      exists (x :: l). split; [|done]. rewrite Hl.
      rewrite <-(elements_union_singleton (s ∖ {[x]}) x) by set_solver.
      by rewrite <-(union_difference_L {[x]} s) by set_solver.
    + apply PopAny_None in E as ->. by rewrite size_empty in Hn.
Qed.

End sets.

Lemma elem_of_NewString (l : list string) x : x ∈ NewString l ↔ x ∈ l.
Proof. apply elem_of_list_to_set. Qed.
#[export] Hint Rewrite elem_of_NewString : tekton.

Lemma elem_of_sorted_list (s : gset string) x : x ∈ sorted_list s ↔ x ∈ s.
Proof. unfold sorted_list. rewrite merge_sort_Permutation. apply elem_of_elements. Qed.
#[export] Hint Rewrite elem_of_sorted_list : tekton.

(** ** Finite relations

    A relation in which every element of a finite set has a successor in the
    set has a cycle below each of them; an accessible element has none. *)
Definition reaches_cycle {A} (R : relation A) (x : A) : Prop :=
  ∃ y, rtc R x y ∧ tc R y y.

Definition acyclic {A} (R : relation A) : Prop := ∀ x, ¬ tc R x x.

Lemma acyclic_no_reach {A} (R : relation A) :
  acyclic R ↔ ∀ x, ¬ reaches_cycle R x.
Proof.
  split.
  - intros Hac x (y & _ & Hy). by apply (Hac y).
  - intros Hno x Hx. apply (Hno x). by exists x.
Qed.

Section serial.
Context `{Countable A} (R : relation A) (X : gset A).
Hypothesis serial : ∀ x, x ∈ X → ∃ y, y ∈ X ∧ R x y.

Lemma serial_reaches_cycle_aux n (V : gset A) x :
  size (X ∖ V) ≤ n → x ∈ X → x ∉ V → (∀ v, v ∈ V → tc R v x) → reaches_cycle R x.
Proof.
  revert V x. induction n as [|n IH]; intros V x Hn Hx HV Hpath.
  { assert (X ∖ V ≡ ∅) as HXV by (apply size_empty_inv; lia). set_solver. }
  destruct (serial x Hx) as (y & Hy & Hxy).
  destruct (decide (y ∈ {[x]} ∪ V)) as [Hyv|Hyv].
  - exists y. split; [by apply rtc_once|].
    apply elem_of_union in Hyv as [->%elem_of_singleton|Hyv]; [by apply tc_once|].
    apply tc_r with x; auto.
  - destruct (IH ({[x]} ∪ V) y) as (z & Hz & Hc); [|done|done| |].
    + assert (X ∖ ({[x]} ∪ V) = (X ∖ V) ∖ {[x]}) as -> by set_solver.
      pose proof (size_remove (X ∖ V) x). set_solver by lia.
    + intros v [->%elem_of_singleton|Hv]%elem_of_union; [by apply tc_once|].
      apply tc_r with x; auto.
    + exists z. split; [by apply rtc_l with y|done].
Qed.

Lemma serial_reaches_cycle x : x ∈ X → reaches_cycle R x.
Proof. intros Hx. apply (serial_reaches_cycle_aux (size (X ∖ ∅)) ∅); set_solver. Qed.

End serial.

Lemma Acc_not_reaches_cycle {A} (R : relation A) x :
  Acc (flip R) x → ¬ reaches_cycle R x.
Proof.
  assert (∀ x, Acc (flip R) x → ¬ tc R x x) as Hirr.
  { induction 1 as [z _ IH]. intros Hz.
    inversion Hz as [? ? Hzz|? w ? Hzw Hwz]; subst; [by apply (IH z)|].
    apply (IH w Hzw). by apply tc_r with z. }
  intros Hx (y & Hxy & Hy). revert Hx Hy.
  induction Hxy as [z|z w y Hzw _ IH]; [intros Hz Hc; exact (Hirr z Hz Hc)|].
  intros [Hz] Hy. by apply IH; [apply Hz|].
Qed.

(** ** A map filled in a loop *)

Lemma foldl_insert_lookup {A V} (f : A → string) (g : A → V) (m : gmap string V) xs k v :
  NoDup (f <$> xs) →
  foldl (λ m x, <[f x := g x]> m) m xs !! k = Some v ↔
  (∃ x, x ∈ xs ∧ f x = k ∧ g x = v) ∨ (k ∉ f <$> xs ∧ m !! k = Some v).
Proof.
  revert m. induction xs as [|x xs IH]; intros m; simpl.
  { intros _. setoid_rewrite elem_of_nil. naive_solver. }
  intros [Hx Hnd]%NoDup_cons. rewrite IH by done. clear IH. split.
  - intros [(y & Hy & <- & <-)|[Hk Hl]].
    + left. exists y. by split; [right|].
    + apply lookup_insert_Some in Hl as [[<- <-]|[Hne Hl]].
      * left. exists x. by split; [left|].
      * right. split; [|done]. rewrite elem_of_cons. intros [->|]; done.
  - intros [(y & [-> |Hy]%elem_of_cons & <- & <-)|[Hk Hl]].
    + right. split; [done|]. by rewrite lookup_insert_eq.
    + left. by exists y.
    + rewrite elem_of_cons in Hk. right. split; [by intros ?; apply Hk; right|].
      rewrite lookup_insert_ne; [done|]. intros E. apply Hk. left. done.
Qed.

Lemma acyclic_iff {A} (R1 R2 : relation A) :
  (∀ x y, R1 x y ↔ R2 x y) → acyclic R1 ↔ acyclic R2.
Proof.
  intros HR. assert (∀ x y, tc R1 x y ↔ tc R2 x y) as Ht; [|unfold acyclic; by setoid_rewrite Ht].
  intros x y. split; induction 1.
  - apply tc_once. by apply HR.
  - eapply tc_l; [by apply HR|done].
  - apply tc_once. by apply HR.
  - eapply tc_l; [by apply HR|done].
Qed.
