(* ===== verification/Dag.v ===== *)
(** * The pipeline graph

    Models [pkg/reconciler/pipeline/dag/dag.go] and the part of
    [pkg/list/diff.go] it uses.  A [*Node] is modelled by the key of its node:
    every node of a graph is stored in [Nodes] under its own key and no other
    node exists, so the key determines the pointer.  [Prev] and [Next] keep the
    order and the repetitions of the Go slices. *)
From S2P Require Import Prelude.

(** ** Data *)

(** The [Task] interface.  [Deps] is used by the callers that compute the
    dependency map handed to [Build]. *)
Class Task (A : Type) := { HashKey : A → string; Deps : A → list string }.

Record Node := mkNode { Key : string; Prev : list string; Next : list string }.

Record Graph := mkGraph { Nodes : gmap string Node }.

(** The error values of the package, with the data their messages show. *)
Inductive DagError :=
| DuplicateTask (task : string)
| CycleDetected (task : string) (deps : list string)
| MissingTask (pt previousTask : string)
| InvalidDoneTasks (notVisited : list string).

(** ** [pkg/list] *)

(** [DiffLeft]: the strings of the left slice that are not in the right one. *)
Fixpoint DiffLeft (ls rs : list string) : list string :=
  match ls with
  | [] => []
  | s :: ls =>
      if bool_decide (s ∈ rs) then DiffLeft ls rs
      else s :: DiffLeft ls rs
  end.

Inductive SameError :=
| MissingValues (missing : list string)
| ExtraValues (extra : list string).

(** [IsSame]: an error when one slice has a value the other lacks. *)
Definition IsSame (required provided : list string) : option SameError :=
  let missing := DiffLeft required provided in
  if bool_decide (0 < length missing) then Some (MissingValues missing)
  else
    let extra := DiffLeft provided required in
    if bool_decide (0 < length extra) then Some (ExtraValues extra) else None.

(** ** Building a graph *)

Definition newGraph : Graph := mkGraph ∅.

Definition addPipelineTask {A} `{Task A} (g : Graph) (t : A) : outcome DagError Graph :=
  match Nodes g !! HashKey t with
  | Some _ => Err (DuplicateTask (HashKey t))
  | None => Ret (mkGraph (<[HashKey t := mkNode (HashKey t) [] []]> (Nodes g)))
  end.

(** [linkPipelineTasks prev next]: [next.Prev] grows first, then [prev.Next];
    when both are the same node the second append sees the first. *)
Definition linkPipelineTasks (prev next : string) (nodes : gmap string Node) : gmap string Node :=
  let nodes := alter (λ n, mkNode (Key n) (Prev n ++ [prev]) (Next n)) next nodes in
  alter (λ n, mkNode (Key n) (Prev n) (Next n ++ [next])) prev nodes.

(** [nodes[pt]] is a nil pointer when [pt] is not a task, and appending to its
    [Prev] panics. *)
Definition addLink (pt previousTask : string) (nodes : gmap string Node)
    : outcome DagError (gmap string Node) :=
  match nodes !! previousTask with
  | None => Err (MissingTask pt previousTask)
  | Some _ =>
      match nodes !! pt with
      | None => Panic
      | Some _ => Ret (linkPipelineTasks previousTask pt nodes)
      end
  end.

(** *** Cycle detection *)

(** The locals of [findCyclesInDependencies]. *)
Record kahn := mkKahn {
  independentTasks : gset string;
  dag : gmap string (gset string);
  childMap : gmap string (gset string)
}.

Section kahn.
Context `{MapOrder}.

(** One dependency of [task]: lines 144 to 153. *)
Definition kahn_add_dep (deps : gmap string (list string)) (task : string)
    (st : kahn) (dep : string) : kahn :=
  let st :=
    if bool_decide (length (default [] (deps !! dep)) = 0)
    then mkKahn ({[dep]} ∪ independentTasks st) (dag st) (childMap st) else st in
  match childMap st !! dep with
  | Some children =>
      mkKahn (independentTasks st) (dag st) (<[dep := {[task]} ∪ children]> (childMap st))
  | None =>
      mkKahn (independentTasks st) (dag st) (<[dep := NewString [task]]> (childMap st))
  end.

(** One task of the map: lines 139 to 154. *)
Definition kahn_add_task (deps : gmap string (list string)) (st : kahn)
    (entry : string * list string) : kahn :=
  let '(task, taskDeps) := entry in
  if bool_decide (length taskDeps = 0) then st
  else
    let st := mkKahn (independentTasks st) (<[task := NewString taskDeps]> (dag st)) (childMap st) in
    foldl (kahn_add_dep deps task) st taskDeps.

Definition kahn_init (deps : gmap string (list string)) : kahn :=
  foldl (kahn_add_task deps) (mkKahn ∅ ∅ ∅) (range_map deps).

(** One child of a popped parent: lines 167 to 171.  A missing entry of [dag]
    is a nil set, on which [Delete] does nothing and [Len] is 0. *)
Definition kahn_visit_child (parent child : string) (st : kahn) : kahn :=
  let rest := default ∅ (dag st !! child) ∖ {[parent]} in
  if bool_decide (size rest = 0)
  then mkKahn ({[child]} ∪ independentTasks st) (delete child (dag st)) (childMap st)
  else mkKahn (independentTasks st) (<[child := rest]> (dag st)) (childMap st).

(** The body of the outer loop: lines 161 to 172.  Popping every child leaves
    the parent's entry of [childMap] empty. *)
Definition kahn_visit_parent (parent : string) (st : kahn) : kahn :=
  let children := default ∅ (childMap st !! parent) in
  let st := mkKahn (independentTasks st) (dag st) (alter (λ _, ∅) parent (childMap st)) in
  pop_loop (size children) (kahn_visit_child parent) children st.

(** The outer loop: lines 156 to 173. *)
Fixpoint kahn_loop (fuel : nat) (st : kahn) : kahn :=
  match fuel with
  | O => st
  | S fuel =>
      match PopAny (independentTasks st) with
      | None => st
      | Some (parent, rest) =>
          kahn_loop fuel (kahn_visit_parent parent (mkKahn rest (dag st) (childMap st)))
      end
  end.

(** Every round pops an independent task, and a task becomes independent only
    when it leaves [dag]: the sum of the two sizes drops by one each round. *)
Definition kahn_fuel (st : kahn) : nat := size (independentTasks st) + size (dag st).

Definition kahn_final (deps : gmap string (list string)) : gmap string (gset string) :=
  let st := kahn_init deps in dag (kahn_loop (kahn_fuel st) st).

(** The least key, with the empty string standing for "none so far". *)
Definition firstChild (keys : list string) : string :=
  foldl (λ first task, if bool_decide (first = "") || String.ltb task first then task else first)
    "" keys.

Definition getInterdependencyError (dag : gmap string (gset string)) : option DagError :=
  if bool_decide (size dag = 0) then None
  else
    let first := firstChild (range_map dag).*1 in
    Some (CycleDetected first (sorted_list (default ∅ (dag !! first)))).

Definition findCyclesInDependencies (deps : gmap string (list string)) : option DagError :=
  getInterdependencyError (kahn_final deps).

(** One entry of the dependency map: lines 90 to 94. *)
Definition Build_links (g : Graph) (entry : string * list string) : outcome DagError Graph :=
  let '(pt, taskDeps) := entry in
  ofold (λ g previousTask,
    let* nodes := addLink pt previousTask (Nodes g) in Ret (mkGraph nodes)) taskDeps g.

Definition Build {A} `{Task A} (tasks : list A) (deps : gmap string (list string))
    : outcome DagError Graph :=
  let* d := ofold addPipelineTask tasks newGraph in
  match findCyclesInDependencies deps with
  | Some err => Err err
  | None => ofold Build_links (range_map deps) d
  end.

End kahn.

(** ** Finding the tasks to run next *)

Definition isSchedulable (doneTasks : gset string) (prevs : list string) : bool :=
  if bool_decide (length prevs = 0) then true
  else
    let collected := filter (λ n, n ∈ doneTasks) prevs in
    bool_decide (length collected = length prevs).

(** [findSchedulable] walks the graph depth first from the node [key], adding
    to [visited].  [fuel] bounds the depth of the walk; each nested call marks a
    new node, so one more than the number of nodes is enough. *)
Fixpoint findSchedulable (fuel : nat) (g : Graph) (doneTasks : gset string)
    (key : string) (visited : gset string) : gset string * list string :=
  match fuel with
  | O => (visited, [])
  | S fuel =>
      match Nodes g !! key with
      | None => (visited, [])
      | Some n =>
          if bool_decide (Key n ∈ visited) then (visited, [])
          else
            let visited := {[Key n]} ∪ visited in
            if bool_decide (Key n ∈ doneTasks) then
              foldl (λ '(visited, schedulable) next,
                if bool_decide (next ∈ visited) then (visited, schedulable)
                else
                  let '(visited, found) := findSchedulable fuel g doneTasks next visited in
                  (visited, schedulable ++ found)) (visited, []) (Next n)
            else if isSchedulable doneTasks (Prev n) then (visited, [Key n])
            else (visited, [])
      end
  end.

Section candidates.
Context `{MapOrder}.

Definition getRoots (g : Graph) : list string :=
  (filter (λ kn : string * Node, length (Prev kn.2) = 0) (range_map (Nodes g))).*1.

Definition GetCandidateTasks (g : Graph) (doneTasks : list string) : outcome DagError (gset string) :=
  let tm := NewString doneTasks in
  let '(visited, d) :=
    foldl (λ '(visited, d) root,
      let '(visited, schedulable) := findSchedulable (S (size (Nodes g))) g tm root visited in
      (visited, list_to_set schedulable ∪ d)) (∅, (∅ : gset string)) (getRoots g) in
  let notVisited := DiffLeft doneTasks (range_set visited) in
  if bool_decide (0 < length notVisited) then Err (InvalidDoneTasks notVisited)
  else Ret d.

End candidates.
