(* ===== verification/DagCycles.v ===== *)
(** * Cycle detection

    [findCyclesInDependencies] of [dag.go] is Kahn's algorithm.  This file shows
    that it terminates, that it reports an error exactly on the cyclic
    dependency maps, and that what it reports does not depend on the order in
    which Go iterates over the maps and sets involved. *)
From S2P Require Import Prelude Dag.

(** [x] depends on [y]: [y] is in the entry of [x]. *)
Definition depends (deps : gmap string (list string)) : relation string :=
  λ x y, y ∈ default [] (deps !! x).

#[export] Instance depends_dec deps : RelDecision (depends deps).
Proof. intros x y. unfold depends. apply _. Defined.

Lemma depends_nonempty deps x y :
  depends deps x y → length (default [] (deps !! x)) ≠ 0.
Proof. unfold depends. destruct (default [] (deps !! x)); set_solver. Qed.

Section kahn_correct.
Context `{MapOrder} (deps : gmap string (list string)).

Abbreviation dep := (depends deps).

(** *** The state before the loop *)

Lemma kahn_add_deps_spec task ds st :
  let st' := foldl (kahn_add_dep deps task) st ds in
  dag st' = dag st ∧
  (∀ x, x ∈ independentTasks st' ↔
    x ∈ independentTasks st ∨ (x ∈ ds ∧ length (default [] (deps !! x)) = 0)) ∧
  (∀ p c, c ∈ default ∅ (childMap st' !! p) ↔
    c ∈ default ∅ (childMap st !! p) ∨ (p ∈ ds ∧ c = task)).
Proof.
  revert st. induction ds as [|d ds IH]; intros st; simpl.
  { set_solver. }
  destruct (IH (kahn_add_dep deps task st d)) as (-> & Hi & Hc). clear IH.
  unfold kahn_add_dep in *. split_and!.
  - case_bool_decide; simpl; by destruct (childMap st !! d).
  - intros x. rewrite Hi. clear.
    case_bool_decide; simpl; destruct (childMap st !! d); simpl; set_solver.
  - intros p c. rewrite Hc. clear.
    destruct (decide (p = d)) as [->|Hp];
      case_bool_decide; simpl; destruct (childMap st !! d) eqn:E; simpl;
      rewrite ?lookup_insert_eq, ?lookup_insert_ne, ?E by done; simpl;
      unfold NewString; simpl; set_solver.
Qed.

Definition kahn_init_spec (entries : list (string * list string)) (st : kahn) : Prop :=
  (∀ c S, dag st !! c = Some S ↔ ∃ ds, (c, ds) ∈ entries ∧ ds ≠ [] ∧ S = list_to_set ds) ∧
  (∀ x, x ∈ independentTasks st ↔
    (∃ c ds, (c, ds) ∈ entries ∧ x ∈ ds) ∧ length (default [] (deps !! x)) = 0) ∧
  (∀ p c, c ∈ default ∅ (childMap st !! p) ↔ ∃ ds, (c, ds) ∈ entries ∧ p ∈ ds).

Lemma elem_of_snoc_pair {A B} (l : list (A * B)) a b a' b' :
  (a', b') ∈ l ++ [(a, b)] ↔ (a', b') ∈ l ∨ (a' = a ∧ b' = b).
Proof. rewrite elem_of_app, list_elem_of_singleton. naive_solver. Qed.

Lemma kahn_add_task_spec entries st task ds :
  task ∉ entries.*1 →
  kahn_init_spec entries st →
  kahn_init_spec (entries ++ [(task, ds)]) (kahn_add_task deps st (task, ds)).
Proof.
  intros Hnew (Hd & Hi & Hc). unfold kahn_add_task, kahn_init_spec.
  setoid_rewrite elem_of_snoc_pair.
  destruct ds as [|d ds]; [rewrite bool_decide_true by done|rewrite bool_decide_false by done].
  - split_and!.
    + intros c S. rewrite Hd. naive_solver.
    + intros x. rewrite Hi. pose proof (not_elem_of_nil x). naive_solver.
    + intros p c. rewrite Hc. pose proof (not_elem_of_nil p). naive_solver.
  - destruct (kahn_add_deps_spec task (d :: ds)
      (mkKahn (independentTasks st) (<[task := NewString (d :: ds)]> (dag st)) (childMap st)))
      as (Ed & Hi' & Hc'). split_and!.
    + intros c S. rewrite Ed. simpl.
      assert (∀ ds', (task, ds') ∉ entries) as Hnew'.
      { intros ds' Hin. apply Hnew, list_elem_of_fmap. by exists (task, ds'). }
      destruct (decide (c = task)) as [->|Hne].
      * rewrite lookup_insert_eq. unfold NewString. naive_solver.
      * rewrite lookup_insert_ne by done. rewrite Hd. naive_solver.
    + intros x. rewrite Hi'. simpl. rewrite Hi. naive_solver.
    + intros p c. rewrite Hc'. simpl. rewrite Hc. naive_solver.
Qed.

Lemma kahn_init_ok : kahn_init_spec (range_map deps) (kahn_init deps).
Proof.
  unfold kahn_init. pose proof (NoDup_fst_range_map deps) as Hnd. revert Hnd.
  induction (range_map deps) as [|[task ds] l IH] using rev_ind; intros Hnd.
  - unfold kahn_init_spec. setoid_rewrite elem_of_nil.
    split_and!; simpl; intros; rewrite ?lookup_empty; set_solver.
  - rewrite fmap_app, NoDup_app in Hnd. destruct Hnd as (Hl & Hdisj & _).
    rewrite foldl_app. simpl. apply kahn_add_task_spec; [|by apply IH].
    intros Hin. apply (Hdisj _ Hin). simpl. left.
Qed.

(** *** The loop invariant

    [P] is the set of parents popped so far. *)
Record kahn_inv (P : gset string) (st : kahn) : Prop := {
  inv_dag : ∀ c S, dag st !! c = Some S → S ≠ ∅ ∧ ∀ d, d ∈ S ↔ dep c d ∧ d ∉ P;
  inv_removed : ∀ c, dag st !! c = None →
    length (default [] (deps !! c)) ≠ 0 → c ∈ P ∪ independentTasks st;
  inv_ready : ∀ x y, x ∈ P ∪ independentTasks st → dep x y → y ∈ P;
  inv_acc : ∀ x, x ∈ P → Acc (flip dep) x;
  inv_leaves : ∀ x y, dep x y → length (default [] (deps !! y)) = 0 →
    y ∈ P ∪ independentTasks st;
  inv_children : ∀ p c, p ∉ P → c ∈ default ∅ (childMap st !! p) ↔ dep c p;
  inv_disj : P ## independentTasks st
}.

Lemma kahn_inv_init : kahn_inv ∅ (kahn_init deps).
Proof.
  destruct kahn_init_ok as (Hd & Hi & Hc).
  setoid_rewrite elem_of_range_map in Hd.
  setoid_rewrite elem_of_range_map in Hi.
  setoid_rewrite elem_of_range_map in Hc.
  split.
  - intros c S (ds & Hds & Hne & ->)%Hd. unfold depends. rewrite Hds. simpl.
    destruct ds; set_solver.
  - intros c Hnone Hlen. destruct (deps !! c) as [ds|] eqn:E; simpl in Hlen; [|done].
    assert (dag (kahn_init deps) !! c = Some (list_to_set ds)) as Hs.
    { apply Hd. exists ds. split_and!; [done| |done]. by intros ->. }
    congruence.
  - intros x y [|Hx]%elem_of_union Hxy; [set_solver|].
    apply Hi in Hx as [_ Hx]. by apply depends_nonempty in Hxy.
  - set_solver.
  - intros x y Hxy Hy. apply elem_of_union_r, Hi. split; [|done].
    unfold depends in Hxy. destruct (deps !! x) as [ds|] eqn:E; simpl in Hxy; [|set_solver].
    by exists x, ds.
  - intros p c _. rewrite Hc. unfold depends. destruct (deps !! c); set_solver.
  - set_solver.
Qed.

(** *** One round *)

(** The effect of visiting each child of [p] once, in any order. *)
Definition remaining (st : kahn) (p c : string) : gset string :=
  default ∅ (dag st !! c) ∖ {[p]}.

Lemma kahn_visit_children_spec p (l : list string) st :
  NoDup l →
  let st' := foldl (λ st c, kahn_visit_child p c st) st l in
  childMap st' = childMap st ∧
  (∀ x, x ∈ independentTasks st' ↔
    x ∈ independentTasks st ∨ (x ∈ l ∧ remaining st p x = ∅)) ∧
  (∀ c, dag st' !! c =
    if decide (c ∈ l) then
      if decide (remaining st p c = ∅) then None else Some (remaining st p c)
    else dag st !! c).
Proof.
  revert st. induction l as [|c l IH]; intros st Hnd.
  { split_and!; [done|set_solver|done]. }
  apply NoDup_cons in Hnd as [Hc Hnd]. simpl.
  destruct (IH (kahn_visit_child p c st) Hnd) as (-> & Hi & Hd). clear IH.
  assert (∀ x, x ≠ c → remaining (kahn_visit_child p c st) p x = remaining st p x) as Hrem.
  { intros x Hx. unfold remaining, kahn_visit_child. case_bool_decide; simpl;
      by rewrite ?lookup_delete_ne, ?lookup_insert_ne by done. }
  assert (size (remaining st p c) = 0 ↔ remaining st p c = ∅) as Hsz.
  { rewrite size_empty_iff. by apply leibniz_equiv_iff. }
  split_and!.
  - unfold kahn_visit_child. by case_bool_decide.
  - intros x. rewrite Hi. destruct (decide (x = c)) as [->|Hx].
    + clear Hi Hd Hrem. unfold kahn_visit_child. fold (remaining st p c).
      case_bool_decide; simpl; set_solver.
    + rewrite Hrem by done. clear Hi Hd Hrem Hsz Hnd. unfold kahn_visit_child.
      rewrite elem_of_cons. case_bool_decide; simpl; set_solver.
  - intros x. rewrite Hd. clear Hd Hi. destruct (decide (x = c)) as [->|Hx].
    + rewrite (decide_False (P:=c ∈ l)) by done. rewrite decide_True by left.
      unfold kahn_visit_child. fold (remaining st p c).
      case_bool_decide; simpl; case_decide; try tauto.
      * by rewrite lookup_delete_eq.
      * by rewrite lookup_insert_eq.
    + rewrite Hrem by done.
      destruct (decide (x ∈ l)) as [Hl|Hl].
      * by rewrite (decide_True (P:=x ∈ c :: l)) by (by right).
      * rewrite (decide_False (P:=x ∈ c :: l)) by set_solver.
        unfold kahn_visit_child. case_bool_decide; simpl;
          by rewrite ?lookup_delete_ne, ?lookup_insert_ne by done.
Qed.

Lemma kahn_visit_parent_spec P st p rest :
  kahn_inv P st → p ∈ independentTasks st → rest = independentTasks st ∖ {[p]} →
  let st' := kahn_visit_parent p (mkKahn rest (dag st) (childMap st)) in
  (∀ q, q ≠ p → childMap st' !! q = childMap st !! q) ∧
  (∀ x, x ∈ independentTasks st' ↔ x ∈ rest ∨ (dep x p ∧ remaining st p x = ∅)) ∧
  (∀ c, dag st' !! c =
    if decide (dep c p) then
      if decide (remaining st p c = ∅) then None else Some (remaining st p c)
    else dag st !! c).
Proof.
  intros Hinv Hp ->. unfold kahn_visit_parent. cbn [independentTasks dag childMap].
  set (ch := default ∅ (childMap st !! p)).
  set (st0 := mkKahn _ _ _).
  destruct (pop_loop_enum (kahn_visit_child p) ch st0) as (l & Hl & ->).
  assert (NoDup l) as Hnd by (rewrite Hl; apply NoDup_elements).
  assert (∀ c, c ∈ l ↔ dep c p) as Hch.
  { intros c. rewrite Hl, elem_of_elements. apply (inv_children P st Hinv).
    pose proof (inv_disj P st Hinv). set_solver. }
  destruct (kahn_visit_children_spec p l st0 Hnd) as (Hcm & Hi & Hd). split_and!.
  - intros q Hq. rewrite Hcm. simpl. by rewrite lookup_alter_ne.
  - intros x. rewrite Hi, Hch. done.
  - intros c. rewrite Hd. destruct (decide (dep c p)) as [Hc|Hc].
    + by rewrite (decide_True (P:=c ∈ l)) by (by apply Hch).
    + by rewrite (decide_False (P:=c ∈ l)) by (by rewrite Hch).
Qed.

Lemma remaining_spec P st p c d :
  kahn_inv P st → dep c p → p ∈ independentTasks st →
  d ∈ remaining st p c ↔ dep c d ∧ d ∉ P ∧ d ≠ p.
Proof.
  intros Hinv Hcp Hp. unfold remaining.
  destruct (dag st !! c) as [S|] eqn:E; simpl.
  - rewrite elem_of_difference, elem_of_singleton.
    rewrite (proj2 (inv_dag P st Hinv c S E)). tauto.
  - exfalso. apply (inv_disj P st Hinv p); [|done].
    apply (inv_ready P st Hinv c); [|done].
    apply (inv_removed P st Hinv c E). by apply depends_nonempty in Hcp.
Qed.

(** A round keeps the invariant, with the popped parent in [P], and leaves
    strictly fewer pending tasks. *)
Definition pending (st : kahn) : gset string := independentTasks st ∪ dom (dag st).

Lemma kahn_inv_step P st p rest :
  kahn_inv P st → p ∈ independentTasks st → rest = independentTasks st ∖ {[p]} →
  let st' := kahn_visit_parent p (mkKahn rest (dag st) (childMap st)) in
  kahn_inv ({[p]} ∪ P) st' ∧ pending st' ⊆ pending st ∖ {[p]}.
Proof.
  intros Hinv Hp Hrest st'.
  destruct (kahn_visit_parent_spec P st p rest Hinv Hp Hrest) as (Hcm & Hi & Hd).
  fold st' in Hcm, Hi, Hd. clearbody st'. subst rest.
  pose proof (inv_disj P st Hinv) as Hdisj.
  assert (p ∉ P) as HpP by set_solver.
  pose proof (λ c d Hc, remaining_spec P st p c d Hinv Hc Hp) as Hrem.
  assert (∀ x, x ∈ P ∪ independentTasks st → ¬ dep x p) as Hnp.
  { intros x Hx Hxp. apply HpP. by apply (inv_ready P st Hinv x). }
  assert (∀ x, dep x p → remaining st p x = ∅ → ∀ y, dep x y → y ∈ {[p]} ∪ P) as Hnew.
  { intros x Hx He y Hy. destruct (decide (y ∈ {[p]} ∪ P)) as [|Hn]; [done|].
    assert (y ∈ remaining st p x) as Hyr by (rewrite Hrem by done; set_solver).
    rewrite He in Hyr. set_solver. }
  split; [split|].
  - intros c S HS. rewrite Hd in HS. destruct (decide (dep c p)) as [Hcp|Hcp].
    + case_decide; [done|]. injection HS as <-. split; [done|].
      intros d. rewrite Hrem by done. set_solver.
    + destruct (inv_dag P st Hinv c S HS) as [Hne Hel]. split; [done|].
      intros d. rewrite Hel. set_solver.
  - intros c Hnone Hlen. rewrite elem_of_union, Hi. rewrite Hd in Hnone.
    destruct (decide (dep c p)) as [Hcp|Hcp].
    + case_decide; [|done]. auto.
    + pose proof (inv_removed P st Hinv c Hnone Hlen) as Hc.
      destruct (decide (c = p)); set_solver.
  - intros x y Hx Hxy. rewrite elem_of_union, Hi in Hx.
    destruct (decide (dep x p ∧ remaining st p x = ∅)) as [[Hxp He]|Hno]; [by eapply Hnew|].
    apply elem_of_union_r, (inv_ready P st Hinv x); set_solver.
  - intros x [->%elem_of_singleton|Hx]%elem_of_union; [|by apply (inv_acc P st Hinv)].
    constructor. intros y Hy. apply (inv_acc P st Hinv), (inv_ready P st Hinv p); set_solver.
  - intros x y Hxy Hy. rewrite elem_of_union, Hi.
    pose proof (inv_leaves P st Hinv x y Hxy Hy). destruct (decide (y = p)); set_solver.
  - intros q c Hq. rewrite Hcm by set_solver. apply (inv_children P st Hinv). set_solver.
  - intros x Hx Hx'. apply Hi in Hx' as [Hx'|[Hxp _]]; [set_solver|].
    apply (Hnp x); [|done]. set_solver.
  - intros x Hx. unfold pending in *. rewrite elem_of_union, Hi, elem_of_dom, Hd in Hx.
    assert (¬ dep p p) as Hpp by (apply Hnp; set_solver).
    assert (dag st !! p = None) as Hpd.
    { destruct (dag st !! p) as [S|] eqn:E; [|done].
      destruct (inv_dag P st Hinv p S E) as [Hne Hel].
      apply set_choose_L in Hne as [d Hin]. apply Hel in Hin as [Hin Hnin].
      destruct Hnin. apply (inv_ready P st Hinv p); set_solver. }
    assert (∀ c, dep c p → is_Some (dag st !! c)) as Hdom.
    { intros c Hc. destruct (dag st !! c) eqn:E; [done|]. destruct (Hnp c); [|done].
      apply (inv_removed P st Hinv c E). by apply depends_nonempty in Hc. }
    apply elem_of_difference. rewrite elem_of_union, elem_of_dom, elem_of_singleton.
    destruct Hx as [[Hx|[Hx _]]|Hx].
    + set_solver.
    + split; [right; by apply Hdom|]. by intros ->.
    + destruct (decide (dep x p)) as [Hxp|Hxp].
      * split; [right; by apply Hdom|]. by intros ->.
      * split; [by right|]. intros ->. rewrite Hpd in Hx. by destruct Hx.
Qed.

(** The loop ends with no independent task left. *)
Lemma kahn_loop_spec fuel P st :
  kahn_inv P st → size (pending st) ≤ fuel →
  ∃ P', kahn_inv P' (kahn_loop fuel st) ∧ independentTasks (kahn_loop fuel st) = ∅.
Proof.
  revert P st. induction fuel as [|fuel IH]; intros P st Hinv Hfuel; simpl.
  - exists P. split; [done|].
    assert (pending st ≡ ∅) as Hp by (apply size_empty_inv; lia).
    unfold pending in Hp. set_solver.
  - destruct (PopAny (independentTasks st)) as [[p rest]|] eqn:E.
    + apply PopAny_Some in E as [Hp Hrest].
      destruct (kahn_inv_step P st p rest Hinv Hp Hrest) as [Hinv' Hsub].
      apply (IH _ _ Hinv'). apply subseteq_size in Hsub.
      assert (p ∈ pending st) as Hpp by (unfold pending; set_solver).
      pose proof (size_remove _ _ Hpp). lia.
    + apply PopAny_None in E. eauto.
Qed.

Lemma kahn_final_inv :
  ∃ P st, kahn_inv P st ∧ independentTasks st = ∅ ∧ dag st = kahn_final deps.
Proof.
  unfold kahn_final. destruct (kahn_loop_spec (kahn_fuel (kahn_init deps)) ∅ (kahn_init deps))
    as (P & Hinv & Hi).
  - apply kahn_inv_init.
  - unfold pending, kahn_fuel. rewrite size_union_alt.
    assert (size (dom (dag (kahn_init deps)) ∖ independentTasks (kahn_init deps))
      ≤ size (dom (dag (kahn_init deps)))) by (apply subseteq_size; set_solver).
    rewrite size_dom in *. lia.
  - eauto.
Qed.

(** What is left in [dag]: the tasks from which a cycle can be reached, each
    with those of its dependencies from which a cycle can be reached. *)
Lemma kahn_final_spec c :
  match kahn_final deps !! c with
  | Some ds => reaches_cycle dep c ∧ ds ≠ ∅ ∧ ∀ d, d ∈ ds ↔ dep c d ∧ reaches_cycle dep d
  | None => ¬ reaches_cycle dep c
  end.
Proof.
  destruct kahn_final_inv as (P & st & Hinv & Hi & <-).
  assert (∀ x, x ∈ P → ¬ reaches_cycle dep x) as HP.
  { intros x Hx. by apply Acc_not_reaches_cycle, (inv_acc P st Hinv). }
  assert (∀ x, x ∉ dom (dag st) → ¬ reaches_cycle dep x) as Hout.
  { intros x Hx%not_elem_of_dom. destruct (decide (length (default [] (deps !! x)) = 0)) as [Hl|Hl].
    - intros (y & Hxy & Hyy). apply Acc_not_reaches_cycle with (x := x) (R := dep); [|by exists y].
      constructor. intros z Hz. by apply depends_nonempty in Hz.
    - apply HP. pose proof (inv_removed P st Hinv x Hx Hl). set_solver. }
  assert (∀ c S d, dag st !! c = Some S → d ∈ S → d ∈ dom (dag st)) as Hclosed.
  { intros c' S d HS Hd. apply (inv_dag P st Hinv c' S HS) in Hd as [Hcd HdP].
    apply elem_of_dom. destruct (dag st !! d) eqn:E; [done|].
    destruct (decide (length (default [] (deps !! d)) = 0)) as [Hl|Hl].
    - pose proof (inv_leaves P st Hinv c' d Hcd Hl). set_solver.
    - pose proof (inv_removed P st Hinv d E Hl). set_solver. }
  assert (∀ x, x ∈ dom (dag st) → reaches_cycle dep x) as Hin.
  { intros x. apply serial_reaches_cycle. clear x. intros x [S HS]%elem_of_dom.
    destruct (inv_dag P st Hinv x S HS) as [Hne Hel].
    apply set_choose_L in Hne as [d Hd]. exists d. split; [by eapply Hclosed|by apply Hel]. }
  destruct (dag st !! c) as [S|] eqn:E; [|by apply Hout, not_elem_of_dom].
  split_and!; [by apply Hin, elem_of_dom| |].
  - by apply (inv_dag P st Hinv c S).
  - intros d. rewrite (proj2 (inv_dag P st Hinv c S E) d). split.
    + intros [Hcd HdP]. split; [done|]. apply Hin, (Hclosed c S d E).
      by apply (inv_dag P st Hinv c S E).
    + intros [Hcd Hr]. split; [done|]. intros HdP. by apply (HP d).
Qed.

Lemma kahn_final_empty : kahn_final deps = ∅ ↔ acyclic dep.
Proof.
  rewrite acyclic_no_reach. split.
  - intros He x. pose proof (kahn_final_spec x) as Hx. by rewrite He, lookup_empty in Hx.
  - intros Hno. apply map_empty. intros c. pose proof (kahn_final_spec c) as Hc.
    destruct (kahn_final deps !! c); [|done]. destruct Hc as [Hc _]. by apply Hno in Hc.
Qed.

End kahn_correct.

(** *** The error does not depend on the iteration order *)

Lemma kahn_final_order (o1 o2 : MapOrder) deps :
  @kahn_final o1 deps = @kahn_final o2 deps.
Proof.
  apply map_eq. intros c.
  pose proof (@kahn_final_spec o1 deps c) as H1.
  pose proof (@kahn_final_spec o2 deps c) as H2.
  destruct (@kahn_final o1 deps !! c), (@kahn_final o2 deps !! c); [|tauto..|done].
  f_equal. apply set_eq. intros d. destruct H1 as (_ & _ & ->), H2 as (_ & _ & ->). done.
Qed.

Lemma String_ltb_le (s t : string) :
  if String.ltb s t then String.le s t ∧ s ≠ t else String.le t s.
Proof.
  unfold String.le, String.ltb, String.leb. rewrite (String.compare_antisym t s).
  destruct (String.compare s t) eqn:E; simpl; try done. split; [done|].
  intros ->. pose proof (String.compare_antisym t t) as Ha. by rewrite E in Ha.
Qed.

Lemma firstChild_le keys k0 :
  k0 ≠ "" → "" ∉ keys →
  let first := foldl (λ first task,
    if bool_decide (first = "") || String.ltb task first then task else first) k0 keys in
  first ∈ k0 :: keys ∧ ∀ k, k ∈ k0 :: keys → String.le first k.
Proof.
  revert k0. induction keys as [|t keys IH]; intros k0 Hk0 Hkeys; simpl.
  { split; [left|]. by intros k ->%list_elem_of_singleton. }
  rewrite bool_decide_false by done. simpl.
  assert (t ≠ "" ∧ "" ∉ keys) as [Ht Hkeys'] by set_solver.
  pose proof (String_ltb_le t k0) as Hlt. destruct (String.ltb t k0).
  - destruct (IH t Ht Hkeys') as [Hin Hle]. split; [set_solver|].
    intros k [->|Hk]%elem_of_cons; [|by apply Hle].
    etrans; [apply Hle; left|]. tauto.
  - destruct (IH k0 Hk0 Hkeys') as [Hin Hle]. split; [set_solver|].
    intros k [->|[->|Hk]%elem_of_cons]%elem_of_cons.
    + apply Hle. left.
    + etrans; [apply Hle; left|done].
    + apply Hle. by right.
Qed.

Lemma firstChild_least keys :
  keys ≠ [] → "" ∉ keys →
  firstChild keys ∈ keys ∧ ∀ k, k ∈ keys → String.le (firstChild keys) k.
Proof.
  destruct keys as [|k0 keys]; [done|]. intros _ Hne.
  apply (firstChild_le keys k0); set_solver.
Qed.

Lemma firstChild_perm keys1 keys2 :
  keys1 ≡ₚ keys2 → "" ∉ keys1 → firstChild keys1 = firstChild keys2.
Proof.
  intros Hperm Hne. destruct keys1 as [|k l].
  { by apply Permutation_nil_l in Hperm as <-. }
  destruct (firstChild_least (k :: l)) as [Hin1 Hle1]; [done..|].
  destruct (firstChild_least keys2) as [Hin2 Hle2].
  { intros ->. by apply Permutation_nil_r in Hperm. }
  { by rewrite <-Hperm. }
  apply (anti_symm String.le).
  - apply Hle1. by rewrite Hperm.
  - apply Hle2. by rewrite <-Hperm.
Qed.

(** ** Properties *)

Section properties.
Context `{MapOrder}.

(** C8: [findCyclesInDependencies] returns no error exactly when no task
    depends on itself through one or more dependencies, whatever order Go
    iterates in; the loop always ends. *)
Theorem findCycles_iff_acyclic (deps : gmap string (list string)) :
  findCyclesInDependencies deps = None ↔ acyclic (depends deps).
Proof.
  rewrite <-kahn_final_empty. unfold findCyclesInDependencies, getInterdependencyError.
  rewrite <-map_size_empty_iff. case_bool_decide; naive_solver.
Qed.

End properties.

(** C30: a cycle error names the least task from which a cycle is reachable and,
    sorted, those of its dependencies from which one is; so the message is the
    same under any two iteration orders, as long as no task has the empty
    name. *)
Theorem findCycles_error_deterministic (o1 o2 : MapOrder) (deps : gmap string (list string))
    (Hnames : deps !! "" = None) :
  @findCyclesInDependencies o1 deps = @findCyclesInDependencies o2 deps ∧
  ∀ e, @findCyclesInDependencies o1 deps = Some e →
    ∃ c ds, e = CycleDetected c ds ∧
      reaches_cycle (depends deps) c ∧
      (∀ x, reaches_cycle (depends deps) x → String.le c x) ∧
      Sorted String.le ds ∧
      (∀ d, d ∈ ds ↔ depends deps c d ∧ reaches_cycle (depends deps) d).
Proof.
  unfold findCyclesInDependencies, getInterdependencyError.
  rewrite (kahn_final_order o2 o1 deps).
  assert (∀ o : MapOrder, "" ∉ (@range_map o _ (@kahn_final o1 deps)).*1) as Hne.
  { intros o ([k v] & Hk & Hin)%list_elem_of_fmap. simpl in Hk. subst k. apply (@elem_of_range_map o) in Hin.
    pose proof (@kahn_final_spec o1 deps "") as Hs. rewrite Hin in Hs.
    destruct Hs as ((y & Hy & Hc) & _ & _).
    assert (∀ z, ¬ depends deps "" z) as Hno.
    { intros z. unfold depends. rewrite Hnames. set_solver. }
    destruct (rtc_inv _ _ Hy) as [<-|(z & Hz & _)]; [|by apply Hno in Hz].
    inversion Hc as [? ? Hz|? ? ? Hz]; subst; by apply Hno in Hz. }
  split.
  - rewrite (firstChild_perm (@range_map o1 _ (@kahn_final o1 deps)).*1
      (@range_map o2 _ (@kahn_final o1 deps)).*1); [done| |done].
    by rewrite !range_map_perm.
  - case_bool_decide as Hsz; [done|]. intros e [= <-].
    set (first := firstChild _).
    destruct (firstChild_least (@range_map o1 _ (@kahn_final o1 deps)).*1) as [Hin Hle]; [|done|].
    { intros He%fmap_nil_inv. apply Hsz, map_size_empty_iff, map_to_list_empty_iff.
      apply Permutation_nil_r. by rewrite <-(@range_map_perm o1), He. }
    fold first in Hin, Hle.
    apply list_elem_of_fmap in Hin as ([k ds] & Hk & Hin). simpl in Hk. subst k.
    apply (@elem_of_range_map o1) in Hin.
    pose proof (@kahn_final_spec o1 deps first) as Hs. rewrite Hin in Hs |- *.
    destruct Hs as (Hr & _ & Hds).
    exists first, (sorted_list ds). split_and!; [done|done| | |].
    + intros x Hx. apply Hle, list_elem_of_fmap.
      pose proof (@kahn_final_spec o1 deps x) as Hs.
      destruct (@kahn_final o1 deps !! x) as [ds'|] eqn:Ex; [|done].
      exists (x, ds'). split; [done|]. by apply (@elem_of_range_map o1).
    + apply (Sorted_merge_sort String.le).
    + intros d. by rewrite elem_of_sorted_list, Hds.
Qed.

Definition cyclic_example : gmap string (list string) :=
  {["b" := ["a"; "c"]; "c" := ["b"]; "d" := ["c"]]}.

Lemma findCycles_error_deterministic_witness :
  cyclic_example !! "" = None ∧
  @findCyclesInDependencies stdpp_order cyclic_example =
    @findCyclesInDependencies reverse_order cyclic_example ∧
  @findCyclesInDependencies stdpp_order cyclic_example = Some (CycleDetected "b" ["c"]).
Proof.
  split; [reflexivity|]. split; [|reflexivity].
  apply (findCycles_error_deterministic stdpp_order reverse_order cyclic_example). reflexivity.
Defined.
