(* ===== verification/DagBuild.v ===== *)
(** * The graph [Build] returns

    [Build] of [dag.go] succeeds exactly on duplicate-free task lists with
    acyclic dependencies between listed tasks, and the graph it returns has the
    dependencies of each task as its [Prev] nodes and its dependents as its
    [Next] nodes. *)
From S2P Require Import Prelude Dag DagCycles.

(** ** Building a graph *)

(** What a built graph holds: a node for every task, [Prev] the dependencies in
    the order of their list, [Next] the tasks that depend on the node. *)
Record graph_of (keys : list string) (deps : gmap string (list string)) (g : Graph) : Prop := {
  graph_dom : ∀ k, is_Some (Nodes g !! k) ↔ k ∈ keys;
  graph_key : ∀ k n, Nodes g !! k = Some n → Key n = k;
  graph_prev : ∀ k n, Nodes g !! k = Some n → Prev n = default [] (deps !! k);
  graph_next : ∀ k n c, Nodes g !! k = Some n → c ∈ Next n ↔ depends deps c k
}.

Section build.
Context `{MapOrder}.

Lemma addPipelineTask_fold {A} `{Task A} (tasks : list A) g :
  match ofold addPipelineTask tasks g with
  | Ret g' =>
      NoDup (HashKey <$> tasks) ∧ (∀ k, k ∈ HashKey <$> tasks → Nodes g !! k = None) ∧
      ∀ k, Nodes g' !! k = if decide (k ∈ HashKey <$> tasks)
                           then Some (mkNode k [] []) else Nodes g !! k
  | Err e => ∃ k, e = DuplicateTask k ∧
      ¬ (NoDup (HashKey <$> tasks) ∧ ∀ k, k ∈ HashKey <$> tasks → Nodes g !! k = None)
  | Panic => False
  end.
Proof.
  revert g. induction tasks as [|t tasks IH]; intros g; simpl.
  { split_and!; [constructor|set_solver|done]. }
  unfold addPipelineTask at 1. destruct (Nodes g !! HashKey t) as [n|] eqn:E; simpl.
  { exists (HashKey t). split; [done|]. intros [_ Hn].
    rewrite Hn in E by left. done. }
  specialize (IH (mkGraph (<[HashKey t:=mkNode (HashKey t) [] []]> (Nodes g)))).
  destruct (ofold addPipelineTask tasks _) as [g'|e|]; [| |done]; simpl in *.
  - destruct IH as (Hnd & Hfree & Hl).
    assert (HashKey t ∉ HashKey <$> tasks) as Hnt.
    { intros Hin. apply Hfree in Hin. by rewrite lookup_insert_eq in Hin. }
    split_and!.
    + by apply NoDup_cons.
    + intros k [->|Hk]%elem_of_cons; [done|]. specialize (Hfree k Hk).
      destruct (decide (k = HashKey t)) as [->|Hne]; [done|].
      by rewrite lookup_insert_ne in Hfree by done.
    + intros k. rewrite Hl. destruct (decide (k = HashKey t)) as [->|Hne].
      * rewrite decide_False by done. rewrite decide_True by left. apply lookup_insert_eq.
      * rewrite lookup_insert_ne by done. apply decide_ext. set_solver.
  - destruct IH as (k & -> & Hn). exists k. split; [done|].
    intros [[Hnt Hnd]%NoDup_cons Hfree]. apply Hn. split; [done|].
    intros k' Hk'. rewrite lookup_insert_ne by (by intros <-). apply Hfree. by right.
Qed.

(** The links of a list of entries, in the order they are added. *)
Definition links_of (entries : list (string * list string)) : list (string * string) :=
  e ← entries; (λ d, (e.1, d)) <$> e.2.

Definition add_link (g : Graph) (l : string * string) : outcome DagError Graph :=
  let* nodes := addLink l.1 l.2 (Nodes g) in Ret (mkGraph nodes).

Lemma ofold_app {E A S} (f : S → A → outcome E S) xs ys st :
  ofold f (xs ++ ys) st = let* st' := ofold f xs st in ofold f ys st'.
Proof. revert st. induction xs as [|x xs IH]; intros st; simpl; [done|]. destruct (f st x); simpl; [apply IH|done..]. Qed.

Lemma Build_links_flat entries g :
  ofold Build_links entries g = ofold add_link (links_of entries) g.
Proof.
  revert g. induction entries as [|[pt ds] entries IH]; intros g; simpl; [done|].
  change (links_of ((pt, ds) :: entries)) with (((λ d, (pt, d)) <$> ds) ++ links_of entries).
  rewrite ofold_app.
  assert (ofold (λ g previousTask, let* nodes := addLink pt previousTask (Nodes g) in Ret (mkGraph nodes)) ds g
    = ofold add_link ((λ d, (pt, d)) <$> ds) g) as ->.
  { clear. revert g. induction ds as [|d ds IH]; intros g; simpl; [done|].
    unfold add_link at 1. simpl. destruct (addLink pt d (Nodes g)); simpl; [apply IH|done|done]. }
  destruct (ofold add_link _ g); simpl; [apply IH|done|done].
Qed.

(** The node [n] stored under [k] once the links [ls] are added. *)
Definition linked (ls : list (string * string)) (k : string) (n : Node) : Node :=
  mkNode (Key n) (Prev n ++ (filter (λ l, l.1 = k) ls).*2) (Next n ++ (filter (λ l, l.2 = k) ls).*1).

Lemma linkPipelineTasks_lookup prev next nodes k :
  linkPipelineTasks prev next nodes !! k = linked [(next, prev)] k <$> nodes !! k.
Proof.
  unfold linkPipelineTasks, linked. rewrite !lookup_alter. rewrite !filter_cons, !filter_nil. cbn.
  destruct (nodes !! k) as [[key pr nx]|] eqn:E;
    destruct (decide (next = k)) as [->|], (decide (prev = k)) as [->|]; cbn;
    rewrite ?E, ?app_nil_r, ?decide_True, ?decide_False by done; done.
Qed.

Lemma linked_cons l ls k n : linked (l :: ls) k n = linked ls k (linked [l] k n).
Proof.
  unfold linked. cbn [Key Prev Next]. rewrite !filter_cons, !filter_nil.
  repeat case_decide; cbn; by rewrite <-?app_assoc, ?app_nil_r.
Qed.

Lemma add_link_fold ls g :
  match ofold add_link ls g with
  | Ret g' =>
      (∀ l, l ∈ ls → is_Some (Nodes g !! l.1) ∧ is_Some (Nodes g !! l.2)) ∧
      ∀ k, Nodes g' !! k = linked ls k <$> Nodes g !! k
  | Err e => ∃ pt prev, e = MissingTask pt prev ∧ (pt, prev) ∈ ls ∧ Nodes g !! prev = None
  | Panic => ∃ pt prev, (pt, prev) ∈ ls ∧ Nodes g !! pt = None
  end.
Proof.
  revert g. induction ls as [|[pt prev] ls IH]; intros g; simpl.
  { split; [set_solver|]. intros k. destruct (Nodes g !! k) as [[]|]; [|done].
    unfold linked. simpl. by rewrite !app_nil_r. }
  unfold add_link at 1, addLink. simpl.
  destruct (Nodes g !! prev) as [np|] eqn:Eprev; simpl; [|exists pt, prev; by split_and!; [|left|]].
  destruct (Nodes g !! pt) as [nt|] eqn:Ept; simpl; [|exists pt, prev; by split; [left|]].
  specialize (IH (mkGraph (linkPipelineTasks prev pt (Nodes g)))). simpl in IH.
  destruct (ofold add_link ls _) as [g'|e|].
  - destruct IH as [Hall Hg']. split.
    + intros l [->|Hl]%elem_of_cons; [simpl; by rewrite Eprev, Ept|].
      specialize (Hall l Hl). by rewrite !linkPipelineTasks_lookup, !fmap_is_Some in Hall.
    + intros k. rewrite Hg', linkPipelineTasks_lookup, <-option_fmap_compose.
      destruct (Nodes g !! k) as [n|]; [|done]. simpl. by rewrite <-linked_cons.
  - destruct IH as (pt' & prev' & -> & Hin & Hnone). exists pt', prev'.
    rewrite linkPipelineTasks_lookup, fmap_None in Hnone. by split_and!; [|right|].
  - destruct IH as (pt' & prev' & Hin & Hnone). exists pt', prev'.
    rewrite linkPipelineTasks_lookup, fmap_None in Hnone. by split; [right|].
Qed.

Lemma elem_of_links_of deps pt prev :
  (pt, prev) ∈ links_of (range_map deps) ↔ depends deps pt prev.
Proof.
  unfold links_of, depends. rewrite list_elem_of_bind. split.
  - intros ([k ds] & (d & [= -> ->] & Hd)%list_elem_of_fmap & Hin).
    apply elem_of_range_map in Hin. rewrite Hin. done.
  - intros Hin. destruct (deps !! pt) as [ds|] eqn:E; simpl in Hin; [|set_solver].
    exists (pt, ds). split; [|by apply elem_of_range_map]. simpl.
    apply list_elem_of_fmap. eauto.
Qed.

Lemma links_of_entries entries k :
  NoDup entries.*1 →
  (filter (λ l, l.1 = k) (links_of entries)).*2 =
    default [] ((list_to_map entries : gmap string (list string)) !! k).
Proof.
  induction entries as [|[pt ds] entries IH]; intros Hnd; [done|].
  apply NoDup_cons in Hnd as [Hpt Hnd]. specialize (IH Hnd).
  change (links_of ((pt, ds) :: entries)) with (((λ d, (pt, d)) <$> ds) ++ links_of entries).
  rewrite filter_app, fmap_app, IH. simpl. clear IH.
  assert ((filter (λ l, l.1 = k) ((λ d, (pt, d)) <$> ds)).*2 = if decide (pt = k) then ds else []) as ->.
  { clear Hpt. induction ds as [|d ds IHd]; [by case_decide|].
    rewrite fmap_cons, filter_cons. cbn. destruct (decide (pt = k)); cbn; by rewrite IHd. }
  case_decide as Hk; simplify_eq.
  - rewrite lookup_insert_eq, not_elem_of_list_to_map_1 by done. simpl. apply app_nil_r.
  - by rewrite lookup_insert_ne.
Qed.

Lemma links_of_prev deps k :
  (filter (λ l, l.1 = k) (links_of (range_map deps))).*2 = default [] (deps !! k).
Proof.
  rewrite links_of_entries by auto with tekton.
  by rewrite (list_to_map_proper _ (map_to_list deps)), list_to_map_to_list
    by auto using range_map_perm with tekton.
Qed.

Lemma links_of_next deps k c :
  c ∈ (filter (λ l, l.2 = k) (links_of (range_map deps))).*1 ↔ depends deps c k.
Proof.
  rewrite list_elem_of_fmap. setoid_rewrite list_elem_of_filter. split.
  - intros ([c' k'] & -> & <- & Hin). by apply elem_of_links_of.
  - intros Hdep. exists (c, k). by rewrite elem_of_links_of.
Qed.

Lemma findCycles_none (deps : gmap string (list string)) :
  findCyclesInDependencies deps = None ↔ acyclic (depends deps).
Proof.
  rewrite <-kahn_final_empty. unfold findCyclesInDependencies, getInterdependencyError.
  rewrite <-map_size_empty_iff. case_bool_decide; naive_solver.
Qed.

Context {A} `{Task A}.

Lemma Build_spec (tasks : list A) deps :
  match Build tasks deps with
  | Ret g =>
      NoDup (HashKey <$> tasks) ∧ acyclic (depends deps) ∧
      (∀ pt prev, depends deps pt prev → pt ∈ HashKey <$> tasks ∧ prev ∈ HashKey <$> tasks) ∧
      graph_of (HashKey <$> tasks) deps g
  | Err (DuplicateTask _) => ¬ NoDup (HashKey <$> tasks)
  | Err (CycleDetected _ _) => NoDup (HashKey <$> tasks) ∧ ¬ acyclic (depends deps)
  | Err (MissingTask pt prev) =>
      NoDup (HashKey <$> tasks) ∧ acyclic (depends deps) ∧
      depends deps pt prev ∧ prev ∉ HashKey <$> tasks
  | Err (InvalidDoneTasks _) => False
  | Panic =>
      NoDup (HashKey <$> tasks) ∧ acyclic (depends deps) ∧
      ∃ pt prev, depends deps pt prev ∧ pt ∉ HashKey <$> tasks
  end.
Proof.
  unfold Build. pose proof (addPipelineTask_fold tasks newGraph) as Htasks.
  destruct (ofold addPipelineTask tasks newGraph) as [d|e|]; simpl in *; [| |done]; last first.
  { destruct Htasks as (k & -> & Hn). intros Hnd. apply Hn. split; [done|]. intros. apply lookup_empty. }
  destruct Htasks as (Hnd & _ & Hd).
  assert (∀ k, Nodes d !! k = if decide (k ∈ HashKey <$> tasks) then Some (mkNode k [] []) else None)
    as Hd' by (intros k; rewrite Hd, lookup_empty; done). clear Hd.
  destruct (findCyclesInDependencies deps) as [err|] eqn:Ecyc.
  { assert (¬ acyclic (depends deps)) as Hcyc by (rewrite <-findCycles_none; congruence).
    unfold findCyclesInDependencies, getInterdependencyError in Ecyc. case_bool_decide; [done|].
    by injection Ecyc as <-. }
  apply findCycles_none in Ecyc. rewrite Build_links_flat.
  pose proof (add_link_fold (links_of (range_map deps)) d) as Hlinks.
  destruct (ofold add_link _ d) as [g|e|].
  - destruct Hlinks as [Hall Hg].
    assert (∀ k n, Nodes g !! k = Some n →
      n = linked (links_of (range_map deps)) k (mkNode k [] [])) as Hn.
    { intros k n Hk. rewrite Hg, Hd' in Hk. by case_decide; simplify_eq/=. }
    split_and!; [done|done| |split].
    + intros pt prev Hdep. apply elem_of_links_of in Hdep. apply Hall in Hdep as [H1 H2].
      rewrite !Hd' in H1, H2. simpl in *.
      repeat case_decide; destruct H1, H2; try done.
    + intros k. rewrite Hg, fmap_is_Some, Hd'. case_decide; split; try done.
    + intros k n ->%Hn. done.
    + intros k n ->%Hn. simpl. apply links_of_prev.
    + intros k n c ->%Hn. simpl. apply links_of_next.
  - destruct Hlinks as (pt & prev & -> & Hin%elem_of_links_of & Hnone).
    rewrite Hd' in Hnone. by case_decide.
  - destruct Hlinks as (pt & prev & Hin%elem_of_links_of & Hnone).
    rewrite Hd' in Hnone. split_and!; [done..|]. exists pt, prev. by case_decide.
Qed.

End build.

(** ** Properties *)

(** A task as the pair of its key and its dependencies. *)
#[export] Instance pair_task : Task (string * list string) :=
  {| HashKey := fst; Deps := snd |}.

(** C9: [Build] returns a graph exactly when no two tasks share a key, the
    dependencies have no cycle, and both ends of every dependency are tasks of
    the list; otherwise it returns an error or, when the map has an entry for a
    task that is not in the list, panics. *)
Theorem Build_succeeds_iff `{MapOrder} {A} `{Task A} (tasks : list A)
    (deps : gmap string (list string)) :
  (∃ g, Build tasks deps = Ret g) ↔
    NoDup (HashKey <$> tasks) ∧ acyclic (depends deps) ∧
    ∀ pt prev, depends deps pt prev → pt ∈ HashKey <$> tasks ∧ prev ∈ HashKey <$> tasks.
Proof.
  pose proof (Build_spec tasks deps) as Hs. split.
  - intros [g Hg]. rewrite Hg in Hs. tauto.
  - intros (Hnd & Hac & Hd). destruct (Build tasks deps) as [g|[]|]; [by exists g|..].
    + done.
    + tauto.
    + destruct Hs as (_ & _ & Hdep & Hn). by destruct Hn, (Hd _ _ Hdep).
    + done.
    + destruct Hs as (_ & _ & pt & prev & Hdep & Hn). by destruct Hn, (Hd _ _ Hdep).
Qed.

(** C10: the graph [Build] returns has a node for each task and no other; the
    [Prev] slice of a node is the task's dependency list, and its [Next] slice
    holds exactly the tasks that depend on it. *)
Theorem Build_graph_faithful `{MapOrder} {A} `{Task A} (tasks : list A)
    (deps : gmap string (list string)) (g : Graph) (HB : Build tasks deps = Ret g) (k : string) :
  match Nodes g !! k with
  | Some n =>
      k ∈ HashKey <$> tasks ∧ Key n = k ∧ Prev n = default [] (deps !! k) ∧
      ∀ c, c ∈ Next n ↔ depends deps c k
  | None => k ∉ HashKey <$> tasks
  end.
Proof.
  pose proof (Build_spec tasks deps) as Hs. rewrite HB in Hs. destruct Hs as (_ & _ & _ & Hg).
  destruct (Nodes g !! k) as [n|] eqn:E.
  - split_and!.
    + apply (graph_dom _ _ _ Hg). by rewrite E.
    + by apply (graph_key _ _ _ Hg).
    + by apply (graph_prev _ _ _ Hg).
    + intros c. by apply (graph_next _ _ _ Hg).
  - rewrite <-(graph_dom _ _ _ Hg), E. by intros [].
Qed.

Definition diamond_tasks : list (string * list string) :=
  [("a", []); ("b", ["a"]); ("c", ["a"]); ("d", ["b"; "c"])].

Definition diamond_deps : gmap string (list string) :=
  {["b" := ["a"]; "c" := ["a"]; "d" := ["b"; "c"]]}.

Definition diamond : Graph :=
  mkGraph {[ "a" := mkNode "a" [] ["c"; "b"]; "b" := mkNode "b" ["a"] ["d"];
             "c" := mkNode "c" ["a"] ["d"]; "d" := mkNode "d" ["b"; "c"] [] ]}.

Lemma Build_graph_faithful_witness :
  @Build stdpp_order _ _ diamond_tasks diamond_deps = Ret diamond ∧
  Prev <$> (Nodes diamond !! "d") = Some ["b"; "c"].
Proof.
  assert (@Build stdpp_order _ _ diamond_tasks diamond_deps = Ret diamond) as HB by reflexivity.
  split; [exact HB|].
  pose proof (@Build_graph_faithful stdpp_order _ _ diamond_tasks diamond_deps diamond HB "d") as Hd.
  simpl in Hd. destruct Hd as (_ & _ & Hp & _). reflexivity.
Defined.
