(* ===== verification/DagSchedule.v ===== *)
(** * Which tasks may run next

    [GetCandidateTasks] of [dag.go] on a graph returned by [Build]: the depth
    first walk visits exactly the tasks reachable from a root through done
    tasks, the candidates are the tasks that are not done and whose
    dependencies all are, and scheduling by candidates never gets stuck. *)
From S2P Require Import Prelude Dag DagCycles DagBuild.

(** ** [pkg/list] *)

Lemma elem_of_DiffLeft ls rs x : x ∈ DiffLeft ls rs ↔ x ∈ ls ∧ x ∉ rs.
Proof.
  induction ls as [|s ls IH]; simpl; [set_solver|].
  case_bool_decide; [|rewrite elem_of_cons]; rewrite IH; set_solver.
Qed.
#[export] Hint Rewrite elem_of_DiffLeft : tekton.

Lemma length_pos_nonempty {A} (l : list A) : 0 < length l ↔ ∃ x, x ∈ l.
Proof. destruct l as [|a l]; simpl; split; [lia|set_solver|intros _; exists a; left|lia]. Qed.

Lemma isSchedulable_spec doneTasks prevs :
  isSchedulable doneTasks prevs = true ↔ ∀ p, p ∈ prevs → p ∈ doneTasks.
Proof.
  unfold isSchedulable. case_bool_decide as Hlen.
  { split; [|done]. intros _. destruct prevs; [set_solver|done]. }
  rewrite bool_decide_eq_true. clear Hlen.
  induction prevs as [|p prevs IH]; [set_solver|]. rewrite filter_cons. case_decide as Hp; simpl.
  - rewrite (inj_iff S), IH. set_solver.
  - split; [|set_solver]. intros Hl. exfalso.
    pose proof (length_filter (λ n, n ∈ doneTasks) prevs). lia.
Qed.

(** ** The walk *)

Section walk.
Context (keys : list string) (deps : gmap string (list string)) (g : Graph).
Context (Hg : graph_of keys deps g).
Context (Hdeps : ∀ pt prev, depends deps pt prev → pt ∈ keys ∧ prev ∈ keys).
Context (doneTasks : gset string).

(** [x] is done and [y] depends on it. *)
Definition walk : relation string := λ x y, x ∈ doneTasks ∧ depends deps y x.

(** [x] is not done and all it depends on is. *)
Definition ready (x : string) : Prop :=
  x ∈ keys ∧ x ∉ doneTasks ∧ ∀ y, depends deps x y → y ∈ doneTasks.

#[local] Instance ready_dec x : Decision (ready x).
Proof.
  refine (cast_if (decide (x ∈ keys ∧ x ∉ doneTasks ∧
    Forall (λ y, y ∈ doneTasks) (default [] (deps !! x)))));
    abstract (unfold ready, depends; rewrite Forall_forall in *; done).
Defined.

Abbreviation nodes := (dom (Nodes g)).

Lemma elem_of_nodes x : x ∈ nodes ↔ x ∈ keys.
Proof. rewrite elem_of_dom. apply (graph_dom _ _ _ Hg). Qed.

Lemma ready_node x n :
  Nodes g !! x = Some n → ready x ↔ x ∉ doneTasks ∧ isSchedulable doneTasks (Prev n) = true.
Proof.
  intros Hn. rewrite isSchedulable_spec, (graph_prev _ _ _ Hg x n Hn). unfold ready, depends.
  split; [naive_solver|]. intros [? ?]. split_and!; [|done..]. apply elem_of_nodes, elem_of_dom. eauto.
Qed.

(** What a walk that starts in [from] with [v] visited has done when it ends
    with [v'] visited and the tasks [l] found. *)
Record walked (from : string → Prop) (v v' : gset string) (l : list string) : Prop := {
  walked_grow : v ⊆ v';
  walked_nodes : v ⊆ nodes → v' ⊆ nodes;
  walked_from : ∀ x, from x → x ∈ v';
  walked_reach : ∀ x, x ∈ v' → x ∈ v ∨ ∃ r, from r ∧ rtc walk r x;
  walked_closed : ∀ x y, x ∈ v' → x ∉ v → walk x y → y ∈ v';
  walked_found : ∀ x, x ∈ l ↔ x ∈ v' ∧ x ∉ v ∧ ready x
}.

Lemma walked_refl (from : string → Prop) v : (∀ x, from x → x ∈ v) → walked from v v [].
Proof. intros Hf. split; set_solver. Qed.

Lemma walked_app (from1 from2 : string → Prop) v1 v2 v3 l1 l2 :
  walked from1 v1 v2 l1 → walked from2 v2 v3 l2 →
  walked (λ x, from1 x ∨ from2 x) v1 v3 (l1 ++ l2).
Proof.
  intros [Hg1 Hn1 Hf1 Hr1 Hc1 Hl1] [Hg2 Hn2 Hf2 Hr2 Hc2 Hl2]. split.
  - set_solver.
  - auto.
  - intros x [Hx|Hx]; [apply Hg2|]; auto.
  - intros x Hx. destruct (Hr2 x Hx) as [Hx2|(r & Hr & Hp)]; [|naive_solver].
    destruct (Hr1 x Hx2); naive_solver.
  - intros x y Hx Hx1 Hxy. destruct (decide (x ∈ v2)); [apply Hg2|]; eauto.
  - intros x. rewrite elem_of_app, Hl1, Hl2. destruct (decide (x ∈ v2)); set_solver.
Qed.

(** The node itself, before its successors are visited. *)
Lemma walked_node (v v' : gset string) l x :
  x ∈ nodes → x ∉ v → x ∈ doneTasks →
  walked (λ y, depends deps y x) ({[x]} ∪ v) v' l → walked (eq x) v v' l.
Proof.
  intros Hx Hv Hd [Hgr Hn Hf Hr Hc Hl]. split.
  - set_solver.
  - set_solver.
  - intros ? <-. set_solver.
  - intros y Hy. destruct (Hr y Hy) as [Hy'|(r & Hxr & Hry)].
    + destruct (decide (y ∈ v)) as [|Hyv]; [by left|]. right. exists x. split; [done|].
      assert (y = x) as -> by set_solver. done.
    + right. exists x. split; [done|]. by apply rtc_l with r.
  - intros y z Hy Hyv Hyz. destruct (decide (y = x)) as [->|Hne]; [apply Hf, Hyz|].
    apply (Hc y); [done|set_solver|done].
  - intros y. rewrite Hl. unfold ready. destruct (decide (y = x)) as [->|]; set_solver.
Qed.

Lemma walked_leaf (v : gset string) l x :
  x ∈ nodes → x ∉ v → x ∉ doneTasks → (∀ y, y ∈ l ↔ y = x ∧ ready x) →
  walked (eq x) v ({[x]} ∪ v) l.
Proof.
  intros Hx Hv Hd Hl. split.
  - set_solver.
  - set_solver.
  - intros ? <-. set_solver.
  - intros y Hy. destruct (decide (y = x)) as [->|]; [|set_solver]. right. exists x. by split.
  - intros y z Hy Hyv [Hyd _]. assert (y = x) as -> by set_solver. done.
  - intros y. rewrite Hl. destruct (decide (y = x)) as [->|]; set_solver.
Qed.

(** The loops over [n.Next] and over the roots. *)
Definition walk_list (f : string → gset string → gset string * list string)
    (st : gset string * list string) (ks : list string) : gset string * list string :=
  foldl (λ '(visited, schedulable) k,
    let '(visited, found) := f k visited in (visited, schedulable ++ found)) st ks.

Lemma walk_list_spec (f : string → gset string → gset string * list string) fuel ks :
  (∀ k v, k ∈ nodes → v ⊆ nodes → size (nodes ∖ v) < fuel →
    walked (eq k) v (f k v).1 (f k v).2) →
  ∀ v acc, (∀ k, k ∈ ks → k ∈ nodes) → v ⊆ nodes → size (nodes ∖ v) < fuel →
  ∃ v' l, walk_list f (v, acc) ks = (v', acc ++ l) ∧ walked (λ x, x ∈ ks) v v' l.
Proof.
  intros Hf. unfold walk_list. induction ks as [|k ks IH]; intros v acc Hks Hv Hsz; simpl.
  { exists v, []. rewrite app_nil_r. split; [done|]. apply walked_refl. set_solver. }
  specialize (Hf k v). destruct (f k v) as [v1 l1]. simpl in Hf.
  assert (walked (eq k) v v1 l1) as Hw by (apply Hf; [apply Hks; left|done..]).
  destruct (IH v1 (acc ++ l1)) as (v' & l & -> & Hw').
  - intros k' Hk'. apply Hks. by right.
  - by apply (walked_nodes _ _ _ _ Hw).
  - apply Nat.le_lt_trans with (size (nodes ∖ v)); [|done].
    apply subseteq_size. pose proof (walked_grow _ _ _ _ Hw). set_solver.
  - exists v', (l1 ++ l). rewrite (assoc_L app). split; [done|].
    destruct (walked_app _ _ _ _ _ _ _ Hw Hw') as [? ? Hfrom Hreach ? ?]. split; try done.
    + intros x [->|Hx]%elem_of_cons; apply Hfrom; auto.
    + intros x Hx. destruct (Hreach x Hx) as [|(r & [<-|Hr] & Hp)]; [by left|right..].
      * exists k. split; [left|done].
      * exists r. split; [by right|done].
Qed.

Lemma findSchedulable_spec fuel k v :
  k ∈ nodes → v ⊆ nodes → size (nodes ∖ v) < fuel →
  walked (eq k) v (findSchedulable fuel g doneTasks k v).1 (findSchedulable fuel g doneTasks k v).2.
Proof.
  revert k v. induction fuel as [|fuel IH]; intros k v Hk Hv Hsz; [lia|].
  simpl. pose proof Hk as [n Hn]%elem_of_dom. rewrite Hn, (graph_key _ _ _ Hg k n Hn).
  case_bool_decide as Hkv; [by apply walked_refl; intros ? <-|].
  case_bool_decide as Hkd.
  - assert (∀ st, foldl (λ '(visited, schedulable) next,
        if bool_decide (next ∈ visited) then (visited, schedulable)
        else let '(visited, found) := findSchedulable fuel g doneTasks next visited in
             (visited, schedulable ++ found)) st (Next n)
      = walk_list (findSchedulable fuel g doneTasks) st (Next n)) as ->.
    { unfold walk_list. generalize (Next n). intros l. induction l as [|c l IHl]; intros [v0 acc]; [done|].
      simpl. rewrite <-IHl. clear IHl. case_bool_decide as Hc; [|done]. f_equal.
      destruct fuel; simpl; [by rewrite app_nil_r|]. destruct (Nodes g !! c) as [nc|] eqn:Ec.
      - rewrite (graph_key _ _ _ Hg c nc Ec), bool_decide_true by done. by rewrite app_nil_r.
      - by rewrite app_nil_r. }
    destruct (walk_list_spec (findSchedulable fuel g doneTasks) fuel (Next n) IH ({[k]} ∪ v) [])
      as (v' & l & -> & Hw).
    + intros c Hc. rewrite (graph_next _ _ _ Hg k n c Hn) in Hc.
      apply elem_of_nodes, (Hdeps c k Hc).
    + set_solver.
    + assert (nodes ∖ ({[k]} ∪ v) = (nodes ∖ v) ∖ {[k]}) as -> by set_solver.
      assert (k ∈ nodes ∖ v) as Hk' by set_solver. pose proof (size_remove _ _ Hk'). lia.
    + simpl. apply walked_node; [done..|].
      destruct Hw as [? ? Hfrom Hreach ? ?]. setoid_rewrite (graph_next _ _ _ Hg k n) in Hfrom; [|done].
      split; try done.
      intros x Hx. destruct (Hreach x Hx) as [|(r & Hr & Hp)]; [by left|]. right. exists r.
      by rewrite <-(graph_next _ _ _ Hg k n r Hn).
  - pose proof (ready_node k n Hn) as Hready.
    destruct (isSchedulable doneTasks (Prev n)); apply walked_leaf; try done; intros y; cbn.
    + rewrite list_elem_of_singleton. split; [|by intros [-> _]].
      intros ->. split; [done|by apply Hready].
    + rewrite elem_of_nil. split; [done|]. by intros [_ [_ Hf]%Hready].
Qed.

(** ** The candidates *)

Context `{MapOrder}.

Lemma elem_of_getRoots r :
  r ∈ getRoots g ↔ r ∈ keys ∧ ∀ y, ¬ depends deps r y.
Proof.
  unfold getRoots. rewrite list_elem_of_fmap. split.
  - intros ([k n] & -> & [Hlen Hin]%list_elem_of_filter). simpl in *.
    apply elem_of_range_map in Hin. split; [apply elem_of_nodes, elem_of_dom; eauto|].
    intros y Hy%depends_nonempty. by rewrite <-(graph_prev _ _ _ Hg k n Hin) in Hy.
  - intros [[n Hn]%elem_of_nodes%elem_of_dom Hno]. exists (r, n). split; [done|].
    apply list_elem_of_filter. split; [|by apply elem_of_range_map]. simpl.
    rewrite (graph_prev _ _ _ Hg r n Hn). unfold depends in Hno.
    destruct (default [] (deps !! r)) as [|y l]; [done|]. destruct (Hno y). left.
Qed.

(** The tasks a walk from the roots visits. *)
Definition visited_from_roots (x : string) : Prop :=
  ∃ r, r ∈ getRoots g ∧ rtc walk r x.

Lemma root_walk_spec :
  ∃ v d,
    foldl (λ '(visited, d) root,
      let '(visited, schedulable) := findSchedulable (S (size (Nodes g))) g doneTasks root visited in
      (visited, list_to_set schedulable ∪ d)) (∅, (∅ : gset string)) (getRoots g) = (v, d) ∧
    (∀ x, x ∈ v ↔ visited_from_roots x) ∧ (∀ x, x ∈ d ↔ visited_from_roots x ∧ ready x).
Proof.
  assert (∀ f ks v (d : gset string) acc, (∀ x, x ∈ d ↔ x ∈ acc) →
    ∃ d', foldl (λ '(visited, d) root,
        let '(visited, schedulable) := f root visited in
        (visited, list_to_set schedulable ∪ d)) (v, d) ks
      = ((walk_list f (v, acc) ks).1, d') ∧
      ∀ x, x ∈ d' ↔ x ∈ (walk_list f (v, acc) ks).2) as Hset.
  { intros f ks. induction ks as [|k ks IH]; intros v d acc Hd; simpl; [eauto|].
    destruct (f k v) as [v1 l1] eqn:E. apply IH.
    intros x. rewrite elem_of_union, elem_of_list_to_set, elem_of_app, Hd. tauto. }
  destruct (Hset (findSchedulable (S (size (Nodes g))) g doneTasks) (getRoots g) ∅ ∅ [])
    as (d & -> & Hd); [set_solver|].
  destruct (walk_list_spec (findSchedulable (S (size (Nodes g))) g doneTasks)
    (S (size (Nodes g))) (getRoots g)) with (v := (∅ : gset string)) (acc := @nil string)
    as (v & l & E & Hw).
  - apply findSchedulable_spec.
  - intros r [Hr _]%elem_of_getRoots. by apply elem_of_nodes.
  - set_solver.
  - rewrite <-(size_dom (Nodes g)). apply Nat.lt_succ_r, subseteq_size. set_solver.
  - rewrite E in *. exists v, d. simpl in *. split; [done|].
    assert (∀ x, x ∈ v ↔ visited_from_roots x) as Hv.
    { intros x. split.
      - intros Hx. destruct (walked_reach _ _ _ _ Hw x Hx) as [|Hr]; [set_solver|done].
      - intros (r & Hr & Hp). apply (walked_from _ _ _ _ Hw) in Hr. clear -Hw Hr Hp.
        induction Hp as [|x y z Hxy _ IH]; [done|].
        apply IH, (walked_closed _ _ _ _ Hw x); [done|set_solver|done]. }
    split; [done|]. intros x. rewrite Hd, (walked_found _ _ _ _ Hw), Hv. set_solver.
Qed.

(** When every done task was visited, the tasks found are the ready ones. *)
Lemma ready_visited x :
  (∀ t, t ∈ doneTasks → visited_from_roots t) → ready x → visited_from_roots x.
Proof.
  intros Hdone (Hx & _ & Hall).
  destruct (default [] (deps !! x)) as [|y l] eqn:E.
  - exists x. split; [|done]. apply elem_of_getRoots. split; [done|].
    intros z. unfold depends. rewrite E. set_solver.
  - assert (depends deps x y) as Hxy by (unfold depends; rewrite E; left).
    destruct (Hdone y (Hall y Hxy)) as (r & Hr & Hp). exists r. split; [done|].
    apply rtc_r with y; [done|]. split; [by apply Hall|done].
Qed.

(** Done sets in which no task is done before its dependencies. *)
Definition dep_closed : Prop :=
  ∀ x, x ∈ doneTasks → x ∈ keys ∧ ∀ y, depends deps x y → y ∈ doneTasks.

Lemma dep_closed_visited :
  acyclic (depends deps) → dep_closed → ∀ t, t ∈ doneTasks → visited_from_roots t.
Proof.
  intros Hac Hcl t Ht. destruct root_walk_spec as (v & d & _ & Hv & _). apply Hv.
  destruct (decide (t ∈ v)) as [|Hn]; [done|]. exfalso.
  apply acyclic_no_reach with (x := t) in Hac. apply Hac.
  apply serial_reaches_cycle with (X := doneTasks ∖ v); [|set_solver].
  clear t Ht Hn Hac. intros x [Hx Hxv]%elem_of_difference. destruct (Hcl x Hx) as [Hk Hd].
  destruct (default [] (deps !! x)) as [|y l] eqn:E.
  - destruct Hxv. apply Hv. exists x. split; [|done]. apply elem_of_getRoots. split; [done|].
    intros z. unfold depends. rewrite E. set_solver.
  - assert (depends deps x y) as Hxy by (unfold depends; rewrite E; left).
    exists y. split; [|done]. apply elem_of_difference. split; [by apply Hd|].
    intros (r & Hr & Hp)%Hv. destruct Hxv. apply Hv. exists r. split; [done|].
    apply rtc_r with y; [done|]. split; [by apply Hd|done].
Qed.

(** Some task is ready unless all are done. *)
Lemma ready_exists x0 :
  acyclic (depends deps) → x0 ∈ keys → x0 ∉ doneTasks → ∃ x, ready x.
Proof.
  intros Hac Hx0 Hn0. set (X := list_to_set keys ∖ doneTasks : gset string).
  destruct (decide (set_Exists ready X)) as [[x [_ Hx]]|Hno]; [by exists x|]. exfalso.
  apply acyclic_no_reach with (x := x0) in Hac. apply Hac.
  apply serial_reaches_cycle with (X := X); [|set_solver].
  intros x Hx. assert (x ∈ keys ∧ x ∉ doneTasks) as [Hk Hd] by set_solver.
  destruct (decide (Exists (λ y, y ∉ doneTasks) (default [] (deps !! x)))) as [Hex|Hall].
  - apply Exists_exists in Hex as (y & Hxy & Hy). exists y.
    destruct (Hdeps x y Hxy). split; [set_solver|done].
  - destruct Hno. exists x. split; [done|]. split_and!; [done..|]. intros y Hxy.
    apply dec_stable. intros Hy. apply Hall, Exists_exists. eauto.
Qed.

End walk.

Arguments ready keys deps doneTasks x : simpl never.

Section candidates.
Context `{MapOrder}.

Lemma GetCandidateTasks_spec keys deps g (doneTasks : list string) :
  graph_of keys deps g →
  (∀ pt prev, depends deps pt prev → pt ∈ keys ∧ prev ∈ keys) →
  let tm := list_to_set doneTasks in
  match GetCandidateTasks g doneTasks with
  | Ret d =>
      (∀ t, t ∈ doneTasks → visited_from_roots deps g tm t) ∧
      (∀ x, x ∈ d ↔ ready keys deps tm x)
  | Err (InvalidDoneTasks l) =>
      l ≠ [] ∧ ∀ x, x ∈ l ↔ x ∈ doneTasks ∧ ¬ visited_from_roots deps g tm x
  | _ => False
  end.
Proof.
  intros Hg Hdeps tm. unfold GetCandidateTasks. fold (NewString doneTasks) in tm. fold tm.
  destruct (root_walk_spec keys deps g Hg Hdeps tm) as (v & d & -> & Hv & Hd).
  assert (∀ x, x ∈ DiffLeft doneTasks (range_set v) ↔
    x ∈ doneTasks ∧ ¬ visited_from_roots deps g tm x) as Hdiff.
  { intros x. by rewrite elem_of_DiffLeft, elem_of_range_set, Hv. }
  case_bool_decide as Hlen.
  - split; [|done]. intros E. rewrite E in Hlen. simpl in Hlen. lia.
  - assert (∀ t, t ∈ doneTasks → visited_from_roots deps g tm t) as Hall.
    { intros t Ht. apply Hv. apply dec_stable. intros Hn. apply Hlen, length_pos_nonempty.
      exists t. apply Hdiff. split; [done|]. by rewrite <-Hv. }
    split; [done|]. intros x. rewrite Hd. split; [tauto|]. intros Hx. split; [|done].
    apply (ready_visited keys deps g Hg Hdeps tm x); [|done].
    intros t Ht. apply Hall. by apply elem_of_NewString.
Qed.

(** ** Scheduling by candidates

    The abstract scheduler: a task may be started and finished when it is a
    candidate for the tasks done so far.  [sched g] is the relation between the
    lists of done tasks it can go through. *)
Inductive sched (g : Graph) : list string → list string → Prop :=
| sched_run fin d t :
    GetCandidateTasks g fin = Ret d → t ∈ d → sched g fin (fin ++ [t]).

Section built.
Context {A} `{Task A} (tasks : list A) (deps : gmap string (list string)) (g : Graph).
Context (HB : Build tasks deps = Ret g).

Abbreviation keys := (HashKey <$> tasks).

Lemma built : NoDup keys ∧ acyclic (depends deps) ∧
  (∀ pt prev, depends deps pt prev → pt ∈ keys ∧ prev ∈ keys) ∧ graph_of keys deps g.
Proof. pose proof (Build_spec tasks deps) as Hs. by rewrite HB in Hs. Qed.

(** A done list in which every task comes after its dependencies. *)
Inductive ordered : list string → Prop :=
| ordered_nil : ordered []
| ordered_snoc fin t :
    ordered fin → t ∈ keys → t ∉ fin → (∀ y, depends deps t y → y ∈ fin) →
    ordered (fin ++ [t]).

Lemma ordered_facts fin :
  ordered fin → NoDup fin ∧ dep_closed keys deps (list_to_set fin).
Proof.
  induction 1 as [|fin t _ [Hnd Hcl] Ht Hnew Hall].
  { split; [constructor|]. intros x. set_solver. }
  split.
  - apply NoDup_app. split_and!; [done| |apply NoDup_singleton]. set_solver.
  - intros x Hx. rewrite elem_of_list_to_set, elem_of_app, list_elem_of_singleton in Hx.
    destruct Hx as [Hx| ->].
    + destruct (Hcl x) as [Hk Hd]; [by apply elem_of_list_to_set|]. split; [done|].
      intros y Hy. specialize (Hd y Hy). set_solver.
    + split; [done|]. intros y Hy. specialize (Hall y Hy). set_solver.
Qed.

Lemma candidates_ordered fin :
  ordered fin →
  ∃ d, GetCandidateTasks g fin = Ret d ∧ ∀ x, x ∈ d ↔ ready keys deps (list_to_set fin) x.
Proof.
  intros [Hnd Hcl]%ordered_facts. destruct built as (_ & Hac & Hdeps & Hg).
  pose proof (GetCandidateTasks_spec keys deps g fin Hg Hdeps) as Hs. simpl in Hs.
  destruct (GetCandidateTasks g fin) as [d|[]|]; try done.
  - exists d. split; [done|]. apply Hs.
  - exfalso. destruct Hs as [Hne Hel]. destruct notVisited as [|x l]; [done|].
    destruct (proj1 (Hel x)) as [Hx Hnv]; [left|]. apply Hnv.
    apply (dep_closed_visited keys deps g Hg Hdeps (list_to_set fin)); [done..|].
    by apply elem_of_list_to_set.
Qed.

Lemma sched_ordered fin fin' : ordered fin → sched g fin fin' → ordered fin'.
Proof.
  intros Ho Hs. inversion Hs as [? d t Hget Ht]; subst.
  destruct (candidates_ordered fin Ho) as (d' & Hget' & Hd').
  rewrite Hget in Hget'. injection Hget' as <-.
  apply Hd' in Ht as (Hk & Hn & Hall). apply ordered_snoc; [done|done| |].
  - intros Hin. apply Hn. by apply elem_of_list_to_set.
  - intros y Hy. apply Hall in Hy. by apply elem_of_list_to_set in Hy.
Qed.

Lemma sched_reachable a fin : rtc (sched g) a fin → ordered a → ordered fin.
Proof. induction 1 as [|x y z Hxy _ IH]; [done|]. intros Hx. by apply IH, (sched_ordered x). Qed.

Lemma ordered_incomplete fin :
  ordered fin → length fin < length tasks → ∃ x, x ∈ keys ∧ x ∉ fin.
Proof.
  intros [Hnd _]%ordered_facts Hlen. destruct built as (Hk & _).
  destruct (decide (Exists (λ x, x ∉ fin) keys)) as [Hex|Hall].
  - by apply Exists_exists in Hex.
  - exfalso. assert (keys ⊆+ fin) as Hsub.
    { apply NoDup_submseteq; [done|]. intros x Hx. apply dec_stable. intros Hn.
      apply Hall, Exists_exists. eauto. }
    apply submseteq_length in Hsub. rewrite length_fmap in Hsub. lia.
Qed.

Lemma ordered_length fin : ordered fin → length fin ≤ length tasks.
Proof.
  intros [Hnd Hcl]%ordered_facts. rewrite <-(length_fmap HashKey tasks).
  apply submseteq_length, NoDup_submseteq; [done|].
  intros x Hx. apply Hcl. by apply elem_of_list_to_set.
Qed.

Lemma sched_progress fin :
  ordered fin → length fin < length tasks → ∃ fin', sched g fin fin'.
Proof.
  intros Ho (x0 & Hx0 & Hn0)%ordered_incomplete; [|done].
  destruct (candidates_ordered fin Ho) as (d & Hget & Hd).
  destruct built as (_ & Hac & Hdeps & Hg).
  destruct (ready_exists keys deps g Hg Hdeps (list_to_set fin) x0) as [x Hx]; [done..| |].
  { by rewrite elem_of_list_to_set. }
  exists (fin ++ [x]). apply sched_run with d; [done|]. by apply Hd.
Qed.

Lemma sched_total fin :
  ordered fin → ∃ fin', rtc (sched g) fin fin' ∧ fin' ≡ₚ keys.
Proof.
  remember (length tasks - length fin) as n eqn:Hn. revert fin Hn.
  induction n as [|n IH]; intros fin Hn Ho; pose proof (ordered_length fin Ho).
  - exists fin. split; [done|]. destruct (ordered_facts fin Ho) as [Hnd Hcl].
    destruct built as (Hk & _). apply submseteq_length_Permutation.
    + apply NoDup_submseteq; [done|]. intros x Hx. apply Hcl. by apply elem_of_list_to_set.
    + rewrite length_fmap. lia.
  - destruct (sched_progress fin Ho) as [fin' Hs]; [lia|].
    assert (length fin' = S (length fin)) as Hl.
    { inversion Hs; subst. rewrite length_app. simpl. lia. }
    destruct (IH fin') as (fin'' & Hr & Hp); [lia|by apply (sched_ordered fin)|].
    exists fin''. split; [by apply rtc_l with fin'|done].
Qed.

End built.

End candidates.

(** ** Properties *)

(** C7: on a built graph, when [GetCandidateTasks] accepts the done tasks it
    returns exactly the tasks that are not done and whose dependencies are all
    done; it rejects them exactly when some done task is not reachable from a
    task without dependencies through done tasks, and then it names those. *)
Theorem GetCandidateTasks_exact `{MapOrder} {A} `{Task A} (tasks : list A)
    (deps : gmap string (list string)) (g : Graph) (HB : Build tasks deps = Ret g)
    (doneTasks : list string) :
  let keys := HashKey <$> tasks in
  match GetCandidateTasks g doneTasks with
  | Ret d => ∀ x, x ∈ d ↔ x ∈ keys ∧ x ∉ doneTasks ∧ ∀ y, depends deps x y → y ∈ doneTasks
  | Err (InvalidDoneTasks l) =>
      l ≠ [] ∧ ∀ x, x ∈ l ↔ x ∈ doneTasks ∧
        ¬ ∃ r, r ∈ keys ∧ (∀ y, ¬ depends deps r y) ∧
               rtc (λ p c, p ∈ doneTasks ∧ depends deps c p) r x
  | _ => False
  end.
Proof.
  destruct (built tasks deps g HB) as (_ & _ & Hdeps & Hg).
  pose proof (GetCandidateTasks_spec _ deps g doneTasks Hg Hdeps) as Hs. simpl in Hs |- *.
  assert (∀ x, visited_from_roots deps g (list_to_set doneTasks) x ↔
    ∃ r, r ∈ HashKey <$> tasks ∧ (∀ y, ¬ depends deps r y) ∧
      rtc (λ p c, p ∈ doneTasks ∧ depends deps c p) r x) as Hv.
  { intros x. unfold visited_from_roots. setoid_rewrite (elem_of_getRoots _ deps g Hg).
    assert (∀ r, rtc (walk deps (list_to_set doneTasks)) r x ↔
      rtc (λ p c, p ∈ doneTasks ∧ depends deps c p) r x) as Hw.
    { intros r. split; apply rtc_subrel; intros ? ?; unfold walk; by rewrite elem_of_list_to_set. }
    setoid_rewrite Hw. clear. naive_solver. }
  destruct (GetCandidateTasks g doneTasks) as [d|[]|]; try done.
  - intros x. rewrite (proj2 Hs). unfold ready. setoid_rewrite elem_of_list_to_set. done.
  - destruct Hs as [Hne Hl]. split; [done|]. intros x. by rewrite Hl, Hv.
Qed.

(** C5: scheduling by candidates is safe: starting from no task done and
    running, each time, one of the tasks [GetCandidateTasks] returns, a task is
    run at most once, only tasks of the pipeline are run, and each runs after
    all its dependencies; [GetCandidateTasks] never reports invalid done tasks
    on the way. *)
Theorem scheduling_respects_dependencies `{MapOrder} {A} `{Task A} (tasks : list A)
    (deps : gmap string (list string)) (g : Graph) (HB : Build tasks deps = Ret g)
    (fin : list string) (Hrun : rtc (sched g) [] fin) :
  NoDup fin ∧
  (∀ before t after, fin = before ++ t :: after →
     t ∈ HashKey <$> tasks ∧ ∀ y, depends deps t y → y ∈ before) ∧
  ∃ d, GetCandidateTasks g fin = Ret d.
Proof.
  assert (ordered tasks deps fin) as Ho by (apply (sched_reachable tasks deps g HB []); [done|constructor]).
  split_and!.
  - exact (proj1 (ordered_facts tasks deps g HB fin Ho)).
  - clear Hrun. induction Ho as [|fin t Ho IH Ht Hn Hall]; intros before x after E.
    + by destruct before.
    + destruct after as [|z after _] using rev_ind.
      * apply app_inj_tail in E as [-> ->]. done.
      * change (x :: after ++ [z]) with ((x :: after) ++ [z]) in E. rewrite app_assoc in E.
        apply app_inj_tail in E as [-> _]. by apply (IH before x after).
  - destruct (candidates_ordered tasks deps g HB fin Ho) as (d & Hd & _). eauto.
Qed.

(** C6: scheduling by candidates is live: from every reachable list of done
    tasks a task can be run unless all are done, so it can always be extended
    to a run of every task of the pipeline. *)
Theorem scheduling_completes `{MapOrder} {A} `{Task A} (tasks : list A)
    (deps : gmap string (list string)) (g : Graph) (HB : Build tasks deps = Ret g)
    (fin : list string) (Hrun : rtc (sched g) [] fin) :
  (length fin < length tasks → ∃ d t, GetCandidateTasks g fin = Ret d ∧ t ∈ d) ∧
  ∃ fin', rtc (sched g) fin fin' ∧ fin' ≡ₚ HashKey <$> tasks.
Proof.
  assert (ordered tasks deps fin) as Ho by (apply (sched_reachable tasks deps g HB []); [done|constructor]).
  split.
  - intros Hlen. destruct (sched_progress tasks deps g HB fin Ho Hlen) as [fin' Hs].
    inversion Hs; subst. eauto.
  - by apply (sched_total tasks deps g HB).
Qed.


#[local] Existing Instance stdpp_order.

Lemma diamond_run : rtc (sched diamond) [] ["a"; "c"].
Proof.
  apply rtc_l with ["a"].
  - apply (sched_run diamond [] {["a"]} "a"); [reflexivity|set_solver].
  - apply rtc_once, (sched_run diamond ["a"] {["b"; "c"]} "c"); [reflexivity|set_solver].
Defined.

Lemma GetCandidateTasks_exact_witness :
  GetCandidateTasks diamond ["a"; "b"] = Ret {["c"]} ∧
  ∀ y, depends diamond_deps "c" y → y ∈ ["a"; "b"].
Proof.
  assert (GetCandidateTasks diamond ["a"; "b"] = Ret {["c"]}) as E by reflexivity.
  split; [exact E|].
  pose proof (GetCandidateTasks_exact diamond_tasks diamond_deps diamond eq_refl ["a"; "b"]) as Hs.
  cbv zeta in Hs. rewrite E in Hs.
  apply (proj1 (Hs "c")). apply elem_of_singleton. reflexivity.
Defined.

Lemma scheduling_respects_dependencies_witness :
  NoDup ["a"; "c"] ∧ ∃ d, GetCandidateTasks diamond ["a"; "c"] = Ret d.
Proof.
  pose proof (scheduling_respects_dependencies diamond_tasks diamond_deps diamond eq_refl
    ["a"; "c"] diamond_run) as (Hnd & _ & Hd).
  split; [exact Hnd|exact Hd].
Defined.

Lemma scheduling_completes_witness :
  ∃ fin', rtc (sched diamond) ["a"; "c"] fin' ∧ fin' ≡ₚ ["a"; "b"; "c"; "d"].
Proof.
  exact (proj2 (scheduling_completes diamond_tasks diamond_deps diamond eq_refl
    ["a"; "c"] diamond_run)).
Defined.
