(* ===== verification/GoStrings.v ===== *)
(** * Strings

    The functions of Go's [strings], [strconv] and [fmt] packages the modelled
    code calls.  A Go string is a sequence of bytes, as is [string] here. *)
From S2P Require Import Prelude.
From stdpp Require Import pretty.
From Stdlib Require Export Ascii.

#[global] Arguments String.append !_ _ : simpl nomatch.

(** ** Definitions *)

(** The rest of [s] after the prefix [p]. *)
Fixpoint strip_prefix (p s : string) : option string :=
  match p, s with
  | EmptyString, _ => Some s
  | String a p, String b s => if decide (a = b) then strip_prefix p s else None
  | String _ _, EmptyString => None
  end.

Definition HasPrefix (s p : string) : bool := bool_decide (is_Some (strip_prefix p s)).

Definition TrimPrefix (s p : string) : string := default s (strip_prefix p s).

Definition HasSuffix (s p : string) : bool := HasPrefix (String.rev s) (String.rev p).

Definition TrimSuffix (s p : string) : string :=
  String.rev (TrimPrefix (String.rev s) (String.rev p)).

(** [s] without its first [n] bytes. *)
Fixpoint drop_bytes (n : nat) (s : string) : string :=
  match n, s with
  | O, _ => s
  | S n, String _ s => drop_bytes n s
  | S _, EmptyString => ""
  end.

(** [strings.Split(s, sep)] for a separator of one byte. *)
Fixpoint Split (s : string) (sep : ascii) : list string :=
  match s with
  | EmptyString => [""]
  | String c s =>
      if decide (c = sep) then "" :: Split s sep
      else match Split s sep with
           | [] => [String c ""]
           | w :: ws => String c w :: ws
           end
  end.

(** [strings.Join]. *)
Fixpoint Join (ws : list string) (sep : string) : string :=
  match ws with
  | [] => ""
  | [w] => w
  | w :: ws => w +:+ sep +:+ Join ws sep
  end.

(** ** One left-to-right pass over a string

    [scan f s 0] cuts [s] into pieces from the left: where [f] recognises a
    non-empty prefix it yields a [Hit] and the pass goes on behind it, elsewhere
    one byte is copied.  [regexp]'s [FindAllString] and [ReplaceAllString] and
    [strings.Replacer] are such passes. *)
Inductive piece (A : Type) := Lit (c : ascii) | Hit (a : A).
Arguments Lit {A} c.
Arguments Hit {A} a.

Fixpoint scan {A} (f : string → option (A * nat)) (s : string) (skip : nat) : list (piece A) :=
  match s with
  | EmptyString => []
  | String c s' =>
      match skip with
      | S skip => scan f s' skip
      | O =>
          match f s with
          | Some (a, n) => Hit a :: scan f s' (pred n)
          | None => Lit c :: scan f s' 0
          end
      end
  end.

Definition hits {A} (ps : list (piece A)) : list A :=
  omap (λ p, match p with Hit a => Some a | Lit _ => None end) ps.

Fixpoint render {A} (f : A → string) (ps : list (piece A)) : string :=
  match ps with
  | [] => ""
  | Lit c :: ps => String c (render f ps)
  | Hit a :: ps => f a +:+ render f ps
  end.

(** [strings.NewReplacer(pairs...).Replace(s)]: at each position the first pair
    whose old string matches there; no old string is empty. *)
Definition first_match (pairs : list (string * string)) (s : string) : option (string * nat) :=
  match list_find (λ p : string * string, is_Some (strip_prefix p.1 s)) pairs with
  | Some (_, (old, new)) => Some (new, String.length old)
  | None => None
  end.

Definition Replace (pairs : list (string * string)) (s : string) : string :=
  render id (scan (first_match pairs) s 0).

(** [strings.Count(s, sub)] for a non-empty [sub]. *)
Definition Count (s sub : string) : nat :=
  length (hits (scan (λ s, (λ _, (tt, String.length sub)) <$> strip_prefix sub s) s 0)).

(** [strings.Contains(s, sub)]. *)
Fixpoint Contains (s sub : string) : bool :=
  HasPrefix s sub ||
  match s with EmptyString => false | String _ s => Contains s sub end.

(** ** Numbers *)

(** [strconv.Itoa] and the verb [%d]. *)
Definition Itoa (z : Z) : string := pretty z.

Definition MaxInt : Z := 2 ^ 63 - 1.
Definition MinInt : Z := - 2 ^ 63.

Definition digit (c : ascii) : option Z :=
  let n := Z.of_nat (nat_of_ascii c) in
  if bool_decide (48 ≤ n ≤ 57)%Z then Some (n - 48)%Z else None.

Fixpoint digits (acc : Z) (s : string) : option Z :=
  match s with
  | EmptyString => Some acc
  | String c s => d ← digit c; digits (10 * acc + d)%Z s
  end.

(** [strconv.Atoi] on a 64-bit platform: the value and whether the error is
    nil.  A syntax error gives 0, a number out of range the nearest bound. *)
Definition Atoi (s : string) : Z * bool :=
  let '(neg, body) :=
    match s with
    | String c s' =>
        if bool_decide (c = "-"%char) then (true, s')
        else if bool_decide (c = "+"%char) then (false, s')
        else (false, s)
    | EmptyString => (false, s)
    end in
  match body with
  | EmptyString => (0%Z, false)
  | _ =>
      match digits 0 body with
      | None => (0%Z, false)
      | Some n =>
          let z := if neg then (- n)%Z else n in
          if bool_decide (z > MaxInt)%Z then (MaxInt, false)
          else if bool_decide (z < MinInt)%Z then (MinInt, false)
          else (z, true)
      end
  end.

(** The verb [%q]: the string in double quotes with the quote, the backslash and
    the control characters escaped; bytes from 128 up are taken to be printable
    UTF-8 and kept. *)
Definition dquote : string := String (ascii_of_nat 34) "".

Definition hex_digit (n : nat) : ascii :=
  ascii_of_nat (if bool_decide (n < 10) then 48 + n else 87 + n).

Definition quote_char (c : ascii) : string :=
  let n := nat_of_ascii c in
  let esc (x : ascii) := String "\" (String x "") in
  if bool_decide (n = 34) then esc c
  else if bool_decide (c = "\"%char) then esc c
  else if bool_decide (n = 7) then esc "a"%char
  else if bool_decide (n = 8) then esc "b"%char
  else if bool_decide (n = 12) then esc "f"%char
  else if bool_decide (n = 10) then esc "n"%char
  else if bool_decide (n = 13) then esc "r"%char
  else if bool_decide (n = 9) then esc "t"%char
  else if bool_decide (n = 11) then esc "v"%char
  else if bool_decide (n < 32 ∨ n = 127) then
    "\x" +:+ String (hex_digit (n / 16)) (String (hex_digit (n mod 16)) "")
  else String c "".

Fixpoint quote_chars (s : string) : string :=
  match s with EmptyString => "" | String c s => quote_char c +:+ quote_chars s end.

Definition Quote (s : string) : string := dquote +:+ quote_chars s +:+ dquote.

(** [strings.TrimSpace] on ASCII text. *)
Definition is_space (c : ascii) : bool :=
  bool_decide (nat_of_ascii c ∈ [9; 10; 11; 12; 13; 32]).

Fixpoint trim_left (s : string) : string :=
  match s with
  | String c s' => if is_space c then trim_left s' else s
  | EmptyString => ""
  end.

Definition TrimSpace (s : string) : string :=
  String.rev (trim_left (String.rev (trim_left s))).

(** ** Lemmas *)

Lemma sapp_assoc (a b c : string) : (a +:+ b) +:+ c = a +:+ (b +:+ c).
Proof. induction a as [|x a IH]; simpl; [done|]. by rewrite IH. Qed.

Lemma sapp_nil_r (a : string) : a +:+ "" = a.
Proof. induction a as [|x a IH]; simpl; [done|]. by rewrite IH. Qed.

Lemma slength_app (a b : string) :
  String.length (a +:+ b) = String.length a + String.length b.
Proof. induction a as [|x a IH]; simpl; [done|]. by rewrite IH. Qed.

#[export] Hint Rewrite sapp_assoc sapp_nil_r slength_app : tekton.

Lemma rev_app_spec (s t : string) : String.rev_app s t = String.rev s +:+ t.
Proof.
  unfold String.rev. revert t.
  assert (∀ s t u, String.rev_app s (t +:+ u) = String.rev_app s t +:+ u) as Hgen.
  { clear. intros s. induction s as [|c s IH]; intros t u; simpl; [done|].
    by rewrite <-(IH (String c t)). }
  intros t. by rewrite <-(Hgen s "" t).
Qed.

Lemma rev_cons c (s : string) : String.rev (String c s) = String.rev s +:+ String c "".
Proof. unfold String.rev at 1. simpl. apply rev_app_spec. Qed.

Lemma rev_app (s t : string) : String.rev (s +:+ t) = String.rev t +:+ String.rev s.
Proof.
  induction s as [|c s IH]; cbn [String.app]; [by rewrite sapp_nil_r|].
  rewrite (rev_cons c (s +:+ t)), IH, (rev_cons c s). apply sapp_assoc.
Qed.

Lemma rev_involutive (s : string) : String.rev (String.rev s) = s.
Proof. induction s as [|c s IH]; simpl; [done|]. by rewrite rev_cons, rev_app, IH. Qed.

Lemma strip_prefix_Some p s r : strip_prefix p s = Some r ↔ s = p +:+ r.
Proof.
  revert s. induction p as [|a p IH]; intros s; simpl.
  { split; [by intros [= ->]|by intros ->]. }
  destruct s as [|b s]; [done|]. case_decide as Hab; subst.
  - rewrite IH. split; [by intros ->|by intros [= ->]].
  - split; [done|]. intros [= -> _]. done.
Qed.

Lemma strip_prefix_app p r : strip_prefix p (p +:+ r) = Some r.
Proof. by apply strip_prefix_Some. Qed.

Lemma HasPrefix_true s p : HasPrefix s p = true ↔ ∃ r, s = p +:+ r.
Proof.
  unfold HasPrefix. rewrite bool_decide_eq_true. unfold is_Some.
  by setoid_rewrite strip_prefix_Some.
Qed.

Lemma TrimPrefix_app p s : TrimPrefix (p +:+ s) p = s.
Proof. unfold TrimPrefix. by rewrite strip_prefix_app. Qed.

Lemma TrimSuffix_app s p : TrimSuffix (s +:+ p) p = s.
Proof. unfold TrimSuffix. by rewrite rev_app, TrimPrefix_app, rev_involutive. Qed.

Lemma HasSuffix_app s p : HasSuffix (s +:+ p) p = true.
Proof. unfold HasSuffix. rewrite rev_app. apply HasPrefix_true. eauto. Qed.

#[export] Hint Rewrite TrimPrefix_app TrimSuffix_app : tekton.

(** *** Bytes of a string *)

Fixpoint sforall (P : ascii → bool) (s : string) : bool :=
  match s with EmptyString => true | String c s => P c && sforall P s end.

Lemma sforall_app P s t : sforall P (s +:+ t) = sforall P s && sforall P t.
Proof. induction s as [|c s IH]; simpl; [done|]. by rewrite IH, andb_assoc. Qed.

Lemma sforall_weaken (P Q : ascii → bool) s :
  (∀ c, P c = true → Q c = true) → sforall P s = true → sforall Q s = true.
Proof.
  intros HPQ. induction s as [|c s IH]; simpl; [done|].
  rewrite !andb_true_iff. naive_solver.
Qed.

Lemma sforall_rev P s : sforall P s = true → sforall P (String.rev s) = true.
Proof.
  induction s as [|c s IH]; [done|]. rewrite rev_cons, sforall_app. cbn [sforall].
  rewrite !andb_true_iff. naive_solver.
Qed.

Definition not_byte (c : ascii) : ascii → bool := λ x, negb (bool_decide (x = c)).

(** The text before the first [c] is determined by the string. *)
Lemma split_at_byte c (s1 s2 t1 t2 : string) :
  sforall (not_byte c) s1 = true → sforall (not_byte c) s2 = true →
  s1 +:+ String c t1 = s2 +:+ String c t2 → s1 = s2 ∧ t1 = t2.
Proof.
  revert s2. induction s1 as [|a s1 IH]; intros [|b s2]; simpl.
  - intros _ _ [= ->]. done.
  - intros _ Hb [= <- _]. unfold not_byte in Hb at 1. by rewrite bool_decide_true in Hb.
  - intros Ha _ [= -> _]. unfold not_byte in Ha at 1. by rewrite bool_decide_true in Ha.
  - intros [_ Hs1]%andb_true_iff [_ Hs2]%andb_true_iff [= -> E].
    destruct (IH s2 Hs1 Hs2 E) as [-> ->]. done.
Qed.

(** *** [Split] and [Join] *)

Lemma Split_nonempty s sep : Split s sep ≠ [].
Proof. destruct s; simpl; [done|]. case_decide; [done|]. by destruct (Split s sep). Qed.

Lemma Split_word w s sep :
  sforall (not_byte sep) w = true → Split (w +:+ String sep s) sep = w :: Split s sep.
Proof.
  induction w as [|c w IH]; simpl; [by rewrite decide_True|].
  intros [Hc Hw]%andb_true_iff. rewrite IH by done.
  rewrite decide_False; [done|]. intros ->. unfold not_byte in Hc.
  by rewrite bool_decide_true in Hc.
Qed.

Lemma Split_last w sep : sforall (not_byte sep) w = true → Split w sep = [w].
Proof.
  induction w as [|c w IH]; simpl; [done|]. intros [Hc Hw]%andb_true_iff. rewrite IH by done.
  rewrite decide_False; [done|]. intros ->. unfold not_byte in Hc.
  by rewrite bool_decide_true in Hc.
Qed.

Lemma Split_Join ws sep :
  ws ≠ [] → Forall (λ w, sforall (not_byte sep) w = true) ws →
  Split (Join ws (String sep "")) sep = ws.
Proof.
  intros Hne Hall. induction Hall as [|w ws Hw Hall IH]; [done|].
  destruct ws as [|w' ws]; simpl; [by apply Split_last|].
  rewrite Split_word by done. f_equal. by apply IH.
Qed.

(** *** Passes *)

Lemma scan_skip {A} (f : string → option (A * nat)) s n :
  scan f s n = scan f (drop_bytes n s) 0.
Proof. revert n. induction s as [|c s IH]; intros [|n]; simpl; try done. Qed.

Lemma drop_bytes_app (t s : string) : drop_bytes (String.length t) (t +:+ s) = s.
Proof. induction t as [|c t IH]; simpl; [by destruct s|done]. Qed.

Lemma scan_ext {A} (f g : string → option (A * nat)) s n :
  (∀ s, f s = g s) → scan f s n = scan g s n.
Proof.
  intros Hfg. revert n. induction s as [|c s IH]; intros n; simpl; [done|].
  rewrite <-Hfg. destruct n; [|done]. destruct (f (String c s)) as [[a m]|]; by rewrite IH.
Qed.

(** Bytes at which [f] recognises nothing are copied. *)
Lemma scan_literal {A} (f : string → option (A * nat)) (P : ascii → bool) t s :
  (∀ c s, P c = true → f (String c s) = None) → sforall P t = true →
  ∀ g, render g (scan f (t +:+ s) 0) = t +:+ render g (scan f s 0).
Proof.
  intros Hf Ht g. induction t as [|c t IH]; simpl in *; [done|].
  apply andb_true_iff in Ht as [Hc Ht]. by rewrite Hf, <-IH by done.
Qed.

Lemma hits_literal {A} (f : string → option (A * nat)) (P : ascii → bool) t s :
  (∀ c s, P c = true → f (String c s) = None) → sforall P t = true →
  hits (scan f (t +:+ s) 0) = hits (scan f s 0).
Proof.
  intros Hf Ht. induction t as [|c t IH]; simpl in *; [done|].
  apply andb_true_iff in Ht as [Hc Ht]. by rewrite Hf, <-IH by done.
Qed.

(** A recognised prefix is one hit. *)
Lemma scan_hit {A} (f : string → option (A * nat)) t s a :
  t ≠ "" → f (t +:+ s) = Some (a, String.length t) →
  scan f (t +:+ s) 0 = Hit a :: scan f s 0.
Proof.
  destruct t as [|c t]; [done|]. intros _ Hf. simpl in *. rewrite Hf. simpl.
  by rewrite scan_skip, drop_bytes_app.
Qed.

(** *** Replacing *)

(** Two old strings never match at one place. *)
Definition exclusive (pairs : list (string * string)) : Prop :=
  ∀ p q s, p ∈ pairs → q ∈ pairs →
    is_Some (strip_prefix p.1 s) → is_Some (strip_prefix q.1 s) → p = q.

Lemma first_match_Some pairs s p :
  exclusive pairs → p ∈ pairs → is_Some (strip_prefix p.1 s) →
  first_match pairs s = Some (p.2, String.length p.1).
Proof.
  intros Hex Hp Hs. unfold first_match.
  destruct (list_find _ pairs) as [[i [old new]]|] eqn:E.
  - apply list_find_Some in E as (Hi & Hm & _).
    assert ((old, new) = p) as <-; [|done].
    apply (Hex _ _ s); [by eapply list_elem_of_lookup_2|done..].
  - apply list_find_None in E. rewrite Forall_forall in E. by apply E in Hp.
Qed.

Lemma first_match_None pairs s :
  (∀ p, p ∈ pairs → ¬ is_Some (strip_prefix p.1 s)) → first_match pairs s = None.
Proof.
  intros Hn. unfold first_match.
  destruct (list_find _ pairs) as [[i [old new]]|] eqn:E; [|done].
  apply list_find_Some in E as (Hi & Hm & _).
  apply list_elem_of_lookup_2 in Hi. by apply Hn in Hm.
Qed.

(** The argument order of [NewReplacer] does not matter then. *)
Lemma Replace_perm pairs1 pairs2 s :
  pairs1 ≡ₚ pairs2 → exclusive pairs1 → Replace pairs1 s = Replace pairs2 s.
Proof.
  intros Hp Hex. unfold Replace. f_equal. apply scan_ext. clear s. intros s.
  assert (exclusive pairs2) as Hex2.
  { intros p q t. rewrite <-Hp. apply Hex. }
  destruct (decide (Exists (λ p : string * string, is_Some (strip_prefix p.1 s)) pairs1)) as [He|He].
  - apply Exists_exists in He as (p & Hin & Hm).
    rewrite (first_match_Some pairs1 s p), (first_match_Some pairs2 s p); try done.
    by rewrite <-Hp.
  - assert (∀ p, p ∈ pairs1 → ¬ is_Some (strip_prefix p.1 s)) as Hn.
    { intros p Hin Hm. apply He, Exists_exists. eauto. }
    rewrite !first_match_None; [done| |done]. intros p. rewrite <-Hp. apply Hn.
Qed.

(** *** Numbers *)

Lemma digit_pretty_N_char (d : N) : (d < 10)%N → digit (pretty_N_char d) = Some (Z.of_N d).
Proof.
  intros Hd. assert (d = 0 ∨ d = 1 ∨ d = 2 ∨ d = 3 ∨ d = 4 ∨ d = 5 ∨ d = 6 ∨ d = 7 ∨ d = 8 ∨ d = 9)%N
    as Hc by lia. by decompose [or] Hc; subst.
Qed.

Lemma digits_pretty_N_go x s : digits 0 (pretty_N_go x s) = digits (Z.of_N x) s.
Proof.
  revert s. induction (N.lt_wf_0 x) as [x _ IH]; intros s.
  destruct (decide (x = 0)%N) as [-> |Hx]; [done|].
  rewrite pretty_N_go_step by lia. rewrite IH by (apply N.div_lt; lia).
  cbn [digits]. rewrite digit_pretty_N_char by (apply N.mod_lt; lia). cbn [mbind option_bind].
  f_equal. rewrite N2Z.inj_div, N2Z.inj_mod. pose proof (Z.div_mod (Z.of_N x) 10). lia.
Qed.

Lemma pretty_N_go_class x s : ∀ P : ascii → bool,
  (∀ d, (d < 10)%N → P (pretty_N_char d) = true) → sforall P s = true →
  sforall P (pretty_N_go x s) = true.
Proof.
  intros P HP. revert s. induction (N.lt_wf_0 x) as [x _ IH]; intros s Hs.
  destruct (decide (x = 0)%N) as [-> |Hx]; [done|].
  rewrite pretty_N_go_step by lia. apply IH; [apply N.div_lt; lia|].
  cbn [sforall]. rewrite Hs, HP by (apply N.mod_lt; lia). done.
Qed.

(** The digits of a non-negative number. *)
Lemma Itoa_nonneg z : (0 ≤ z)%Z →
  digits 0 (Itoa z) = Some z ∧ Itoa z ≠ "" ∧
  sforall (λ c, bool_decide (is_Some (digit c))) (Itoa z) = true.
Proof.
  intros Hz. destruct z as [|p|p]; [done| |lia]. 
  assert (Itoa (Z.pos p) = pretty_N_go (N.pos p) "") as ->.
  { unfold Itoa, pretty, pretty_Z, pretty, pretty_positive, pretty, pretty_N.
    by rewrite decide_False. }
  rewrite digits_pretty_N_go. split; [done|]. split.
  - intros H. apply (f_equal (digits 0)) in H. rewrite digits_pretty_N_go in H. done.
  - apply pretty_N_go_class; [|done]. intros d Hd. by rewrite digit_pretty_N_char.
Qed.

(** [strconv] round trip. *)
Lemma Atoi_Itoa z : (0 ≤ z ≤ MaxInt)%Z → Atoi (Itoa z) = (z, true).
Proof.
  intros Hz. destruct (Itoa_nonneg z) as (Hd & Hne & Hcl); [lia|].
  unfold Atoi. destruct (Itoa z) as [|c s] eqn:E; [done|].
  cbn [sforall] in Hcl. apply andb_true_iff in Hcl as [Hc _].
  rewrite bool_decide_eq_true in Hc.
  rewrite (bool_decide_false (c = "-"%char)) by (intros ->; by destruct Hc).
  rewrite (bool_decide_false (c = "+"%char)) by (intros ->; by destruct Hc).
  rewrite Hd, !bool_decide_false; [done|unfold MinInt; lia|lia].
Qed.

Lemma pretty_N_go_length_mono x y s t : (x ≤ y)%N → String.length s ≤ String.length t →
  String.length (pretty_N_go x s) ≤ String.length (pretty_N_go y t).
Proof.
  revert x s t. induction (N.lt_wf_0 y) as [y _ IH]; intros x s t Hxy Hst.
  destruct (decide (y = 0)%N) as [-> |Hy]; [by assert (x = 0)%N as -> by lia|].
  rewrite (pretty_N_go_step y) by lia. destruct (decide (x = 0)%N) as [-> |Hx].
  - apply IH; [apply N.div_lt; lia|apply N.le_0_l|]. cbn [String.length]. lia.
  - rewrite (pretty_N_go_step x) by lia.
    apply IH; [apply N.div_lt; lia|apply N.Div0.div_le_mono; lia|cbn [String.length]; lia].
Qed.

Lemma Itoa_pos p : Itoa (Z.pos p) = pretty_N_go (N.pos p) "".
Proof.
  unfold Itoa, pretty, pretty_Z, pretty, pretty_positive, pretty, pretty_N. by rewrite decide_False.
Qed.

(** A smaller index is not longer. *)
Lemma Itoa_length_mono i j : (0 ≤ i ≤ j)%Z → String.length (Itoa i) ≤ String.length (Itoa j).
Proof.
  intros [Hi Hij]. destruct i as [|i|i]; [| |lia].
  - destruct (Itoa_nonneg j) as (_ & Hne & _); [lia|]. destruct (Itoa j); [done|].
    cbn [String.length]. change (String.length (Itoa 0)) with 1. lia.
  - destruct j as [|j|j]; [lia| |lia]. rewrite !Itoa_pos. apply pretty_N_go_length_mono; [lia|done].
Qed.

Lemma Itoa_no_dash i : (0 ≤ i)%Z → sforall (not_byte "-") (Itoa i) = true.
Proof.
  intros Hi. destruct (Itoa_nonneg i Hi) as (_ & _ & Hd). revert Hd. apply sforall_weaken.
  intros c Hc. unfold not_byte. rewrite bool_decide_eq_true in Hc.
  rewrite bool_decide_false; [done|]. intros ->. by destruct Hc.
Qed.

Lemma Itoa_inj i j : (0 ≤ i)%Z → (0 ≤ j)%Z → Itoa i = Itoa j → i = j.
Proof.
  intros Hi Hj E. destruct (Itoa_nonneg i Hi) as (Di & _ & _).
  destruct (Itoa_nonneg j Hj) as (Dj & _ & _). rewrite E in Di. congruence.
Qed.

(** The value of a 64-bit signed integer expression. *)
Definition wrap64 (z : Z) : Z := (z + 2 ^ 63) mod 2 ^ 64 - 2 ^ 63.

Lemma wrap64_id z : (MinInt ≤ z ≤ MaxInt)%Z → wrap64 z = z.
Proof. unfold MinInt, MaxInt, wrap64. intros Hz. rewrite Z.mod_small; lia. Qed.

Lemma wrap64_range z : (MinInt ≤ wrap64 z ≤ MaxInt)%Z.
Proof.
  unfold MinInt, MaxInt, wrap64. pose proof (Z.mod_pos_bound (z + 2 ^ 63) (2 ^ 64)). lia.
Qed.
