(* ===== verification/Json.v ===== *)
(** * JSON arrays of strings

    What [json.Unmarshal] of the Go standard library does with a [[]string]
    destination: the document must be an array whose elements are strings or
    null (a null leaves the empty string); null alone gives no elements; every
    other document is an error. *)
From S2P Require Import Prelude GoStrings.

Definition json_space (c : ascii) : bool :=
  bool_decide (N_of_ascii c ∈ [32; 9; 10; 13])%N.

Fixpoint skip_space (s : string) : string :=
  match s with
  | String c s' => if json_space c then skip_space s' else s
  | EmptyString => EmptyString
  end.

(** ** UTF-8 *)

Definition bytes (l : list N) : string :=
  foldr (λ n s, String (ascii_of_N n) s) "" l.

(** [utf8.RuneError], U+FFFD. *)
Definition replacement_char : string := bytes [239; 191; 189]%N.

(** [utf8.EncodeRune]. *)
Definition encode_rune (r : N) : string :=
  if bool_decide (r < 128)%N then bytes [r]%N
  else if bool_decide (r < 2048)%N then bytes [192 + r / 64; 128 + r `mod` 64]%N
  else if bool_decide (55296 ≤ r < 57344)%N then replacement_char
  else if bool_decide (r < 65536)%N then bytes [224 + r / 4096; 128 + (r / 64) `mod` 64; 128 + r `mod` 64]%N
  else bytes [240 + r / 262144; 128 + (r / 4096) `mod` 64; 128 + (r / 64) `mod` 64; 128 + r `mod` 64]%N.

(** The range of the second byte after a leading byte, and how many bytes
    follow. *)
Definition utf8_lead (c : N) : option (N * N * nat) :=
  if bool_decide (194 ≤ c < 224)%N then Some (128%N, 192%N, 1)
  else if bool_decide (c = 224)%N then Some (160%N, 192%N, 2)
  else if bool_decide (c = 237)%N then Some (128%N, 160%N, 2)
  else if bool_decide (225 ≤ c < 240)%N then Some (128%N, 192%N, 2)
  else if bool_decide (c = 240)%N then Some (144%N, 192%N, 3)
  else if bool_decide (241 ≤ c < 244)%N then Some (128%N, 192%N, 3)
  else if bool_decide (c = 244)%N then Some (128%N, 144%N, 3)
  else None.

Fixpoint continuation (n : nat) (lo hi : N) (s : string) : bool :=
  match n, s with
  | O, _ => true
  | S n, String c s =>
      bool_decide (lo ≤ N_of_ascii c < hi)%N && continuation n 128%N 192%N s
  | S _, EmptyString => false
  end.

(** The number of bytes that follow a valid leading byte [c] in front of [s]. *)
Definition utf8_tail (c : ascii) (s : string) : option nat :=
  match utf8_lead (N_of_ascii c) with
  | Some (lo, hi, n) => if continuation n lo hi s then Some n else None
  | None => None
  end.

(** ** String literals *)

Definition hex_value (c : ascii) : option N :=
  let n := N_of_ascii c in
  if bool_decide (48 ≤ n < 58)%N then Some (n - 48)%N
  else if bool_decide (97 ≤ n < 103)%N then Some (n - 87)%N
  else if bool_decide (65 ≤ n < 71)%N then Some (n - 55)%N
  else None.

Fixpoint hex_digits (n : nat) (acc : N) (s : string) : option N :=
  match n, s with
  | O, _ => Some acc
  | S n, String c s => v ← hex_value c; hex_digits n (acc * 16 + v)%N s
  | S _, EmptyString => None
  end.

Definition simple_escape (c : ascii) : option N :=
  match N_of_ascii c with
  | 34%N => Some 34%N | 92%N => Some 92%N | 47%N => Some 47%N
  | 98%N => Some 8%N | 102%N => Some 12%N | 110%N => Some 10%N | 114%N => Some 13%N | 116%N => Some 9%N
  | _ => None
  end.

(** What follows the backslash and the letter u: the text and the number of
    bytes used.  A surrogate pair gives one rune, a lone surrogate U+FFFD. *)
Definition unicode_escape (s : string) : option (string * nat) :=
  r ← hex_digits 4 0%N s;
  if bool_decide (55296 ≤ r < 56320)%N then
    match drop_bytes 4 s with
    | String b (String u t) =>
        match (if bool_decide (N_of_ascii b = 92)%N && bool_decide (N_of_ascii u = 117)%N
               then hex_digits 4 0%N t else None) with
        | Some r2 =>
            if bool_decide (56320 ≤ r2 < 57344)%N
            then Some (encode_rune (65536 + (r - 55296) * 1024 + (r2 - 56320))%N, 10)
            else Some (replacement_char, 4)
        | None => Some (replacement_char, 4)
        end
    | _ => Some (replacement_char, 4)
    end
  else Some (encode_rune r, 4).

(** What to do with the next bytes: copy [n], drop [n], or (after 0) look. *)
Inductive literal_mode := CopyBytes (n : nat) | DropBytes (n : nat).

(** A literal after its opening quote: its value and what follows it. *)
Fixpoint json_literal (s : string) (mode : literal_mode) : option (string * string) :=
  match s with
  | EmptyString => None
  | String c s =>
      match mode with
      | CopyBytes (S n) => '(v, rest) ← json_literal s (CopyBytes n); Some (String c v, rest)
      | DropBytes (S n) => json_literal s (DropBytes n)
      | _ =>
          if bool_decide (N_of_ascii c = 34)%N then Some ("", s)
          else if bool_decide (N_of_ascii c = 92)%N then
            match s with
            | EmptyString => None
            | String e s =>
                match simple_escape e with
                | Some x =>
                    '(v, rest) ← json_literal s (CopyBytes 0);
                    Some (String (ascii_of_N x) v, rest)
                | None =>
                    if bool_decide (N_of_ascii e = 117)%N then
                      '(t, n) ← unicode_escape s;
                      '(v, rest) ← json_literal s (DropBytes n);
                      Some (t +:+ v, rest)
                    else None
                end
            end
          else if bool_decide (N_of_ascii c < 32)%N then None
          else if bool_decide (N_of_ascii c < 128)%N then
            '(v, rest) ← json_literal s (CopyBytes 0); Some (String c v, rest)
          else
            match utf8_tail c s with
            | Some n => '(v, rest) ← json_literal s (CopyBytes n); Some (String c v, rest)
            | None => '(v, rest) ← json_literal s (CopyBytes 0); Some (replacement_char +:+ v, rest)
            end
      end
  end.

(** ** Arrays *)

Definition json_element (s : string) : option (string * string) :=
  match s with
  | String c s' =>
      if bool_decide (N_of_ascii c = 34)%N then json_literal s' (CopyBytes 0)
      else rest ← strip_prefix "null" s; Some ("", rest)
  | EmptyString => None
  end.

(** The elements from the first one on; each round uses up a byte. *)
Fixpoint json_elements (fuel : nat) (s : string) : option (list string * string) :=
  match fuel with
  | O => None
  | S fuel =>
      '(x, s) ← json_element (skip_space s);
      match skip_space s with
      | String c s =>
          if bool_decide (c = ","%char) then
            '(xs, rest) ← json_elements fuel s; Some (x :: xs, rest)
          else if bool_decide (c = "]"%char) then Some ([x], s)
          else None
      | EmptyString => None
      end
  end.

Definition json_array (s : string) : option (list string * string) :=
  match skip_space s with
  | String c s' =>
      if bool_decide (c = "]"%char) then Some ([], s') else json_elements (String.length s) s
  | EmptyString => None
  end.

Definition unmarshal_strings (s : string) : option (list string) :=
  '(xs, rest) ←
    match skip_space s with
    | String c s' =>
        if bool_decide (c = "["%char) then json_array s'
        else rest ← strip_prefix "null" (String c s'); Some ([], rest)
    | EmptyString => None
    end;
  match skip_space rest with EmptyString => Some xs | _ => None end.

(** ** Round trip *)

(** A byte that a literal holds as it is. *)
Definition plain_byte (c : ascii) : bool :=
  bool_decide (32 ≤ N_of_ascii c < 128)%N && negb (bool_decide (N_of_ascii c = 34)%N) &&
  negb (bool_decide (N_of_ascii c = 92)%N).

Definition json_quote (s : string) : string := dquote +:+ s +:+ dquote.

(** The compact document of a list of plain strings. *)
Definition json_document (ws : list string) : string :=
  "[" +:+ Join (json_quote <$> ws) "," +:+ "]".

Lemma json_literal_plain w rest : sforall plain_byte w = true →
  json_literal (w +:+ dquote +:+ rest) (CopyBytes 0) = Some (w, rest).
Proof.
  induction w as [|c w IH]; cbn [sforall]; [done|].
  intros [Hc Hw]%andb_true_iff. unfold plain_byte in Hc.
  rewrite !andb_true_iff, !negb_true_iff, !bool_decide_eq_false, bool_decide_eq_true in Hc.
  destruct Hc as [[Hr H1] H2].
  change (String c w +:+ dquote +:+ rest) with (String c (w +:+ dquote +:+ rest)). cbn [json_literal].
  rewrite (bool_decide_false (N_of_ascii c = 34)%N), (bool_decide_false (N_of_ascii c = 92)%N),
    (bool_decide_false (N_of_ascii c < 32)%N), (bool_decide_true (N_of_ascii c < 128)%N) by lia.
  by rewrite IH.
Qed.

Lemma json_element_plain w rest : sforall plain_byte w = true →
  json_element (skip_space (json_quote w +:+ rest)) = Some (w, rest).
Proof.
  intros Hw. unfold json_quote. rewrite !sapp_assoc. cbn. by apply json_literal_plain.
Qed.

Lemma Join_quotes w w' ws : Join (json_quote <$> w :: w' :: ws) "," =
  json_quote w +:+ "," +:+ Join (json_quote <$> w' :: ws) ",".
Proof. reflexivity. Qed.

Lemma json_elements_plain w ws fuel : Forall (λ w, sforall plain_byte w = true) (w :: ws) →
  length ws < fuel →
  json_elements fuel (Join (json_quote <$> w :: ws) "," +:+ "]") = Some (w :: ws, "").
Proof.
  revert w fuel. induction ws as [|w' ws IH]; intros w [|fuel] [Hw Hws]%Forall_cons; cbn [length]; try lia.
  - intros _. change (Join (json_quote <$> [w]) ",") with (json_quote w).
    cbn [json_elements]. by rewrite json_element_plain.
  - intros Hf. rewrite Join_quotes, !sapp_assoc. cbn [json_elements].
    rewrite json_element_plain by done. cbn [mbind option_bind].
    change (skip_space ("," +:+ ?s)) with (String "," s). cbv iota beta.
    rewrite bool_decide_true by done. rewrite (IH w' fuel); [done|done|lia].
Qed.

Lemma length_Join_quotes w ws : length ws < String.length (Join (json_quote <$> w :: ws) "," +:+ "]").
Proof.
  revert w. induction ws as [|w' ws IH]; intros w; rewrite slength_app; cbn [length String.length]; [lia|].
  specialize (IH w'). rewrite slength_app in IH. rewrite Join_quotes, !slength_app.
  cbn [String.length] in *. lia.
Qed.

(** A list of plain strings is read back from its document. *)
Lemma unmarshal_document ws : Forall (λ w, sforall plain_byte w = true) ws →
  unmarshal_strings (json_document ws) = Some ws.
Proof.
  intros Hws. unfold unmarshal_strings, json_document. destruct ws as [|w ws]; [done|].
  change (skip_space ("[" +:+ ?s)) with (String "[" s). cbv iota beta.
  rewrite bool_decide_true by done. unfold json_array.
  assert (∃ s, Join (json_quote <$> w :: ws) "," +:+ "]" = String (ascii_of_N 34) s) as [s E].
  { destruct ws as [|w' ws]; [by eexists|]. rewrite Join_quotes, !sapp_assoc. by eexists. }
  rewrite E at 1. change (skip_space (String (ascii_of_N 34) s)) with (String (ascii_of_N 34) s).
  cbv iota beta. rewrite bool_decide_false by done.
  by rewrite json_elements_plain by (done || apply length_Join_quotes).
Qed.
