(* ===== verification/Regex.v ===== *)
(** * Regular expressions

    The part of Go's [regexp] package the modelled code uses: leftmost-first
    matching of patterns built from byte classes, concatenation, alternation,
    greedy and lazy repetition and named groups.  [mtch] tries the alternatives
    in the order Go prefers them; [M] is the relation of all the ways a pattern
    can match, and [mtch_sound], [mtch_complete] relate the two. *)
From S2P Require Import Prelude GoStrings.

(** ** Patterns and the matcher *)

Inductive regex :=
| Eps
| Chr (p : ascii → bool)
| Seq (a b : regex)
| Alt (a b : regex)
| Star (greedy : bool) (a : regex)
| Group (name : string) (a : regex).

(** The text each named group matched last. *)
Definition caps := gmap string string.

(** The bytes of [s] in front of its suffix [s']. *)
Fixpoint take_bytes (n : nat) (s : string) : string :=
  match n, s with
  | S n, String c s => String c (take_bytes n s)
  | _, _ => ""
  end.

Definition consumed (s s' : string) : string :=
  take_bytes (String.length s - String.length s') s.

Fixpoint mtch {R} (r : regex) (k : string → caps → option R)
    (s : string) (cs : caps) {struct r} : option R :=
  match r with
  | Eps => k s cs
  | Chr p =>
      match s with
      | String c s' => if p c then k s' cs else None
      | EmptyString => None
      end
  | Seq a b => mtch a (mtch b k) s cs
  | Alt a b =>
      match mtch a k s cs with
      | Some x => Some x
      | None => mtch b k s cs
      end
  | Star greedy a =>
      (fix loop (fuel : nat) (s : string) (cs : caps) : option R :=
         match fuel with
         | O => k s cs
         | S fuel =>
             let again (_ : unit) :=
               mtch a (λ s' cs',
                 if Nat.ltb (String.length s') (String.length s)
                 then loop fuel s' cs' else None) s cs in
             if greedy then
               match again tt with Some x => Some x | None => k s cs end
             else
               match k s cs with Some x => Some x | None => again tt end
         end) (String.length s) s cs
  | Group name a => mtch a (λ s' cs', k s' (<[name := consumed s s']> cs')) s cs
  end.

(** Abbreviations for the notation of patterns. *)
Definition opt (a : regex) : regex := Alt a Eps.
Definition plus (p : ascii → bool) : regex := Seq (Chr p) (Star true (Chr p)).
Definition byte (c : ascii) : regex := Chr (λ x, bool_decide (x = c)).
Fixpoint lit (s : string) : regex :=
  match s with EmptyString => Eps | String c s => Seq (byte c) (lit s) end.

Definition newline : ascii := ascii_of_nat 10.

(** [.] *)
Definition any : ascii → bool := λ c, negb (bool_decide (c = newline)).

Definition in_range (lo hi : ascii) (c : ascii) : bool :=
  Nat.leb (nat_of_ascii lo) (nat_of_ascii c) && Nat.leb (nat_of_ascii c) (nat_of_ascii hi).

Definition digit_class : ascii → bool := in_range "0" "9".
Definition alnum_class : ascii → bool :=
  λ c, in_range "a" "z" c || in_range "A" "Z" c || in_range "0" "9" c.

(** [[_a-zA-Z0-9.-]]. *)
Definition name_class : ascii → bool :=
  λ c, alnum_class c || bool_decide (c ∈ ["_"; "."; "-"]%char).

(** ** Searching *)

(** What a match at the front of [s] yields: the whole text and the groups. *)
Definition match_prefix (r : regex) (s : string) : option (string * caps) :=
  mtch r (λ s' cs, Some (consumed s s', cs)) s ∅.

(** [FindAllStringSubmatch(s, -1)], for a pattern with no empty match. *)
Definition FindAll (r : regex) (s : string) : list (string * caps) :=
  hits (scan (λ t, m ← match_prefix r t; Some (m, String.length m.1)) s 0).

Definition FindAllString (r : regex) (s : string) : list string := (FindAll r s).*1.

(** [FindString]: the leftmost match, the empty string when there is none. *)
Definition FindString (r : regex) (s : string) : string :=
  default "" (head (FindAllString r s)).

(** [ReplaceAllString(s, repl)] for a replacement with no [$]. *)
Definition ReplaceAllString (r : regex) (s repl : string) : string :=
  render (λ _, repl) (scan (λ t, m ← match_prefix r t; Some (m, String.length m.1)) s 0).

(** [MatchString] for a pattern [^r$]. *)
Definition full_match (r : regex) (s : string) : bool :=
  bool_decide (is_Some (mtch r (λ s' _, if bool_decide (s' = "") then Some tt else None) s ∅)).

(** [MatchString] for a pattern without anchors. *)
Fixpoint MatchString (r : regex) (s : string) : bool :=
  bool_decide (is_Some (match_prefix r s)) ||
  match s with EmptyString => false | String _ s => MatchString r s end.

(** ** All the ways to match *)

Inductive M : regex → string → caps → string → caps → Prop :=
| M_eps s cs : M Eps s cs s cs
| M_chr p c s cs : p c = true → M (Chr p) (String c s) cs s cs
| M_seq a b s cs s1 cs1 s2 cs2 :
    M a s cs s1 cs1 → M b s1 cs1 s2 cs2 → M (Seq a b) s cs s2 cs2
| M_alt_l a b s cs s' cs' : M a s cs s' cs' → M (Alt a b) s cs s' cs'
| M_alt_r a b s cs s' cs' : M b s cs s' cs' → M (Alt a b) s cs s' cs'
| M_star_stop g a s cs : M (Star g a) s cs s cs
| M_star_step g a s cs s1 cs1 s2 cs2 :
    M a s cs s1 cs1 → String.length s1 < String.length s →
    M (Star g a) s1 cs1 s2 cs2 → M (Star g a) s cs s2 cs2
| M_group n a s cs s' cs' :
    M a s cs s' cs' → M (Group n a) s cs s' (<[n := consumed s s']> cs').

(** A match found is a match. *)
Lemma mtch_sound {R} r (k : string → caps → option R) s cs x :
  mtch r k s cs = Some x → ∃ s' cs', M r s cs s' cs' ∧ k s' cs' = Some x.
Proof.
  revert k s cs. induction r as [|p|a IHa b IHb|a IHa b IHb|g a IH|n a IH]; intros k s cs; simpl.
  - eauto using M.
  - destruct s as [|c s]; [done|]. destruct (p c) eqn:E; [|done]. eauto using M.
  - intros (s1 & cs1 & H1 & (s2 & cs2 & H2 & Hk)%IHb)%IHa. eauto using M.
  - destruct (mtch a k s cs) eqn:E; intros H; simplify_eq.
    + destruct (IHa _ _ _ E) as (?&?&?&?). eauto using M.
    + destruct (IHb _ _ _ H) as (?&?&?&?). eauto using M.
  - generalize (String.length s) as fuel. intros fuel. revert s cs.
    induction fuel as [|fuel IHf]; intros s cs; [eauto using M|].
    set (again := mtch a _ s cs).
    assert (Hag : again = Some x → ∃ s' cs', M (Star g a) s cs s' cs' ∧ k s' cs' = Some x).
    { intros (s1 & cs1 & H1 & H2)%IH. destruct (Nat.ltb_spec (String.length s1) (String.length s)); [|done].
      destruct (IHf _ _ H2) as (s2 & cs2 & ? & ?). eauto using M. }
    destruct g.
    + destruct again; [intros [= ->]; auto|]. eauto using M.
    + destruct (k s cs) eqn:E; [intros [= ->]; eauto using M|]. auto.
  - intros (s' & cs' & ? & ?)%IH. eauto using M.
Qed.

(** When no match is found the continuation rejects every match. *)
Lemma mtch_complete {R} r (k : string → caps → option R) s cs s' cs' :
  mtch r k s cs = None → M r s cs s' cs' → k s' cs' = None.
Proof.
  revert k s cs s' cs'.
  induction r as [|p|a IHa b IHb|a IHa b IHb|g a IH|n a IH]; intros k s cs s' cs'; simpl.
  - intros Hm HM. by inversion HM; subst.
  - intros Hm HM. inversion HM as [|? ? ? ? Hp| | | | | |]; subst. by rewrite Hp in Hm.
  - intros Hm HM. inversion HM; subst. eapply IHb; [|done]. by eapply (IHa (mtch b k)).
  - destruct (mtch a k s cs) eqn:E; [done|]. intros Hm HM. inversion HM; subst; eauto.
  - assert (Hf : String.length s ≤ String.length s) by done.
    revert Hf. generalize (String.length s) at 2 3 as fuel. intros fuel.
    revert s cs. induction fuel as [|fuel IHf]; intros s cs Hle Hm HM.
    { inversion HM; subst; [done|lia]. }
    assert (mtch a (λ s'0 cs'0, if Nat.ltb (String.length s'0) (String.length s)
       then (fix loop (fuel : nat) (s : string) (cs : caps) : option R :=
         match fuel with
         | O => k s cs
         | S fuel =>
             let again (_ : unit) :=
               mtch a (λ s' cs',
                 if Nat.ltb (String.length s') (String.length s)
                 then loop fuel s' cs' else None) s cs in
             if g then
               match again tt with Some x => Some x | None => k s cs end
             else
               match k s cs with Some x => Some x | None => again tt end
         end) fuel s'0 cs'0 else None) s cs = None ∧ k s cs = None) as [Ha Hk].
    { destruct g; simpl in Hm.
      - destruct (mtch a _ s cs); [done|]. done.
      - destruct (k s cs); [done|]. done. }
    inversion HM; subst; [done|].
    eapply (IHf s1 cs1); [lia| |done].
    pose proof (IH _ _ _ _ _ Ha ltac:(eassumption)) as H'. simpl in H'.
    destruct (Nat.ltb_spec (String.length s1) (String.length s)); [done|lia].
  - intros Hm HM. inversion HM; subst. by eapply (IH (λ s' cs', k s' (<[n:=consumed s s']> cs'))).
Qed.

(** ** Consequences *)

Lemma M_suffix r s cs s' cs' : M r s cs s' cs' → ∃ u, s = u +:+ s'.
Proof.
  induction 1; try (by exists ""); try done.
  - by exists (String c "").
  - destruct IHM1 as [u1 ->], IHM2 as [u2 ->]. exists (u1 +:+ u2). by rewrite sapp_assoc.
  - destruct IHM1 as [u1 ->], IHM2 as [u2 ->]. exists (u1 +:+ u2). by rewrite sapp_assoc.
Qed.

Lemma full_match_iff r s : full_match r s = true ↔ ∃ cs', M r s ∅ "" cs'.
Proof.
  unfold full_match. rewrite bool_decide_eq_true. split.
  - intros [[] (s' & cs' & HM & Hk)%mtch_sound]. case_bool_decide; [|done]. subst. eauto.
  - intros [cs' HM]. destruct (mtch r _ s ∅) as [x|] eqn:E; [eauto|].
    eapply (mtch_complete _ _ _ _ _ _ E) in HM. by rewrite bool_decide_true in HM.
Qed.

Lemma consumed_app u s : consumed (u +:+ s) s = u.
Proof.
  unfold consumed. rewrite slength_app, Nat.add_sub.
  induction u as [|c u IH]; simpl; [by destruct s|]. by rewrite IH.
Qed.

Lemma match_prefix_sound r s m cs :
  match_prefix r s = Some (m, cs) → ∃ s', s = m +:+ s' ∧ M r s ∅ s' cs.
Proof.
  intros (s' & cs' & HM & [= <- <-])%mtch_sound.
  destruct (M_suffix _ _ _ _ _ HM) as [u ->]. exists s'. by rewrite consumed_app.
Qed.

Lemma match_prefix_None r s s' cs : match_prefix r s = None → ¬ M r s ∅ s' cs.
Proof. intros E HM. eapply (mtch_complete _ _ _ _ _ _ E) in HM. done. Qed.

(** *** Evaluating a match *)

Section eval.
Context {R : Type} (k : string → caps → option R) (cs : caps).

Lemma mtch_byte c s : mtch (byte c) k (String c s) cs = k s cs.
Proof. simpl. by rewrite bool_decide_true. Qed.

Lemma mtch_byte_ne c d s : c ≠ d → mtch (byte c) k (String d s) cs = None.
Proof. intros Hn. simpl. by rewrite bool_decide_false. Qed.

Lemma mtch_lit u s : mtch (lit u) k (u +:+ s) cs = k s cs.
Proof. revert s. induction u as [|c u IH]; intros s; simpl; [done|]. rewrite bool_decide_true by done. apply IH. Qed.

(** Literal text that is not there. *)
Lemma mtch_lit_None u s : strip_prefix u s = None → mtch (lit u) k s cs = None.
Proof.
  revert s. induction u as [|c u IH]; intros s; simpl; [done|].
  destruct s as [|d s]; simpl; [done|]. case_decide; case_bool_decide; simplify_eq; try done. apply IH.
Qed.

End eval.

Definition star_loop {R} (greedy : bool) (a : regex) (k : string → caps → option R) :=
  fix loop (fuel : nat) (s : string) (cs : caps) : option R :=
    match fuel with
    | O => k s cs
    | S fuel =>
        let again (_ : unit) :=
          mtch a (λ s' cs',
            if Nat.ltb (String.length s') (String.length s)
            then loop fuel s' cs' else None) s cs in
        if greedy then
          match again tt with Some x => Some x | None => k s cs end
        else
          match k s cs with Some x => Some x | None => again tt end
    end.

Lemma mtch_star {R} g a (k : string → caps → option R) s cs :
  mtch (Star g a) k s cs = star_loop g a k (String.length s) s cs.
Proof. done. Qed.

Lemma ltb_succ n : Nat.ltb n (S n) = true.
Proof. apply Nat.ltb_lt. lia. Qed.

(** A greedy run over a class takes everything up to the first byte outside it
    when the rest of the pattern accepts there. *)
Lemma mtch_greedy_class {R} p (k : string → caps → option R) u t cs x :
  sforall p u = true → k t cs = Some x →
  match t with String c _ => p c = false | EmptyString => True end →
  mtch (Star true (Chr p)) k (u +:+ t) cs = Some x.
Proof.
  intros Hu Hk Ht. rewrite mtch_star.
  assert (String.length (u +:+ t) ≤ String.length (u +:+ t)) as Hle by done.
  revert Hle. generalize (String.length (u +:+ t)) at 2 3 as fuel. intros fuel. revert fuel.
  induction u as [|c u IH]; intros fuel Hle; simpl in *.
  - destruct fuel as [|fuel]; simpl; [done|]. destruct t as [|c t]; [done|]. by rewrite Ht.
  - destruct fuel as [|fuel]; [simpl in Hle; lia|].
    apply andb_true_iff in Hu as [Hc Hu]. simpl. rewrite Hc, ltb_succ, IH; [done..|].
    simpl in Hle. lia.
Qed.

(** A lazy run takes bytes one by one until the rest of the pattern accepts. *)
Lemma mtch_lazy_class {R} p (k : string → caps → option R) u t cs x :
  sforall p u = true → k t cs = Some x →
  (∀ u1 c u2, u = u1 +:+ String c u2 → k (String c u2 +:+ t) cs = None) →
  mtch (Star false (Chr p)) k (u +:+ t) cs = Some x.
Proof.
  intros Hu Hk Hn. rewrite mtch_star.
  assert (String.length (u +:+ t) ≤ String.length (u +:+ t)) as Hle by done.
  revert Hle. generalize (String.length (u +:+ t)) at 2 3 as fuel. intros fuel. revert fuel.
  induction u as [|c u IH]; intros fuel Hle; simpl in *.
  - destruct fuel as [|fuel]; simpl; [done|]. by rewrite Hk.
  - destruct fuel as [|fuel]; [simpl in Hle; lia|].
    apply andb_true_iff in Hu as [Hc Hu]. simpl.
    rewrite (Hn "" c u eq_refl), Hc, ltb_succ, IH; [done|done| |simpl in Hle; lia].
    intros u1 d u2 ->. by apply (Hn (String c u1)).
Qed.

(** It fails when the rest accepts nowhere. *)
Lemma mtch_star_None {R} g p (k : string → caps → option R) s cs :
  (∀ u t, s = u +:+ t → sforall p u = true → k t cs = None) →
  mtch (Star g (Chr p)) k s cs = None.
Proof.
  intros Hn. destruct (mtch _ _ _ _) as [x|] eqn:E; [|done].
  apply mtch_sound in E as (s' & cs' & HM & Hk).
  assert (∃ u, s = u +:+ s' ∧ sforall p u = true ∧ cs' = cs) as (u & -> & Hu & ->).
  { clear -HM. remember (Star g (Chr p)) as r eqn:Er. induction HM; simplify_eq.
    - by exists "".
    - inversion HM1 as [|? ? ? ? Hc| | | | | |]; subst.
      destruct IHHM2 as (u & -> & Hu & ->); [done|].
      exists (String c u). simpl. by rewrite Hc, Hu. }
  by rewrite (Hn u s') in Hk.
Qed.

(** The matcher depends on its continuation extensionally. *)
Lemma mtch_ext {R} r (k1 k2 : string → caps → option R) s cs :
  (∀ s cs, k1 s cs = k2 s cs) → mtch r k1 s cs = mtch r k2 s cs.
Proof.
  revert k1 k2 s cs. induction r as [|p|a IHa b IHb|a IHa b IHb|g a IH|n a IH];
    intros k1 k2 s cs Hk; simpl.
  - apply Hk.
  - destruct s as [|c s]; [done|]. by rewrite Hk.
  - apply IHa. intros. by apply IHb.
  - rewrite (IHa k1 k2), (IHb k1 k2) by done. done.
  - generalize (String.length s) as fuel. intros fuel. revert s cs.
    induction fuel as [|fuel IHf]; intros s cs; [apply Hk|]. rewrite Hk.
    erewrite IH; [done|]. intros s' cs'. simpl. by rewrite IHf.
  - apply IH. intros. by rewrite Hk.
Qed.
