(* ===== verification/FieldErrors.v ===== *)
(** * Validation errors

    [knative.dev/pkg/apis.FieldError], in the form its [normalized] method gives:
    a [*FieldError] is the list of its diagnostics, nil the empty list.  [Also]
    is then concatenation, and [ViaField] extends the path of every diagnostic. *)
From S2P Require Import Prelude GoStrings.

Record diagnostic := Diagnostic {
  Message : string;
  Paths : list string;
  Details : string
}.

#[export] Instance diagnostic_eq_dec : EqDecision diagnostic.
Proof. solve_decision. Defined.

Definition FieldError := list diagnostic.

Definition Also (fe errs : FieldError) : FieldError := fe ++ errs.

Definition isIndex (part : string) : bool := HasPrefix part "[" && HasSuffix part "]".

(** [flatten]: drop the empty components and glue an index to what precedes it. *)
Definition flatten (path : list string) : string :=
  Join (foldl (λ newPath p,
      if bool_decide (p = "") then newPath
      else match reverse newPath with
           | last :: front =>
               if isIndex p then reverse ((last +:+ p) :: front) else newPath ++ [p]
           | [] => newPath ++ [p]
           end) [] (path ≫= λ part, Split part "."%char)) ".".

Definition ViaField (prefix : string) (fe : FieldError) : FieldError :=
  (λ d, Diagnostic (Message d) ((λ old, flatten [prefix; old]) <$> Paths d) (Details d)) <$> fe.

Definition ViaKey (key : string) : FieldError → FieldError := ViaField ("[" +:+ key +:+ "]").
Definition ViaIndex (i : Z) : FieldError → FieldError := ViaField ("[" +:+ Itoa i +:+ "]").
Definition ViaFieldKey (field key : string) (fe : FieldError) : FieldError :=
  ViaField field (ViaKey key fe).
Definition ViaFieldIndex (field : string) (i : Z) (fe : FieldError) : FieldError :=
  ViaField field (ViaIndex i fe).

(** [apis.ErrGeneric(diagnostic, fieldPaths...)]. *)
Definition ErrGeneric (msg : string) (paths : list string) : FieldError :=
  [Diagnostic msg paths ""].

Definition ErrMissingField (paths : list string) : FieldError :=
  [Diagnostic "missing field(s)" paths ""].

Definition ErrDisallowedFields (paths : list string) : FieldError :=
  [Diagnostic "must not set the field(s)" paths ""].

Definition ErrMultipleOneOf (paths : list string) : FieldError :=
  [Diagnostic "expected exactly one, got both" paths ""].

Definition ErrMissingOneOf (paths : list string) : FieldError :=
  [Diagnostic "expected exactly one, got neither" paths ""].

(** [apis.ErrInvalidValue(value, fieldPath, details...)], the value printed. *)
Definition ErrInvalidValue (value path details : string) : FieldError :=
  [Diagnostic ("invalid value: " +:+ value) [path] details].

Lemma ViaField_nil prefix fe : ViaField prefix fe = [] ↔ fe = [].
Proof. unfold ViaField. by destruct fe. Qed.

Lemma ViaFieldKey_nil field key fe : ViaFieldKey field key fe = [] ↔ fe = [].
Proof. unfold ViaFieldKey, ViaKey. by rewrite !ViaField_nil. Qed.

Lemma ViaFieldIndex_nil field i fe : ViaFieldIndex field i fe = [] ↔ fe = [].
Proof. unfold ViaFieldIndex, ViaIndex. by rewrite !ViaField_nil. Qed.

Lemma Also_nil fe errs : Also fe errs = [] ↔ fe = [] ∧ errs = [].
Proof. apply app_nil. Qed.

#[export] Hint Rewrite ViaField_nil ViaFieldKey_nil ViaFieldIndex_nil Also_nil : tekton.
