(* ===== verification/Substitution.v ===== *)
(** * Variable substitution

    [pkg/substitution/substitution.go]: the patterns that find [$(prefix.name)]
    references, their validation, and the replacement of references by values.

    A prefix such as [params], [step.results] or [context\.pipeline] is itself a
    piece of a pattern; [prefix_regex] reads one made of name characters, [.] and
    escaped characters, which are the ones the callers pass, so compiling the
    pattern never fails. *)
From S2P Require Import Prelude GoStrings Regex FieldErrors.

(** ** Patterns *)

Fixpoint prefix_regex (s : string) : regex :=
  match s with
  | EmptyString => Eps
  | String c s' =>
      if bool_decide (c = "\"%char) then
        match s' with
        | String d s'' => Seq (byte d) (prefix_regex s'')
        | EmptyString => Eps
        end
      else if bool_decide (c = "."%char) then Seq (Chr any) (prefix_regex s')
      else Seq (byte c) (prefix_regex s')
  end.

Definition parameterSubstitution : regex :=
  Seq (Star false (Chr any)) (opt (lit "[*]")).

Definition braceMatchingRegex (prefix name : regex) : regex :=
  Seq (lit "$(") (Seq prefix (Seq
    (Alt (Seq (byte ".") (Group "var1" name))
    (Alt (Seq (lit ("[" +:+ dquote)) (Seq (Group "var2" name) (lit (dquote +:+ "]"))))
         (Seq (lit "['") (Seq (Group "var3" name) (lit "']")))))
    (byte ")"))).

Definition arrayIndexing : regex :=
  Seq (byte "[") (Seq (Star true (Chr digit_class)) (Seq (opt (byte "*")) (byte "]"))).

(** The class [[_a-zA-Z0-9.-\/]]: [.-\/] is the range of [.] and [/]. *)
Definition bracket_class : ascii → bool :=
  λ c, bool_decide (c = "_"%char) || alnum_class c || in_range "." "/" c.

Definition intIndex : regex := Seq (byte "[") (Seq (plus digit_class) (byte "]")).

Definition paramIndexing : regex :=
  Seq (lit "$(params") (Seq
    (Alt (Seq (byte ".") (plus name_class))
    (Alt (Seq (lit "['") (Seq (plus bracket_class) (lit "']")))
         (Seq (lit ("[" +:+ dquote)) (Seq (plus bracket_class) (lit (dquote +:+ "]"))))))
    (Seq intIndex (byte ")"))).

Definition reference_regex (prefix : string) : regex :=
  braceMatchingRegex (prefix_regex prefix) parameterSubstitution.

(** ** Extraction *)

(** [TrimArrayIndex]. *)
Definition TrimArrayIndex (s : string) : string := ReplaceAllString arrayIndexing s "".

(** [matchGroups], looked up: a group that did not take part is empty. *)
Definition matchGroups (groups : caps) (name : string) : string := default "" (groups !! name).

Definition extractExpressionFromString (s prefix : string) : string :=
  FindString (reference_regex prefix) s.

(** The loop body of [ExtractVariablesFromString] for one match: the variable,
    or [None] when the dot notation has more than two components. *)
Definition extract_variable (groups : caps) : option string :=
  let val1 := matchGroups groups "var1" in
  if Contains val1 "." then
    if bool_decide (2 < length (Split val1 ".")) then None
    else Some (default "" (head (Split val1 ".")))
  else if bool_decide (val1 ≠ "") then Some val1
  else
    let val2 := matchGroups groups "var2" in
    if bool_decide (val2 ≠ "") then Some val2
    else Some (matchGroups groups "var3").

(** The loop over the matches: the variables after the first offending match
    keep the empty string [make] gave them. *)
Fixpoint extract_loop (matches : list caps) : list string * bool :=
  match matches with
  | [] => ([], true)
  | m :: ms =>
      match extract_variable m with
      | None => ("" :: ((λ _, "") <$> ms), false)
      | Some v => let '(vs, ok) := extract_loop ms in (v :: vs, ok)
      end
  end.

Definition invalid_reference_msg (s prefix : string) : string :=
  "Invalid referencing of parameters in " +:+ dquote +:+ s +:+ dquote +:+
  "! Only two dot-separated components after the prefix " +:+ dquote +:+ prefix +:+ dquote +:+
  " are allowed.".

Definition ExtractVariablesFromString (s prefix : string) : list string * bool * string :=
  let matches := (FindAll (reference_regex prefix) s).*2 in
  match matches with
  | [] => ([], false, "")
  | _ =>
      let '(vs, ok) := extract_loop matches in
      (vs, true, if ok then "" else invalid_reference_msg s prefix)
  end.

Definition extract_entire (groups : caps) : string :=
  let val1 := matchGroups groups "var1" in
  if bool_decide (val1 ≠ "") then val1
  else let val2 := matchGroups groups "var2" in
  if bool_decide (val2 ≠ "") then val2
  else matchGroups groups "var3".

Definition extractEntireVariablesFromString (s prefix : string) : list string :=
  extract_entire <$> (FindAll (reference_regex prefix) s).*2.

Definition ExtractVariableExpressions (s prefix : string) : list string :=
  FindAllString (reference_regex prefix) s.

Definition ExtractArrayIndexingParamsExpressions (s : string) : list string :=
  FindAllString paramIndexing s.

Definition ExtractIndexString (s : string) : string := FindString intIndex s.

Definition ExtractIndex (s : string) : Z * bool :=
  Atoi (TrimSuffix (TrimPrefix s "[") "]").

Definition StripStarVarSubExpression (s : string) : string :=
  TrimSuffix (TrimSuffix (TrimPrefix s "$(") ")") "[*]".

(** ** Validation *)

(** The path of every diagnostic below is the empty path. *)
Definition bad_value (msg : string) : FieldError := [Diagnostic msg [""] ""].

(** The first variable of [vs] that [bad] holds for makes an error. *)
Fixpoint first_bad (trim : string → string) (bad : string → bool) (msg : string → string)
    (vs : list string) : FieldError :=
  match vs with
  | [] => []
  | v :: vs => let v := trim v in if bad v then bad_value (msg v) else first_bad trim bad msg vs
  end.

Definition validateNoReferencesToUnknownVariables (value prefix : string)
    (vars : gset string) (withDetail : bool) : FieldError :=
  let '(vs, present, errString) := ExtractVariablesFromString value prefix in
  if present then
    if bool_decide (errString ≠ "") then bad_value errString
    else first_bad TrimArrayIndex (λ v, negb (bool_decide (v ∈ vars)))
           (λ v, if withDetail
                 then "non-existent variable `" +:+ v +:+ "` in " +:+ Quote value
                 else "non-existent variable in " +:+ Quote value) vs
  else [].

Definition ValidateNoReferencesToUnknownVariables (value prefix : string)
    (vars : gset string) : FieldError :=
  validateNoReferencesToUnknownVariables value prefix vars false.

Definition ValidateNoReferencesToUnknownVariablesWithDetail (value prefix : string)
    (vars : gset string) : FieldError :=
  validateNoReferencesToUnknownVariables value prefix vars true.

Definition ValidateNoReferencesToProhibitedVariables (value prefix : string)
    (vars : gset string) : FieldError :=
  let '(vs, present, errString) := ExtractVariablesFromString value prefix in
  if present then
    if bool_decide (errString ≠ "") then bad_value errString
    else first_bad (λ v, TrimSuffix v "[*]") (λ v, bool_decide (v ∈ vars))
           (λ _, "variable type invalid in " +:+ Quote value) vs
  else [].

Definition ValidateNoReferencesToEntireProhibitedVariables (value prefix : string)
    (vars : gset string) : FieldError :=
  first_bad (λ v, TrimSuffix v "[*]") (λ v, bool_decide (v ∈ vars))
    (λ _, "variable type invalid in " +:+ Quote value)
    (extractEntireVariablesFromString value prefix).

Definition ValidateVariableReferenceIsIsolated (value prefix : string)
    (vars : gset string) : FieldError :=
  let '(vs, present, errString) := ExtractVariablesFromString value prefix in
  if present then
    if bool_decide (errString ≠ "") then bad_value errString
    else
      let firstMatch := extractExpressionFromString value prefix in
      first_bad (λ v, TrimSuffix v "[*]")
        (λ v, bool_decide (v ∈ vars) &&
              negb (bool_decide (String.length value = String.length firstMatch)))
        (λ _, "variable is not properly isolated in " +:+ Quote value) vs
  else [].

Definition ValidateWholeArrayOrObjectRefInStringVariable (name value prefix : string)
    (vars : gset string) : bool * FieldError :=
  let nameSubstitution := Seq (plus name_class) (lit "[*]") in
  if full_match (braceMatchingRegex (prefix_regex prefix) nameSubstitution) value
  then (true, ViaFieldKey prefix name (ValidateNoReferencesToUnknownVariables value prefix vars))
  else (false, []).

(** ** Replacement *)

(** [$(key)]. *)
Definition reference (key : string) : string := "$(" +:+ key +:+ ")".
#[global] Arguments reference : simpl never.

(** [ApplyReplacements]: the [Replacer] is built from the map in whatever order
    the [range] visits it. *)
Definition ApplyReplacements `{MapOrder} (s : string) (replacements : gmap string string) : string :=
  Replace ((λ kv, (reference kv.1, kv.2)) <$> range_map replacements) s.

Definition exactly (s sub : string) : bool :=
  bool_decide (Count s sub = 1) && bool_decide (String.length s = String.length sub).

Fixpoint array_lookup (arrays : list (string * list string)) (s : string) : option (list string) :=
  match arrays with
  | [] => None
  | (k, v) :: arrays =>
      if exactly s (reference k) then Some v
      else if exactly s (reference (k +:+ "[*]")) then Some v
      else array_lookup arrays s
  end.

Definition ApplyArrayReplacements `{MapOrder} (s : string)
    (stringReplacements : gmap string string)
    (arrayReplacements : gmap string (list string)) : list string :=
  match array_lookup (range_map arrayReplacements) s with
  | Some v => v
  | None => [ApplyReplacements s stringReplacements]
  end.

(** ** Replacement: lemmas *)

Lemma scan_hit_inv {A} (f : string → option (A * nat)) s n a :
  a ∈ hits (scan f s n) → ∃ u t m, s = u +:+ t ∧ f t = Some (a, m).
Proof.
  revert n. induction s as [|c s IH]; intros n; simpl; [by intros ?%elem_of_nil|].
  destruct n as [|n].
  - destruct (f (String c s)) as [[b m]|] eqn:E; simpl.
    + intros [-> |Ha]%elem_of_cons; [by exists "", (String c s), m|].
      destruct (IH _ Ha) as (u & t & m' & -> & Ht). by exists (String c u), t, m'.
    + intros Ha. destruct (IH _ Ha) as (u & t & m & -> & Ht). by exists (String c u), t, m.
  - intros Ha. destruct (IH _ Ha) as (u & t & m & -> & Ht). by exists (String c u), t, m.
Qed.

Lemma slength_zero (u : string) : String.length u = 0 → u = "".
Proof. by destruct u. Qed.

(** The two conditions of [ApplyArrayReplacements] say that the strings are equal. *)
Lemma exactly_iff s sub : sub ≠ "" → exactly s sub = true ↔ s = sub.
Proof.
  intros Hne. unfold exactly. rewrite andb_true_iff, !bool_decide_eq_true. split.
  - unfold Count. intros [Hc Hl].
    destruct (hits _) as [|a hs] eqn:E; [done|].
    assert (a ∈ a :: hs) as Ha by left. rewrite <-E in Ha.
    apply scan_hit_inv in Ha as (u & t & m & -> & Ht).
    destruct (strip_prefix sub t) as [r|] eqn:Es; [|done].
    apply strip_prefix_Some in Es as ->. rewrite !slength_app in Hl.
    rewrite (slength_zero u), (slength_zero r) by lia. apply sapp_nil_r.
  - intros ->. split; [|done]. unfold Count.
    pose proof (scan_hit (λ s, (λ _, (tt, String.length sub)) <$> strip_prefix sub s) sub "" tt Hne) as Hs.
    rewrite sapp_nil_r in Hs. rewrite Hs; [done|].
    pose proof (strip_prefix_app sub "") as Hp. rewrite sapp_nil_r in Hp. by rewrite Hp.
Qed.

Lemma reference_nonempty k : reference k ≠ "".
Proof. done. Qed.

Lemma reference_inj k1 k2 : reference k1 = reference k2 → k1 = k2.
Proof.
  unfold reference. simpl. intros [= H].
  apply (f_equal (λ s, TrimSuffix s ")")) in H. by rewrite !TrimSuffix_app in H.
Qed.

Definition plain_key (k : string) : Prop := sforall (not_byte ")") k = true.

Lemma strip_reference k s : is_Some (strip_prefix (reference k) s) ↔ ∃ t, s = "$(" +:+ k +:+ String ")" t.
Proof.
  unfold is_Some. setoid_rewrite strip_prefix_Some. unfold reference.
  by setoid_rewrite sapp_assoc; setoid_rewrite sapp_assoc.
Qed.

Section replacements.
Context `{MapOrder} (m : gmap string string).

Definition replacer_pairs : list (string * string) :=
  (λ kv, (reference kv.1, kv.2)) <$> range_map m.

Lemma elem_of_replacer_pairs old new :
  (old, new) ∈ replacer_pairs ↔ ∃ k, old = reference k ∧ m !! k = Some new.
Proof.
  unfold replacer_pairs. rewrite list_elem_of_fmap. split.
  - intros ([k v] & [= -> ->] & Hin). rewrite elem_of_range_map in Hin. eauto.
  - intros (k & -> & Hk). exists (k, new). by rewrite elem_of_range_map.
Qed.

Hypothesis Hplain : ∀ k v, m !! k = Some v → plain_key k.

Lemma replacer_exclusive : exclusive replacer_pairs.
Proof.
  intros [o1 n1] [o2 n2] s H1 H2 Hs1 Hs2.
  apply elem_of_replacer_pairs in H1 as (k1 & -> & Hk1).
  apply elem_of_replacer_pairs in H2 as (k2 & -> & Hk2). cbn [fst] in Hs1, Hs2.
  apply strip_reference in Hs1 as [t1 ->]. apply strip_reference in Hs2 as [t2 Heq].
  simpl in Heq. simplify_eq/=.
  apply split_at_byte in Heq as [-> _]; [congruence|by eapply Hplain..].
Qed.

(** What stands at a reference [$(k)]: its value when there is one. *)
Lemma first_match_reference k t : plain_key k →
  first_match replacer_pairs (reference k +:+ t)
    = (λ v, (v, String.length (reference k))) <$> m !! k.
Proof.
  intros Hk. destruct (m !! k) as [v|] eqn:E.
  - apply (first_match_Some _ _ (reference k, v) replacer_exclusive).
    + apply elem_of_replacer_pairs. eauto.
    + cbn [fst]. rewrite strip_prefix_app. eauto.
  - apply first_match_None. intros [o n] (k' & -> & Hk')%elem_of_replacer_pairs Hs. cbn [fst] in Hs.
    apply strip_reference in Hs as [t' Heq]. unfold reference in Heq.
    rewrite !sapp_assoc in Heq. simpl in Heq. simplify_eq/=.
    apply split_at_byte in Heq as [-> _]; [congruence|done|by eapply Hplain].
Qed.

Lemma first_match_not_dollar c s : not_byte "$" c = true →
  first_match replacer_pairs (String c s) = None.
Proof.
  intros Hc. apply first_match_None. intros [o n] (k & -> & _)%elem_of_replacer_pairs Hs. cbn [fst] in Hs.
  apply strip_reference in Hs as [t Heq]. simplify_eq/=.
Qed.

End replacements.
