(* ===== verification/SubstitutionSpec.v ===== *)
(** * Variable substitution: what it does

    A text is a sequence of literal pieces and references.  The theorems say
    what [substitution.go] makes of such a text: which variables it finds, which
    texts it accepts, and what replacing gives. *)
From S2P Require Import Prelude GoStrings Regex FieldErrors Substitution.

(** ** Texts *)

Inductive segment := Text (t : string) | Ref (k : string).

Definition show_segment (g : segment) : string :=
  match g with Text t => t | Ref k => reference k end.

Fixpoint show (gs : list segment) : string :=
  match gs with [] => "" | g :: gs => show_segment g +:+ show gs end.

(** Literal pieces have no [$]; a reference has neither [$] nor [)] inside. *)
Definition segment_ok (g : segment) : bool :=
  match g with
  | Text t => sforall (not_byte "$") t
  | Ref k => sforall (not_byte ")") k && sforall (not_byte "$") k
  end.

(** Every reference with a value replaced by it, and nothing else changed. *)
Definition substitute_segment (m : gmap string string) (g : segment) : string :=
  match g with Text t => t | Ref k => default (reference k) (m !! k) end.

Fixpoint substitute (m : gmap string string) (gs : list segment) : string :=
  match gs with [] => "" | g :: gs => substitute_segment m g +:+ substitute m gs end.

(** The keys of a replacement map the callers build: no [)] inside. *)
Definition plain_keys {V} (m : gmap string V) : Prop :=
  map_Forall (λ k _, plain_key k) m.

#[export] Instance plain_keys_dec {V} (m : gmap string V) : Decision (plain_keys m).
Proof. unfold plain_keys, plain_key. apply _. Defined.

Section apply.
Context `{MapOrder} (m : gmap string string) (Hm : plain_keys m).

Lemma render_text t s :
  sforall (not_byte "$") t = true →
  render id (scan (first_match (replacer_pairs m)) (t +:+ s) 0)
    = t +:+ render id (scan (first_match (replacer_pairs m)) s 0).
Proof.
  intros Ht. apply (scan_literal _ (not_byte "$")); [|done].
  intros c s' Hc. by apply first_match_not_dollar.
Qed.

Lemma render_reference k s :
  segment_ok (Ref k) = true →
  render id (scan (first_match (replacer_pairs m)) (reference k +:+ s) 0)
    = default (reference k) (m !! k) +:+ render id (scan (first_match (replacer_pairs m)) s 0).
Proof.
  intros [Hk Hd]%andb_true_iff.
  pose proof (first_match_reference m Hm k s Hk) as Hfm.
  destruct (m !! k) as [v|] eqn:E.
  - rewrite (scan_hit _ _ _ v); [done|apply reference_nonempty|exact Hfm].
  - unfold reference in *. rewrite !sapp_assoc in *. simpl in Hfm |- *. rewrite Hfm. simpl.
    f_equal. rewrite first_match_not_dollar by done. simpl. f_equal.
    rewrite (sapp_assoc k ")"). rewrite render_text by done. f_equal.
    by apply (render_text ")").
Qed.

Lemma ApplyReplacements_show gs :
  forallb segment_ok gs = true →
  ApplyReplacements (show gs) m = substitute m gs.
Proof.
  intros Hgs. change (render id (scan (first_match (replacer_pairs m)) (show gs) 0) = substitute m gs).
  induction gs as [|g gs IH]; simpl in *; [done|].
  apply andb_true_iff in Hgs as [Hg Hgs]. rewrite <-IH by done.
  destruct g as [t|k]; [by apply render_text|by apply render_reference].
Qed.

End apply.

(** ** Replacement *)

(** C12: [ApplyReplacements] replaces every [$(key)] that has a value by that
    value and changes nothing else: literal text and references without a value
    stay, and a value that itself looks like a reference is not replaced again.
    This holds for whatever order Go visits the replacement map in. *)
Theorem ApplyReplacements_single_pass `{MapOrder} (m : gmap string string) (gs : list segment) :
  plain_keys m → forallb segment_ok gs = true →
  ApplyReplacements (show gs) m = substitute m gs.
Proof. intros Hm. by apply ApplyReplacements_show. Qed.

Lemma ApplyReplacements_single_pass_witness :
  ApplyReplacements (H := stdpp_order) "foo: $(params.foo) $(params.bar) $(x)!"
    {["params.foo" := "$(params.bar)"; "params.bar" := "b"]} = "foo: $(params.bar) b $(x)!".
Proof.
  refine (ApplyReplacements_single_pass (H := stdpp_order)
    {["params.foo" := "$(params.bar)"; "params.bar" := "b"]}
    [Text "foo: "; Ref "params.foo"; Text " "; Ref "params.bar"; Text " "; Ref "x"; Text "!"] _ _).
  - apply (bool_decide_unpack _). vm_compute. exact I.
  - vm_compute. reflexivity.
Defined.

(** C23: the result of [ApplyReplacements] does not depend on the order in which
    Go iterates over the replacement map, for every input string, as long as no
    key contains a closing parenthesis. *)
Theorem ApplyReplacements_order_independent (O1 O2 : MapOrder) (m : gmap string string) (s : string) :
  plain_keys m → ApplyReplacements (H := O1) s m = ApplyReplacements (H := O2) s m.
Proof.
  intros Hm. apply Replace_perm.
  - apply fmap_Permutation. by rewrite !range_map_perm.
  - by apply (replacer_exclusive (H := O1)).
Qed.

Lemma ApplyReplacements_order_independent_witness :
  ApplyReplacements (H := stdpp_order) "$$(a)$(b" {["a" := "1"; "b" := "2"]}
  = ApplyReplacements (H := reverse_order) "$$(a)$(b" {["a" := "1"; "b" := "2"]}.
Proof.
  apply ApplyReplacements_order_independent.
  apply (bool_decide_unpack _). vm_compute. exact I.
Defined.

(** *** Arrays *)

Lemma array_lookup_Some arrays s v :
  array_lookup arrays s = Some v →
  ∃ k, (k, v) ∈ arrays ∧ (s = reference k ∨ s = reference (k +:+ "[*]")).
Proof.
  induction arrays as [|[k w] arrays IH]; simpl; [done|].
  destruct (exactly s (reference k)) eqn:E1.
  { apply exactly_iff in E1; [|done]. intros [= ->]. exists k. split; [left|by left]. }
  destruct (exactly s (reference (k +:+ "[*]"))) eqn:E2.
  { apply exactly_iff in E2; [|done]. intros [= ->]. exists k. split; [left|by right]. }
  intros (k' & ? & ?)%IH. exists k'. split; [by right|done].
Qed.

Lemma array_lookup_None arrays s :
  array_lookup arrays s = None ↔
  ∀ k v, (k, v) ∈ arrays → s ≠ reference k ∧ s ≠ reference (k +:+ "[*]").
Proof.
  induction arrays as [|[k w] arrays IH]; simpl.
  { split; [|done]. intros _ k v ?%elem_of_nil. done. }
  assert (∀ sub, sub ≠ "" → exactly s sub = false ↔ s ≠ sub) as Hex.
  { intros sub Hne. rewrite <-not_true_iff_false, exactly_iff by done. done. }
  destruct (exactly s (reference k)) eqn:E1; [|destruct (exactly s (reference (k +:+ "[*]"))) eqn:E2].
  - apply exactly_iff in E1; [|done]. split; [done|]. intros Hall. by destruct (Hall k w); [left|].
  - apply exactly_iff in E2; [|done]. split; [done|]. intros Hall. by destruct (Hall k w); [left|].
  - apply Hex in E1; [|done]. apply Hex in E2; [|done]. rewrite IH. split.
    + intros Hall k' v [[= -> ->]|Hin]%elem_of_cons; [done|by eapply Hall].
    + intros Hall k' v Hin. eapply Hall. by right.
Qed.

Definition star_free (k : string) : Prop := HasSuffix k "[*]" = false.

#[export] Instance star_free_dec k : Decision (star_free k).
Proof. unfold star_free. apply _. Defined.

Lemma reference_star_inj k1 k2 : star_free k1 → k1 ≠ k2 +:+ "[*]".
Proof. unfold star_free. intros Hs ->. by rewrite HasSuffix_app in Hs. Qed.

Lemma ApplyArrayReplacements_hit `{MapOrder} s m (arrays : gmap string (list string)) k v :
  map_Forall (λ k _, star_free k) arrays →
  arrays !! k = Some v → s = reference k ∨ s = reference (k +:+ "[*]") →
  ApplyArrayReplacements s m arrays = v.
Proof.
  intros Hstar Hk Hs. unfold ApplyArrayReplacements. destruct (array_lookup _ s) as [w|] eqn:E.
  - apply array_lookup_Some in E as (k' & Hk' & Hs'). rewrite elem_of_range_map in Hk'.
    assert (k = k'); [|congruence].
    pose proof (Hstar _ _ Hk) as H1. pose proof (Hstar _ _ Hk') as H2.
    destruct Hs as [-> | ->], Hs' as [Hs|Hs]; apply reference_inj in Hs; try done.
    + by apply reference_star_inj in Hs.
    + by symmetry in Hs; apply reference_star_inj in Hs.
    + apply (f_equal (λ x, TrimSuffix x "[*]")) in Hs. by rewrite !TrimSuffix_app in Hs.
  - exfalso. rewrite array_lookup_None in E.
    destruct (E k v) as [H1 H2]; [by apply elem_of_range_map|]. naive_solver.
Qed.

(** C24: [ApplyArrayReplacements] expands an input that is exactly [$(k)] or
    [$(k[*])] to the array of [k], and applies the string replacements to every
    other input; when no key of the array map ends in [[*]] this is so for every
    iteration order. *)
Theorem ApplyArrayReplacements_expands `{MapOrder} (s : string)
    (m : gmap string string) (arrays : gmap string (list string)) :
  map_Forall (λ k _, star_free k) arrays →
  (∀ k v, arrays !! k = Some v → s = reference k ∨ s = reference (k +:+ "[*]") →
     ApplyArrayReplacements s m arrays = v) ∧
  ((∀ k v, arrays !! k = Some v → s ≠ reference k ∧ s ≠ reference (k +:+ "[*]")) →
     ApplyArrayReplacements s m arrays = [ApplyReplacements s m]).
Proof.
  intros Hstar. split; [intros; by eapply ApplyArrayReplacements_hit|].
  intros Hn. unfold ApplyArrayReplacements. destruct (array_lookup _ s) as [w|] eqn:E; [|done].
  apply array_lookup_Some in E as (k & Hk & Hs). rewrite elem_of_range_map in Hk.
  destruct (Hn _ _ Hk). naive_solver.
Qed.

Lemma ApplyArrayReplacements_expands_witness :
  ApplyArrayReplacements (H := stdpp_order) "$(params.a[*])" ∅
    {["params.a" := ["x"; "y"]; "params.b" := ["z"]]} = ["x"; "y"].
Proof.
  pose (arrays := {["params.a" := ["x"; "y"]; "params.b" := ["z"]]} : gmap string (list string)).
  assert (map_Forall (λ k _, star_free k) arrays) as Hs.
  { apply (bool_decide_unpack _). vm_compute. exact I. }
  apply (proj1 (ApplyArrayReplacements_expands (H := stdpp_order) "$(params.a[*])" ∅ arrays Hs)
           "params.a" ["x"; "y"]).
  - vm_compute. reflexivity.
  - right. reflexivity.
Defined.

(** ** Extraction *)

(** A prefix without pattern characters, such as [params]. *)
Definition plain_prefix (p : string) : bool :=
  sforall (λ c, not_byte "." c && not_byte "\" c && not_byte ")" c) p.

Lemma prefix_regex_lit p : plain_prefix p = true → prefix_regex p = lit p.
Proof.
  unfold plain_prefix. induction p as [|c p IH]; cbn [sforall prefix_regex lit]; [done|].
  rewrite !andb_true_iff. unfold not_byte. rewrite !negb_true_iff, !bool_decide_eq_false.
  intros [[[Hd Hb] _] Hp]. rewrite !bool_decide_false by done. by rewrite IH.
Qed.

Lemma plain_prefix_paren p : plain_prefix p = true → sforall (not_byte ")") p = true.
Proof. apply sforall_weaken. intros c. rewrite !andb_true_iff. naive_solver. Qed.

(** What may follow the lazy part of [parameterSubstitution] inside [$( )]. *)
Section tail.
Context {R : Type} (k : string → caps → option R).

Definition after_name (s : string) (cs : caps) : option R :=
  mtch (opt (lit "[*]")) (mtch (byte ")") k) s cs.

Lemma after_name_None w t cs :
  sforall (not_byte ")") w = true → w ≠ "" → w ≠ "[*]" →
  after_name (w +:+ String ")" t) cs = None.
Proof.
  intros Hw Hne Hst. unfold after_name, opt, not_byte in *.
  assert (Hd : ∀ c, negb (bool_decide (c = ")"%char)) = true ↔ c ≠ ")"%char).
  { intros c. by rewrite negb_true_iff, bool_decide_eq_false. }
  destruct w as [|a w]; [done|]. cbn [sforall] in Hw.
  apply andb_true_iff in Hw as [Ha Hw]. apply Hd in Ha.
  cbn. rewrite (bool_decide_false (a = ")"%char)) by done.
  destruct (decide (a = "["%char)) as [-> |]; [|by rewrite bool_decide_false].
  rewrite bool_decide_true by done.
  destruct w as [|b w]; cbn [sforall] in Hw; cbn; [done|].
  apply andb_true_iff in Hw as [Hb Hw]. apply Hd in Hb.
  destruct (decide (b = "*"%char)) as [-> |]; [|by rewrite bool_decide_false].
  rewrite bool_decide_true by done.
  destruct w as [|c w]; cbn [sforall] in Hw; cbn; [done|].
  apply andb_true_iff in Hw as [Hc Hw]. apply Hd in Hc.
  destruct (decide (c = "]"%char)) as [-> |]; [|by rewrite bool_decide_false].
  rewrite bool_decide_true by done.
  destruct w as [|d w]; cbn [sforall] in Hw; cbn; [done|].
  apply andb_true_iff in Hw as [He Hw]. apply Hd in He. by rewrite bool_decide_false.
Qed.

(** The lazy part runs up to the closing parenthesis or to a [[*]] before it. *)
Lemma mtch_name name t cs x :
  sforall any name = true → sforall (not_byte ")") name = true → k t cs = Some x →
  mtch parameterSubstitution (mtch (byte ")") k) (name +:+ String ")" t) cs = Some x.
Proof.
  intros Ha Hp Hk. unfold parameterSubstitution.
  change (mtch (Star false (Chr any)) after_name (name +:+ String ")" t) cs = Some x).
  assert (∃ u w, name = u +:+ w ∧ (w = "" ∨ w = "[*]") ∧
    (∀ u1 c u2, u = u1 +:+ String c u2 → String c u2 +:+ w ≠ "[*]")) as (u & w & -> & Hw & Hu).
  { destruct (HasSuffix name "[*]") eqn:E.
    - assert (∃ u, name = u +:+ "[*]") as [u ->].
      { unfold HasSuffix in E. apply HasPrefix_true in E as [r Hr].
        exists (String.rev r). apply (f_equal String.rev) in Hr.
        by rewrite rev_app, !rev_involutive in Hr. }
      exists u, "[*]". split; [done|]. split; [by right|].
      intros u1 c u2 -> Heq. apply (f_equal String.length) in Heq.
      rewrite slength_app in Heq. simpl in Heq. lia.
    - exists name, "". rewrite sapp_nil_r. split; [done|]. split; [by left|].
      intros u1 c u2 -> Heq. rewrite sapp_nil_r in Heq. rewrite Heq in E.
      by rewrite HasSuffix_app in E. }
  rewrite sforall_app, andb_true_iff in Ha, Hp. destruct Ha as [Ha _], Hp as [Hp1 Hp2].
  rewrite sapp_assoc. apply mtch_lazy_class; [done| |].
  - unfold after_name. destruct Hw as [-> | ->]; cbn; by rewrite Hk.
  - intros u1 c u2 ->. rewrite <-sapp_assoc. apply after_name_None; [|done|by eapply Hu].
    rewrite sforall_app in Hp1. apply andb_true_iff in Hp1 as [_ Hp1].
    by rewrite sforall_app, Hp1, Hp2.
Qed.

End tail.

(** A reference to a variable by dot notation is found as a whole, and its name
    is the group [var1]. *)
Lemma match_reference prefix name t :
  plain_prefix prefix = true → sforall any name = true → sforall (not_byte ")") name = true →
  match_prefix (reference_regex prefix) (reference (prefix +:+ "." +:+ name) +:+ t)
    = Some (reference (prefix +:+ "." +:+ name), {["var1" := name]}).
Proof.
  intros Hp Ha Hn. unfold match_prefix, reference_regex, reference.
  rewrite (prefix_regex_lit _ Hp). unfold braceMatchingRegex.
  rewrite !sapp_assoc. cbn [mtch]. rewrite mtch_lit, mtch_lit. cbn [mtch].
  change ("." +:+ ?u) with (String "." u). rewrite (mtch_byte _ _ "."). cbn [mtch].
  set (k := λ s'' (cs'' : caps), Some (consumed ("$(" +:+ prefix +:+ String "." (name +:+ ")" +:+ t)) s'',
         <["var1" := consumed (name +:+ ")" +:+ t) (String ")" s'')]> cs'')).
  rewrite (mtch_ext _ _ (mtch (byte ")") k)).
  2:{ intros s cs. unfold k. simpl. destruct s as [|c s]; [done|]. by case_bool_decide; subst. }
  change (name +:+ ")" +:+ t) with (name +:+ String ")" t).
  rewrite (mtch_name k name t ∅ (reference (prefix +:+ "." +:+ name), {["var1" := name]})); [|done..|].
  { unfold reference. by rewrite !sapp_assoc. }
  unfold k. do 3 f_equal.
  - rewrite <-(consumed_app (reference (prefix +:+ "." +:+ name)) t).
    unfold reference. by rewrite !sapp_assoc.
  - change (name +:+ ")" +:+ t) with (name +:+ String ")" t). by rewrite consumed_app.
Qed.

(** Nothing starts at a byte other than [$]. *)
Lemma match_not_dollar prefix c s : not_byte "$" c = true →
  match_prefix (reference_regex prefix) (String c s) = None.
Proof.
  unfold not_byte. rewrite negb_true_iff, bool_decide_eq_false. intros Hc.
  unfold match_prefix, reference_regex, braceMatchingRegex. cbn [mtch].
  apply mtch_lit_None. simpl. by rewrite decide_False.
Qed.

Lemma strip_prefix_past p k c t :
  sforall (not_byte c) p = true → strip_prefix p k = None →
  strip_prefix p (k +:+ String c t) = None.
Proof.
  revert k. induction p as [|a p IH]; intros k; simpl; [done|].
  intros [Ha Hp]%andb_true_iff. unfold not_byte in Ha.
  rewrite negb_true_iff, bool_decide_eq_false in Ha.
  destruct k as [|b k]; simpl; [by rewrite decide_False|].
  case_decide; [|done]. by apply IH.
Qed.

(** A reference under another prefix is not found. *)
Lemma match_other prefix k t :
  plain_prefix prefix = true → strip_prefix prefix k = None →
  match_prefix (reference_regex prefix) (reference k +:+ t) = None.
Proof.
  intros Hp Hk. unfold match_prefix, reference_regex, reference, braceMatchingRegex.
  rewrite (prefix_regex_lit _ Hp), !sapp_assoc. cbn [mtch]. rewrite mtch_lit.
  apply mtch_lit_None. apply strip_prefix_past; [by apply plain_prefix_paren|done].
Qed.

(** *** Whole texts *)

Section extract.
Context (prefix : string).

(** The name a reference key has under [prefix]. *)
Definition name_of (k : string) : option string := strip_prefix (prefix +:+ ".") k.

(** A reference either is [prefix.name], with a name of one or two components
    on one line, or does not start with the prefix. *)
Definition reference_simple (k : string) : bool :=
  match name_of k with
  | Some name =>
      sforall any name && negb (bool_decide (name = "")) &&
      bool_decide (length (Split name ".") ≤ 2)
  | None => bool_decide (strip_prefix prefix k = None)
  end.

Definition segment_simple (g : segment) : bool :=
  segment_ok g && match g with Text _ => true | Ref k => reference_simple k end.

Definition names (gs : list segment) : list string :=
  omap (λ g, match g with Text _ => None | Ref k => name_of k end) gs.

(** The variable a name refers to: its first component. *)
Definition variable (name : string) : string := default "" (head (Split name ".")).

Definition finder (t : string) : option ((string * caps) * nat) :=
  m ← match_prefix (reference_regex prefix) t; Some (m, String.length m.1).

Lemma Contains_false_Split name c :
  Contains name (String c "") = false → Split name c = [name].
Proof.
  intros H. apply Split_last. induction name as [|a name IH]; [done|].
  cbn [Contains] in H. apply orb_false_iff in H as [Ha H]. cbn [sforall]. rewrite IH by done.
  unfold not_byte. rewrite bool_decide_false; [done|]. intros ->.
  unfold HasPrefix in Ha. simpl in Ha. rewrite decide_True in Ha by done. done.
Qed.

Lemma extract_variable_name name :
  name ≠ "" → length (Split name ".") ≤ 2 →
  extract_variable {["var1" := name]} = Some (variable name).
Proof.
  intros Hne Hlen. unfold extract_variable, variable.
  assert (matchGroups {["var1" := name]} "var1" = name) as ->.
  { reflexivity. }
  destruct (Contains name ".") eqn:E.
  - rewrite bool_decide_false; [done|]. lia.
  - rewrite bool_decide_true by done. by rewrite (Contains_false_Split _ _ E).
Qed.

Lemma scan_skip_one {A} (f : string → option (A * nat)) c s :
  f (String c s) = None → scan f (String c s) 0 = Lit c :: scan f s 0.
Proof. intros Hf. simpl. by rewrite Hf. Qed.

Lemma hits_skip {A} c (ps : list (piece A)) : hits (Lit c :: ps) = hits ps.
Proof. done. Qed.

Context (Hprefix : plain_prefix prefix = true).

Lemma hits_show gs :
  forallb segment_simple gs = true →
  (hits (scan finder (show gs) 0)).*2 = (λ name, {["var1" := name]}) <$> names gs.
Proof.
  assert (Hnd : ∀ c s, not_byte "$" c = true → finder (String c s) = None).
  { intros c s Hc. unfold finder. by rewrite match_not_dollar. }
  induction gs as [|g gs IH]; intros Hgs; [done|].
  cbn [forallb] in Hgs. apply andb_true_iff in Hgs as [Hg Hgs]. specialize (IH Hgs).
  unfold segment_simple in Hg. apply andb_true_iff in Hg as [Hok Hg]. cbn [show].
  destruct g as [t|k]; cbn [show_segment].
  { by rewrite (hits_literal _ (not_byte "$")). }
  cbn [segment_ok] in Hok. apply andb_true_iff in Hok as [Hpar Hdol].
  unfold reference_simple in Hg. unfold names. cbn [omap list_omap].
  destruct (name_of k) as [name|] eqn:E.
  - apply andb_true_iff in Hg as [[Hany Hne]%andb_true_iff _].
    apply strip_prefix_Some in E as ->. rewrite sapp_assoc in *.
    rewrite (scan_hit _ _ _ (reference (prefix +:+ "." +:+ name), {["var1" := name]})).
    + cbn. f_equal. exact IH.
    + done.
    + unfold finder. rewrite match_reference; [done|done|done|].
      rewrite !sforall_app in Hpar. by apply andb_true_iff in Hpar as [_ [_ ?]%andb_true_iff].
  - apply bool_decide_eq_true in Hg.
    pose proof (match_other prefix k (show gs) Hprefix Hg) as Hm. unfold reference in *.
    rewrite !sapp_assoc in *. change ("$(" +:+ ?u) with (String "$" (String "(" u)) in *.
    rewrite scan_skip_one, hits_skip by (unfold finder; by rewrite Hm).
    rewrite scan_skip_one, hits_skip by by apply Hnd.
    rewrite (hits_literal _ (not_byte "$")) by done.
    by rewrite (hits_literal _ (not_byte "$") ")").
Qed.

Lemma extract_loop_names ns :
  Forall (λ name, name ≠ "" ∧ length (Split name ".") ≤ 2) ns →
  extract_loop ((λ name, {["var1" := name]}) <$> ns) = (variable <$> ns, true).
Proof.
  induction 1 as [|name ns [Hne Hlen] _ IH]; [done|].
  cbn [fmap list_fmap extract_loop]. rewrite extract_variable_name by done.
  by rewrite IH.
Qed.

Lemma names_simple gs :
  forallb segment_simple gs = true →
  Forall (λ name, name ≠ "" ∧ length (Split name ".") ≤ 2) (names gs).
Proof.
  rewrite Forall_forall. intros Hgs name ([t|k] & Hin & Hk)%list_elem_of_omap; [done|].
  rewrite forallb_forall in Hgs. apply list_elem_of_In in Hin. specialize (Hgs _ Hin).
  unfold segment_simple, reference_simple in Hgs. rewrite Hk in Hgs.
  rewrite !andb_true_iff, negb_true_iff, bool_decide_eq_false, bool_decide_eq_true in Hgs.
  naive_solver.
Qed.

Lemma Extract_show gs :
  forallb segment_simple gs = true →
  ExtractVariablesFromString (show gs) prefix
    = (variable <$> names gs, bool_decide (names gs ≠ []), "").
Proof.
  intros Hgs. unfold ExtractVariablesFromString, FindAll.
  change (λ t, m ← match_prefix (reference_regex prefix) t; Some (m, String.length m.1)) with finder.
  rewrite hits_show by done. pose proof (names_simple gs Hgs) as Hns.
  destruct (names gs) as [|n ns] eqn:E; [done|].
  pose proof (extract_loop_names (n :: ns) Hns) as Hl. cbn [fmap list_fmap] in *.
  rewrite Hl. by rewrite bool_decide_true.
Qed.

Lemma first_bad_nil trim bad msg vs :
  first_bad trim bad msg vs = [] ↔ Forall (λ v, bad (trim v) = false) vs.
Proof.
  induction vs as [|v vs IH]; simpl; [by split|].
  rewrite Forall_cons. destruct (bad (trim v)); [naive_solver|]. by rewrite IH; naive_solver.
Qed.

Lemma Validate_show gs vars d :
  forallb segment_simple gs = true →
  validateNoReferencesToUnknownVariables (show gs) prefix vars d = [] ↔
  ∀ name, name ∈ names gs → TrimArrayIndex (variable name) ∈ vars.
Proof.
  intros Hgs. unfold validateNoReferencesToUnknownVariables. rewrite Extract_show by done.
  case_bool_decide as Hn.
  - rewrite bool_decide_false by naive_solver. rewrite first_bad_nil, Forall_fmap, Forall_forall.
    simpl. setoid_rewrite negb_false_iff. setoid_rewrite bool_decide_eq_true. done.
  - split; [|done]. intros _ name Hin. destruct (names gs); [by apply elem_of_nil in Hin|done].
Qed.

End extract.



Lemma TrimArrayIndex_plain v : sforall (not_byte "[") v = true → TrimArrayIndex v = v.
Proof.
  intros Hv. unfold TrimArrayIndex, ReplaceAllString.
  pose proof (scan_literal (λ t, m ← match_prefix arrayIndexing t; Some (m, String.length m.1))
    (not_byte "[") v "") as Hs.
  rewrite sapp_nil_r in Hs. rewrite Hs; [apply sapp_nil_r| |done].
  intros c s Hc. unfold match_prefix, arrayIndexing. cbn [mtch].
  unfold not_byte in Hc. rewrite negb_true_iff, bool_decide_eq_false in Hc.
  by rewrite mtch_byte_ne by done.
Qed.



