(* ===== verification/ResultRef.v ===== *)
(** * References to results

    [pkg/internal/resultref/resultref.go] and
    [pkg/apis/pipeline/v1/resultref.go]: how [$(tasks.t.results.r...)] is found
    in a text and taken apart.  The theorems give the round trip: a reference
    written into a text is found and parsed back. *)
From S2P Require Import Prelude GoStrings Regex Substitution SubstitutionSpec.

(** ** Parsing an expression *)

Definition ResultStepPart := "steps".
Definition ResultTaskPart := "tasks".
Definition ResultFinallyPart := "finally".
Definition ResultResultPart := "results".

Definition LooksLikeResultRef (expression : string) : bool :=
  match Split expression "." with
  | s0 :: _ :: s2 :: _ :: _ =>
      (bool_decide (s0 = ResultTaskPart) || bool_decide (s0 = ResultFinallyPart)) &&
      bool_decide (s2 = ResultResultPart)
  | _ => false
  end.

Definition looksLikeStepResultRef (expression : string) : bool :=
  match Split expression "." with
  | s0 :: _ :: s2 :: _ :: _ =>
      bool_decide (s0 = ResultStepPart) && bool_decide (s2 = ResultResultPart)
  | _ => false
  end.

Record ParsedResult := {
  ResourceName : string;
  ResultName : string;
  ResultType : string;
  ArrayIdx : option Z;
  ObjectKey : string
}.

Definition ParseResultName (resultName : string) : string * string :=
  let stringIdx := TrimSuffix (TrimPrefix (FindString arrayIndexing resultName) "[") "]" in
  (ReplaceAllString arrayIndexing resultName "", stringIdx).

Definition parseExpression (e : string) : option ParsedResult :=
  if LooksLikeResultRef e || looksLikeStepResultRef e then
    match Split e "." with
    | [_; name; _; res] =>
        let '(resultName, stringIdx) := ParseResultName res in
        if bool_decide (stringIdx ≠ "") then
          if bool_decide (stringIdx = "*") then
            Some {| ResourceName := name; ResultName := resultName; ResultType := "array";
                    ArrayIdx := None; ObjectKey := "" |}
          else
            let '(intIdx, _) := Atoi stringIdx in
            Some {| ResourceName := name; ResultName := resultName; ResultType := "array";
                    ArrayIdx := Some intIdx; ObjectKey := "" |}
        else
          Some {| ResourceName := name; ResultName := resultName; ResultType := "string";
                  ArrayIdx := None; ObjectKey := "" |}
    | [_; name; _; res; key] =>
        Some {| ResourceName := name; ResultName := res; ResultType := "object";
                ArrayIdx := None; ObjectKey := key |}
    | _ => None
    end
  else None.

Definition ParseTaskExpression (e : string) : option ParsedResult :=
  if LooksLikeResultRef e then parseExpression e else None.

Definition ParseStepExpression (e : string) : option ParsedResult :=
  if looksLikeStepResultRef e then parseExpression e else None.

(** ** References of a pipeline task *)

Record ResultRef := mkResultRef {
  Ref_PipelineTask : string;
  Ref_Result : string;
  ResultsIndex : option Z;
  Property : string
}.

#[export] Instance ResultRef_eq_dec : EqDecision ResultRef.
Proof. solve_decision. Defined.

Definition NewResultRefs (expressions : list string) : list ResultRef :=
  omap (λ e, pr ← ParseTaskExpression e;
    Some (mkResultRef (ResourceName pr) (ResultName pr) (ArrayIdx pr) (ObjectKey pr))) expressions.

Definition LooksLikeContainsResultRefs (expressions : list string) : bool :=
  existsb LooksLikeResultRef expressions.

(** The text between [$(] and [)]: dotted names with an optional index or star. *)
Definition variable_expression : regex :=
  Seq (plus name_class)
  (Seq (Star true (Seq (byte ".") (plus name_class)))
       (opt (Seq (byte "[") (Seq (Alt (plus digit_class) (byte "*")) (byte "]"))))).

Definition variableSubstitutionFormat : regex :=
  Seq (lit "$(") (Seq variable_expression (byte ")")).

Definition stripVarSubExpression (expression : string) : string :=
  TrimSuffix (TrimPrefix expression "$(") ")".

Definition validateString (value : string) : list string :=
  stripVarSubExpression <$> FindAllString variableSubstitutionFormat value.

(** [exactVariableSubstitutionRegex.MatchString]. *)
Definition exactVariableSubstitution (value : string) : bool :=
  full_match variableSubstitutionFormat value.

(** [ResultNameFormat]. *)
Definition resultNameFormat : regex :=
  Seq (opt (Seq (Chr alnum_class) (Star true (Chr name_class)))) (Chr alnum_class).

Definition resultNameFormat_matches (name : string) : bool := full_match resultNameFormat name.

(** ** Written references *)

(** The part of a result a reference selects. *)
Inductive selector := Whole | StarOf | Index (i : Z) | KeyOf (key : string).

Definition show_selector (sel : selector) : string :=
  match sel with
  | Whole => ""
  | StarOf => "[*]"
  | Index i => "[" +:+ Itoa i +:+ "]"
  | KeyOf key => "." +:+ key
  end.

(** [tasks.<task>.results.<result><selector>]. *)
Definition show_result (task result : string) (sel : selector) : string :=
  "tasks." +:+ task +:+ ".results." +:+ result +:+ show_selector sel.

(** One component of a dotted name. *)
Definition component (s : string) : bool :=
  sforall (λ c, name_class c && not_byte "." c) s && negb (bool_decide (s = "")).

Definition selector_ok (sel : selector) : bool :=
  match sel with
  | Whole | StarOf => true
  | Index i => bool_decide (0 ≤ i ≤ MaxInt)%Z
  | KeyOf key => component key
  end.

Definition selector_index (sel : selector) : option Z :=
  match sel with Index i => Some i | _ => None end.
Definition selector_key (sel : selector) : string :=
  match sel with KeyOf key => key | _ => "" end.

(** ** Lemmas *)

Lemma digit_is_digit_class c : bool_decide (is_Some (digit c)) = true → digit_class c = true.
Proof.
  rewrite bool_decide_eq_true. unfold digit, digit_class, in_range. intros [z Hz].
  case_bool_decide as Hr; [|done]. rewrite andb_true_iff, !Nat.leb_le.
  change (nat_of_ascii "0") with 48. change (nat_of_ascii "9") with 57. lia.
Qed.

Lemma digit_class_not c d : digit_class c = true → digit_class d = false → not_byte d c = true.
Proof.
  intros Hc Hd. unfold not_byte. rewrite negb_true_iff, bool_decide_eq_false. congruence.
Qed.

(** The inside of an index: digits or a star. *)
Definition index_text (idx : string) : Prop :=
  idx = "*" ∨ (idx ≠ "" ∧ sforall digit_class idx = true).

Lemma index_text_Itoa i : (0 ≤ i)%Z → index_text (Itoa i).
Proof.
  intros Hi. right. destruct (Itoa_nonneg i Hi) as (_ & Hne & Hd). split; [done|].
  eapply sforall_weaken; [|exact Hd]. apply digit_is_digit_class.
Qed.

Lemma index_text_avoids idx c : index_text idx → c ≠ "*"%char → digit_class c = false →
  sforall (not_byte c) idx = true.
Proof.
  intros [-> |[_ Hd]] Hc Hnd; simpl.
  - unfold not_byte. by rewrite bool_decide_false.
  - eapply sforall_weaken; [|exact Hd]. intros d Hdd. by apply digit_class_not.
Qed.

(** A greedy run of a class, at least one byte long. *)
Lemma mtch_plus {R} p (k : string → caps → option R) u t cs x :
  sforall p u = true → u ≠ "" → k t cs = Some x →
  match t with String c _ => p c = false | EmptyString => True end →
  mtch (plus p) k (u +:+ t) cs = Some x.
Proof.
  intros Hu Hne Hk Ht. destruct u as [|c u]; [done|]. unfold plus.
  cbn [sforall] in Hu. apply andb_true_iff in Hu as [Hc Hu].
  change (mtch (Seq ?a ?b) ?k) with (mtch a (mtch b k)). cbn [String.append mtch].
  rewrite Hc. by apply mtch_greedy_class.
Qed.

Lemma match_index idx t : index_text idx →
  match_prefix arrayIndexing ("[" +:+ idx +:+ "]" +:+ t) = Some ("[" +:+ idx +:+ "]", ∅).
Proof.
  intros Hidx. unfold match_prefix, arrayIndexing.
  assert (consumed ("[" +:+ idx +:+ "]" +:+ t) t = "[" +:+ idx +:+ "]") as Hc.
  { rewrite <-(consumed_app ("[" +:+ idx +:+ "]") t). by rewrite !sapp_assoc. }
  change (mtch (Seq ?a ?b) ?k) with (mtch a (mtch b k)).
  change ("[" +:+ idx +:+ "]" +:+ t) with (String "[" (idx +:+ String "]" t)).
  rewrite mtch_byte. change (mtch (Seq ?a ?b) ?k) with (mtch a (mtch b k)).
  destruct Hidx as [-> |[_ Hd]].
  - apply (mtch_greedy_class _ _ "" ("*" +:+ String "]" t)); [done| |done].
    cbn. f_equal. f_equal. exact Hc.
  - apply mtch_greedy_class; [done| |done]. cbn. f_equal. f_equal. exact Hc.
Qed.

Section index.
Let finder t := m ← match_prefix arrayIndexing t; Some (m, String.length m.1).

Lemma finder_skip c s : not_byte "[" c = true → finder (String c s) = None.
Proof.
  intros Hc. unfold finder, match_prefix, arrayIndexing.
  change (mtch (Seq ?a ?b) ?k) with (mtch a (mtch b k)).
  unfold not_byte in Hc. rewrite negb_true_iff, bool_decide_eq_false in Hc.
  by rewrite mtch_byte_ne by done.
Qed.

(** [ParseResultName] on a name with an index and on a plain one. *)
Lemma ParseResultName_index r idx :
  sforall (not_byte "[") r = true → index_text idx →
  ParseResultName (r +:+ "[" +:+ idx +:+ "]") = (r, idx).
Proof.
  intros Hr Hidx.
  assert (scan finder ("[" +:+ idx +:+ "]") 0 = [Hit ("[" +:+ idx +:+ "]", ∅)]) as Hs.
  { pose proof (scan_hit finder ("[" +:+ idx +:+ "]") "" ("[" +:+ idx +:+ "]", ∅)) as Hh.
    rewrite sapp_nil_r in Hh. apply Hh; [done|]. unfold finder.
    pose proof (match_index idx "" Hidx) as Hm. rewrite sapp_nil_r in Hm. by rewrite Hm. }
  unfold ParseResultName. f_equal.
  - unfold ReplaceAllString. fold finder.
    rewrite (scan_literal _ (not_byte "[")); [|apply finder_skip|done].
    rewrite Hs. cbn. apply sapp_nil_r.
  - unfold FindString, FindAllString, FindAll. fold finder.
    rewrite (hits_literal _ (not_byte "[")); [|apply finder_skip|done]. rewrite Hs.
    change (TrimSuffix (TrimPrefix ("[" +:+ idx +:+ "]") "[") "]" = idx).
    by rewrite TrimPrefix_app, TrimSuffix_app.
Qed.

Lemma ParseResultName_plain r :
  sforall (not_byte "[") r = true → ParseResultName r = (r, "").
Proof.
  intros Hr. unfold ParseResultName. f_equal; [by apply TrimArrayIndex_plain|].
  unfold FindString, FindAllString, FindAll. fold finder.
  pose proof (hits_literal finder (not_byte "[") r "") as Hh. rewrite sapp_nil_r in Hh.
  rewrite Hh; [done|apply finder_skip|done].
Qed.
End index.

(** *** Parsing a written reference *)


Lemma component_inv s : component s = true →
  sforall name_class s = true ∧ sforall (not_byte ".") s = true ∧ s ≠ "".
Proof.
  unfold component. rewrite andb_true_iff, negb_true_iff, bool_decide_eq_false.
  intros [Hs Hne]. split_and!; [..|done]; (eapply sforall_weaken; [|exact Hs]);
    intros c; rewrite andb_true_iff; naive_solver.
Qed.

Lemma name_class_avoids c s : name_class c = false → sforall name_class s = true →
  sforall (not_byte c) s = true.
Proof.
  intros Hc. apply sforall_weaken. intros d Hd. unfold not_byte.
  rewrite negb_true_iff, bool_decide_eq_false. congruence.
Qed.

Definition show_index (sel : selector) : string :=
  match sel with KeyOf _ => "" | _ => show_selector sel end.

Lemma Split_show_result task result sel :
  component task = true → component result = true → selector_ok sel = true →
  Split (show_result task result sel) "."
    = ["tasks"; task; "results"; result +:+ show_index sel]
      ++ match sel with KeyOf key => [key] | _ => [] end.
Proof.
  intros (_ & Ht & _)%component_inv (_ & Hr & _)%component_inv Hsel. unfold show_result.
  change ("tasks." +:+ ?u) with ("tasks" +:+ String "." u). rewrite Split_word by done.
  change (".results." +:+ ?u) with (String "." ("results" +:+ String "." u)).
  rewrite Split_word, Split_word by done. simpl. do 3 f_equal.
  destruct sel as [| |i|key]; simpl in *.
  - rewrite sapp_nil_r. by apply Split_last.
  - apply Split_last. by rewrite sforall_app, Hr.
  - apply Split_last. rewrite sforall_app, Hr. apply bool_decide_eq_true in Hsel.
    change (String "[" (Itoa i +:+ "]")) with ("[" +:+ Itoa i +:+ "]").
    rewrite !sforall_app, (index_text_avoids (Itoa i)); [done|apply index_text_Itoa; lia|done..].
  - apply component_inv in Hsel as (_ & Hk & _).
    rewrite Split_word, sapp_nil_r by done. f_equal. by apply Split_last.
Qed.

Lemma ParseTaskExpression_show task result sel :
  component task = true → component result = true → selector_ok sel = true →
  ∃ ty, ParseTaskExpression (show_result task result sel)
    = Some {| ResourceName := task; ResultName := result; ResultType := ty;
              ArrayIdx := selector_index sel; ObjectKey := selector_key sel |}.
Proof.
  intros Ht Hr Hsel. pose proof (Split_show_result _ _ _ Ht Hr Hsel) as Hs.
  apply component_inv in Hr as (Hrc & _ & _).
  assert (sforall (not_byte "[") result = true) as Hbr by by apply name_class_avoids.
  unfold ParseTaskExpression, parseExpression, LooksLikeResultRef. rewrite Hs.
  destruct sel as [| |i|key];
    cbn [app show_index show_selector selector_index selector_key selector_ok] in *;
    rewrite !(bool_decide_true ("tasks" = _)), !(bool_decide_true ("results" = _)) by done;
    cbn [andb orb].
  - rewrite sapp_nil_r, ParseResultName_plain by done. eauto.
  - rewrite (ParseResultName_index _ "*") by (done || by left). eauto.
  - apply bool_decide_eq_true in Hsel.
    rewrite (ParseResultName_index _ (Itoa i)); [|done|apply index_text_Itoa; lia].
    destruct (Itoa_nonneg i) as (_ & Hne & Hd); [lia|].
    rewrite bool_decide_true by done.
    rewrite bool_decide_false by (intros Hst; by rewrite Hst in Hd).
    rewrite Atoi_Itoa by done. eauto.
  - rewrite sapp_nil_r. eauto.
Qed.

(** *** Finding a written reference *)

Lemma mtch_star_skip {R} a (k : string → caps → option R) s cs :
  (∀ k' : string → caps → option R, mtch a k' s cs = None) →
  mtch (Star true a) k s cs = k s cs.
Proof.
  intros Ha. rewrite mtch_star. destruct (String.length s); simpl; [done|]. by rewrite Ha.
Qed.

(** An expression the pattern accepts: a dotted name and an optional index. *)
Definition expression (e : string) : Prop :=
  ∃ body idx, e = body +:+ idx ∧ sforall name_class body = true ∧ body ≠ "" ∧
    (idx = "" ∨ ∃ i, idx = "[" +:+ i +:+ "]" ∧ index_text i).

Lemma mtch_index_opt {R} (k : string → caps → option R) idx t cs x :
  idx = "" ∨ (∃ i, idx = "[" +:+ i +:+ "]" ∧ index_text i) → k (String ")" t) cs = Some x →
  mtch (opt (Seq (byte "[") (Seq (Alt (plus digit_class) (byte "*")) (byte "]")))) k
    (idx +:+ String ")" t) cs = Some x.
Proof.
  intros Hidx Hk. unfold opt. destruct Hidx as [-> |(i & -> & Hi)]; [exact Hk|].
  change (mtch (Alt ?a ?b) ?k ?s ?cs)
    with (match mtch a k s cs with Some x => Some x | None => mtch b k s cs end).
  change (mtch (Seq ?a ?b) ?k) with (mtch a (mtch b k)).
  rewrite !sapp_assoc. change ("[" +:+ ?u) with (String "[" u). rewrite mtch_byte.
  change (mtch (Seq ?a ?b) ?k) with (mtch a (mtch b k)).
  change (mtch (Alt ?a ?b) ?k ?s ?cs)
    with (match mtch a k s cs with Some x => Some x | None => mtch b k s cs end).
  destruct Hi as [-> |[Hne Hd]].
  - cbn. by rewrite Hk.
  - change ("]" +:+ ?u) with (String "]" u).
    by rewrite (mtch_plus _ _ _ _ _ x Hd Hne) by (rewrite ?mtch_byte; done).
Qed.

Lemma match_variable e t : expression e →
  match_prefix variableSubstitutionFormat (reference e +:+ t) = Some (reference e, ∅).
Proof.
  intros (body & idx & -> & Hb & Hne & Hidx).
  rewrite <-(consumed_app (reference (body +:+ idx)) t) at 2.
  unfold match_prefix, variableSubstitutionFormat, variable_expression, reference.
  rewrite !sapp_assoc. change (mtch (Seq ?a ?b) ?k) with (mtch a (mtch b k)).
  rewrite mtch_lit. repeat change (mtch (Seq ?a ?b) ?k) with (mtch a (mtch b k)).
  assert (match idx +:+ ")" +:+ t with
          | String c _ => name_class c = false ∧ c ≠ "."%char
          | EmptyString => True end) as Hhd.
  { destruct Hidx as [-> |(i & -> & _)]; by cbn. }
  apply mtch_plus; [done|done| |by destruct (idx +:+ ")" +:+ t); [|apply Hhd]].
  rewrite mtch_star_skip.
  - apply mtch_index_opt; [done|]. by rewrite mtch_byte.
  - intros k'. change (mtch (Seq ?a ?b) ?k) with (mtch a (mtch b k)).
    destruct (idx +:+ ")" +:+ t) as [|c s]; [done|]. apply mtch_byte_ne. naive_solver.
Qed.

Lemma match_variable_not_dollar c s : not_byte "$" c = true →
  match_prefix variableSubstitutionFormat (String c s) = None.
Proof.
  unfold not_byte. rewrite negb_true_iff, bool_decide_eq_false. intros Hc.
  unfold match_prefix, variableSubstitutionFormat.
  change (mtch (Seq ?a ?b) ?k) with (mtch a (mtch b k)).
  apply mtch_lit_None. simpl. by rewrite decide_False.
Qed.

(** In a text whose references are all such expressions, they are what
    [validateString] returns. *)
Lemma validateString_show gs :
  Forall (λ g, match g with Text t => sforall (not_byte "$") t = true | Ref e => expression e end) gs →
  validateString (show gs) = omap (λ g, match g with Text _ => None | Ref e => Some e end) gs.
Proof.
  unfold validateString, FindAllString, FindAll.
  set (f := λ t, m ← match_prefix variableSubstitutionFormat t; Some (m, String.length m.1)).
  induction 1 as [|[t|e] gs Hg Hgs IH]; [done|..]; cbn [show show_segment].
  - rewrite (hits_literal f (not_byte "$")); [done| |done].
    intros c s Hc. unfold f. by rewrite match_variable_not_dollar.
  - rewrite (scan_hit f _ _ (reference e, ∅)); [|apply reference_nonempty|].
    2:{ unfold f. by rewrite match_variable. }
    cbn [omap list_omap]. rewrite <-IH.
    change (hits (Hit ?a :: ?ps)) with (a :: hits ps). cbn [fmap list_fmap fst]. f_equal.
    unfold stripVarSubExpression, reference. by rewrite TrimPrefix_app, TrimSuffix_app.
Qed.

Lemma expression_show_result task result sel :
  component task = true → component result = true → selector_ok sel = true →
  expression (show_result task result sel).
Proof.
  intros (Ht & _ & _)%component_inv (Hr & _ & _)%component_inv Hsel.
  exists (show_result task result (match sel with KeyOf k => KeyOf k | _ => Whole end)), (show_index sel).
  unfold show_result. split_and!.
  - rewrite !sapp_assoc. do 4 f_equal. destruct sel; simpl; by rewrite ?sapp_nil_r.
  - rewrite !sforall_app, Ht, Hr. destruct sel as [| |i|key]; simpl; try done.
    apply component_inv in Hsel as (Hk & _ & _). done.
  - done.
  - destruct sel as [| |i|key]; simpl; [by left| |..|by left]; right.
    + exists "*". split; [done|by left].
    + exists (Itoa i). apply bool_decide_eq_true in Hsel. split; [done|apply index_text_Itoa; lia].
Qed.

(** ** The round trip *)

(** A text with result references and other variables written into it. *)
Inductive item :=
| Plain (t : string)
| ResultOf (task result : string) (sel : selector)
| OtherVar (name : string).

Definition item_ok (it : item) : bool :=
  match it with
  | Plain t => sforall (not_byte "$") t
  | ResultOf task result sel => component task && component result && selector_ok sel
  | OtherVar name =>
      sforall name_class name && negb (bool_decide (name = "")) && negb (LooksLikeResultRef name)
  end.

Definition item_segment (it : item) : segment :=
  match it with
  | Plain t => Text t
  | ResultOf task result sel => Ref (show_result task result sel)
  | OtherVar name => Ref name
  end.

Definition item_ref (it : item) : option ResultRef :=
  match it with
  | ResultOf task result sel =>
      Some (mkResultRef task result (selector_index sel) (selector_key sel))
  | _ => None
  end.

Lemma NewResultRefs_items its :
  forallb item_ok its = true →
  NewResultRefs (omap (λ g, match g with Text _ => None | Ref e => Some e end) (item_segment <$> its))
    = omap item_ref its.
Proof.
  induction its as [|it its IH]; [done|]. cbn [forallb]. intros [Hit Hits]%andb_true_iff.
  specialize (IH Hits). unfold NewResultRefs in *.
  destruct it as [t|task result sel|name]; cbn [fmap list_fmap item_segment omap list_omap item_ref item_ok] in *.
  - done.
  - rewrite !andb_true_iff in Hit. destruct Hit as [[Ht Hr] Hsel].
    destruct (ParseTaskExpression_show _ _ _ Ht Hr Hsel) as [ty ->]. cbn. by f_equal.
  - rewrite !andb_true_iff, !negb_true_iff in Hit. destruct Hit as [_ Hl].
    unfold ParseTaskExpression at 1. rewrite Hl. cbn. done.
Qed.

(** C15: result references survive the trip through a text.  When references
    [tasks.T.results.R], with nothing, [[*]], an index or an object key behind,
    are written into a text among literals and other variables, the expressions
    [validateString] finds are parsed by [NewResultRefs] to exactly those
    references, in order, with task, result, index and key as written. *)
Theorem result_references_round_trip (its : list item) :
  forallb item_ok its = true →
  NewResultRefs (validateString (show (item_segment <$> its))) = omap item_ref its.
Proof.
  intros Hits. rewrite validateString_show; [by apply NewResultRefs_items|].
  apply Forall_fmap, Forall_forall. intros it Hin.
  rewrite forallb_forall in Hits. apply list_elem_of_In, Hits in Hin.
  destruct it as [t|task result sel|name]; cbn in *.
  - done.
  - rewrite !andb_true_iff in Hin. destruct Hin as [[? ?] ?]. by apply expression_show_result.
  - rewrite !andb_true_iff, !negb_true_iff, bool_decide_eq_false in Hin.
    destruct Hin as [[? ?] ?]. exists name, "". rewrite sapp_nil_r. naive_solver.
Qed.

Lemma result_references_round_trip_witness :
  NewResultRefs (validateString "x $(tasks.a.results.r[12])$(params.p) $(tasks.b-1.results.o.key)")
    = [mkResultRef "a" "r" (Some 12%Z) ""; mkResultRef "b-1" "o" None "key"].
Proof.
  exact (result_references_round_trip
    [Plain "x "; ResultOf "a" "r" (Index 12); OtherVar "params.p"; Plain " ";
     ResultOf "b-1" "o" (KeyOf "key")] eq_refl).
Defined.
