(* ===== verification/Params.v ===== *)
(** * Parameters

    [pkg/apis/pipeline/v1/param_types.go]: parameter declarations and values,
    the replacement of variables in them, and the checks on them.

    A nil slice or map and an empty one are the same value here; [Properties] is
    only ever ranged over. *)
From S2P Require Import Prelude GoStrings Regex FieldErrors Substitution SubstitutionSpec ResultRef.

(** ** Data *)

(** [ParamType] is a string in the source. *)
Definition ParamType := string.
Definition ParamTypeString : ParamType := "string".
Definition ParamTypeArray : ParamType := "array".
Definition ParamTypeObject : ParamType := "object".

Record ParamValue := mkParamValue {
  Type_ : ParamType;
  StringVal : string;
  ArrayVal : list string;
  ObjectVal : gmap string string
}.

Record Param := mkParam { Param_Name : string; Param_Value : ParamValue }.

Abbreviation Params := (list Param).

Record ParamSpec := {
  ParamSpec_Name : string;
  ParamSpec_Type : ParamType;
  Properties : gmap string ParamType;
  Default : option ParamValue;
  Enum : list string
}.

Abbreviation ParamSpecs := (list ParamSpec).

#[export] Instance ParamValue_eq_dec : EqDecision ParamValue.
Proof. solve_decision. Defined.
#[export] Instance Param_eq_dec : EqDecision Param.
Proof. solve_decision. Defined.

Definition NewStructuredValues (value : string) (values : list string) : ParamValue :=
  match values with
  | [] => mkParamValue ParamTypeString value [] ∅
  | _ => mkParamValue ParamTypeArray "" (value :: values) ∅
  end.

Definition NewObject (pairs : gmap string string) : ParamValue :=
  mkParamValue ParamTypeObject "" [] pairs.

(** ** Declarations *)

Definition GetNames (ps : ParamSpecs) : list string := ParamSpec_Name <$> ps.

Definition SortByType (ps : ParamSpecs) : ParamSpecs * ParamSpecs * ParamSpecs :=
  foldl (λ '(stringParams, arrayParams, objectParams) p,
    if bool_decide (ParamSpec_Type p = ParamTypeArray) then (stringParams, arrayParams ++ [p], objectParams)
    else if bool_decide (ParamSpec_Type p = ParamTypeObject) then (stringParams, arrayParams, objectParams ++ [p])
    else (stringParams ++ [p], arrayParams, objectParams)) ([], [], []) ps.

(** [findDups]. *)
Fixpoint findDups_loop (seen dups : gset string) (vals : list string) : gset string :=
  match vals with
  | [] => dups
  | val :: vals =>
      findDups_loop ({[val]} ∪ seen)
        (if bool_decide (val ∈ seen) then {[val]} ∪ dups else dups) vals
  end.

Definition findDups (vals : list string) : gset string := findDups_loop ∅ ∅ vals.

Definition ValidateNoDuplicateNames `{MapOrder} (ps : ParamSpecs) : FieldError :=
  foldl (λ errs dup,
    Also errs (ViaFieldKey "params" dup (ErrGeneric "parameter appears more than once" [""])))
    [] (range_set (findDups (GetNames ps))).

(** [validateParamEnums], with the value of the feature flag.  With the flag off
    the code adds the errors so far a second time. *)
Definition validateParamEnums `{MapOrder} (EnableParamEnum : bool) (ps : ParamSpecs) : FieldError :=
  foldl (λ errs p,
    match Enum p with
    | [] => errs
    | _ =>
        let name := ParamSpec_Name p in
        let errs :=
          if EnableParamEnum then errs
          else Also (Also errs errs) (ViaKey name (ErrGeneric
                 "feature flag `enable-param-enum` should be set to true to use Enum" [""])) in
        let errs :=
          if bool_decide (ParamSpec_Type p ≠ ParamTypeString)
          then Also errs (ViaKey name (ErrGeneric "enum can only be set with string type param" [""]))
          else errs in
        let errs := foldl (λ errs dup,
          Also errs (ViaKey name (ErrGeneric
            ("parameter enum value " +:+ dup +:+ " appears more than once") [""])))
          errs (range_set (findDups (Enum p))) in
        match Default p with
        | Some d =>
            if bool_decide (StringVal d ≠ "" ∧ StringVal d ∉ Enum p)
            then Also errs (ViaKey name (ErrGeneric
              ("param default value " +:+ StringVal d +:+ " not in the enum list") [""]))
            else errs
        | None => errs
        end
    end) [] ps.

Definition ExtractDefaultParamArrayLengths (ps : ParamSpecs) : gmap string nat :=
  foldl (λ m p,
    match Default p with
    | Some d =>
        if bool_decide (Type_ d = ParamTypeArray)
        then <[ParamSpec_Name p := length (ArrayVal d)]> m else m
    | None => m
    end) ∅ ps.

(** ** Values *)

(** [Param.GetVarSubstitutionExpressions]. *)
Definition Param_GetVarSubstitutionExpressions `{MapOrder} (p : Param) : list string * bool :=
  let v := Param_Value p in
  let all :=
    if bool_decide (Type_ v = ParamTypeArray) then ArrayVal v ≫= validateString
    else if bool_decide (Type_ v = ParamTypeString) then validateString (StringVal v)
    else if bool_decide (Type_ v = ParamTypeObject) then (range_map (ObjectVal v)).*2 ≫= validateString
    else [] in
  (all, negb (bool_decide (all = []))).

Definition ExtractNames (ps : Params) : gset string := list_to_set (Param_Name <$> ps).

Definition extractValues `{MapOrder} (ps : Params) : list string :=
  ps ≫= λ p, let v := Param_Value p in
    [StringVal v] ++ ArrayVal v ++ (range_map (ObjectVal v)).*2.

Definition extractParamMapArrVals (ps : Params) : gmap string (list string) :=
  foldl (λ m p, <[Param_Name p := ArrayVal (Param_Value p)]> m) ∅ ps.

(** [ParseTaskandResultName] indexes the second component of every expression;
    an expression without a dot has none. *)
Fixpoint parse_task_result (expressions : list string) : outcome Empty_set (string * string) :=
  match expressions with
  | [] => Ret ("", "")
  | e :: es =>
      match Split e "." with
      | _ :: name :: rest =>
          match rest with
          | [_; _] => Ret (name, "")
          | [_; res; _] => Ret (name, res)
          | _ => parse_task_result es
          end
      | _ => Panic
      end
  end.

Definition ParseTaskandResultName `{MapOrder} (p : Param) : outcome Empty_set (string * string) :=
  let '(expressions, ok) := Param_GetVarSubstitutionExpressions p in
  if ok then parse_task_result expressions else Ret ("", "").

Definition ExtractParamArrayLengths (ps : Params) : gmap string nat :=
  foldl (λ m p,
    if bool_decide (Type_ (Param_Value p) = ParamTypeArray)
    then <[Param_Name p := length (ArrayVal (Param_Value p))]> m else m) ∅ ps.

Fixpoint validateDuplicateParameters_loop (taskParamNames : gset string) (i : Z) (ps : Params)
    : FieldError :=
  match ps with
  | [] => []
  | p :: ps =>
      let errs := if bool_decide (Param_Name p ∈ taskParamNames)
        then ErrGeneric ("parameter names must be unique, the parameter " +:+ dquote +:+
               Param_Name p +:+ dquote +:+ " is also defined at") ["[" +:+ Itoa i +:+ "].name"]
        else [] in
      Also errs (validateDuplicateParameters_loop ({[Param_Name p]} ∪ taskParamNames) (i + 1) ps)
  end.

Definition validateDuplicateParameters (ps : Params) : FieldError :=
  validateDuplicateParameters_loop ∅ 0 ps.

(** [extractArrayIndexingParamRefs]. *)
Definition extractArrayIndexingParamRefs (paramReference : string) : list string :=
  filter (λ val, ExtractIndexString val ≠ "") (ExtractArrayIndexingParamsExpressions paramReference).

(** ** Replacing variables *)

Section replace.
Context `{MapOrder} (stringReplacements : gmap string string)
  (arrayReplacements : gmap string (list string))
  (objectReplacements : gmap string (gmap string string)).

(** [applyOrCorrect]. *)
Definition applyOrCorrect (v : ParamValue) : ParamValue :=
  let stringVal := StringVal v in
  if negb (exactVariableSubstitution stringVal) then
    mkParamValue (Type_ v) (ApplyReplacements stringVal stringReplacements) (ArrayVal v) (ObjectVal v)
  else
    let trimmed := StripStarVarSubExpression stringVal in
    let v :=
      match stringReplacements !! trimmed with
      | Some _ => mkParamValue (Type_ v) (ApplyReplacements stringVal stringReplacements)
                    (ArrayVal v) (ObjectVal v)
      | None => v
      end in
    let v :=
      match arrayReplacements !! trimmed with
      | Some _ => mkParamValue ParamTypeArray ""
                    (ApplyArrayReplacements stringVal stringReplacements arrayReplacements) (ObjectVal v)
      | None => v
      end in
    match objectReplacements !! trimmed with
    | Some obj => mkParamValue ParamTypeObject "" (ArrayVal v) obj
    | None => v
    end.

(** [ParamValue.ApplyReplacements]. *)
Definition ParamValue_ApplyReplacements (v : ParamValue) : ParamValue :=
  if bool_decide (Type_ v = ParamTypeArray) then
    mkParamValue (Type_ v) (StringVal v)
      (ArrayVal v ≫= λ x, ApplyArrayReplacements x stringReplacements arrayReplacements) (ObjectVal v)
  else if bool_decide (Type_ v = ParamTypeObject) then
    mkParamValue (Type_ v) (StringVal v) (ArrayVal v)
      ((λ x, ApplyReplacements x stringReplacements) <$> ObjectVal v)
  else applyOrCorrect v.

(** [Params.ReplaceVariables]. *)
Definition Params_ReplaceVariables (ps : Params) : Params :=
  (λ p, mkParam (Param_Name p) (ParamValue_ApplyReplacements (Param_Value p))) <$> ps.

End replace.

Definition ParamsPrefix := "params".

Definition ArrayReference (a : string) : string :=
  TrimSuffix (TrimPrefix a ("$(" +:+ ParamsPrefix +:+ ".")) "[*])".

(** ** Checks on values that refer to parameters *)

Section validate.
Context `{MapOrder} (prefix : string) (paramNames arrayParamNames : gset string)
  (objectParamNameKeys : gmap string (list string)).

Definition validateObjectVariable (value : string) : FieldError :=
  let '(objectNames, errs) :=
    foldl (λ '(objectNames, errs) '(objectParamName, keys),
      ({[objectParamName]} ∪ objectNames,
       Also errs (ValidateNoReferencesToUnknownVariables value
         (prefix +:+ "\." +:+ objectParamName) (NewString keys))))
      (∅, []) (range_map objectParamNameKeys) in
  Also errs (ValidateNoReferencesToEntireProhibitedVariables value prefix objectNames).

Definition validateStringVariable (value : string) : FieldError :=
  Also (Also (ValidateNoReferencesToUnknownVariables value prefix paramNames)
             (validateObjectVariable value))
       (ValidateNoReferencesToProhibitedVariables value prefix arrayParamNames).

Definition validateArrayVariable (value : string) : FieldError :=
  Also (Also (ValidateNoReferencesToUnknownVariables value prefix paramNames)
             (validateObjectVariable value))
       (ValidateVariableReferenceIsIsolated value prefix arrayParamNames).

Definition validateParamStringValue (p : Param) : FieldError :=
  let stringValue := StringVal (Param_Value p) in
  let '(isIsolated, errs) :=
    ValidateWholeArrayOrObjectRefInStringVariable (Param_Name p) stringValue prefix paramNames in
  if isIsolated then errs
  else ViaFieldKey "params" (Param_Name p) (validateStringVariable stringValue).

Definition validateParamValue (p : Param) : FieldError :=
  let v := Param_Value p in
  if bool_decide (Type_ v = ParamTypeArray) then
    concat (imap (λ idx x, ViaFieldKey "params" (Param_Name p)
      (ViaFieldIndex "value" (Z.of_nat idx) (validateArrayVariable x))) (ArrayVal v))
  else if bool_decide (Type_ v = ParamTypeObject) then
    range_map (ObjectVal v) ≫= λ '(key, x), ViaFieldKey "params" (Param_Name p)
      (ViaFieldKey "properties" key (validateStringVariable x))
  else validateParamStringValue p.

Definition validatePipelineParametersVariablesInTaskParameters (ps : Params) : FieldError :=
  Also (ViaField "params" (validateDuplicateParameters ps)) (ps ≫= validateParamValue).

End validate.

(** ** Duplicates *)

Lemma findDups_loop_spec vals seen dups x :
  x ∈ findDups_loop seen dups vals ↔
  x ∈ dups ∨ (x ∈ seen ∧ x ∈ vals) ∨ ∃ v1 v2 v3, vals = v1 ++ x :: v2 ++ x :: v3.
Proof.
  revert seen dups. induction vals as [|v vals IH]; intros seen dups; simpl.
  { split; [by left|]. intros [?|[[_ ?%elem_of_nil]|(v1 & ? & ? & E)]]; [done..|by destruct v1]. }
  rewrite IH. split.
  - intros [Hd|[[Hs Hv]|(v1 & v2 & v3 & ->)]].
    + case_bool_decide; [|by left].
      apply elem_of_union in Hd as [->%elem_of_singleton|?]; [|by left].
      right. left. split; [done|left].
    + apply elem_of_union in Hs as [->%elem_of_singleton|?].
      * right. right. apply list_elem_of_split in Hv as (v2 & v3 & ->). by exists [], v2, v3.
      * right. left. split; [done|by right].
    + right. right. by exists (v :: v1), v2, v3.
  - intros [Hd|[[Hs Hv]|(v1 & v2 & v3 & E)]].
    + left. case_bool_decide; [by apply elem_of_union_r|done].
    + apply elem_of_cons in Hv as [-> |Hv].
      * left. rewrite bool_decide_true by done. by apply elem_of_union_l, elem_of_singleton.
      * right. left. split; [by apply elem_of_union_r|done].
    + destruct v1 as [|w v1]; simplify_eq/=.
      * right. left. split; [by apply elem_of_union_l, elem_of_singleton|].
        apply elem_of_app. right. left.
      * right. right. eauto.
Qed.

Lemma findDups_empty vals : findDups vals = ∅ ↔ NoDup vals.
Proof.
  unfold findDups. split.
  - intros E. apply NoDup_alt. intros i j x Hi Hj.
    destruct (decide (i = j)) as [|Hij]; [done|exfalso].
    assert (∀ i j, i < j → vals !! i = Some x → vals !! j = Some x → False) as Hlt.
    { clear i j Hi Hj Hij. intros i j Hij Hi Hj.
      assert (x ∈ findDups_loop ∅ ∅ vals) as Hin; [|by rewrite E in Hin; apply not_elem_of_empty in Hin].
      apply findDups_loop_spec. right. right.
      exists (take i vals), (take (j - S i) (drop (S i) vals)), (drop (S j) vals).
      rewrite <-(take_drop_middle vals i x Hi) at 1. do 2 f_equal.
      rewrite <-(take_drop_middle (drop (S i) vals) (j - S i) x) at 1.
      - do 2 f_equal. rewrite drop_drop. f_equal. lia.
      - rewrite lookup_drop. rewrite <-Hj. f_equal. lia. }
    destruct (decide (i < j)); [by eapply (Hlt i j)|]. eapply (Hlt j i); [lia|done..].
  - intros Hnd. apply elem_of_equiv_empty_L. intros x Hx.
    apply findDups_loop_spec in Hx as [?%not_elem_of_empty|[[?%not_elem_of_empty _]|(v1 & v2 & v3 & ->)]];
      [done..|].
    apply NoDup_app in Hnd as (_ & _ & [Hn _]%NoDup_cons). apply Hn, elem_of_app. right. left.
Qed.

Lemma foldl_Also_nil {A} (f : A → FieldError) xs errs :
  foldl (λ errs x, Also errs (f x)) errs xs = [] ↔ errs = [] ∧ Forall (λ x, f x = []) xs.
Proof.
  revert errs. induction xs as [|x xs IH]; intros errs; simpl.
  { rewrite Forall_nil. naive_solver. }
  rewrite IH, Also_nil, Forall_cons. naive_solver.
Qed.

Lemma validateDuplicateParameters_loop_nil seen i ps :
  validateDuplicateParameters_loop seen i ps = [] ↔
  NoDup (Param_Name <$> ps) ∧ ∀ p, p ∈ ps → Param_Name p ∉ seen.
Proof.
  revert seen i. induction ps as [|p ps IH]; intros seen i; simpl.
  { split; [|done]. intros _. split; [apply NoDup_nil_2|]. by intros p ?%elem_of_nil. }
  rewrite Also_nil, IH, NoDup_cons, list_elem_of_fmap.
  case_bool_decide as Hp; setoid_rewrite elem_of_cons; setoid_rewrite elem_of_union;
    setoid_rewrite elem_of_singleton; naive_solver.
Qed.

(** C27: the duplicate checks are exact: [ParamSpecs.ValidateNoDuplicateNames]
    accepts a list of declarations, and [Params.validateDuplicateParameters] a
    list of parameters, exactly when no name occurs twice. *)
Theorem duplicate_names_rejected_iff `{MapOrder} (specs : ParamSpecs) (ps : Params) :
  (ValidateNoDuplicateNames specs = [] ↔ NoDup (ParamSpec_Name <$> specs)) ∧
  (validateDuplicateParameters ps = [] ↔ NoDup (Param_Name <$> ps)).
Proof.
  split.
  - unfold ValidateNoDuplicateNames. rewrite foldl_Also_nil, <-findDups_empty. unfold GetNames.
    split.
    + intros [_ Hall]. apply elem_of_equiv_empty_L. intros x Hx.
      apply elem_of_range_set in Hx. rewrite Forall_forall in Hall. by apply Hall in Hx.
    + intros ->. split; [done|]. apply Forall_forall. intros x Hx.
      by apply elem_of_range_set, not_elem_of_empty in Hx.
  - unfold validateDuplicateParameters. rewrite validateDuplicateParameters_loop_nil.
    split; [naive_solver|]. intros ?. split; [done|]. intros p _. apply not_elem_of_empty.
Qed.

(** ** Replacing whole references *)

Lemma exactVariableSubstitution_reference e : expression e → exactVariableSubstitution (reference e) = true.
Proof.
  intros He. apply full_match_iff. pose proof (match_variable e "" He) as Hm.
  rewrite sapp_nil_r in Hm. apply match_prefix_sound in Hm as (s' & Hs & HM).
  exists ∅. apply (f_equal String.length) in Hs. rewrite slength_app in Hs.
  by rewrite <-(slength_zero s') by lia.
Qed.

Lemma expression_name k : sforall name_class k = true → k ≠ "" → expression k.
Proof. intros Hk Hne. exists k, "". rewrite sapp_nil_r. naive_solver. Qed.

Lemma expression_star k : sforall name_class k = true → k ≠ "" → expression (k +:+ "[*]").
Proof.
  intros Hk Hne. exists k, "[*]". split_and!; [done..|]. right. exists "*". split; [done|by left].
Qed.

Lemma name_class_star_free k : sforall name_class k = true → star_free k.
Proof.
  intros Hk. unfold star_free. destruct (HasSuffix k "[*]") eqn:E; [|done].
  unfold HasSuffix in E. apply HasPrefix_true in E as [r Hr].
  apply (f_equal String.rev) in Hr. rewrite rev_involutive, rev_app in Hr. subst k.
  rewrite sforall_app in Hk. apply andb_true_iff in Hk as [_ Hk].
  rewrite rev_involutive in Hk. done.
Qed.

Lemma TrimSuffix_star_free k : star_free k → TrimSuffix k "[*]" = k.
Proof.
  unfold star_free, HasSuffix, HasPrefix, TrimSuffix, TrimPrefix. intros Hs.
  apply bool_decide_eq_false in Hs. apply eq_None_not_Some in Hs. rewrite Hs. simpl.
  apply rev_involutive.
Qed.

Lemma StripStar_reference k : sforall name_class k = true →
  StripStarVarSubExpression (reference k) = k ∧
  StripStarVarSubExpression (reference (k +:+ "[*]")) = k.
Proof.
  intros Hk. unfold StripStarVarSubExpression, reference.
  rewrite !TrimPrefix_app, !TrimSuffix_app. split; [|done].
  by apply TrimSuffix_star_free, name_class_star_free.
Qed.

(** The value of a parameter sits in the field its type names. *)
Definition ParamValue_wf (v : ParamValue) : Prop :=
  (Type_ v ≠ ParamTypeArray → ArrayVal v = []) ∧
  (Type_ v ≠ ParamTypeObject → ObjectVal v = ∅) ∧
  (Type_ v = ParamTypeArray ∨ Type_ v = ParamTypeObject → StringVal v = "").

#[export] Instance ParamValue_wf_dec v : Decision (ParamValue_wf v).
Proof. unfold ParamValue_wf. apply _. Defined.

Section typed.
Context `{MapOrder} (strings : gmap string string) (arrays : gmap string (list string))
  (objects : gmap string (gmap string string)).

Lemma applyOrCorrect_reference v k s :
  sforall name_class k = true → k ≠ "" →
  s = reference k ∨ s = reference (k +:+ "[*]") → StringVal v = s →
  applyOrCorrect strings arrays objects v =
    let v := match strings !! k with
             | Some _ => mkParamValue (Type_ v) (ApplyReplacements s strings) (ArrayVal v) (ObjectVal v)
             | None => v end in
    let v := match arrays !! k with
             | Some _ => mkParamValue ParamTypeArray "" (ApplyArrayReplacements s strings arrays) (ObjectVal v)
             | None => v end in
    match objects !! k with
    | Some obj => mkParamValue ParamTypeObject "" (ArrayVal v) obj
    | None => v
    end.
Proof.
  intros Hk Hne Hs Hv. destruct (StripStar_reference k Hk) as [H1 H2].
  unfold applyOrCorrect. rewrite Hv.
  assert (exactVariableSubstitution s = true) as ->.
  { destruct Hs as [-> | ->]; apply exactVariableSubstitution_reference;
      [by apply expression_name|by apply expression_star]. }
  assert (StripStarVarSubExpression s = k) as -> by by destruct Hs as [-> | ->].
  done.
Qed.

End typed.

(** C25: a string parameter that is exactly one reference takes over the whole
    value it refers to: it becomes an array parameter with the referenced array,
    an object parameter with the referenced object, or a string parameter with
    the referenced string. *)
Theorem whole_reference_takes_over_value `{MapOrder}
    (strings : gmap string string) (arrays : gmap string (list string))
    (objects : gmap string (gmap string string)) (v : ParamValue) (k s : string) :
  plain_keys strings → map_Forall (λ k _, star_free k) arrays →
  Type_ v = ParamTypeString → ParamValue_wf v →
  sforall name_class k = true → k ≠ "" →
  s = reference k ∨ s = reference (k +:+ "[*]") → StringVal v = s →
  (∀ a, arrays !! k = Some a → objects !! k = None →
     ParamValue_ApplyReplacements strings arrays objects v = mkParamValue ParamTypeArray "" a ∅) ∧
  (∀ o, objects !! k = Some o → arrays !! k = None →
     ParamValue_ApplyReplacements strings arrays objects v = NewObject o) ∧
  (∀ x, strings !! k = Some x → arrays !! k = None → objects !! k = None → s = reference k →
     ParamValue_ApplyReplacements strings arrays objects v = NewStructuredValues x []).
Proof.
  intros Hplain Hstar Hty (Hwa & Hwo & _) Hk Hne Hs Hv.
  rewrite Hty in Hwa, Hwo. specialize (Hwa ltac:(done)). specialize (Hwo ltac:(done)).
  assert (ParamValue_ApplyReplacements strings arrays objects v = applyOrCorrect strings arrays objects v) as ->.
  { unfold ParamValue_ApplyReplacements. by rewrite Hty. }
  rewrite (applyOrCorrect_reference _ _ _ v k s) by done. cbn zeta. split_and!.
  - intros a Ha ->. rewrite Ha, (ApplyArrayReplacements_hit _ _ _ k a) by done.
    destruct (strings !! k); simpl; by rewrite Hwo.
  - intros o -> ->. destruct (strings !! k); simpl; by rewrite Hwa.
  - intros x Hx -> -> ->. rewrite Hx, Hty, Hwa, Hwo. unfold NewStructuredValues. f_equal.
    rewrite <-(sapp_nil_r (reference k)).
    rewrite (ApplyReplacements_show strings Hplain [Ref k]); [by cbn; rewrite Hx, sapp_nil_r|].
    cbn. rewrite !name_class_avoids; done.
Qed.

Lemma whole_reference_takes_over_value_witness :
  ParamValue_ApplyReplacements (H := stdpp_order) ∅ {["params.a" := ["x"; "y"]]} ∅
    (NewStructuredValues "$(params.a[*])" []) = mkParamValue ParamTypeArray "" ["x"; "y"] ∅.
Proof.
  assert (map_Forall (λ k _, star_free k) ({["params.a" := ["x"; "y"]]} : gmap string (list string))) as Hs.
  { apply (bool_decide_unpack _). vm_compute. exact I. }
  apply (proj1 (whole_reference_takes_over_value (H := stdpp_order) ∅ {["params.a" := ["x"; "y"]]} ∅
    (NewStructuredValues "$(params.a[*])" []) "params.a" "$(params.a[*])"
    (map_Forall_empty _) Hs eq_refl ltac:(by split_and!; [|done|intros [|]]) eq_refl ltac:(done)
    (or_intror eq_refl) eq_refl)); reflexivity.
Defined.

(** C26: replacing variables keeps values well-formed: the value sits in the field
    its type names and the other fields are empty, also when a string parameter
    turns out to be an array or an object. *)
Theorem ParamValue_ApplyReplacements_wf `{MapOrder}
    (strings : gmap string string) (arrays : gmap string (list string))
    (objects : gmap string (gmap string string)) (v : ParamValue) :
  (∀ k, is_Some (arrays !! k) → objects !! k = None) → ParamValue_wf v →
  ParamValue_wf (ParamValue_ApplyReplacements strings arrays objects v).
Proof.
  intros Hdisj (Ha & Ho & Hs). unfold ParamValue_ApplyReplacements.
  case_bool_decide as Ety; [|case_bool_decide as Ety'].
  - unfold ParamValue_wf. simpl. rewrite Ety in *. naive_solver.
  - unfold ParamValue_wf. simpl. rewrite Ety' in *. naive_solver.
  - specialize (Ha Ety). specialize (Ho Ety'). unfold applyOrCorrect.
    destruct (negb _); [unfold ParamValue_wf; simpl; naive_solver|].
    set (k := StripStarVarSubExpression _).
    pose proof (Hdisj k) as Hk.
    destruct (strings !! k), (arrays !! k), (objects !! k); unfold ParamValue_wf; simpl;
      try (by specialize (Hk ltac:(eauto))); rewrite ?Ha, ?Ho; naive_solver.
Qed.

Lemma ParamValue_ApplyReplacements_wf_witness :
  ParamValue_wf (ParamValue_ApplyReplacements (H := stdpp_order) {["params.s" := "x"]}
    {["params.a" := ["1"; "2"]]} ∅ (NewStructuredValues "$(params.a)" [])).
Proof.
  apply ParamValue_ApplyReplacements_wf.
  - intros k _. reflexivity.
  - by split_and!; [|done|intros [|]].
Defined.
