(* ===== verification/When.v ===== *)
(** * When expressions

    [pkg/apis/pipeline/v1/when_types.go]: the guards of a pipeline task. *)
From S2P Require Import Prelude GoStrings Regex Substitution SubstitutionSpec ResultRef Params.

Record WhenExpression := mkWhen {
  Input : string;
  Operator : string;
  Values : list string;
  CEL : string
}.

Abbreviation WhenExpressions := (list WhenExpression).

Definition selection_In := "in".

Definition isInputInValues (we : WhenExpression) : bool :=
  existsb (λ v, bool_decide (v = Input we)) (Values we).

Definition isTrue (we : WhenExpression) : bool :=
  if bool_decide (Operator we = selection_In) then isInputInValues we
  else negb (isInputInValues we).

(** [AllowsExecution]: a CEL expression missing from the map counts as false. *)
Fixpoint AllowsExecution (wes : WhenExpressions) (evaluatedCEL : gmap string bool) : bool :=
  match wes with
  | [] => true
  | we :: wes =>
      if negb (isTrue we) || (bool_decide (CEL we ≠ "") && negb (default false (evaluatedCEL !! CEL we)))
      then false
      else AllowsExecution wes evaluatedCEL
  end.

(** [ResultsArrayReference] of [result_types.go]. *)
Definition ResultsArrayReference (a : string) : string :=
  TrimSuffix (TrimSuffix (TrimPrefix a "$(") ")") "[*]".

Section when.
Context `{MapOrder} (replacements : gmap string string) (arrayReplacements : gmap string (list string)).

Definition replace_when_value (val : string) : list string :=
  if bool_decide (is_Some (arrayReplacements !! (ParamsPrefix +:+ "." +:+ ArrayReference val))) then
    ApplyArrayReplacements val replacements arrayReplacements
  else if bool_decide (is_Some (arrayReplacements !! ResultsArrayReference val)) then
    ApplyArrayReplacements val replacements arrayReplacements
  else [ApplyReplacements val replacements].

Definition When_applyReplacements (we : WhenExpression) : WhenExpression :=
  mkWhen (ApplyReplacements (Input we) replacements) (Operator we)
    (Values we ≫= replace_when_value) (ApplyReplacements (CEL we) replacements).

(** [WhenExpressions.ReplaceVariables] writes into the array of its receiver and
    returns it. *)
Definition When_ReplaceVariables (wes : WhenExpressions) : WhenExpressions :=
  When_applyReplacements <$> wes.

End when.

(** [WhenExpression.GetVarSubstitutionExpressions]. *)
Definition When_GetVarSubstitutionExpressions (we : WhenExpression) : list string * bool :=
  let all := validateString (Input we) ++ validateString (CEL we) ++ (Values we ≫= validateString) in
  (all, negb (bool_decide (all = []))).

(** ** What a guard means *)

Lemma isInputInValues_iff we : isInputInValues we = true ↔ Input we ∈ Values we.
Proof.
  unfold isInputInValues. rewrite existsb_exists. split.
  - intros (v & Hin & ->%bool_decide_eq_true). by apply list_elem_of_In.
  - intros Hin. exists (Input we). rewrite bool_decide_eq_true. split; [by apply list_elem_of_In|done].
Qed.

Lemma AllowsExecution_Forall wes cel :
  AllowsExecution wes cel = true ↔
  Forall (λ we, isTrue we = true ∧ (CEL we = "" ∨ cel !! CEL we = Some true)) wes.
Proof.
  induction wes as [|we wes IH]; simpl; [by split|]. rewrite Forall_cons, <-IH.
  destruct (isTrue we); simpl; [|naive_solver].
  case_bool_decide as Hc; simpl; [|naive_solver].
  destruct (cel !! CEL we) as [[]|]; simpl; naive_solver.
Qed.

Lemma ArrayReference_param name :
  ArrayReference (reference (ParamsPrefix +:+ "." +:+ name +:+ "[*]")) = name.
Proof.
  unfold ArrayReference, reference. rewrite !sapp_assoc.
  change ("$(" +:+ ParamsPrefix +:+ "." +:+ name +:+ "[*]" +:+ ")")
    with (("$(" +:+ ParamsPrefix +:+ ".") +:+ (name +:+ "[*])")).
  by rewrite TrimPrefix_app, TrimSuffix_app.
Qed.

(** C28: a guard with its variables replaced means what it says.  For the guard
    that compares [$(k)] with the elements of the array parameter
    [$(params.name[*])], the task is allowed to run exactly when the value of
    [k] is ([in]) or is not ([notin]) an element of the array. *)
Theorem when_guard_over_array `{MapOrder}
    (strings : gmap string string) (arrays : gmap string (list string))
    (k x name op : string) (xs : list string) (cel : gmap string bool) :
  plain_keys strings → map_Forall (λ k _, star_free k) arrays →
  segment_ok (Ref k) = true → strings !! k = Some x →
  arrays !! (ParamsPrefix +:+ "." +:+ name) = Some xs →
  AllowsExecution (When_ReplaceVariables strings arrays
    [mkWhen (reference k) op [reference (ParamsPrefix +:+ "." +:+ name +:+ "[*]")] ""]) cel
  = if bool_decide (op = selection_In) then bool_decide (x ∈ xs) else bool_decide (x ∉ xs).
Proof.
  intros Hplain Hstar Hk Hx Hxs.
  assert (∀ t, t = "" ∨ t = reference k → ApplyReplacements t strings = if bool_decide (t = "") then "" else x) as Happ.
  { intros t [-> | ->].
    - apply (ApplyReplacements_show strings Hplain []). done.
    - rewrite <-(sapp_nil_r (reference k)).
      rewrite (ApplyReplacements_show strings Hplain [Ref k]); [by cbn; rewrite Hx, sapp_nil_r|].
      cbn [forallb]. by rewrite Hk. }
  unfold When_ReplaceVariables. cbn [fmap list_fmap].
  assert (When_applyReplacements strings arrays
    (mkWhen (reference k) op [reference (ParamsPrefix +:+ "." +:+ name +:+ "[*]")] "")
    = mkWhen x op xs "") as ->.
  { unfold When_applyReplacements. cbn [Input Operator Values CEL].
    rewrite (Happ (reference k)), (Happ "") by eauto. cbn [mbind list_bind].
    rewrite app_nil_r. f_equal.
    unfold replace_when_value. rewrite ArrayReference_param.
    rewrite bool_decide_true by (by rewrite Hxs).
    eapply ApplyArrayReplacements_hit; [done|exact Hxs|]. right. by rewrite sapp_assoc, sapp_assoc. }
  cbn [AllowsExecution CEL]. unfold isTrue. cbn [Operator].
  rewrite (bool_decide_false ("" ≠ "")) by naive_solver.
  assert (isInputInValues (mkWhen x op xs "") = bool_decide (x ∈ xs)) as ->.
  { apply eq_true_iff_eq. by rewrite isInputInValues_iff, bool_decide_eq_true. }
  rewrite bool_decide_not. by destruct (bool_decide (op = _)), (bool_decide (x ∈ xs)).
Qed.

Lemma when_guard_over_array_witness :
  AllowsExecution (When_ReplaceVariables (H := stdpp_order)
    {["params.env" := "prod"]} {["params.envs" := ["dev"; "prod"]]}
    [mkWhen "$(params.env)" "in" ["$(params.envs[*])"] ""]) ∅ = true.
Proof.
  assert (map_Forall (λ k _, star_free k) ({["params.envs" := ["dev"; "prod"]]} : gmap string (list string))) as Hs.
  { apply (bool_decide_unpack _). vm_compute. exact I. }
  assert (plain_keys ({["params.env" := "prod"]} : gmap string string)) as Hp.
  { apply (bool_decide_unpack _). vm_compute. exact I. }
  exact (when_guard_over_array (H := stdpp_order) {["params.env" := "prod"]}
    {["params.envs" := ["dev"; "prod"]]} "params.env" "prod" "envs" "in" ["dev"; "prod"] ∅
    Hp Hs eq_refl eq_refl eq_refl).
Defined.
