(* ===== verification/Matrix.v ===== *)
(** * Matrix

    [pkg/apis/pipeline/v1/matrix_types.go]: fanning a pipeline task out over the
    combinations of its matrix parameters, counting the combinations without
    building them, and the checks on a matrix. *)
From S2P Require Import Prelude GoStrings FieldErrors Substitution Params.

(** ** Data *)

Record IncludeParams := mkInclude { Include_Name : string; Include_Params : Params }.

Record Matrix := mkMatrix { Matrix_Params : Params; Include : list IncludeParams }.

Abbreviation Combination := (gmap string string).
Abbreviation Combinations := (list (gmap string string)).

Definition HasInclude (m : option Matrix) : bool :=
  match m with Some m => negb (bool_decide (length (Include m) = 0)) | None => false end.

Definition HasParams (m : option Matrix) : bool :=
  match m with Some m => negb (bool_decide (length (Matrix_Params m) = 0)) | None => false end.

(** ** Fanning out *)

Definition initializeCombinations (param : Param) : Combinations :=
  (λ value, {[Param_Name param := value]}) <$> ArrayVal (Param_Value param).

Definition distribute (cs : Combinations) (param : Param) : Combinations :=
  ArrayVal (Param_Value param) ≫= λ value,
    (λ combination, <[Param_Name param := value]> combination) <$> cs.

Definition fanOutMatrixParams (cs : Combinations) (param : Param) : Combinations :=
  match cs with
  | [] => initializeCombinations param
  | _ => distribute cs param
  end.

Definition getIncludeCombinations (m : Matrix) : Combinations :=
  (λ inc, foldl (λ c p, <[Param_Name p := StringVal (Param_Value p)]> c) ∅ (Include_Params inc))
    <$> Include m.

(** [contains]: the parameters both combinations have agree. *)
Definition contains (c includeCombination : Combination) : bool :=
  bool_decide (map_Forall (λ name val, default val (c !! name) = val) includeCombination).

Definition overwrite_one (ics : Combinations) (c : Combination) : Combination :=
  foldl (λ c ic, if contains c ic then ic ∪ c else c) c ics.

Definition overwriteCombinations (cs ics : Combinations) : Combinations :=
  overwrite_one ics <$> cs.

Definition shouldAddNewCombination (cs : Combinations) (ic : Combination) : bool :=
  if bool_decide (ic = ∅) then false
  else bool_decide (Forall (λ c,
    map_Forall (λ name val, c !! name ≠ Some val) ic) cs).

Definition addNewCombinations (cs ics : Combinations) : Combinations :=
  foldl (λ cs ic, if shouldAddNewCombination cs ic then cs ++ [ic] else cs) cs ics.

(** [sortCombination]: the keys in order; the map itself does not change. *)
Definition sortCombination `{MapOrder} (c : Combination) : list string :=
  merge_sort String.le (range_map c).*1.

Definition toParams `{MapOrder} (cs : Combinations) : list Params :=
  (λ c, (λ key, mkParam key (mkParamValue ParamTypeString (default "" (c !! key)) [] ∅))
          <$> sortCombination c) <$> cs.

(** The combinations [FanOut] turns into parameters. *)
Definition fanOutCombinations (m : Matrix) : Combinations :=
  let includeCombinations := getIncludeCombinations m in
  if HasInclude (Some m) && negb (HasParams (Some m)) then includeCombinations
  else
    let combinations := foldl fanOutMatrixParams [] (Matrix_Params m) in
    let combinations := overwriteCombinations combinations includeCombinations in
    addNewCombinations combinations includeCombinations.

Definition FanOut `{MapOrder} (m : Matrix) : list Params := toParams (fanOutCombinations m).

(** ** Counting *)

Definition countGeneratedCombinationsFromParams (m : Matrix) : Z :=
  if negb (HasParams (Some m)) then 0
  else foldl (λ count p, wrap64 (count * Z.of_nat (length (ArrayVal (Param_Value p)))))
         1%Z (Matrix_Params m).

(** The loop over the parameters of one include. *)
Fixpoint countInclude (matrixParamMap : gmap string (list string)) (ps : Params) : Z :=
  match ps with
  | [] => 0
  | p :: ps =>
      match matrixParamMap !! Param_Name p with
      | Some val =>
          if bool_decide (StringVal (Param_Value p) ∉ val)
          then 1 + countInclude matrixParamMap ps
          else 0
      | None => countInclude matrixParamMap ps
      end
  end.

Definition countNewCombinationsFromInclude (m : Matrix) : Z :=
  if negb (HasInclude (Some m)) then 0
  else if negb (HasParams (Some m)) then Z.of_nat (length (Include m))
  else
    let matrixParamMap := extractParamMapArrVals (Matrix_Params m) in
    foldl (λ count inc, (count + countInclude matrixParamMap (Include_Params inc))%Z) 0%Z (Include m).

Definition CountCombinations (m : Matrix) : Z :=
  wrap64 (countGeneratedCombinationsFromParams m + countNewCombinationsFromInclude m).

(** ** Parameters and checks *)

Definition GetAllParams (m : option Matrix) : Params :=
  match m with
  | Some m => Matrix_Params m ++ (Include m ≫= Include_Params)
  | None => []
  end.

Definition validateCombinationsCount (maxMatrixCombinationsCount : Z) (m : Matrix) : FieldError :=
  let count := CountCombinations m in
  if bool_decide (maxMatrixCombinationsCount < count)%Z
  then [Diagnostic ("expected 0 <= " +:+ Itoa count +:+ " <= " +:+ Itoa maxMatrixCombinationsCount)
          ["matrix"] ""]
  else [].

Definition validateUniqueParams (m : option Matrix) : FieldError :=
  match m with
  | Some m =>
      Also (concat (imap (λ i inc,
              ViaField ("matrix.include[" +:+ Itoa (Z.of_nat i) +:+ "].params")
                (validateDuplicateParameters (Include_Params inc))) (Include m)))
           (ViaField "matrix.params" (validateDuplicateParameters (Matrix_Params m)))
  | None => []
  end.

Definition validateParameterInOneOfMatrixOrParams (m : option Matrix) (params : Params) : FieldError :=
  let matrixParamNames := ExtractNames (GetAllParams m) in
  params ≫= λ p,
    if bool_decide (Param_Name p ∈ matrixParamNames)
    then ErrMultipleOneOf ["matrix[" +:+ Param_Name p +:+ "]"; "params[" +:+ Param_Name p +:+ "]"]
    else [].

Definition validatePipelineParametersVariablesInMatrixParameters `{MapOrder} (prefix : string)
    (paramNames arrayParamNames : gset string) (objectParamNameKeys : gmap string (list string))
    (m : option Matrix) : FieldError :=
  match m with
  | Some m =>
      Also (Include m ≫= λ inc, concat (imap (λ idx p,
              ViaField "matrix.include.params" (ViaFieldIndex "" (Z.of_nat idx)
                (validateStringVariable prefix paramNames arrayParamNames objectParamNameKeys
                   (StringVal (Param_Value p))))) (Include_Params inc)))
           (Matrix_Params m ≫= λ p, concat (imap (λ idx x,
              ViaFieldKey "matrix.params" (Param_Name p) (ViaFieldIndex "value" (Z.of_nat idx)
                (validateArrayVariable prefix paramNames arrayParamNames objectParamNameKeys x)))
              (ArrayVal (Param_Value p))))
  | None => []
  end.

(** ** The combinations are the cartesian product *)

Definition array_nonempty (p : Param) : Prop := ArrayVal (Param_Value p) ≠ [].

(** One value of every parameter's array. *)
Definition assigns (ps : Params) (c : Combination) : Prop :=
  dom c = list_to_set (Param_Name <$> ps) ∧
  ∀ p, p ∈ ps → ∃ v, v ∈ ArrayVal (Param_Value p) ∧ c !! Param_Name p = Some v.

Definition product (ps : Params) : nat :=
  foldl (λ n p, n * length (ArrayVal (Param_Value p))) 1 ps.

Lemma elem_of_distribute cs p c :
  c ∈ distribute cs p ↔ ∃ c0 v, c0 ∈ cs ∧ v ∈ ArrayVal (Param_Value p) ∧ c = <[Param_Name p := v]> c0.
Proof.
  unfold distribute. rewrite list_elem_of_bind. setoid_rewrite list_elem_of_fmap. naive_solver.
Qed.

Lemma length_distribute cs p :
  length (distribute cs p) = length cs * length (ArrayVal (Param_Value p)).
Proof.
  unfold distribute. induction (ArrayVal (Param_Value p)) as [|v vs IH]; [simpl; lia|].
  rewrite bind_cons, length_app, length_fmap, IH. simpl. lia.
Qed.

Lemma product_snoc ps p : product (ps ++ [p]) = product ps * length (ArrayVal (Param_Value p)).
Proof. unfold product. by rewrite foldl_app. Qed.

Lemma product_pos ps : Forall array_nonempty ps → 0 < product ps.
Proof.
  induction ps as [|p ps IH] using rev_ind; [unfold product; simpl; lia|].
  rewrite Forall_app, Forall_singleton. intros [Hps Hp]. rewrite product_snoc.
  specialize (IH Hps). unfold array_nonempty in Hp.
  destruct (ArrayVal (Param_Value p)); [done|]. simpl. lia.
Qed.

Lemma length_foldl_distribute ps : length (foldl distribute [∅] ps) = product ps.
Proof.
  induction ps as [|p ps IH] using rev_ind; [done|].
  by rewrite foldl_app, product_snoc; simpl; rewrite length_distribute, IH.
Qed.

(** Starting from the first parameter is distributing over the empty combination. *)
Lemma fanOut_distribute ps : Forall array_nonempty ps → ps ≠ [] →
  foldl fanOutMatrixParams [] ps = foldl distribute [∅] ps.
Proof.
  induction ps as [|p ps IH] using rev_ind; [done|].
  rewrite Forall_app, Forall_singleton. intros [Hps Hp] _. rewrite !foldl_app. simpl.
  destruct (decide (ps = [])) as [-> |Hne].
  - simpl. unfold initializeCombinations, distribute. clear.
    induction (ArrayVal (Param_Value p)) as [|v vs IH]; [done|].
    cbn [fmap list_fmap mbind list_bind] in *. rewrite IH. done.
  - rewrite IH by done. unfold fanOutMatrixParams.
    pose proof (length_foldl_distribute ps) as Hl. pose proof (product_pos ps Hps).
    destruct (foldl distribute [∅] ps); [simpl in Hl; lia|done].
Qed.

Lemma elem_of_combinations ps c :
  NoDup (Param_Name <$> ps) → c ∈ foldl distribute [∅] ps ↔ assigns ps c.
Proof.
  revert c. induction ps as [|p ps IH] using rev_ind; intros c.
  { intros _. simpl. rewrite list_elem_of_singleton. unfold assigns. simpl. split.
    - intros ->. split; [set_solver|]. by intros p ?%elem_of_nil.
    - intros [Hd _]. by apply dom_empty_inv_L. }
  rewrite fmap_app, NoDup_app. intros (Hnd & Hp & _).
  assert (Param_Name p ∉ Param_Name <$> ps) as Hnew.
  { intros Hin. apply (Hp _ Hin). simpl. by apply list_elem_of_singleton. }
  rewrite foldl_app. cbn [foldl]. rewrite elem_of_distribute.
  unfold assigns. rewrite fmap_app, list_to_set_app_L. cbn [fmap list_fmap list_to_set].
  setoid_rewrite elem_of_app. setoid_rewrite list_elem_of_singleton. split.
  - intros (c0 & v & Hc0 & Hv & ->). apply IH in Hc0 as [Hd Hall]; [|done]. split.
    + rewrite dom_insert_L, Hd. set_solver.
    + intros q [Hq| ->].
      * destruct (Hall q Hq) as (w & Hw & Hl). exists w. split; [done|].
        rewrite lookup_insert_ne; [done|]. intros E. apply Hnew. rewrite E. by apply list_elem_of_fmap_2.
      * exists v. by rewrite lookup_insert_eq.
  - intros [Hd Hall]. destruct (Hall p) as (v & Hv & Hl); [by right|].
    exists (delete (Param_Name p) c), v. split; [|split; [done|by rewrite insert_delete_id]].
    apply IH; [done|]. split.
    + rewrite dom_delete_L, Hd.
      assert (Param_Name p ∉ (list_to_set (Param_Name <$> ps) : gset string)) by by rewrite elem_of_list_to_set.
      set_solver.
    + intros q Hq. destruct (Hall q) as (w & Hw & Hl'); [by left|]. exists w. split; [done|].
      rewrite lookup_delete_ne; [done|]. intros E. apply Hnew. rewrite E. by apply list_elem_of_fmap_2.
Qed.

Lemma NoDup_distribute cs p ps :
  NoDup cs → NoDup (ArrayVal (Param_Value p)) →
  Param_Name p ∉ Param_Name <$> ps → (∀ c, c ∈ cs → assigns ps c) → NoDup (distribute cs p).
Proof.
  intros Hcs Hvs Hnew Has. unfold distribute.
  assert (Hnone : ∀ c, c ∈ cs → c !! Param_Name p = None).
  { intros c Hc. apply not_elem_of_dom. rewrite (proj1 (Has c Hc)). by rewrite elem_of_list_to_set. }
  apply NoDup_bind.
  - intros v1 v2 c _ _ (c1 & -> & H1)%list_elem_of_fmap (c2 & E & H2)%list_elem_of_fmap.
    apply (f_equal (lookup (Param_Name p))) in E. rewrite !lookup_insert_eq in E. by simplify_eq.
  - intros v _. apply NoDup_fmap_2_strong; [|done].
    intros c1 c2 H1 H2 E. rewrite <-(delete_insert_id c1 (Param_Name p) v) by auto.
    rewrite E. by apply delete_insert_id, Hnone.
  - done.
Qed.

Lemma NoDup_combinations ps :
  NoDup (Param_Name <$> ps) → Forall (λ p, NoDup (ArrayVal (Param_Value p))) ps →
  NoDup (foldl distribute [∅] ps).
Proof.
  induction ps as [|p ps IH] using rev_ind; [intros; apply NoDup_singleton|].
  rewrite fmap_app, NoDup_app, Forall_app, Forall_singleton. intros (Hnd & Hp & _) [Hps Hvs].
  rewrite foldl_app. cbn [foldl]. apply (NoDup_distribute _ _ ps); [auto|done| |].
  - intros Hin. apply (Hp _ Hin). simpl. by apply list_elem_of_singleton.
  - intros c. by apply elem_of_combinations.
Qed.

(** The parameters of one combination, in the order of their names. *)
Definition combination_params `{MapOrder} (c : Combination) : Params :=
  (λ key, mkParam key (mkParamValue ParamTypeString (default "" (c !! key)) [] ∅)) <$> sortCombination c.

Lemma fanOutCombinations_params m :
  Include m = [] → Matrix_Params m ≠ [] → Forall array_nonempty (Matrix_Params m) →
  fanOutCombinations m = foldl distribute [∅] (Matrix_Params m).
Proof.
  intros Hi Hne Har. unfold fanOutCombinations, getIncludeCombinations, HasInclude. rewrite Hi. simpl.
  rewrite fanOut_distribute by done. unfold overwriteCombinations. simpl.
  by rewrite list_fmap_id.
Qed.


Definition array_param (name : string) (values : list string) : Param :=
  mkParam name (mkParamValue ParamTypeArray "" values ∅).
Definition string_param (name value : string) : Param :=
  mkParam name (mkParamValue ParamTypeString value [] ∅).


(** ** Counting *)

Lemma count_generated ps n :
  (Z.of_nat (product ps) ≤ MaxInt)%Z → Forall array_nonempty ps → n = 1%Z →
  foldl (λ count p, wrap64 (count * Z.of_nat (length (ArrayVal (Param_Value p))))) n ps
    = Z.of_nat (product ps).
Proof.
  intros Hle Har ->. revert Hle. induction ps as [|p ps IH] using rev_ind; [done|].
  rewrite Forall_app, Forall_singleton in Har. destruct Har as [Hps Hp]. rewrite product_snoc, foldl_app. simpl.
  assert (1 ≤ length (ArrayVal (Param_Value p))) as Hlen.
  { unfold array_nonempty in Hp. destruct (ArrayVal (Param_Value p)); [done|]. simpl; lia. }
  rewrite Nat2Z.inj_mul. intros Hle. rewrite IH; [|done|nia].
  apply wrap64_id. unfold MinInt. lia.
Qed.

(** The parameters of an include whose names the matrix has. *)
Definition matrix_named (m : Matrix) (inc : IncludeParams) : Params :=
  filter (λ p, Param_Name p ∈ Param_Name <$> Matrix_Params m) (Include_Params inc).

(** At most one include, in which each name occurs once and at most one name is
    a parameter of the matrix. *)
Definition simple_include (m : Matrix) : Prop :=
  length (Include m) ≤ 1 ∧
  Forall (λ inc, NoDup (Param_Name <$> Include_Params inc) ∧ length (matrix_named m inc) ≤ 1) (Include m).

Lemma countInclude_filter mp ps :
  countInclude mp ps = countInclude mp (filter (λ p, is_Some (mp !! Param_Name p)) ps).
Proof.
  induction ps as [|p ps IH]; [done|]. rewrite filter_cons. case_decide as Hp; cbn [countInclude].
  - by rewrite IH.
  - apply eq_None_not_Some in Hp. by rewrite Hp.
Qed.

Lemma lookup_matrix_map m n vs :
  NoDup (Param_Name <$> Matrix_Params m) →
  extractParamMapArrVals (Matrix_Params m) !! n = Some vs ↔
  ∃ p, p ∈ Matrix_Params m ∧ Param_Name p = n ∧ ArrayVal (Param_Value p) = vs.
Proof.
  intros Hnd. unfold extractParamMapArrVals.
  rewrite (foldl_insert_lookup Param_Name (λ p, ArrayVal (Param_Value p))) by done.
  rewrite lookup_empty. naive_solver.
Qed.

Lemma matrix_map_named m n :
  NoDup (Param_Name <$> Matrix_Params m) →
  is_Some (extractParamMapArrVals (Matrix_Params m) !! n) ↔ n ∈ Param_Name <$> Matrix_Params m.
Proof.
  intros Hnd. rewrite list_elem_of_fmap. unfold is_Some. split.
  - intros [vs (p & ? & ? & _)%lookup_matrix_map]; [|done]. by exists p.
  - intros (p & -> & Hp). exists (ArrayVal (Param_Value p)). apply lookup_matrix_map; eauto.
Qed.

Lemma countInclude_named m inc :
  NoDup (Param_Name <$> Matrix_Params m) →
  countInclude (extractParamMapArrVals (Matrix_Params m)) (Include_Params inc)
    = countInclude (extractParamMapArrVals (Matrix_Params m)) (matrix_named m inc).
Proof.
  intros Hnd. rewrite countInclude_filter. f_equal. unfold matrix_named.
  apply list_filter_iff. intros p. by apply matrix_map_named.
Qed.

Section single_include.
Context (m : Matrix) (inc : IncludeParams).
Context (Hne : Matrix_Params m ≠ []) (Har : Forall array_nonempty (Matrix_Params m)).
Context (Hnd : NoDup (Param_Name <$> Matrix_Params m)).
Context (Hinc : NoDup (Param_Name <$> Include_Params inc)).

Abbreviation cs := (foldl distribute [∅] (Matrix_Params m)).

Definition include_combination : Combination :=
  foldl (λ c p, <[Param_Name p := StringVal (Param_Value p)]> c) ∅ (Include_Params inc).

Lemma lookup_include n v :
  include_combination !! n = Some v ↔
  ∃ p, p ∈ Include_Params inc ∧ Param_Name p = n ∧ StringVal (Param_Value p) = v.
Proof.
  unfold include_combination.
  rewrite (foldl_insert_lookup Param_Name (λ p, StringVal (Param_Value p))) by done.
  rewrite lookup_empty. naive_solver.
Qed.

Lemma combination_nonempty : ∃ c, c ∈ cs.
Proof.
  pose proof (length_foldl_distribute (Matrix_Params m)) as Hl.
  pose proof (product_pos _ Har). destruct cs as [|c l]; [simpl in Hl; lia|]. exists c. left.
Qed.

Lemma combination_lookup_None c n :
  c ∈ cs → n ∉ Param_Name <$> Matrix_Params m → c !! n = None.
Proof.
  intros Hc Hn. apply elem_of_combinations in Hc as [Hd _]; [|done].
  apply not_elem_of_dom. by rewrite Hd, elem_of_list_to_set.
Qed.

Lemma elem_of_matrix_named p :
  p ∈ matrix_named m inc ↔ p ∈ Include_Params inc ∧ Param_Name p ∈ Param_Name <$> Matrix_Params m.
Proof. unfold matrix_named. rewrite list_elem_of_filter. naive_solver. Qed.

Definition overwritten : Combinations := overwriteCombinations cs [include_combination].

Lemma elem_of_overwritten c' :
  c' ∈ overwritten ↔ ∃ c, c ∈ cs ∧
    c' = if contains c include_combination then include_combination ∪ c else c.
Proof. unfold overwritten, overwriteCombinations. rewrite list_elem_of_fmap. simpl. naive_solver. Qed.

(** An include that agrees with some combination adds none. *)
Lemma include_merged c :
  c ∈ cs → contains c include_combination = true →
  shouldAddNewCombination overwritten include_combination = false.
Proof.
  intros Hc Hcont. unfold shouldAddNewCombination. case_bool_decide as He; [done|].
  rewrite bool_decide_eq_false. intros Hall. apply map_choose in He as (n & v & Hn).
  rewrite Forall_forall in Hall.
  apply (Hall (include_combination ∪ c)) in Hn as Hbad.
  - apply Hbad. by apply lookup_union_Some_l.
  - apply elem_of_overwritten. exists c. by rewrite Hcont.
Qed.

(** No parameter of the include is a matrix parameter. *)
Lemma include_unnamed :
  matrix_named m inc = [] → shouldAddNewCombination overwritten include_combination = false.
Proof.
  intros Hnil. destruct combination_nonempty as [c Hc]. apply (include_merged c Hc).
  apply bool_decide_eq_true. intros n v (p & Hp & <- & <-)%lookup_include.
  rewrite (combination_lookup_None c); [done|done|]. intros Hin.
  assert (p ∈ matrix_named m inc) as Hbad by (by apply elem_of_matrix_named).
  by rewrite Hnil, elem_of_nil in Hbad.
Qed.

Section one_named.
Context (p q : Param) (Hp : matrix_named m inc = [p]).
Context (Hq : q ∈ Matrix_Params m) (Hname : Param_Name q = Param_Name p).

Lemma p_in_include : p ∈ Include_Params inc.
Proof. apply elem_of_matrix_named. rewrite Hp. left. Qed.

Lemma other_unnamed n v c :
  c ∈ cs → include_combination !! n = Some v → n ≠ Param_Name p → c !! n = None.
Proof.
  intros Hc (r & Hr & <- & <-)%lookup_include Hn. apply combination_lookup_None; [done|].
  intros Hin. assert (r ∈ matrix_named m inc) as Hr' by (by apply elem_of_matrix_named).
  rewrite Hp, list_elem_of_singleton in Hr'. by subst.
Qed.

Lemma include_p : include_combination !! Param_Name p = Some (StringVal (Param_Value p)).
Proof. apply lookup_include. exists p. split; [apply p_in_include|done]. Qed.

(** The value the include gives is one of the matrix parameter's. *)
Lemma include_known_value :
  StringVal (Param_Value p) ∈ ArrayVal (Param_Value q) →
  shouldAddNewCombination overwritten include_combination = false.
Proof.
  intros Hv. destruct combination_nonempty as [c0 Hc0].
  set (c := <[Param_Name p := StringVal (Param_Value p)]> c0).
  assert (c ∈ cs) as Hc.
  { apply elem_of_combinations; [done|]. apply elem_of_combinations in Hc0 as [Hd Hall]; [|done].
    assert (Param_Name p ∈ Param_Name <$> Matrix_Params m) as Hin
      by (rewrite <-Hname; by apply list_elem_of_fmap_2).
    split.
    - unfold c. rewrite dom_insert_L, Hd. apply subseteq_union_1_L, singleton_subseteq_l.
      by rewrite elem_of_list_to_set.
    - intros r Hr. destruct (decide (Param_Name r = Param_Name p)) as [E|E].
      + assert (r = q) as ->.
        { apply list_elem_of_lookup in Hr as [i Hi]. apply list_elem_of_lookup in Hq as [j Hj].
          assert (i = j) as <-; [|congruence].
          apply (NoDup_lookup _ i j (Param_Name p) Hnd).
          - rewrite list_lookup_fmap, Hi. simpl. by rewrite E.
          - rewrite list_lookup_fmap, Hj. simpl. by rewrite Hname. }
        exists (StringVal (Param_Value p)). split; [done|]. rewrite E. by apply lookup_insert_eq.
      + destruct (Hall r Hr) as (w & ? & ?). exists w. split; [done|].
        unfold c. by rewrite lookup_insert_ne. }
  apply (include_merged c Hc). apply bool_decide_eq_true. intros n v Hn.
  destruct (decide (n = Param_Name p)) as [-> |E].
  - rewrite include_p in Hn. unfold c. rewrite lookup_insert_eq. by simplify_eq.
  - by rewrite (other_unnamed n v c).
Qed.

(** The value is new. *)
Lemma include_new_value :
  StringVal (Param_Value p) ∉ ArrayVal (Param_Value q) →
  shouldAddNewCombination overwritten include_combination = true.
Proof.
  intros Hv.
  assert (Hpc : ∀ c, c ∈ cs → ∃ w, c !! Param_Name p = Some w ∧ w ≠ StringVal (Param_Value p)).
  { intros c Hc. apply elem_of_combinations in Hc as [_ Hall]; [|done].
    destruct (Hall q Hq) as (w & Hw & Hl). exists w. rewrite <-Hname. split; [done|congruence]. }
  unfold shouldAddNewCombination. rewrite bool_decide_false.
  2:{ intros E. pose proof include_p as Hi. by rewrite E, lookup_empty in Hi. }
  apply bool_decide_eq_true, Forall_forall. intros c' (c & Hc & ->)%elem_of_overwritten n v Hn.
  destruct (Hpc c Hc) as (w & Hw & Hne').
  destruct (contains c include_combination) eqn:E.
  { apply bool_decide_eq_true in E. pose proof (E _ _ include_p) as Hbad.
    simpl in Hbad. by rewrite Hw in Hbad. }
  destruct (decide (n = Param_Name p)) as [-> |En].
  - rewrite include_p in Hn. congruence.
  - by rewrite (other_unnamed n v c).
Qed.

End one_named.
End single_include.

Lemma fanOutCombinations_one m inc :
  Include m = [inc] → Matrix_Params m ≠ [] → Forall array_nonempty (Matrix_Params m) →
  length (fanOutCombinations m) = product (Matrix_Params m) +
    if shouldAddNewCombination (overwritten m inc) (include_combination inc) then 1 else 0.
Proof.
  intros Hi Hne Har. unfold fanOutCombinations, getIncludeCombinations, HasInclude, HasParams. rewrite Hi.
  rewrite (bool_decide_false (length (Matrix_Params m) = 0)) by by destruct (Matrix_Params m).
  cbn [negb]. rewrite andb_false_r. cbn zeta. rewrite fanOut_distribute by done.
  cbn [fmap list_fmap]. change (foldl _ ∅ (Include_Params inc)) with (include_combination inc).
  change (overwriteCombinations _ _) with (overwritten m inc).
  unfold addNewCombinations. cbn [foldl].
  assert (length (overwritten m inc) = product (Matrix_Params m)) as Hl.
  { unfold overwritten, overwriteCombinations. by rewrite length_fmap, length_foldl_distribute. }
  destruct (shouldAddNewCombination _ _); rewrite ?length_app, Hl; simpl; lia.
Qed.

Lemma count_include m inc :
  Include m = [inc] → Matrix_Params m ≠ [] → Forall array_nonempty (Matrix_Params m) →
  NoDup (Param_Name <$> Matrix_Params m) → NoDup (Param_Name <$> Include_Params inc) →
  length (matrix_named m inc) ≤ 1 →
  countNewCombinationsFromInclude m =
    if shouldAddNewCombination (overwritten m inc) (include_combination inc) then 1%Z else 0%Z.
Proof.
  intros Hi Hne Har Hnd Hinc Hlen. unfold countNewCombinationsFromInclude, HasInclude, HasParams.
  rewrite Hi. rewrite (bool_decide_false (length (Matrix_Params m) = 0)) by by destruct (Matrix_Params m).
  cbn -[countInclude extractParamMapArrVals]. rewrite countInclude_named by done.
  destruct (matrix_named m inc) as [|p [|]] eqn:Hn; [| |simpl in Hlen; lia].
  - by rewrite include_unnamed.
  - assert (Param_Name p ∈ Param_Name <$> Matrix_Params m) as Hin.
    { apply (elem_of_matrix_named m inc). rewrite Hn. left. }
    apply list_elem_of_fmap in Hin as (q & Hname & Hq).
    cbn [countInclude].
    rewrite (proj2 (lookup_matrix_map m (Param_Name p) (ArrayVal (Param_Value q)) Hnd)) by eauto.
    rewrite (bool_decide_false (1 = 0)) by done. cbn [negb].
    destruct (decide (StringVal (Param_Value p) ∈ ArrayVal (Param_Value q))) as [Hv|Hv].
    + rewrite bool_decide_false by naive_solver.
      by rewrite include_known_value with (p := p) (q := q).
    + rewrite bool_decide_true by done.
      by rewrite include_new_value with (p := p) (q := q).
Qed.

(** C17: [CountCombinations] counts what [FanOut] produces: for matrices without
    include parameters, with only include parameters, or with one include that
    names at most one matrix parameter, provided no parameter array is empty and
    the number of combinations fits in an [int]. *)
Theorem CountCombinations_counts_FanOut `{MapOrder} (m : Matrix) :
  Forall array_nonempty (Matrix_Params m) → NoDup (Param_Name <$> Matrix_Params m) →
  Matrix_Params m = [] ∨ simple_include m →
  (Z.of_nat (product (Matrix_Params m)) + Z.of_nat (length (Include m)) ≤ MaxInt)%Z →
  Matrix_Params m ≠ [] ∨ Include m ≠ [] →
  CountCombinations m = Z.of_nat (length (FanOut m)).
Proof.
  intros Har Hnd Hsimple Hle Hne. unfold FanOut, toParams. rewrite length_fmap.
  unfold CountCombinations, countGeneratedCombinationsFromParams, HasParams.
  destruct (decide (Matrix_Params m = [])) as [E|E].
  { unfold fanOutCombinations, countNewCombinationsFromInclude, HasParams, HasInclude, getIncludeCombinations.
    rewrite E in *. simpl.
    rewrite (bool_decide_false (length (Include m) = 0)) by (destruct (Include m); naive_solver).
    simpl. rewrite length_fmap. apply wrap64_id. unfold MinInt, product in *. simpl in Hle. lia. }
  rewrite bool_decide_false by by destruct (Matrix_Params m). cbn [negb].
  rewrite count_generated by (done || lia).
  destruct Hsimple as [|[Hlen Hall]]; [done|].
  destruct (Include m) as [|inc [|]] eqn:Ei; [| |simpl in Hlen; lia].
  - rewrite fanOutCombinations_params, length_foldl_distribute by done.
    unfold countNewCombinationsFromInclude, HasInclude. rewrite Ei. simpl.
    rewrite Z.add_0_r. apply wrap64_id. unfold MinInt. simpl in Hle. lia.
  - rewrite Forall_singleton in Hall. destruct Hall as [Hinc Hl].
    rewrite (count_include m inc), (fanOutCombinations_one m inc) by done.
    destruct (shouldAddNewCombination _ _); rewrite wrap64_id; simpl in *; unfold MinInt; lia.
Qed.

Lemma CountCombinations_counts_FanOut_witness :
  CountCombinations (mkMatrix [array_param "os" ["linux"; "mac"]; array_param "go" ["1.21"; "1.22"]]
    [mkInclude "win" [string_param "os" "windows"; string_param "flags" "-v"]]) = 5%Z.
Proof.
  refine (eq_trans (CountCombinations_counts_FanOut (H := stdpp_order)
    (mkMatrix [array_param "os" ["linux"; "mac"]; array_param "go" ["1.21"; "1.22"]]
    [mkInclude "win" [string_param "os" "windows"; string_param "flags" "-v"]]) _ _ _ _ _) eq_refl).
  - by repeat constructor.
  - apply (bool_decide_unpack _). vm_compute. exact I.
  - right. split; [by vm_compute; lia|]. apply Forall_singleton. split.
    + apply (bool_decide_unpack _). vm_compute. exact I.
    + vm_compute. lia.
  - vm_compute. discriminate.
  - by left.
Defined.

