(* ===== verification/Runs.v ===== *)
(** * Runs

    The objects a pipeline run is made of and the questions asked of them:
    [pkg/apis/pipeline/v1/taskrun_types.go], [pkg/apis/pipeline/v1/pipelinerun_types.go]
    and [pkg/apis/pipeline/v1beta1/customrun_types.go].  The records hold the
    fields the modelled code reads.

    An instant is a number of nanoseconds; [None] is a nil or zero
    [metav1.Time].  A duration is a 64-bit number of nanoseconds. *)
From S2P Require Import Prelude GoStrings Params When.

(** ** Conditions *)

(** [corev1.ConditionStatus]. *)
Inductive ConditionStatus := ConditionTrue | ConditionFalse | ConditionUnknown.

#[export] Instance ConditionStatus_eq_dec : EqDecision ConditionStatus.
Proof. solve_decision. Defined.

Record Condition := mkCondition {
  Condition_Type : string;
  Condition_Status : ConditionStatus;
  Condition_Reason : string;
  Condition_Message : string
}.

#[export] Instance Condition_eq_dec : EqDecision Condition.
Proof. solve_decision. Defined.

Definition ConditionSucceeded := "Succeeded".

(** [GetCondition]. *)
Definition GetCondition (conditions : list Condition) (t : string) : option Condition :=
  snd <$> list_find (λ c, Condition_Type c = t) conditions.

Definition IsTrue (c : option Condition) : bool :=
  match c with Some c => bool_decide (Condition_Status c = ConditionTrue) | None => false end.
Definition IsFalse (c : option Condition) : bool :=
  match c with Some c => bool_decide (Condition_Status c = ConditionFalse) | None => false end.
Definition IsUnknown (c : option Condition) : bool :=
  match c with Some c => bool_decide (Condition_Status c = ConditionUnknown) | None => true end.

(** ** Time *)

Definition NoTimeoutDuration : Z := 0.
Definition Minute : Z := 60 * 10 ^ 9.
Definition DefaultTimeoutMinutes : Z := 60.

(** [c.Since(t)]: the difference of two instants, held in the range of a duration. *)
Definition Since (now t : Z) : Z := Z.max MinInt (Z.min MaxInt (now - t)).

(** ** TaskRuns *)

(** [TaskRunResult]: a name and a typed value. *)
Record TaskRunResult := mkTaskRunResult {
  TaskRunResult_Name : string;
  TaskRunResult_Type : string;
  TaskRunResult_Value : ParamValue
}.

Record TaskRun := {
  TaskRun_Name : string;
  TaskRun_CreationTimestamp : Z;
  TaskRun_OwnerReferences : list (string * string);  (* kind, name *)
  TaskRun_Params : Params;
  TaskRun_SpecStatus : string;
  TaskRun_StatusMessage : string;
  TaskRun_Timeout : option Z;
  TaskRun_Retries : Z;
  TaskRun_Conditions : list Condition;
  TaskRun_StartTime : option Z;
  TaskRun_RetriesStatus : nat;  (* the length of the list *)
  TaskRun_Results : list TaskRunResult
}.

Definition TaskRunSpecStatusCancelled := "TaskRunCancelled".
Definition TaskRunReasonSuccessful := "Succeeded".
Definition TaskRunReasonFailed := "Failed".
Definition TaskRunReasonCancelled := "TaskRunCancelled".
Definition TaskRunCancelledByPipelineTimeoutMsg :=
  "TaskRun cancelled as the PipelineRun it belongs to has timed out.".

Definition PipelineRunControllerName := "PipelineRun".
Definition TaskRunControllerName := "TaskRun".
Definition CustomRunControllerName := "CustomRun".

Definition TaskRun_condition (tr : TaskRun) : option Condition :=
  GetCondition (TaskRun_Conditions tr) ConditionSucceeded.
Definition TaskRun_IsDone (tr : TaskRun) : bool := negb (IsUnknown (TaskRun_condition tr)).
Definition TaskRun_IsSuccessful (tr : TaskRun) : bool := IsTrue (TaskRun_condition tr).
Definition TaskRun_IsFailure (tr : TaskRun) : bool := IsFalse (TaskRun_condition tr).
Definition TaskRun_IsCancelled (tr : TaskRun) : bool :=
  bool_decide (TaskRun_SpecStatus tr = TaskRunSpecStatusCancelled).
Definition TaskRun_HasStarted (tr : TaskRun) : bool := bool_decide (is_Some (TaskRun_StartTime tr)).
Definition TaskRun_IsRetriable (tr : TaskRun) : bool :=
  bool_decide (Z.of_nat (TaskRun_RetriesStatus tr) < TaskRun_Retries tr)%Z.

(** [TaskRun_GetTimeout], with the configured default. *)
Definition TaskRun_GetTimeout (defaultMinutes : Z) (tr : TaskRun) : Z :=
  match TaskRun_Timeout tr with Some d => d | None => wrap64 (defaultMinutes * Minute) end.

Definition TaskRun_HasTimedOut (defaultMinutes now : Z) (tr : TaskRun) : bool :=
  match TaskRun_StartTime tr with
  | None => false
  | Some start =>
      let timeout := TaskRun_GetTimeout defaultMinutes tr in
      if bool_decide (timeout = NoTimeoutDuration) then false
      else bool_decide (Since now start > timeout)%Z
  end.

Definition TaskRun_GetPipelineRunPVCName (tr : option TaskRun) : string :=
  match tr with
  | None => ""
  | Some tr =>
      match list_find (λ ref : string * string, ref.1 = PipelineRunControllerName)
              (TaskRun_OwnerReferences tr) with
      | Some (_, (_, name)) => name +:+ "-pvc"
      | None => ""
      end
  end.

Definition TaskRun_HasPipelineRunOwnerReference (tr : TaskRun) : bool :=
  existsb (λ ref : string * string, bool_decide (ref.1 = PipelineRunControllerName))
    (TaskRun_OwnerReferences tr).

(** ** CustomRuns *)

Record CustomRunResult := mkCustomRunResult {
  CustomRunResult_Name : string;
  CustomRunResult_Value : string
}.

Record CustomRun := {
  CustomRun_Name : string;
  CustomRun_CreationTimestamp : Z;
  CustomRun_OwnerReferences : list (string * string);
  CustomRun_Params : Params;
  CustomRun_SpecStatus : string;
  CustomRun_StatusMessage : string;
  CustomRun_Timeout : option Z;
  CustomRun_Conditions : list Condition;
  CustomRun_StartTime : option Z;
  CustomRun_RetriesStatus : nat;
  CustomRun_Results : list CustomRunResult
}.

Definition CustomRunSpecStatusCancelled := "RunCancelled".
Definition CustomRunReasonCancelled := "CustomRunCancelled".
Definition CustomRunCancelledByPipelineTimeoutMsg :=
  "CustomRun cancelled as the PipelineRun it belongs to has timed out.".

Definition CustomRun_condition (r : CustomRun) : option Condition :=
  GetCondition (CustomRun_Conditions r) ConditionSucceeded.
Definition CustomRun_IsDone (r : CustomRun) : bool := negb (IsUnknown (CustomRun_condition r)).
Definition CustomRun_IsSuccessful (r : CustomRun) : bool := IsTrue (CustomRun_condition r).
Definition CustomRun_IsFailure (r : CustomRun) : bool := IsFalse (CustomRun_condition r).
Definition CustomRun_IsCancelled (r : CustomRun) : bool :=
  bool_decide (CustomRun_SpecStatus r = CustomRunSpecStatusCancelled).
Definition CustomRun_HasStarted (r : CustomRun) : bool := bool_decide (is_Some (CustomRun_StartTime r)).
Definition CustomRun_GetRetryCount (r : CustomRun) : nat := CustomRun_RetriesStatus r.

Definition CustomRun_GetTimeout (r : CustomRun) : Z :=
  match CustomRun_Timeout r with Some d => d | None => wrap64 (DefaultTimeoutMinutes * Minute) end.

Definition CustomRun_HasTimedOut (now : Z) (r : CustomRun) : bool :=
  match CustomRun_StartTime r with
  | None => false
  | Some start =>
      let timeout := CustomRun_GetTimeout r in
      if bool_decide (timeout = NoTimeoutDuration) then false
      else bool_decide (Since now start > timeout)%Z
  end.

Definition CustomRun_HasPipelineRunOwnerReference (r : CustomRun) : bool :=
  existsb (λ ref : string * string, bool_decide (ref.1 = PipelineRunControllerName))
    (CustomRun_OwnerReferences r).

Definition CustomRun_GetParam (name : string) (r : CustomRun) : option Param :=
  snd <$> list_find (λ p, Param_Name p = name) (CustomRun_Params r).

(** ** PipelineRuns *)

Record TimeoutFields := mkTimeouts {
  Timeouts_Pipeline : option Z;
  Timeouts_Tasks : option Z;
  Timeouts_Finally : option Z
}.

(** [ChildStatusReference]: the object a pipeline task started. *)
Record ChildStatusReference := mkChildRef {
  ChildRef_APIVersion : string;
  ChildRef_Kind : string;
  ChildRef_Name : string;
  ChildRef_DisplayName : string;
  ChildRef_PipelineTaskName : string;
  ChildRef_WhenExpressions : WhenExpressions
}.

Record PipelineRun := {
  PipelineRun_Name : string;
  PipelineRun_Namespace : string;
  PipelineRun_UID : string;
  PipelineRun_SpecStatus : string;
  PipelineRun_Timeouts : option TimeoutFields;
  PipelineRun_Params : Params;
  PipelineRun_Workspaces : list string;  (* the names of the bindings *)
  PipelineRun_TaskRunSpecs : list string;  (* the pipeline tasks they are for *)
  PipelineRun_Conditions : list Condition;
  PipelineRun_StartTime : option Z;
  PipelineRun_FinallyStartTime : option Z;
  PipelineRun_ChildReferences : list ChildStatusReference
}.

Definition PipelineRunSpecStatusCancelled := "Cancelled".
Definition PipelineRunSpecStatusCancelledRunFinally := "CancelledRunFinally".
Definition PipelineRunSpecStatusStoppedRunFinally := "StoppedRunFinally".
Definition PipelineRunSpecStatusPending := "PipelineRunPending".
Definition PipelineRunReasonTimedOut := "PipelineRunTimeout".

Definition PipelineRun_condition (pr : PipelineRun) : option Condition :=
  GetCondition (PipelineRun_Conditions pr) ConditionSucceeded.
Definition PipelineRun_IsDone (pr : PipelineRun) : bool := negb (IsUnknown (PipelineRun_condition pr)).
Definition PipelineRun_HasStarted (pr : PipelineRun) : bool := bool_decide (is_Some (PipelineRun_StartTime pr)).
Definition PipelineRun_IsCancelled (pr : PipelineRun) : bool :=
  bool_decide (PipelineRun_SpecStatus pr = PipelineRunSpecStatusCancelled).
Definition PipelineRun_IsGracefullyCancelled (pr : PipelineRun) : bool :=
  bool_decide (PipelineRun_SpecStatus pr = PipelineRunSpecStatusCancelledRunFinally).
Definition PipelineRun_IsGracefullyStopped (pr : PipelineRun) : bool :=
  bool_decide (PipelineRun_SpecStatus pr = PipelineRunSpecStatusStoppedRunFinally).
Definition PipelineRun_IsPending (pr : PipelineRun) : bool :=
  bool_decide (PipelineRun_SpecStatus pr = PipelineRunSpecStatusPending).

Definition PipelineRun_IsTimeoutConditionSet (pr : PipelineRun) : bool :=
  match PipelineRun_condition pr with
  | Some c => IsFalse (Some c) && bool_decide (Condition_Reason c = PipelineRunReasonTimedOut)
  | None => false
  end.

(** [PipelineRun_PipelineTimeout], with the configured default. *)
Definition PipelineRun_PipelineTimeout (defaultMinutes : Z) (pr : PipelineRun) : Z :=
  match PipelineRun_Timeouts pr with
  | Some {| Timeouts_Pipeline := Some d |} => d
  | _ => wrap64 (defaultMinutes * Minute)
  end.

Definition PipelineRun_TasksTimeout (pr : PipelineRun) : option Z :=
  match PipelineRun_Timeouts pr with
  | None => None
  | Some t =>
      match Timeouts_Tasks t, Timeouts_Pipeline t, Timeouts_Finally t with
      | Some d, _, _ => Some d
      | None, Some p, Some f =>
          if bool_decide (p = NoTimeoutDuration ∨ f = NoTimeoutDuration) then None
          else Some (wrap64 (p - f))
      | None, _, _ => None
      end
  end.

Definition PipelineRun_FinallyTimeout (pr : PipelineRun) : option Z :=
  match PipelineRun_Timeouts pr with
  | None => None
  | Some t =>
      match Timeouts_Finally t, Timeouts_Pipeline t, Timeouts_Tasks t with
      | Some d, _, _ => Some d
      | None, Some p, Some ts =>
          if bool_decide (p = NoTimeoutDuration ∨ ts = NoTimeoutDuration) then None
          else Some (wrap64 (p - ts))
      | None, _, _ => None
      end
  end.

(** The shape the three timeout questions share. *)
Definition exceeded (now : Z) (start timeout : option Z) : bool :=
  match start, timeout with
  | Some s, Some d =>
      if bool_decide (d = NoTimeoutDuration) then false else bool_decide (Since now s > d)%Z
  | _, _ => false
  end.

Definition PipelineRun_HasTimedOut (defaultMinutes now : Z) (pr : PipelineRun) : bool :=
  exceeded now (PipelineRun_StartTime pr) (Some (PipelineRun_PipelineTimeout defaultMinutes pr)).

Definition PipelineRun_HasTimedOutForALongTime (defaultMinutes now : Z) (pr : PipelineRun) : bool :=
  if negb (PipelineRun_HasTimedOut defaultMinutes now pr) then false
  else match PipelineRun_StartTime pr with
       | Some start =>
           bool_decide (wrap64 (2 * PipelineRun_PipelineTimeout defaultMinutes pr) ≤ Since now start)%Z
       | None => false
       end.

Definition PipelineRun_HaveTasksTimedOut (now : Z) (pr : PipelineRun) : bool :=
  exceeded now (PipelineRun_StartTime pr) (PipelineRun_TasksTimeout pr).

Definition PipelineRun_HasFinallyTimedOut (now : Z) (pr : PipelineRun) : bool :=
  exceeded now (PipelineRun_FinallyStartTime pr) (PipelineRun_FinallyTimeout pr).

(** ** Lemmas *)

Lemma IsDone_iff c : negb (IsUnknown c) = IsTrue c || IsFalse c.
Proof. destruct c as [[? [] ? ?]|]; done. Qed.

Lemma IsTrue_not_IsFalse c : IsTrue c = true → IsFalse c = false.
Proof. destruct c as [[? [] ? ?]|]; done. Qed.

Lemma Since_mono now1 now2 t : (now1 ≤ now2)%Z → (Since now1 t ≤ Since now2 t)%Z.
Proof. unfold Since. lia. Qed.

Lemma exceeded_mono now1 now2 start timeout :
  (now1 ≤ now2)%Z → exceeded now1 start timeout = true →
  exceeded now2 start timeout = true.
Proof.
  unfold exceeded. destruct start as [s|], timeout as [d|]; try done.
  intros Hle. case_bool_decide; [done|]. rewrite !bool_decide_eq_true.
  pose proof (Since_mono now1 now2 s Hle). lia.
Qed.

(** C29: the timeouts of a run fit together.  When the pipeline timeout and
    exactly one of the tasks and finally timeouts are given and none is zero, the
    other one is what is left, so that the tasks and finally timeouts add up to
    the pipeline timeout; and a timeout once exceeded stays exceeded as time goes
    on. *)
Theorem timeouts_consistent (pr : PipelineRun) (p t d now1 now2 : Z) :
  (0 < t ≤ p)%Z → (p ≤ MaxInt)%Z → (now1 ≤ now2)%Z →
  PipelineRun_Timeouts pr = Some (mkTimeouts (Some p) (Some t) None) ∨
  PipelineRun_Timeouts pr = Some (mkTimeouts (Some p) None (Some t)) →
  (∃ a b, PipelineRun_TasksTimeout pr = Some a ∧ PipelineRun_FinallyTimeout pr = Some b ∧
     (a + b = PipelineRun_PipelineTimeout d pr)%Z) ∧
  (PipelineRun_HasTimedOut d now1 pr = true → PipelineRun_HasTimedOut d now2 pr = true) ∧
  (PipelineRun_HaveTasksTimedOut now1 pr = true → PipelineRun_HaveTasksTimedOut now2 pr = true) ∧
  (PipelineRun_HasFinallyTimedOut now1 pr = true → PipelineRun_HasFinallyTimedOut now2 pr = true).
Proof.
  intros Ht Hp Hnow Hto. split; [|by split_and!; apply exceeded_mono].
  unfold PipelineRun_TasksTimeout, PipelineRun_FinallyTimeout, PipelineRun_PipelineTimeout.
  destruct Hto as [-> | ->]; simpl;
    rewrite bool_decide_false by (unfold NoTimeoutDuration; lia);
    rewrite wrap64_id by (unfold MinInt; lia); do 2 eexists; (split_and!; [done..|lia]).
Qed.

Definition example_run (timeouts : option TimeoutFields) (start : option Z) : PipelineRun :=
  {| PipelineRun_Name := "run"; PipelineRun_Namespace := "default"; PipelineRun_UID := "uid";
     PipelineRun_SpecStatus := ""; PipelineRun_Timeouts := timeouts; PipelineRun_Params := [];
     PipelineRun_Workspaces := []; PipelineRun_TaskRunSpecs := []; PipelineRun_Conditions := [];
     PipelineRun_StartTime := start; PipelineRun_FinallyStartTime := None;
     PipelineRun_ChildReferences := [] |}.

Lemma timeouts_consistent_witness :
  PipelineRun_HaveTasksTimedOut (50 * Minute)
    (example_run (Some (mkTimeouts (Some (60 * Minute)%Z) None (Some (20 * Minute)%Z))) (Some 0%Z)) = true.
Proof.
  refine (proj1 (proj2 (proj2 (timeouts_consistent
    (example_run (Some (mkTimeouts (Some (60 * Minute)%Z) None (Some (20 * Minute)%Z))) (Some 0%Z))
    (60 * Minute) (20 * Minute) 60 (45 * Minute) (50 * Minute) _ _ _ _))) eq_refl).
  - unfold Minute. lia.
  - vm_compute. discriminate.
  - unfold Minute. lia.
  - by right.
Defined.
