(* ===== verification/PipelineTasks.v ===== *)
(** * Pipeline tasks

    [pkg/apis/pipeline/v1/pipeline_types.go], the parts of [taskref_types.go],
    [container_types.go], [pipeline_validation.go] and [resultref.go] it uses:
    the tasks of a pipeline, the references they make, and the dependency map
    they hand to the graph.  The records hold the fields the modelled code
    reads. *)
From S2P Require Import Prelude GoStrings Regex Substitution SubstitutionSpec ResultRef Params When Matrix.
From S2P Require Import Dag DagCycles DagBuild.

(** ** Data *)

(** [ResolverRef] is embedded in [TaskRef]. *)
Record TaskRef := mkTaskRef {
  TaskRef_Name : string;
  TaskRef_Kind : string;
  TaskRef_APIVersion : string;
  TaskRef_Resolver : string;
  TaskRef_Params : Params
}.

(** A [secretKeyRef] or [configMapKeyRef]. *)
Record KeySelector := mkKeySelector { Selector_Name : string; Selector_Key : string }.

Record EnvVar := mkEnvVar {
  Env_Value : string;
  Env_SecretKeyRef : option KeySelector;
  Env_ConfigMapKeyRef : option KeySelector
}.

Record Step := {
  Step_Name : string;
  Step_Image : string;
  Step_ImagePullPolicy : string;
  Step_Script : string;
  Step_WorkingDir : string;
  Step_Command : list string;
  Step_Args : list string;
  Step_Env : list EnvVar
}.

(** A [Sidecar] has the same fields. *)
Definition Sidecar := Step.

Record WorkspaceDeclaration := mkWorkspaceDecl {
  WorkspaceDecl_Name : string;
  WorkspaceDecl_Optional : bool
}.

Record TaskSpec := {
  TaskSpec_Params : ParamSpecs;
  TaskSpec_Steps : list Step;
  TaskSpec_Sidecars : list Sidecar;
  TaskSpec_Results : list string;  (* the names of the declared results *)
  TaskSpec_Workspaces : list WorkspaceDeclaration
}.

Record EmbeddedTask := mkEmbeddedTask {
  EmbeddedTask_APIVersion : string;
  EmbeddedTask_Kind : string;
  EmbeddedTask_TaskSpec : TaskSpec
}.

Record WorkspacePipelineTaskBinding := mkPTWorkspace {
  PTWorkspace_Name : string;
  PTWorkspace_Workspace : string;
  PTWorkspace_SubPath : string
}.

Record PipelineTask := mkPipelineTask {
  PT_Name : string;
  PT_DisplayName : string;
  PT_TaskRef : option TaskRef;
  PT_TaskSpec : option EmbeddedTask;
  PT_When : WhenExpressions;
  PT_Retries : Z;
  PT_RunAfter : list string;
  PT_Params : Params;
  PT_Matrix : option Matrix;
  PT_Workspaces : list WorkspacePipelineTaskBinding;
  PT_OnError : string
}.

Definition PipelineTaskContinue := "continue".

(** ** Questions about one task *)

Definition TaskRef_IsCustomTask (tr : option TaskRef) : bool :=
  match tr with
  | Some tr => negb (bool_decide (TaskRef_APIVersion tr = "")) && negb (bool_decide (TaskRef_Kind tr = ""))
  | None => false
  end.

Definition EmbeddedTask_IsCustomTask (et : option EmbeddedTask) : bool :=
  match et with
  | Some et => negb (bool_decide (EmbeddedTask_APIVersion et = "")) && negb (bool_decide (EmbeddedTask_Kind et = ""))
  | None => false
  end.

Definition IsMatrixed (pt : PipelineTask) : bool :=
  HasParams (PT_Matrix pt) || HasInclude (PT_Matrix pt).

(** [extractAllParams]. *)
Definition extractAllParams (pt : PipelineTask) : Params :=
  PT_Params pt ++
  (if HasParams (PT_Matrix pt) then default [] (Matrix_Params <$> PT_Matrix pt) else []) ++
  (if HasInclude (PT_Matrix pt)
   then default [] ((λ m, Include m ≫= Include_Params) <$> PT_Matrix pt) else []).

Definition EnvVar_expressions (env : EnvVar) : list string :=
  validateString (Env_Value env) ++
  match Env_SecretKeyRef env with
  | Some r => validateString (Selector_Key r) ++ validateString (Selector_Name r)
  | None => []
  end ++
  match Env_ConfigMapKeyRef env with
  | Some r => validateString (Selector_Key r) ++ validateString (Selector_Name r)
  | None => []
  end.

(** [Step.GetVarSubstitutionExpressions]. *)
Definition Step_GetVarSubstitutionExpressions (s : Step) : list string :=
  validateString (Step_Name s) ++ validateString (Step_Image s) ++
  validateString (Step_ImagePullPolicy s) ++ validateString (Step_Script s) ++
  validateString (Step_WorkingDir s) ++ (Step_Command s ≫= validateString) ++
  (Step_Args s ≫= validateString) ++ (Step_Env s ≫= EnvVar_expressions).

(** [Sidecar.GetVarSubstitutionExpressions] is the same code. *)
Definition Sidecar_GetVarSubstitutionExpressions (s : Sidecar) : list string :=
  Step_GetVarSubstitutionExpressions s.

(** [PipelineTask.GetVarSubstitutionExpressions]. *)
Definition PT_GetVarSubstitutionExpressions (pt : PipelineTask) : list string :=
  match PT_TaskSpec pt with
  | Some et =>
      (TaskSpec_Steps (EmbeddedTask_TaskSpec et) ≫= Step_GetVarSubstitutionExpressions) ++
      (TaskSpec_Sidecars (EmbeddedTask_TaskSpec et) ≫= Sidecar_GetVarSubstitutionExpressions)
  | None => []
  end.

Section tasks.
Context `{MapOrder}.

(** [PipelineTaskResultRefs]: the references in the parameters, the guards and
    the embedded task. *)
Definition PipelineTaskResultRefs (pt : PipelineTask) : list ResultRef :=
  (extractAllParams pt ≫= λ p, NewResultRefs (Param_GetVarSubstitutionExpressions p).1) ++
  (PT_When pt ≫= λ we, NewResultRefs (When_GetVarSubstitutionExpressions we).1) ++
  NewResultRefs (PT_GetVarSubstitutionExpressions pt).

(** [PipelineTask.Deps]. *)
Definition PT_Deps (pt : PipelineTask) : list string :=
  sorted_list (list_to_set (Ref_PipelineTask <$> PipelineTaskResultRefs pt) ∪
               list_to_set (PT_RunAfter pt)).

#[export] Instance PipelineTask_Task : Task PipelineTask :=
  {| HashKey := PT_Name; Deps := PT_Deps |}.

(** [PipelineTaskList.Deps]. *)
Definition PipelineTaskList_Deps (l : list PipelineTask) : gmap string (list string) :=
  foldl (λ deps pt,
    let d := PT_Deps pt in
    if bool_decide (0 < length d) then <[PT_Name pt := d]> deps else deps) ∅ l.

Definition PipelineTaskList_Names (l : list PipelineTask) : gset string :=
  list_to_set (PT_Name <$> l).

(** The graph a pipeline's tasks give. *)
Definition BuildTasks (l : list PipelineTask) : outcome DagError Graph :=
  Build l (PipelineTaskList_Deps l).

(** ** Properties *)

Lemma elem_of_PT_Deps pt x :
  x ∈ PT_Deps pt ↔ x ∈ PT_RunAfter pt ∨ ∃ r, r ∈ PipelineTaskResultRefs pt ∧ Ref_PipelineTask r = x.
Proof.
  unfold PT_Deps, sorted_list. rewrite merge_sort_Permutation, elem_of_elements, elem_of_union.
  rewrite !elem_of_list_to_set, list_elem_of_fmap. naive_solver.
Qed.

Lemma PipelineTaskList_Deps_fold l (m : gmap string (list string)) k :
  NoDup (PT_Name <$> l) →
  foldl (λ deps pt, let d := PT_Deps pt in
    if bool_decide (0 < length d) then <[PT_Name pt := d]> deps else deps) m l !! k
  = match list_find (λ pt, PT_Name pt = k) l with
    | Some (_, pt) => if bool_decide (0 < length (PT_Deps pt)) then Some (PT_Deps pt) else m !! k
    | None => m !! k
    end.
Proof.
  revert m. induction l as [|pt l IH]; intros m; [done|].
  rewrite fmap_cons, NoDup_cons. intros [Hn Hnd]. cbn [foldl list_find].
  rewrite IH by done. case_decide as Hk.
  - subst k.
    assert (list_find (λ pt', PT_Name pt' = PT_Name pt) l = None) as ->.
    { apply list_find_None, Forall_forall. intros q Hq E. apply Hn. rewrite <-E. by apply list_elem_of_fmap_2. }
    cbn zeta. case_bool_decide; [by rewrite lookup_insert_eq|done].
  - destruct (list_find (λ pt0, PT_Name pt0 = k) l) as [[i q]|]; simpl;
      case_bool_decide; rewrite ?lookup_insert_ne by done; try done;
      case_bool_decide; rewrite ?lookup_insert_ne by done; done.
Qed.

Lemma depends_tasks l pt prev :
  NoDup (PT_Name <$> l) →
  depends (PipelineTaskList_Deps l) pt prev ↔ ∃ t, t ∈ l ∧ PT_Name t = pt ∧ prev ∈ PT_Deps t.
Proof.
  intros Hnd. unfold depends, PipelineTaskList_Deps.
  rewrite PipelineTaskList_Deps_fold, lookup_empty by done.
  destruct (list_find _ l) as [[i t]|] eqn:E.
  - apply list_find_Some in E as (Hi & Hname & _). apply list_elem_of_lookup_2 in Hi as Hin.
    assert (∀ u, u ∈ l → PT_Name u = pt → u = t) as Huniq.
    { intros u [j Hj]%list_elem_of_lookup Hu.
      assert (i = j) as <-; [|congruence].
      apply (NoDup_lookup _ i j pt Hnd); rewrite list_lookup_fmap, ?Hi, ?Hj; simpl; by f_equal. }
    case_bool_decide as Hlen; simpl.
    + split; [intros Hp; by exists t|]. intros (u & Hu & Hn & Hp). by rewrite (Huniq u) in Hp.
    + split; [by intros ?%elem_of_nil|]. intros (u & Hu & Hn & Hp). rewrite (Huniq u) in Hp by done.
      destruct (PT_Deps t); [by apply elem_of_nil in Hp|]. simpl in Hlen. lia.
  - simpl. split; [by intros ?%elem_of_nil|]. intros (t & Ht & Hname & _).
    apply list_find_None in E. rewrite Forall_forall in E. by apply E in Ht.
Qed.

End tasks.

(** C11: the graph of a pipeline.  For pipeline tasks with distinct names,
    building the graph from [PipelineTaskList.Deps] never panics, and it succeeds
    exactly when every task named in a [runAfter] or in a result reference exists
    and those dependencies have no cycle. *)
Theorem BuildTasks_succeeds_iff `{MapOrder} (l : list PipelineTask) :
  NoDup (PT_Name <$> l) →
  BuildTasks l ≠ Panic ∧
  ((∃ g, BuildTasks l = Ret g) ↔
    acyclic (λ x y, ∃ t, t ∈ l ∧ PT_Name t = x ∧
      (y ∈ PT_RunAfter t ∨ ∃ r, r ∈ PipelineTaskResultRefs t ∧ Ref_PipelineTask r = y)) ∧
    ∀ t y, t ∈ l →
      (y ∈ PT_RunAfter t ∨ ∃ r, r ∈ PipelineTaskResultRefs t ∧ Ref_PipelineTask r = y) →
      y ∈ PT_Name <$> l).
Proof.
  intros Hnd. pose proof (Build_spec l (PipelineTaskList_Deps l)) as Hs. unfold BuildTasks.
  pose proof (λ x y, depends_tasks l x y Hnd) as Hdep.
  assert (Hac : acyclic (depends (PipelineTaskList_Deps l)) ↔ acyclic (λ x y, ∃ t, t ∈ l ∧ PT_Name t = x ∧
      (y ∈ PT_RunAfter t ∨ ∃ r, r ∈ PipelineTaskResultRefs t ∧ Ref_PipelineTask r = y))).
  { apply acyclic_iff. intros x y. rewrite Hdep. by setoid_rewrite elem_of_PT_Deps. }
  assert (Hin : ∀ t, t ∈ l → PT_Name t ∈ PT_Name <$> l) by (intros; by apply list_elem_of_fmap_2).
  split; [|split].
  - intros E. rewrite E in Hs. destruct Hs as (_ & _ & pt & prev & (t & Ht & <- & _)%Hdep & Hn).
    by apply Hn, Hin.
  - intros [g Hg]. rewrite Hg in Hs. destruct Hs as (_ & Hacy & Hall & _). split; [by apply Hac|].
    intros t y Ht Hy. apply elem_of_PT_Deps in Hy.
    eapply (Hall (PT_Name t) y). apply Hdep. eauto.
  - intros [Hacy Hall]. destruct (Build l (PipelineTaskList_Deps l)) as [g|[]|]; [by exists g|..].
    + done.
    + exfalso. by apply Hs, Hac.
    + destruct Hs as (_ & _ & (t & Ht & <- & Hp)%Hdep & Hn). apply elem_of_PT_Deps in Hp.
      exfalso. by eapply Hn, Hall.
    + done.
    + destruct Hs as (_ & _ & p & prev & (t & Ht & <- & _)%Hdep & Hn). exfalso. by apply Hn, Hin.
Qed.

(** A pipeline task that runs a referenced task. *)
Definition simple_task (name : string) (runAfter : list string) (ps : Params) : PipelineTask :=
  mkPipelineTask name "" (Some (mkTaskRef "t" "Task" "" "" [])) None [] 0 runAfter ps None [] "".

Definition example_tasks : list PipelineTask :=
  [simple_task "build" [] [];
   simple_task "test" [] [string_param "image" "$(tasks.build.results.image)"];
   simple_task "deploy" ["test"] []].

Lemma BuildTasks_succeeds_iff_witness :
  BuildTasks (H := stdpp_order) example_tasks ≠ Panic.
Proof.
  refine (proj1 (BuildTasks_succeeds_iff (H := stdpp_order) example_tasks _)).
  apply (bool_decide_unpack _). vm_compute. exact I.
Defined.
