(* ===== verification/ResolvedTasks.v ===== *)
(** * Resolved pipeline tasks

    The part of [pkg/reconciler/pipelinerun/resources/pipelinerunresolution.go]
    that looks at one resolved pipeline task: what its runs say about it, the
    names its runs get, and the checks made before anything is created.  The
    records hold the fields the modelled code reads. *)
From S2P Require Import Prelude GoStrings Regex Substitution SubstitutionSpec ResultRef Params When Matrix.
From S2P Require Import Runs Dag PipelineTasks.

(** ** Data *)

(** A [*resources.ResolvedTask]: the code compares these pointers, so the record
    carries the identity of the object next to its fields. *)
Record ResolvedTask := mkResolvedTask {
  ResolvedTask_ptr : nat;
  ResolvedTask_TaskName : string;
  ResolvedTask_TaskSpec : TaskSpec
}.

(** [PipelineTask] is never nil in a state. *)
Record ResolvedPipelineTask := mkRPT {
  RPT_TaskRunNames : list string;
  RPT_TaskRuns : list TaskRun;
  RPT_CustomTask : bool;
  RPT_CustomRunNames : list string;
  RPT_CustomRuns : list CustomRun;
  RPT_PipelineTask : PipelineTask;
  RPT_ResolvedTask : option ResolvedTask;
  RPT_ResultsCache : gmap string (list string);
  RPT_EvaluatedCEL : gmap string bool
}.

Definition RPT_Name (t : ResolvedPipelineTask) : string := PT_Name (RPT_PipelineTask t).

Definition set_PipelineTask (pt : PipelineTask) (t : ResolvedPipelineTask) : ResolvedPipelineTask :=
  mkRPT (RPT_TaskRunNames t) (RPT_TaskRuns t) (RPT_CustomTask t) (RPT_CustomRunNames t)
    (RPT_CustomRuns t) pt (RPT_ResolvedTask t) (RPT_ResultsCache t) (RPT_EvaluatedCEL t).

(** ** What the runs say *)

Definition IsCustomTask (t : ResolvedPipelineTask) : bool := RPT_CustomTask t.

Definition isSuccessful (t : ResolvedPipelineTask) : bool :=
  if IsCustomTask t then
    negb (bool_decide (length (RPT_CustomRuns t) = 0)) && forallb CustomRun_IsSuccessful (RPT_CustomRuns t)
  else
    negb (bool_decide (length (RPT_TaskRuns t) = 0)) && forallb TaskRun_IsSuccessful (RPT_TaskRuns t).

Definition haveAnyTaskRunsFailed (t : ResolvedPipelineTask) : bool :=
  existsb TaskRun_IsFailure (RPT_TaskRuns t).

Definition haveAnyCustomRunsFailed (t : ResolvedPipelineTask) : bool :=
  existsb CustomRun_IsFailure (RPT_CustomRuns t).

Definition haveAnyRunsFailed (t : ResolvedPipelineTask) : bool :=
  if IsCustomTask t then haveAnyCustomRunsFailed t else haveAnyTaskRunsFailed t.

Definition isFailure (t : ResolvedPipelineTask) : bool :=
  if IsCustomTask t then
    negb (bool_decide (length (RPT_CustomRuns t) = 0)) &&
    (haveAnyRunsFailed t && forallb CustomRun_IsDone (RPT_CustomRuns t))
  else
    negb (bool_decide (length (RPT_TaskRuns t) = 0)) &&
    (haveAnyTaskRunsFailed t && forallb TaskRun_IsDone (RPT_TaskRuns t)).

Definition IsRunning (t : ResolvedPipelineTask) : bool :=
  if IsCustomTask t && bool_decide (length (RPT_CustomRuns t) = 0) then false
  else if negb (IsCustomTask t) && bool_decide (length (RPT_TaskRuns t) = 0) then false
  else negb (isSuccessful t) && negb (isFailure t).

(** [getReason]: the reason of the first run that has not succeeded, else of the
    first run. *)
Definition run_reason {A} (succeeded : A → bool) (conditions : A → list Condition) (runs : list A)
    : option string :=
  match list_find (λ r, succeeded r = false ∧ conditions r ≠ []) runs with
  | Some (_, r) => Condition_Reason <$> head (conditions r)
  | None => r ← head runs; Condition_Reason <$> head (conditions r)
  end.

Definition getReason (t : ResolvedPipelineTask) : string :=
  if IsCustomTask t && bool_decide (length (RPT_CustomRuns t) = 0) then ""
  else
    match (if IsCustomTask t
           then run_reason CustomRun_IsSuccessful CustomRun_Conditions (RPT_CustomRuns t) else None) with
    | Some r => r
    | None => default "" (run_reason TaskRun_IsSuccessful TaskRun_Conditions (RPT_TaskRuns t))
    end.

Definition ptr_of (t : ResolvedPipelineTask) : option nat := ResolvedTask_ptr <$> RPT_ResolvedTask t.

(** [isValidationFailed] compares the [ResolvedTask] pointers; nil equals nil. *)
Definition isValidationFailed (ftasks : list ResolvedPipelineTask) (t : ResolvedPipelineTask) : bool :=
  existsb (λ ftask, bool_decide (ptr_of ftask = ptr_of t)) ftasks.

Definition TaskRun_cancelled (tr : TaskRun) : bool :=
  match TaskRun_condition tr with
  | Some c => IsFalse (Some c) && bool_decide (Condition_Reason c = TaskRunReasonCancelled)
  | None => false
  end.

Definition CustomRun_cancelled (r : CustomRun) : bool :=
  match CustomRun_condition r with
  | Some c => IsFalse (Some c) && bool_decide (Condition_Reason c = CustomRunReasonCancelled)
  | None => false
  end.

Definition isCustomRunCancelledByPipelineRunTimeout (cr : CustomRun) : bool :=
  bool_decide (CustomRun_StatusMessage cr = CustomRunCancelledByPipelineTimeoutMsg).

Definition isCancelledForTimeOut (t : ResolvedPipelineTask) : bool :=
  if IsCustomTask t then
    negb (bool_decide (length (RPT_CustomRuns t) = 0)) &&
    (existsb (λ r, CustomRun_cancelled r && isCustomRunCancelledByPipelineRunTimeout r) (RPT_CustomRuns t) &&
     forallb CustomRun_IsDone (RPT_CustomRuns t))
  else
    negb (bool_decide (length (RPT_TaskRuns t) = 0)) &&
    (existsb (λ tr, TaskRun_cancelled tr &&
       bool_decide (TaskRun_StatusMessage tr = TaskRunCancelledByPipelineTimeoutMsg)) (RPT_TaskRuns t) &&
     forallb TaskRun_IsDone (RPT_TaskRuns t)).

Definition isCancelled (t : ResolvedPipelineTask) : bool :=
  if IsCustomTask t then
    negb (bool_decide (length (RPT_CustomRuns t) = 0)) &&
    (existsb CustomRun_cancelled (RPT_CustomRuns t) && forallb CustomRun_IsDone (RPT_CustomRuns t))
  else
    negb (bool_decide (length (RPT_TaskRuns t) = 0)) &&
    (existsb TaskRun_cancelled (RPT_TaskRuns t) && forallb TaskRun_IsDone (RPT_TaskRuns t)).

Definition isScheduled (t : ResolvedPipelineTask) : bool :=
  if IsCustomTask t then negb (bool_decide (length (RPT_CustomRuns t) = 0))
  else negb (bool_decide (length (RPT_TaskRuns t) = 0)).

Definition skipBecauseEmptyArrayInMatrixParams (t : ResolvedPipelineTask) : bool :=
  let pt := RPT_PipelineTask t in
  IsMatrixed pt &&
  existsb (λ p, bool_decide (Type_ (Param_Value p) = ParamTypeArray) &&
                bool_decide (length (ArrayVal (Param_Value p)) = 0))
    (default [] (Matrix_Params <$> PT_Matrix pt)).

(** [hasResultReferences]: for a matrixed task it looks at [Params] twice, not
    at the parameters of the matrix. *)
Definition hasResultReferences `{MapOrder} (t : ResolvedPipelineTask) : bool :=
  let pt := RPT_PipelineTask t in
  let matrixParams := if IsMatrixed pt then PT_Params pt else [] in
  existsb (λ p, let '(ps, ok) := Param_GetVarSubstitutionExpressions p in
                ok && LooksLikeContainsResultRefs ps) (PT_Params pt ++ matrixParams) ||
  existsb (λ we, let '(ps, ok) := When_GetVarSubstitutionExpressions we in
                 ok && LooksLikeContainsResultRefs ps) (PT_When pt).

(** ** CEL

    [EvaluateCEL], with the evaluator of [github.com/google/cel-go] as a
    parameter: it gives a boolean, some other value, or an error. *)
Inductive cel_value := CelBool (b : bool) | CelOther | CelError.

Fixpoint evaluate_when (eval : string → cel_value) (wes : WhenExpressions) (evaluated : gmap string bool)
    : outcome string (gmap string bool) :=
  match wes with
  | [] => Ret evaluated
  | we :: wes =>
      if bool_decide (CEL we = "") then evaluate_when eval wes evaluated
      else match evaluated !! CEL we with
           | Some _ => evaluate_when eval wes evaluated
           | None =>
               match eval (CEL we) with
               | CelBool b => evaluate_when eval wes (<[CEL we := b]> evaluated)
               | CelOther => Err ("The CEL expression " +:+ CEL we +:+ " is not evaluated to a boolean")
               | CelError => Err "CEL error"
               end
           end
  end.

Definition EvaluateCEL (eval : string → cel_value) (t : ResolvedPipelineTask)
    : outcome string ResolvedPipelineTask :=
  let* evaluated := evaluate_when eval (PT_When (RPT_PipelineTask t)) ∅ in
  Ret (mkRPT (RPT_TaskRunNames t) (RPT_TaskRuns t) (RPT_CustomTask t) (RPT_CustomRunNames t)
    (RPT_CustomRuns t) (RPT_PipelineTask t) (RPT_ResolvedTask t) (RPT_ResultsCache t) evaluated).

(** ** Names of runs *)

(** A byte slice [s[lo:hi]] that is out of range panics. *)
Definition slice_to (s : string) (hi : Z) : outcome Empty_set string :=
  if bool_decide (0 ≤ hi ≤ Z.of_nat (String.length s))%Z then Ret (take_bytes (Z.to_nat hi) s) else Panic.

Section names.
(** The lower-case hexadecimal MD5 sum of a string. *)
Variable md5hex : string → string.

Definition longest : Z := 63.
Definition kmeta_head : Z := 31.

(** [makeValidName] of [knative.dev/pkg/kmeta]: drop trailing bytes that are not
    alphanumeric; an empty string has no last byte to look at. *)
Fixpoint makeValidName_rev (n : string) : outcome Empty_set string :=
  match n with
  | EmptyString => Panic
  | String c n' => if alnum_class c then Ret n else makeValidName_rev n'
  end.

Definition makeValidName (n : string) : outcome Empty_set string :=
  let* r := makeValidName_rev (String.rev n) in Ret (String.rev r).

(** [kmeta.ChildName]. *)
Definition ChildName (parent suffix : string) : outcome Empty_set string :=
  let len s := Z.of_nat (String.length s) in
  if bool_decide (len parent > longest - len suffix)%Z then
    if bool_decide (kmeta_head - len suffix ≤ 0)%Z then
      let h := md5hex (parent +:+ suffix) in
      let parent := take_bytes 31 parent in
      let ret := parent +:+ h in
      let d := (longest - len ret)%Z in
      let* ret :=
        if bool_decide (d > 0)%Z
        then let* s := slice_to suffix d in Ret (ret +:+ s) else Ret ret in
      makeValidName ret
    else
      let* p := slice_to parent (kmeta_head - len suffix) in
      Ret (p +:+ md5hex parent +:+ suffix)
  else Ret (parent +:+ suffix).

(** The body of the loop of [getNewRunNames] for the run [i]. *)
Definition new_run_name (ptName prName : string) (numberOfRuns i : Z) : outcome Empty_set string :=
  let* taskRunName := ChildName prName ("-" +:+ ptName +:+ "-" +:+ Itoa i) in
  if HasSuffix taskRunName ("-" +:+ Itoa i) then Ret taskRunName
  else
    let* taskRunName := ChildName prName ("-" +:+ ptName) in
    let longest := (63 - Z.of_nat (String.length ("-" +:+ Itoa numberOfRuns)))%Z in
    let* taskRunName := slice_to taskRunName longest in
    Ret (taskRunName +:+ "-" +:+ Itoa i).

Definition getNewRunNames (ptName prName : string) (numberOfRuns : Z) : outcome Empty_set (list string) :=
  if bool_decide (numberOfRuns = 1)%Z then
    let* name := ChildName prName ("-" +:+ ptName) in Ret [name]
  else
    ofold (λ names i, let* name := new_run_name ptName prName numberOfRuns (Z.of_nat i) in
                      Ret (names ++ [name])) (seq 0 (Z.to_nat numberOfRuns)) [].

(** The names of the children of kind [kind] a pipeline task has. *)
Definition names_from_child_refs (kind : string) (childRefs : list ChildStatusReference) (ptName : string)
    : list string :=
  ChildRef_Name <$> filter (λ cr, ChildRef_Kind cr = kind ∧ ChildRef_PipelineTaskName cr = ptName) childRefs.

Definition getTaskRunNamesFromChildRefs := names_from_child_refs TaskRunControllerName.
Definition getRunNamesFromChildRefs := names_from_child_refs CustomRunControllerName.

Definition GetNamesOfTaskRuns (childRefs : list ChildStatusReference) (ptName prName : string)
    (numberOfTaskRuns : Z) : outcome Empty_set (list string) :=
  match getTaskRunNamesFromChildRefs childRefs ptName with
  | [] => getNewRunNames ptName prName numberOfTaskRuns
  | names => Ret names
  end.

Definition getNamesOfCustomRuns (childRefs : list ChildStatusReference) (ptName prName : string)
    (numberOfRuns : Z) : outcome Empty_set (list string) :=
  match getRunNamesFromChildRefs childRefs ptName with
  | [] => getNewRunNames ptName prName numberOfRuns
  | names => Ret names
  end.

Definition GetTaskRunName (childRefs : list ChildStatusReference) (ptName prName : string)
    : outcome Empty_set string :=
  match getTaskRunNamesFromChildRefs childRefs ptName with
  | name :: _ => Ret name
  | [] => ChildName prName ("-" +:+ ptName)
  end.

Definition getCustomRunName (childRefs : list ChildStatusReference) (ptName prName : string)
    : outcome Empty_set string :=
  match getRunNamesFromChildRefs childRefs ptName with
  | name :: _ => Ret name
  | [] => ChildName prName ("-" +:+ ptName)
  end.

End names.

(** ** Checks against the pipeline *)

(** The part of a [PipelineSpec] the checks read. *)
Record PipelineSpec := {
  PipelineSpec_Params : ParamSpecs;
  PipelineSpec_Tasks : list PipelineTask;
  PipelineSpec_Finally : list PipelineTask;
  PipelineSpec_Workspaces : list WorkspaceDeclaration
}.

Definition ValidateWorkspaceBindings (p : PipelineSpec) (pr : PipelineRun) : outcome string unit :=
  ofold (λ _ ws,
    if WorkspaceDecl_Optional ws then Ret tt
    else if bool_decide (WorkspaceDecl_Name ws ∈ PipelineRun_Workspaces pr) then Ret tt
    else Err ("pipeline requires workspace with name " +:+ Quote (WorkspaceDecl_Name ws) +:+
              " be provided by pipelinerun")) (PipelineSpec_Workspaces p) tt.

Definition ValidateTaskRunSpecs (p : PipelineSpec) (pr : PipelineRun) : outcome string unit :=
  let pipelineTasks := (PT_Name <$> PipelineSpec_Tasks p) ++ (PT_Name <$> PipelineSpec_Finally p) in
  ofold (λ _ name,
    if bool_decide (name ∈ pipelineTasks) then Ret tt
    else Err ("pipelineRun's taskrunSpecs defined wrong taskName: " +:+ Quote name +:+
              ", does not exist in Pipeline")) (PipelineRun_TaskRunSpecs pr) tt.

(** [getParamFromName]: the zero value when there is none. *)
Definition getParamFromName (name : string) (pss : ParamSpecs) : ParamSpec :=
  match list_find (λ ps, ParamSpec_Name ps = name) pss with
  | Some (_, ps) => ps
  | None => Build_ParamSpec "" "" ∅ None []
  end.

Definition isSubset (pipelineEnum taskEnum : list string) : bool :=
  forallb (λ e, bool_decide (e ∈ taskEnum)) pipelineEnum.

Inductive EnumError :=
| UnexpectedReference (msg : string)
| NoPipelineEnum (param : string)
| NotSubset (param : string).

(** [ValidateParamEnumSubset]: the loop returns at the first parameter that needs
    no check. *)
Fixpoint validate_enums (pipelineParamSpecs : ParamSpecs) (rt : ResolvedTask) (ps : Params)
    : outcome EnumError unit :=
  match ps with
  | [] => Ret tt
  | p :: ps =>
      let '(res, present, errString) := ExtractVariablesFromString (StringVal (Param_Value p)) "params" in
      if bool_decide (errString ≠ "") then Err (UnexpectedReference errString)
      else if negb present || bool_decide (1 < length res) then validate_enums pipelineParamSpecs rt ps
      else
        match res with
        | [] => Panic
        | r :: _ =>
            let paramName := TrimArrayIndex r in
            let pipelineParam := getParamFromName paramName pipelineParamSpecs in
            let resolvedTaskParam := getParamFromName (Param_Name p) (TaskSpec_Params (ResolvedTask_TaskSpec rt)) in
            if bool_decide (ParamSpec_Type pipelineParam ≠ ParamTypeString) || bool_decide (Enum resolvedTaskParam = [])
            then Ret tt
            else if bool_decide (Enum pipelineParam = []) then Err (NoPipelineEnum (ParamSpec_Name pipelineParam))
            else if negb (isSubset (Enum pipelineParam) (Enum resolvedTaskParam))
            then Err (NotSubset (ParamSpec_Name pipelineParam))
            else validate_enums pipelineParamSpecs rt ps
        end
  end.

Definition ValidateParamEnumSubset (pipelineTaskParams : Params) (pipelineParamSpecs : ParamSpecs)
    (rt : option ResolvedTask) : outcome EnumError unit :=
  match rt with
  | None => Ret tt
  | Some rt => validate_enums pipelineParamSpecs rt pipelineTaskParams
  end.

(** ** The states of a task *)

(** How far the runs of a task are. *)
Inductive progress := NotStarted | Running | Succeeded | Failed.

Definition progress_of (t : ResolvedPipelineTask) : list progress :=
  (if isScheduled t then [] else [NotStarted]) ++ (if IsRunning t then [Running] else []) ++
  (if isSuccessful t then [Succeeded] else []) ++ (if isFailure t then [Failed] else []).

Section run_kind.
Context {A : Type} (isTrue_ isFalse_ isDone_ : A → bool).
Hypothesis done_false : ∀ a, isFalse_ a = true → isTrue_ a = false.

Lemma all_true_none_false (l : list A) :
  forallb isTrue_ l = true → existsb isFalse_ l = false.
Proof.
  induction l as [|a l IH]; simpl; [done|]. intros [Ha Hl]%andb_true_iff.
  rewrite IH by done. destruct (isFalse_ a) eqn:E; [|done]. by rewrite (done_false a E) in Ha.
Qed.

Lemma existsb_weaken {B} (f g : B → bool) (l : list B) :
  (∀ b, f b = true → g b = true) → existsb f l = true → existsb g l = true.
Proof.
  intros Hfg. rewrite !existsb_exists. intros (b & Hin & Hb). eauto.
Qed.

End run_kind.

Lemma IsFalse_not_IsTrue c : IsFalse c = true → IsTrue c = false.
Proof. by destruct c as [[? [] ? ?]|]. Qed.

Lemma TaskRun_cancelled_IsFailure tr : TaskRun_cancelled tr = true → TaskRun_IsFailure tr = true.
Proof.
  unfold TaskRun_cancelled, TaskRun_IsFailure.
  destruct (TaskRun_condition tr); [|done]. by intros [? _]%andb_true_iff.
Qed.

Lemma CustomRun_cancelled_IsFailure r : CustomRun_cancelled r = true → CustomRun_IsFailure r = true.
Proof.
  unfold CustomRun_cancelled, CustomRun_IsFailure.
  destruct (CustomRun_condition r); [|done]. by intros [? _]%andb_true_iff.
Qed.

Lemma successful_not_failure t : isSuccessful t = true → isFailure t = false.
Proof.
  unfold isSuccessful, isFailure, haveAnyRunsFailed, haveAnyTaskRunsFailed, haveAnyCustomRunsFailed.
  destruct (IsCustomTask t); intros [_ Hs]%andb_true_iff;
    [rewrite (all_true_none_false _ CustomRun_IsFailure (λ a, IsFalse_not_IsTrue _) _ Hs)
    |rewrite (all_true_none_false _ TaskRun_IsFailure (λ a, IsFalse_not_IsTrue _) _ Hs)];
    by rewrite andb_false_r.
Qed.

Lemma isSuccessful_scheduled t : isSuccessful t = true → isScheduled t = true.
Proof. unfold isSuccessful, isScheduled. by destruct (IsCustomTask t); intros [? _]%andb_true_iff. Qed.

Lemma isFailure_scheduled t : isFailure t = true → isScheduled t = true.
Proof. unfold isFailure, isScheduled. by destruct (IsCustomTask t); intros [? _]%andb_true_iff. Qed.

Lemma IsRunning_spec t :
  IsRunning t = isScheduled t && (negb (isSuccessful t) && negb (isFailure t)).
Proof.
  unfold IsRunning, isScheduled. destruct (IsCustomTask t); cbn [andb negb];
    [destruct (bool_decide (length (RPT_CustomRuns t) = 0))
    |destruct (bool_decide (length (RPT_TaskRuns t) = 0))]; done.
Qed.

Lemma isCancelled_isFailure t : isCancelled t = true → isFailure t = true.
Proof.
  unfold isCancelled, isFailure, haveAnyRunsFailed. destruct (IsCustomTask t);
    intros [-> [He ->]%andb_true_iff]%andb_true_iff; rewrite andb_true_r; cbn [andb].
  - revert He. apply existsb_weaken. apply CustomRun_cancelled_IsFailure.
  - revert He. apply existsb_weaken. apply TaskRun_cancelled_IsFailure.
Qed.

Lemma isCancelledForTimeOut_isCancelled t : isCancelledForTimeOut t = true → isCancelled t = true.
Proof.
  unfold isCancelledForTimeOut, isCancelled. destruct (IsCustomTask t);
    intros [-> [He ->]%andb_true_iff]%andb_true_iff; rewrite andb_true_r; cbn [andb];
    revert He; apply existsb_weaken; by intros b [? _]%andb_true_iff.
Qed.

(** C21: a pipeline task is at each moment in exactly one of the four states not
    started, running, succeeded and failed, whatever its runs report (any number
    of TaskRuns or CustomRuns, with or without conditions); a task cancelled
    because of a timeout counts as cancelled, and a cancelled one as failed. *)
Theorem task_in_one_state t :
  (∃ st, progress_of t = [st]) ∧
  implb (isCancelledForTimeOut t) (isCancelled t) && implb (isCancelled t) (isFailure t) = true.
Proof.
  split.
  - unfold progress_of. rewrite IsRunning_spec.
    destruct (isSuccessful t) eqn:Hs.
    + rewrite (successful_not_failure t Hs), (isSuccessful_scheduled t Hs). by eexists.
    + destruct (isFailure t) eqn:Hf; [rewrite (isFailure_scheduled t Hf)|];
        [|destruct (isScheduled t)]; by eexists.
  - pose proof (isCancelled_isFailure t). pose proof (isCancelledForTimeOut_isCancelled t).
    by destruct (isCancelledForTimeOut t), (isCancelled t), (isFailure t); auto.
Qed.

(** ** The names of a task's runs *)

Lemma HasSuffix_true s p : HasSuffix s p = true ↔ ∃ r, s = r +:+ p.
Proof.
  unfold HasSuffix. rewrite HasPrefix_true. split.
  - intros (r & E). exists (String.rev r).
    rewrite <-(rev_involutive s), E, rev_app, rev_involutive. done.
  - intros (r & ->). exists (String.rev r). apply rev_app.
Qed.

Lemma dash_suffix_inj r1 r2 i j : (0 ≤ i)%Z → (0 ≤ j)%Z →
  r1 +:+ "-" +:+ Itoa i = r2 +:+ "-" +:+ Itoa j → i = j.
Proof.
  intros Hi Hj E. apply (f_equal String.rev) in E. rewrite !rev_app, !sapp_assoc in E.
  apply (split_at_byte "-"%char) in E as [E _].
  - apply (Itoa_inj i j Hi Hj). by rewrite <-(rev_involutive (Itoa i)), E, rev_involutive.
  - apply sforall_rev, Itoa_no_dash, Hi.
  - apply sforall_rev, Itoa_no_dash, Hj.
Qed.

Lemma ofold_snoc_Ret {E A B} (f : A → outcome E B) xs acc names :
  ofold (λ names x, let* y := f x in Ret (names ++ [y])) xs acc = Ret names →
  ∃ ys, names = acc ++ ys ∧ Forall2 (λ x y, f x = Ret y) xs ys.
Proof.
  revert acc. induction xs as [|x xs IH]; intros acc; simpl.
  - intros [= <-]. exists []. by rewrite app_nil_r.
  - destruct (f x) as [y|e|] eqn:Ex; try done. cbn [obind]. intros (ys & -> & Hys)%IH.
    exists (y :: ys). rewrite <-app_assoc. split; [done|by constructor].
Qed.

Lemma length_take_bytes n s : String.length (take_bytes n s) = min n (String.length s).
Proof. revert s. induction n as [|n IH]; intros [|c s]; cbn; [done..|]. by rewrite IH. Qed.

Lemma slice_to_Ret s hi r : slice_to s hi = Ret r → Z.of_nat (String.length r) = hi.
Proof.
  unfold slice_to. case_bool_decide; [|done]. intros [= <-]. rewrite length_take_bytes. lia.
Qed.

Lemma length_rev s : String.length (String.rev s) = String.length s.
Proof.
  induction s as [|c s IH]; [done|]. rewrite rev_cons, slength_app, IH. cbn [String.length]. lia.
Qed.

Lemma makeValidName_length n r : makeValidName n = Ret r → String.length r ≤ String.length n.
Proof.
  unfold makeValidName. rewrite <-(length_rev n). generalize (String.rev n). clear n.
  intros n. revert r. induction n as [|c n IH]; intros r; cbn; [done|].
  destruct (alnum_class c).
  - intros [= <-]. by rewrite length_rev.
  - intros Hr%IH. lia.
Qed.

Section name_lemmas.
Context (md5hex : string → string) (md5hex_length : ∀ s, String.length (md5hex s) = 32).

Lemma ChildName_length parent suffix r :
  ChildName md5hex parent suffix = Ret r → String.length r ≤ 63.
Proof.
  unfold ChildName, longest, kmeta_head. repeat case_bool_decide.
  - intros Hr. rewrite slength_app, md5hex_length, length_take_bytes in *.
    destruct (slice_to suffix _) as [s|e|] eqn:Es; try done.
    apply slice_to_Ret in Es. cbn [obind] in Hr. apply makeValidName_length in Hr.
    rewrite !slength_app, md5hex_length, length_take_bytes in Hr. lia.
  - intros Hr. cbn [obind] in Hr. apply makeValidName_length in Hr.
    rewrite slength_app, md5hex_length, length_take_bytes in *. lia.
  - destruct (slice_to parent _) as [s|e|] eqn:Es; try done.
    apply slice_to_Ret in Es. intros [= <-]. rewrite !slength_app, md5hex_length. lia.
  - intros [= <-]. rewrite slength_app. lia.
Qed.

(** The name of the run [i] ends in its index and fits. *)
Lemma new_run_name_spec pt pr n i name : (0 ≤ i < n)%Z →
  new_run_name md5hex pt pr n i = Ret name →
  (∃ s, name = s +:+ "-" +:+ Itoa i) ∧ String.length name ≤ 63.
Proof.
  intros Hi. unfold new_run_name.
  destruct (ChildName _ _ ("-" +:+ pt +:+ "-" +:+ Itoa i)) as [s|e|] eqn:Ec; try done. cbn [obind].
  destruct (HasSuffix s _) eqn:Es.
  - intros [= <-]. apply HasSuffix_true in Es as [r ->]. split; [by exists r|by eapply ChildName_length].
  - destruct (ChildName _ _ ("-" +:+ pt)) as [s'|e|]; try done. cbn [obind].
    destruct (slice_to s' _) as [s''|e|] eqn:Esl; try done. cbn [obind]. intros [= <-].
    split; [by exists s''|]. apply slice_to_Ret in Esl. pose proof (Itoa_length_mono i n).
    rewrite !slength_app in *. cbn [String.length] in *. lia.
Qed.

End name_lemmas.

(** No two adjacent bytes of a name are punctuation. *)
Fixpoint single_punct (s : string) : bool :=
  match s with
  | String c (String d _ as t) => (alnum_class c || alnum_class d) && single_punct t
  | _ => true
  end.

Lemma single_punct_adjacent s a c d b :
  single_punct s = true → s = a +:+ String c (String d b) → alnum_class c || alnum_class d = true.
Proof.
  intros Hs ->. induction a as [|e a IH]; cbn in Hs.
  - by apply andb_true_iff in Hs as [? _].
  - destruct (a +:+ String c (String d b)) eqn:E; [by destruct a|].
    apply andb_true_iff in Hs as [_ Hs]. by apply IH.
Qed.

Lemma take_bytes_prefix n s : ∃ r, s = take_bytes n s +:+ r.
Proof.
  revert s. induction n as [|n IH]; intros [|c s]; cbn; try by eexists.
  destruct (IH s) as [r E]. exists r. cbn. by rewrite <-E.
Qed.

Lemma last_two s : 2 ≤ String.length s → ∃ u c d, s = u +:+ String c (String d "").
Proof.
  intros Hs. rewrite <-length_rev in Hs. destruct (String.rev s) as [|d [|c r]] eqn:E; cbn in Hs; try lia.
  exists (String.rev r), c, d. by rewrite <-(rev_involutive s), E, !rev_cons, sapp_assoc.
Qed.

Lemma app_cons_eq_inv (x y u : string) c d : 
  x +:+ y = u +:+ String c (String d "") → 2 ≤ String.length y →
  ∃ y', y = y' +:+ String c (String d "").
Proof.
  intros E Hy. destruct (last_two y Hy) as (y' & c' & d' & ->). exists y'.
  rewrite <-sapp_assoc in E. apply (f_equal String.rev) in E. rewrite !rev_app in E. cbn in E.
  by injection E as -> ->.
Qed.

(** Trimming a name that ends in a hash and a clean suffix costs one byte at most. *)
Lemma makeValidName_trims_one p h t : sforall alnum_class h = true → 2 ≤ String.length h →
  single_punct t = true →
  ∃ r, makeValidName (p +:+ h +:+ t) = Ret r ∧ String.length (p +:+ h +:+ t) ≤ S (String.length r).
Proof.
  intros Hh Hl Ht. destruct (last_two (p +:+ h +:+ t)) as (u & c & d & E); [rewrite !slength_app; lia|].
  assert (alnum_class c || alnum_class d = true) as Hcd.
  { destruct t as [|t1 [|t2 t]].
    - rewrite sapp_nil_r in E. destruct (app_cons_eq_inv _ _ _ _ _ E Hl) as [h' ->].
      rewrite sforall_app in Hh. cbn in Hh. rewrite !andb_true_iff in Hh. by rewrite (proj1 (proj2 Hh)).
    - rewrite <-sapp_assoc in E. destruct (last_two h Hl) as (h' & c' & d' & ->).
      apply (f_equal String.rev) in E. rewrite !rev_app in E. cbn in E. injection E as -> -> _.
      rewrite sforall_app in Hh. cbn in Hh. rewrite !andb_true_iff in Hh. by destruct Hh as (_ & _ & -> & _).
    - rewrite <-sapp_assoc in E. destruct (app_cons_eq_inv _ _ _ _ _ E) as [t' Et]; [cbn; lia|].
      by eapply single_punct_adjacent. }
  rewrite E. unfold makeValidName. rewrite rev_app. cbn.
  destruct (alnum_class d); cbn [obind].
  - eexists; split; [done|]. rewrite length_rev, slength_app. cbn. rewrite length_rev. lia.
  - rewrite orb_false_r in Hcd. rewrite Hcd. cbn [obind].
    eexists; split; [done|]. rewrite length_rev, slength_app. cbn. rewrite length_rev. lia.
Qed.

Lemma single_punct_prefix a b : single_punct (a +:+ b) = true → single_punct a = true.
Proof.
  induction a as [|c [|d a] IH]; cbn; [done..|]. intros [-> H]%andb_true_iff. by apply IH.
Qed.

Lemma single_punct_app a b : single_punct a = true → sforall alnum_class b = true →
  single_punct (a +:+ b) = true.
Proof.
  assert (∀ b, sforall alnum_class b = true → single_punct b = true) as Hb0.
  { clear. induction b as [|c [|d b] IH]; cbn; [done..|]. intros [Hc H]%andb_true_iff.
    rewrite Hc. by apply IH. }
  induction a as [|c [|d a] IH]; intros Ha Hb; [by apply Hb0| |].
  - destruct b as [|d b]; [done|]. pose proof (Hb0 _ Hb) as Hs. cbn in Hb.
    apply andb_true_iff in Hb as [Hd _].
    change ((alnum_class c || alnum_class d) && single_punct (String d b) = true).
    by rewrite Hd, orb_true_r, Hs.
  - cbn in Ha. apply andb_true_iff in Ha as [Hc Ha]. cbn. rewrite Hc. by apply IH.
Qed.

Lemma Itoa_alnum i : (0 ≤ i)%Z → sforall alnum_class (Itoa i) = true.
Proof.
  intros Hi. destruct (Itoa_nonneg i Hi) as (_ & _ & Hd). revert Hd. apply sforall_weaken.
  intros c. by destruct c as [[] [] [] [] [] [] [] []].
Qed.

Section total_names.
Context (md5hex : string → string) (md5hex_length : ∀ s, String.length (md5hex s) = 32)
  (md5hex_alnum : ∀ s, sforall alnum_class (md5hex s) = true).

(** A name keeps its suffix, or has at least 62 bytes. *)
Lemma ChildName_total parent suffix : single_punct suffix = true →
  ∃ r, ChildName md5hex parent suffix = Ret r ∧
    (62 ≤ String.length r ∨ r = parent +:+ suffix ∧ String.length r ≤ 63) ∧
    (String.length parent + String.length suffix ≤ 63 ∨ String.length suffix < 31 → ∃ p, r = p +:+ suffix).
Proof.
  intros Hs. unfold ChildName, longest, kmeta_head.
  case_bool_decide as Hlong; [case_bool_decide as Hsuf|].
  - case_bool_decide as Hd.
    + rewrite slength_app, md5hex_length, length_take_bytes in Hd.
      unfold slice_to at 1. rewrite bool_decide_true
        by (rewrite slength_app, md5hex_length, length_take_bytes; lia).
      cbn [obind]. rewrite sapp_assoc.
      destruct (makeValidName_trims_one (take_bytes 31 parent) (md5hex (parent +:+ suffix))
        (take_bytes (Z.to_nat (63 - Z.of_nat (String.length (take_bytes 31 parent +:+ md5hex (parent +:+ suffix))))) suffix))
        as (r & Hr & Hlen); [done|rewrite md5hex_length; lia| |].
      { destruct (take_bytes_prefix (Z.to_nat (63 - Z.of_nat (String.length (take_bytes 31 parent +:+ md5hex (parent +:+ suffix))))) suffix) as [u Eu].
        rewrite Eu in Hs. by apply single_punct_prefix in Hs. }
      exists r. rewrite Hr. split; [done|]. rewrite !slength_app, md5hex_length, !length_take_bytes in Hlen.
      split; [left|]; lia.
    + rewrite slength_app, md5hex_length, length_take_bytes in Hd. cbn [obind].
      destruct (makeValidName_trims_one (take_bytes 31 parent) (md5hex (parent +:+ suffix)) "")
        as (r & Hr & Hlen); [done|rewrite md5hex_length; lia|done|]. rewrite sapp_nil_r in *.
      exists r. rewrite Hr. split; [done|]. rewrite slength_app, md5hex_length, length_take_bytes in Hlen.
      split; [left|]; lia.
  - unfold slice_to. rewrite bool_decide_true by lia. cbn [obind]. eexists; split; [done|].
    rewrite !slength_app, md5hex_length, length_take_bytes. split; [left; lia|].
    intros _. rewrite <-sapp_assoc. by eexists.
  - eexists; split; [done|]. rewrite slength_app. split; [right; split; [done|lia]|]. by eexists.
Qed.

Lemma new_run_name_total pt pr n i : (0 ≤ i < n)%Z → (n ≤ MaxInt)%Z →
  single_punct ("-" +:+ pt +:+ "-") = true →
  ∃ name, new_run_name md5hex pt pr n i = Ret name.
Proof.
  intros Hi Hn Hpt. unfold new_run_name.
  assert (single_punct ("-" +:+ pt +:+ "-" +:+ Itoa i) = true) as Hpi.
  { rewrite <-!sapp_assoc in *. apply single_punct_app; [done|apply Itoa_alnum; lia]. }
  destruct (ChildName_total pr _ Hpi) as (s & -> & _ & Hsuf). cbn [obind].
  destruct (HasSuffix s _) eqn:Es; [by eexists|].
  assert (63 < String.length pr + String.length ("-" +:+ pt +:+ "-" +:+ Itoa i) ∧
          31 ≤ String.length ("-" +:+ pt +:+ "-" +:+ Itoa i)) as [Hl _].
  { apply not_true_iff_false in Es. rewrite HasSuffix_true in Es. split; apply Nat.nle_gt || apply Nat.nlt_ge;
      intros Hle; destruct Hsuf as [p ->]; try lia; apply Es; exists (p +:+ "-" +:+ pt); by rewrite !sapp_assoc. }
  assert (single_punct ("-" +:+ pt) = true) as Hp.
  { rewrite <-sapp_assoc in Hpt. by apply single_punct_prefix in Hpt. }
  destruct (ChildName_total pr _ Hp) as (s' & -> & Hlen & _). cbn [obind].
  unfold slice_to. rewrite bool_decide_true; [by eexists|].
  pose proof (Itoa_length_mono i n). rewrite !slength_app in *. cbn [String.length] in *.
  assert (1 ≤ String.length (Itoa n)).
  { destruct (Itoa_nonneg n) as (_ & Hne & _); [lia|]. destruct (Itoa n); cbn; [done|lia]. }
  assert (String.length (Itoa n) ≤ 62) as Hn62.
  { pose proof (Itoa_length_mono n MaxInt) as Hm. change (String.length (Itoa MaxInt)) with 19 in Hm. lia. }
  destruct Hlen as [Hlen|[-> _]]; [|rewrite !slength_app in *; cbn [String.length] in *]; lia.
Qed.

End total_names.

Lemma ofold_snoc_total {E A B} (f : A → outcome E B) xs acc :
  Forall (λ x, ∃ y, f x = Ret y) xs →
  ∃ names, ofold (λ names x, let* y := f x in Ret (names ++ [y])) xs acc = Ret names.
Proof.
  intros Hxs. revert acc. induction Hxs as [|x xs [y Hy] _ IH]; intros acc; simpl; [by eexists|].
  rewrite Hy. cbn [obind]. apply IH.
Qed.



(** A DNS-1123 label: the name of a pipeline task may have runs of dashes. *)
Definition dashed_name : string := "a--------------------------------------------------b".

Lemma makeValidName_dashes p : makeValidName (p +:+ "-a----------------") = Ret (p +:+ "-a").
Proof. 
  unfold makeValidName. rewrite rev_app.
  change ((let* r := (Ret (String.rev "-a" +:+ String.rev p) : outcome Empty_set string) in
           Ret (String.rev r)) = Ret (p +:+ "-a")).
  cbn [obind]. by rewrite rev_app, !rev_involutive.
Qed.

(** C34: for a matrix task whose name has a long run of dashes [getNewRunNames]
    slices past the end of the shortened name and panics, whatever the hash. *)
Theorem run_names_panic md5hex : (∀ s, String.length (md5hex s) = 32) →
  getNewRunNames md5hex dashed_name "a-pipelinerun" 2 = Panic.
Proof.
  intros Hlen.
  assert (∀ suffix, 50 < String.length suffix → 
    take_bytes 18 suffix = "-a----------------" →
    ChildName md5hex "a-pipelinerun" suffix =
    Ret ("a-pipelinerun" +:+ md5hex ("a-pipelinerun" +:+ suffix) +:+ "-a")) as Hchild.
  { intros suffix Hl Ht. unfold ChildName, longest, kmeta_head.
    rewrite !bool_decide_true; [|rewrite slength_app, Hlen; cbn; lia|lia|cbn [String.length]; lia].
    rewrite slength_app, Hlen. unfold slice_to. rewrite bool_decide_true by (cbn; lia).
    cbn [obind]. change (Z.to_nat _) with 18. rewrite Ht, makeValidName_dashes, sapp_assoc. done. }
  unfold getNewRunNames. rewrite bool_decide_false by done. change (seq 0 _) with [0; 1]. cbn [ofold].
  unfold new_run_name.
  rewrite !Hchild by first [reflexivity | apply (bool_decide_unpack _); vm_compute; exact I].
  cbn [obind].
  destruct (HasSuffix _ _) eqn:E.
  { apply HasSuffix_true in E as [r E]. apply (f_equal String.rev) in E.
    rewrite !rev_app in E. discriminate E. }
  unfold slice_to. rewrite bool_decide_false; [done|]. rewrite !slength_app, Hlen.
  change (String.length (Itoa 2)) with 1. cbn [String.length]. lia.
Qed.

Lemma run_names_panic_witness :
  getNewRunNames (λ _, "d41d8cd98f00b204e9800998ecf8427e") dashed_name "a-pipelinerun" 2 = Panic.
Proof. apply run_names_panic. reflexivity. Defined.

(** ** Enums *)

(** C35: [ValidateParamEnumSubset] stops with success at the first parameter of
    the pipeline task that refers to one pipeline parameter and whose task
    parameter has no enum (or whose pipeline parameter is not a string): the
    parameters after it are never compared, whatever their enums are. *)
Theorem enum_check_stops_early specs rt p name rest :
  ExtractVariablesFromString (StringVal (Param_Value p)) "params" = ([name], true, "") →
  ParamSpec_Type (getParamFromName (TrimArrayIndex name) specs) ≠ ParamTypeString ∨
  Enum (getParamFromName (Param_Name p) (TaskSpec_Params (ResolvedTask_TaskSpec rt))) = [] →
  ValidateParamEnumSubset (p :: rest) specs (Some rt) = Ret tt.
Proof.
  intros Hex Hor. cbn [ValidateParamEnumSubset validate_enums]. rewrite Hex.
  cbn [negb orb length]. rewrite (bool_decide_false ("" ≠ "")), (bool_decide_false (1 < 1)) by (lia || auto).
  destruct Hor as [Ht|He]; [by rewrite bool_decide_true|]. rewrite He.
  by rewrite (bool_decide_true ([] = [])), orb_true_r.
Qed.

Definition enum_spec (name : string) (enum : list string) : ParamSpec :=
  Build_ParamSpec name ParamTypeString ∅ None enum.
Definition enum_task (specs : ParamSpecs) : ResolvedTask :=
  mkResolvedTask 0 "task" {| TaskSpec_Params := specs; TaskSpec_Steps := []; TaskSpec_Sidecars := [];
                             TaskSpec_Results := []; TaskSpec_Workspaces := [] |}.

(** The second parameter alone is refused; after a parameter without an enum it
    is accepted. *)
Lemma enum_check_stops_early_witness :
  let specs := [enum_spec "p" []; enum_spec "q" ["v1"; "v2"]] in
  let rt := enum_task [enum_spec "a" []; enum_spec "b" ["v1"]] in
  let bad := string_param "b" "$(params.q)" in
  ValidateParamEnumSubset [bad] specs (Some rt) = Err (NotSubset "q") ∧
  ValidateParamEnumSubset [string_param "a" "$(params.p)"; bad] specs (Some rt) = Ret tt.
Proof.
  intros specs rt bad. split; [vm_compute; reflexivity|].
  apply (enum_check_stops_early specs rt (string_param "a" "$(params.p)") "p" [bad]);
    [vm_compute; reflexivity|right; vm_compute; reflexivity].
Defined.
