(* ===== verification/ResultRefResolution.v ===== *)
(** * Resolving references to results

    [pkg/reconciler/pipelinerun/resources/resultrefresolution.go], with
    [PipelineRunState.ToMap] ([pipelinerunstate.go]),
    [createResultsCacheMatrixedTaskRuns] and [CheckMissingResultReferences]
    ([pipelinerunresolution.go]).

    A [PipelineRunState] is a slice of pointers that are pairwise distinct, so a
    pointer to one of its tasks is the position of the task.  Resolving a
    reference to a matrixed task fills the cache of that task and sorts its
    TaskRuns, so the functions return the state they leave behind, also when
    they fail. *)
From S2P Require Import Prelude GoStrings Json Regex Substitution SubstitutionSpec ResultRef Params When Matrix.
From S2P Require Import Runs Dag PipelineTasks ResolvedTasks.

Abbreviation PipelineRunState := (list ResolvedPipelineTask).

(** [ToMap]: the last task of a name wins. *)
Definition ToMap (state : PipelineRunState) : gmap string nat :=
  foldl (λ m '(i, rpt), <[RPT_Name rpt := i]> m) ∅ (imap pair state).

(** ** Data *)

(** [ResolvedResultRef].  The code compares references with [==], which looks at
    the address of the index: [RRR_IndexAddr] is that address. *)
Record ResolvedResultRef := mkRRR {
  RRR_Value : ParamValue;
  RRR_Reference : ResultRef;
  RRR_IndexAddr : option nat;
  RRR_FromTaskRun : string;
  RRR_FromRun : string
}.

Abbreviation ResolvedResultRefs := (list ResolvedResultRef).

Inductive RefError :=
| TaskNotFound (name : string)
| TaskNotFinished (name : string)
| ResultNotFound (result task : string).

(** ** Finding the value of a result *)

Definition findTaskResultForParam (taskRun : TaskRun) (reference : ResultRef) : outcome RefError ParamValue :=
  match list_find (λ r, TaskRunResult_Name r = Ref_Result reference) (TaskRun_Results taskRun) with
  | Some (_, r) => Ret (TaskRunResult_Value r)
  | None => Err (ResultNotFound (Ref_Result reference) (Ref_PipelineTask reference))
  end.

Definition findRunResultForParam (customRun : CustomRun) (reference : ResultRef) : outcome RefError string :=
  match list_find (λ r, CustomRunResult_Name r = Ref_Result reference) (CustomRun_Results customRun) with
  | Some (_, r) => Ret (CustomRunResult_Value r)
  | None => Err (ResultNotFound (Ref_Result reference) (Ref_PipelineTask reference))
  end.

(** [paramValueFromCustomRunResult]: a JSON array of strings is an array. *)
Definition paramValueFromCustomRunResult (result : string) : ParamValue :=
  match unmarshal_strings result with
  | Some (x :: xs) =>
      if bool_decide (1 < length (x :: xs)) then NewStructuredValues x xs
      else mkParamValue ParamTypeArray "" [x] ∅
  | _ => NewStructuredValues result []
  end.

(** The address of the index of the reference at position [n]. *)
Definition index_addr (n : nat) (r : ResultRef) : option nat := (λ _, n) <$> ResultsIndex r.

Definition resolveCustomResultRef (n : nat) (customRuns : list CustomRun) (resultRef : ResultRef)
    : outcome RefError ResolvedResultRef :=
  match customRuns with
  | [] => Panic
  | customRun :: _ =>
      let* runValue := findRunResultForParam customRun resultRef in
      Ret (mkRRR (paramValueFromCustomRunResult runValue) resultRef (index_addr n resultRef) ""
             (CustomRun_Name customRun))
  end.

Definition resolveResultRef (n : nat) (taskRuns : list TaskRun) (resultRef : ResultRef)
    : outcome RefError ResolvedResultRef :=
  match taskRuns with
  | [] => Panic
  | taskRun :: _ =>
      let* resultValue := findTaskResultForParam taskRun resultRef in
      Ret (mkRRR resultValue resultRef (index_addr n resultRef) (TaskRun_Name taskRun) "")
  end.

Definition createMatrixedTaskResultForParam (n : nat) (taskRunName : string) (paramValue : ParamValue)
    (resultRef : ResultRef) : ResolvedResultRef :=
  mkRRR paramValue resultRef (index_addr n resultRef) taskRunName "".

Section resolution.
Context `{MapOrder, SortSlice}.

Definition set_TaskRuns (trs : list TaskRun) (t : ResolvedPipelineTask) : ResolvedPipelineTask :=
  mkRPT (RPT_TaskRunNames t) trs (RPT_CustomTask t) (RPT_CustomRunNames t)
    (RPT_CustomRuns t) (RPT_PipelineTask t) (RPT_ResolvedTask t) (RPT_ResultsCache t) (RPT_EvaluatedCEL t).

Definition set_ResultsCache (cache : gmap string (list string)) (t : ResolvedPipelineTask) : ResolvedPipelineTask :=
  mkRPT (RPT_TaskRunNames t) (RPT_TaskRuns t) (RPT_CustomTask t) (RPT_CustomRunNames t)
    (RPT_CustomRuns t) (RPT_PipelineTask t) (RPT_ResolvedTask t) cache (RPT_EvaluatedCEL t).

(** [resultsCache[result.Name] = append(resultsCache[result.Name], ...)]. *)
Definition cache_append (cache : gmap string (list string)) (r : TaskRunResult) : gmap string (list string) :=
  <[TaskRunResult_Name r := default [] (cache !! TaskRunResult_Name r) ++ [StringVal (TaskRunResult_Value r)]]> cache.

(** [createResultsCacheMatrixedTaskRuns] sorts the TaskRuns of its argument in
    place.  Called with a filled cache it writes to a nil map. *)
Definition createResultsCacheMatrixedTaskRuns (rpt : ResolvedPipelineTask)
    : outcome Empty_set (gmap string (list string) * ResolvedPipelineTask) :=
  let trs := sort_slice (λ a b, String.ltb (TaskRun_Name a) (TaskRun_Name b)) (RPT_TaskRuns rpt) in
  let results := trs ≫= TaskRun_Results in
  if bool_decide (size (RPT_ResultsCache rpt) = 0) || bool_decide (results = [])
  then Ret (foldl cache_append ∅ results, set_TaskRuns trs rpt)
  else Panic.

(** [findResultValuesForMatrix]: the task as it leaves it and the value. *)
Definition findResultValuesForMatrix (rpt : ResolvedPipelineTask) (resultRef : ResultRef)
    : outcome Empty_set (ResolvedPipelineTask * outcome RefError ParamValue) :=
  let* rpt :=
    if bool_decide (size (RPT_ResultsCache rpt) = 0) then
      let* created := createResultsCacheMatrixedTaskRuns rpt in
      let '(cache, rpt) := created in
      Ret (set_ResultsCache cache rpt)
    else Ret rpt in
  Ret (rpt,
    match RPT_ResultsCache rpt !! Ref_Result resultRef with
    | Some arrayValues => Ret (mkParamValue ParamTypeArray "" arrayValues ∅)
    | None => Err (ResultNotFound (Ref_Result resultRef) (Ref_PipelineTask resultRef))
    end).

(** One round of the loop of [convertToResultRefs]; [n] is the position of the
    reference. *)
Definition convert_ref (n : nat) (resultRef : ResultRef) (state : PipelineRunState)
    : PipelineRunState * outcome RefError ResolvedResultRefs :=
  match i ← ToMap state !! Ref_PipelineTask resultRef; rpt ← state !! i; Some (i, rpt) with
  | None => (state, Err (TaskNotFound (Ref_PipelineTask resultRef)))
  | Some (i, referenced) =>
      if negb (isSuccessful referenced) && negb (isFailure referenced)
      then (state, Err (TaskNotFinished (RPT_Name referenced)))
      else if IsCustomTask referenced then
        (state, let* resolved := resolveCustomResultRef n (RPT_CustomRuns referenced) resultRef in Ret [resolved])
      else if IsMatrixed (RPT_PipelineTask referenced) then
        match findResultValuesForMatrix referenced resultRef with
        | Ret (referenced, values) =>
            (<[i := referenced]> state,
             let* arrayValues := values in
             Ret ((λ tr, createMatrixedTaskResultForParam n (TaskRun_Name tr) arrayValues resultRef)
                    <$> RPT_TaskRuns referenced))
        | Err _ | Panic => (state, Panic)
        end
      else
        (state, let* resolved := resolveResultRef n (RPT_TaskRuns referenced) resultRef in Ret [resolved])
  end.

Fixpoint convert_refs (n : nat) (refs : list ResultRef) (state : PipelineRunState)
    : PipelineRunState * outcome (string * RefError) ResolvedResultRefs :=
  match refs with
  | [] => (state, Ret [])
  | r :: refs =>
      match convert_ref n r state with
      | (state, Ret resolved) =>
          let '(state, rest) := convert_refs (S n) refs state in
          (state, let* rest := rest in Ret (resolved ++ rest))
      | (state, Err e) => (state, Err (Ref_PipelineTask r, e))
      | (state, Panic) => (state, Panic)
      end
  end.

(** [convertToResultRefs]; an error comes with the name of the task the
    reference is to. *)
Definition convertToResultRefs (n : nat) (state : PipelineRunState) (target : PipelineTask)
    : PipelineRunState * outcome (string * RefError) ResolvedResultRefs :=
  convert_refs n (PipelineTaskResultRefs target) state.

(** ** Removing duplicates *)

(** The key of the map of [removeDup]. *)
Definition ref_key (r : ResolvedResultRef) : string * string * string * option nat :=
  (Ref_PipelineTask (RRR_Reference r), Ref_Result (RRR_Reference r), Property (RRR_Reference r),
   RRR_IndexAddr r).

(** The map as the list of its entries: each key with the last value written. *)
Fixpoint by_ref (refs : ResolvedResultRefs) : ResolvedResultRefs :=
  match refs with
  | [] => []
  | r :: refs => if bool_decide (ref_key r ∈ ref_key <$> refs) then by_ref refs else r :: by_ref refs
  end.

Definition ref_less (a b : ResolvedResultRef) : bool :=
  if String.ltb (Ref_PipelineTask (RRR_Reference b)) (Ref_PipelineTask (RRR_Reference a))
  then false
  else if String.ltb (Ref_Result (RRR_Reference b)) (Ref_Result (RRR_Reference a))
  then false else true.

Definition removeDup (refs : ResolvedResultRefs) : ResolvedResultRefs :=
  sort_slice ref_less (range_entries (by_ref refs)).

(** [ResolveResultRefs] for the targets in order; the counter keeps the
    addresses of different targets apart. *)
Fixpoint resolve_targets (n : nat) (targets : list PipelineTask) (state : PipelineRunState)
    : PipelineRunState * outcome (string * RefError) ResolvedResultRefs :=
  match targets with
  | [] => (state, Ret [])
  | t :: targets =>
      match convertToResultRefs n state t with
      | (state, Ret resolved) =>
          let '(state, rest) := resolve_targets (n + length (PipelineTaskResultRefs t)) targets state in
          (state, let* rest := rest in Ret (resolved ++ rest))
      | (state, e) => (state, e)
      end
  end.

Definition ResolveResultRefs (state : PipelineRunState) (targets : list PipelineTask)
    : PipelineRunState * outcome (string * RefError) ResolvedResultRefs :=
  let '(state, all) := resolve_targets 0 targets state in
  (state, let* all := all in Ret (removeDup all)).

Definition ResolveResultRef (state : PipelineRunState) (target : PipelineTask)
    : PipelineRunState * outcome (string * RefError) ResolvedResultRefs :=
  let '(state, all) := convertToResultRefs 0 state target in
  (state, let* all := all in Ret (removeDup all)).

(** [validateArrayResultsIndex]. *)
Definition validateArrayResultsIndex (refs : ResolvedResultRefs) : outcome string unit :=
  ofold (λ _ r,
    if bool_decide (Type_ (RRR_Value r) = ParamTypeArray) then
      match ResultsIndex (RRR_Reference r) with
      | Some i =>
          if bool_decide (Z.of_nat (length (ArrayVal (RRR_Value r))) ≤ i)%Z
          then Err ("array Result Index " +:+ Itoa i +:+ " for Task " +:+ Ref_PipelineTask (RRR_Reference r) +:+
                    " Result " +:+ Ref_Result (RRR_Reference r) +:+ " is out of bound of size " +:+
                    Itoa (Z.of_nat (length (ArrayVal (RRR_Value r)))))
          else Ret tt
      | None => Ret tt
      end
    else Ret tt) refs tt.

(** ** The replacements they give *)

Definition target_prefix (r : ResolvedResultRef) : string :=
  ResultTaskPart +:+ "." +:+ Ref_PipelineTask (RRR_Reference r) +:+ "." +:+ ResultResultPart.

Definition getReplaceTarget (r : ResolvedResultRef) : list string :=
  let result := Ref_Result (RRR_Reference r) in
  [target_prefix r +:+ "." +:+ result;
   target_prefix r +:+ "[" +:+ Quote result +:+ "]";
   target_prefix r +:+ "['" +:+ result +:+ "']"].

Definition getReplaceTargetfromArrayIndex (r : ResolvedResultRef) (idx : nat) : list string :=
  (λ t, t +:+ "[" +:+ Itoa (Z.of_nat idx) +:+ "]") <$> getReplaceTarget r.

Definition getReplaceTargetfromObjectKey (r : ResolvedResultRef) (key : string) : list string :=
  let result := Ref_Result (RRR_Reference r) in
  [target_prefix r +:+ "." +:+ result +:+ "." +:+ key;
   target_prefix r +:+ "[" +:+ Quote result +:+ "][" +:+ key +:+ "]";
   target_prefix r +:+ "['" +:+ result +:+ "'][" +:+ key +:+ "]"].

Definition insert_all {V} (keys : list string) (v : V) (m : gmap string V) : gmap string V :=
  foldl (λ m k, <[k := v]> m) m keys.

Definition string_replacements_of (m : gmap string string) (r : ResolvedResultRef) : gmap string string :=
  let v := RRR_Value r in
  if bool_decide (Type_ v = ParamTypeArray) then
    foldl (λ m '(i, x), insert_all (getReplaceTargetfromArrayIndex r i) x m) m (imap pair (ArrayVal v))
  else if bool_decide (Type_ v = ParamTypeObject) then
    foldl (λ m '(key, element), insert_all (getReplaceTargetfromObjectKey r key) element m) m
      (range_map (ObjectVal v))
  else insert_all (getReplaceTarget r) (StringVal v) m.

Definition getStringReplacements (rs : ResolvedResultRefs) : gmap string string :=
  foldl string_replacements_of ∅ rs.

Definition getArrayReplacements (rs : ResolvedResultRefs) : gmap string (list string) :=
  foldl (λ m r, if bool_decide (Type_ (RRR_Value r) = ParamTypeArray)
                then insert_all (getReplaceTarget r) (ArrayVal (RRR_Value r)) m else m) ∅ rs.

Definition getObjectReplacements (rs : ResolvedResultRefs) : gmap string (gmap string string) :=
  foldl (λ m r, if bool_decide (Type_ (RRR_Value r) = ParamTypeObject)
                then insert_all (getReplaceTarget r) (ObjectVal (RRR_Value r)) m else m) ∅ rs.

(** ** Missing results *)

Inductive MissingError :=
| NoSuchTask (name : string)
| NoCustomRuns (name : string)
| NoTaskRuns (name : string)
| MissingResult (e : RefError).

Definition lift_missing {A} (o : outcome RefError A) : outcome MissingError unit :=
  match o with Ret _ => Ret tt | Err e => Err (MissingResult e) | Panic => Panic end.

Definition CheckMissingResultReferences (state : PipelineRunState) (target : PipelineTask)
    : outcome MissingError unit :=
  ofold (λ _ resultRef,
    match i ← ToMap state !! Ref_PipelineTask resultRef; state !! i with
    | None => Err (NoSuchTask (Ref_PipelineTask resultRef))
    | Some referenced =>
        if IsCustomTask referenced then
          match RPT_CustomRuns referenced with
          | [] => Err (NoCustomRuns (Ref_PipelineTask resultRef))
          | customRun :: _ => lift_missing (findRunResultForParam customRun resultRef)
          end
        else
          match RPT_TaskRuns referenced with
          | [] => Err (NoTaskRuns (Ref_PipelineTask resultRef))
          | taskRun :: _ => lift_missing (findTaskResultForParam taskRun resultRef)
          end
    end) (PipelineTaskResultRefs target) tt.

End resolution.
