(* ===== verification/Apply.v ===== *)
(** * Applying replacements to pipeline tasks

    The parts of [pkg/reconciler/pipelinerun/resources/apply.go] that work on the
    tasks of a running pipeline and on its results: the replacement maps of a
    PipelineRun, [ApplyTaskResults], the context variables of a task, and
    [ApplyTaskResultsToPipelineResults]. *)
From S2P Require Import Prelude GoStrings Json Regex Substitution SubstitutionSpec ResultRef Params When Matrix.
From S2P Require Import Runs Dag PipelineTasks ResolvedTasks ResultRefResolution.

(** ** The parameters of a PipelineRun *)

(** [paramPatterns], each applied to a name. *)
Definition paramPatterns (name : string) : list string :=
  ["params." +:+ name; "params[" +:+ Quote name +:+ "]"; "params['" +:+ name +:+ "']"].

Definition objectIndividualVariablePattern (name key : string) : string :=
  "params." +:+ name +:+ "." +:+ key.

(** String, array and object replacements. *)
Record Replacements := mkReplacements {
  stringReplacements : gmap string string;
  arrayReplacements : gmap string (list string);
  objectReplacements : gmap string (gmap string string)
}.

Section apply.
Context `{MapOrder, SortSlice}.

(** The replacements one parameter adds. *)
Definition add_param (r : Replacements) (name : string) (v : ParamValue) : Replacements :=
  if bool_decide (Type_ v = ParamTypeArray) then
    foldl (λ r key,
      mkReplacements
        (foldl (λ m '(i, x), <[key +:+ "[" +:+ Itoa (Z.of_nat i) +:+ "]" := x]> m)
           (stringReplacements r) (imap pair (ArrayVal v)))
        (<[key := ArrayVal v]> (arrayReplacements r)) (objectReplacements r)) r (paramPatterns name)
  else if bool_decide (Type_ v = ParamTypeObject) then
    mkReplacements
      (foldl (λ m '(k, x), <[objectIndividualVariablePattern name k := x]> m)
         (stringReplacements r) (range_map (ObjectVal v)))
      (arrayReplacements r)
      (insert_all (paramPatterns name) (ObjectVal v) (objectReplacements r))
  else
    mkReplacements (insert_all (paramPatterns name) (StringVal v) (stringReplacements r))
      (arrayReplacements r) (objectReplacements r).

Definition paramsFromPipelineRun (pr : PipelineRun) : Replacements :=
  foldl (λ r p, add_param r (Param_Name p) (Param_Value p)) (mkReplacements ∅ ∅ ∅) (PipelineRun_Params pr).

Definition GetContextReplacements (pipelineName : string) (pr : PipelineRun) : gmap string string :=
  {["context.pipelineRun.name" := PipelineRun_Name pr;
    "context.pipeline.name" := pipelineName;
    "context.pipelineRun.namespace" := PipelineRun_Namespace pr;
    "context.pipelineRun.uid" := PipelineRun_UID pr]}.

(** ** Task results *)

(** [pipelineTask.Matrix.Params] and the parameters of each include. *)
Definition replace_matrix (params include : Params → Params) (m : Matrix) : Matrix :=
  mkMatrix (params (Matrix_Params m))
    ((λ i, mkInclude (Include_Name i) (include (Include_Params i))) <$> Include m).

Definition replace_TaskRef (params : Params → Params) (name : string → string) (tr : TaskRef) : TaskRef :=
  mkTaskRef (name (TaskRef_Name tr)) (TaskRef_Kind tr) (TaskRef_APIVersion tr) (TaskRef_Resolver tr)
    (params (TaskRef_Params tr)).

Definition replace_SubPath (f : string → string) (w : WorkspacePipelineTaskBinding) : WorkspacePipelineTaskBinding :=
  mkPTWorkspace (PTWorkspace_Name w) (PTWorkspace_Workspace w) (f (PTWorkspace_SubPath w)).

(** The body of the loop of [ApplyTaskResults]. *)
Definition apply_results (refs : ResolvedResultRefs) (pt : PipelineTask) : PipelineTask :=
  let strings := getStringReplacements refs in
  let arrays := getArrayReplacements refs in
  let objects := getObjectReplacements refs in
  let params := Params_ReplaceVariables strings arrays objects in
  let text s := Substitution.ApplyReplacements s strings in
  mkPipelineTask (PT_Name pt)
    (text (PT_DisplayName pt))
    (replace_TaskRef params text <$> PT_TaskRef pt)
    (PT_TaskSpec pt)
    (When_ReplaceVariables strings arrays (PT_When pt))
    (PT_Retries pt) (PT_RunAfter pt)
    (params (PT_Params pt))
    (if IsMatrixed pt
     then replace_matrix (Params_ReplaceVariables strings arrays ∅) (Params_ReplaceVariables strings ∅ ∅)
            <$> PT_Matrix pt
     else PT_Matrix pt)
    (replace_SubPath text <$> PT_Workspaces pt)
    (PT_OnError pt).

Definition ApplyTaskResults (refs : ResolvedResultRefs) (targets : PipelineRunState) : PipelineRunState :=
  (λ t, set_PipelineTask (apply_results refs (RPT_PipelineTask t)) t) <$> targets.

(** The body of the loop of [ApplyPipelineTaskStateContext]. *)
Definition apply_state_context (replacements : gmap string string) (pt : PipelineTask) : PipelineTask :=
  let params := Params_ReplaceVariables replacements ∅ ∅ in
  let text s := Substitution.ApplyReplacements s replacements in
  mkPipelineTask (PT_Name pt)
    (text (PT_DisplayName pt))
    (replace_TaskRef params text <$> PT_TaskRef pt)
    (PT_TaskSpec pt)
    (When_ReplaceVariables replacements ∅ (PT_When pt))
    (PT_Retries pt) (PT_RunAfter pt)
    (params (PT_Params pt))
    (PT_Matrix pt) (PT_Workspaces pt) (PT_OnError pt).

Definition ApplyPipelineTaskStateContext (state : PipelineRunState) (replacements : gmap string string)
    : PipelineRunState :=
  (λ t, set_PipelineTask (apply_state_context replacements (RPT_PipelineTask t)) t) <$> state.

(** ** The context of a task *)

(** [filterMatrixContextVar]: a parameter appears once per matching expression. *)
Definition is_matrix_context (expression : string) : bool :=
  let subExpressions := Split expression "." in
  bool_decide (4 ≤ length subExpressions) && bool_decide (subExpressions !! 2 = Some "matrix") &&
  bool_decide (last subExpressions = Some "length").

Definition filterMatrixContextVar (params : Params) : Params :=
  params ≫= λ param,
    let '(expressions, ok) := Param_GetVarSubstitutionExpressions param in
    if ok then (λ _, param) <$> filter (λ e, is_matrix_context e = true) expressions else [].

(** The number of combinations of each task of that name; [Matrix] may be nil. *)
Definition matrix_length (pt : PipelineTask) : Z :=
  match PT_Matrix pt with Some m => CountCombinations m | None => 0 end.

(** One round of the loop of [ApplyPipelineTaskContexts] over the filtered
    parameters; it may fill the caches of the state. *)
Definition matrix_context (spec : option (list PipelineTask)) (acc : gmap string string * PipelineRunState)
    (p : Param) : outcome Empty_set (gmap string string * PipelineRunState) :=
  let '(replacements, state) := acc in
  let* names := ParseTaskandResultName p in
  let '(pipelineTaskName, resultName) := names in
  let replacements :=
    if bool_decide (pipelineTaskName ≠ "") then
      foldl (λ m task,
        if bool_decide (PT_Name task = pipelineTaskName)
        then <["tasks." +:+ pipelineTaskName +:+ ".matrix.length" := Itoa (matrix_length task)]> m
        else m) replacements (default [] spec)
    else replacements in
  if bool_decide (pipelineTaskName ≠ "") && bool_decide (resultName ≠ "") then
    ofold (λ '(m, done_) t,
      if bool_decide (RPT_Name t = pipelineTaskName) then
        let* t :=
          if bool_decide (size (RPT_ResultsCache t) = 0) then
            let* created := createResultsCacheMatrixedTaskRuns t in
            Ret (set_ResultsCache created.1 created.2)
          else Ret t in
        let resultLength := length (default [] (RPT_ResultsCache t !! resultName)) in
        Ret (<["tasks." +:+ pipelineTaskName +:+ ".matrix." +:+ resultName +:+ ".length" :=
                 Itoa (Z.of_nat resultLength)]> m, done_ ++ [t])
      else Ret (m, done_ ++ [t])) state (replacements, [])
  else Ret (replacements, state).

Definition ApplyPipelineTaskContexts (pt : PipelineTask) (spec : option (list PipelineTask))
    (state : PipelineRunState) : outcome Empty_set (PipelineTask * PipelineRunState) :=
  let* applied :=
    ofold (matrix_context spec) (filterMatrixContextVar (PT_Params pt))
      ({["context.pipelineTask.retries" := Itoa (PT_Retries pt)]}, state) in
  let '(replacements, state) := applied in
  let params := Params_ReplaceVariables replacements ∅ ∅ in
  Ret (mkPipelineTask (PT_Name pt)
    (Substitution.ApplyReplacements (PT_DisplayName pt) replacements)
    (PT_TaskRef pt) (PT_TaskSpec pt) (PT_When pt) (PT_Retries pt) (PT_RunAfter pt)
    (params (PT_Params pt))
    (if IsMatrixed pt then replace_matrix params params <$> PT_Matrix pt else PT_Matrix pt)
    (PT_Workspaces pt) (PT_OnError pt), state).

(** ** The results of a pipeline *)

(** [PipelineResult.GetVarSubstitutionExpressions] looks at all three values. *)
Definition PipelineResult_expressions (r : Param) : list string :=
  validateString (StringVal (Param_Value r)) ++ (ArrayVal (Param_Value r) ≫= validateString) ++
  ((range_map (ObjectVal (Param_Value r))).*2 ≫= validateString).

Definition taskResultValue (taskName resultName : string) (taskResults : gmap string (list TaskRunResult))
    : option ParamValue :=
  '(_, r) ← list_find (λ r, TaskRunResult_Name r = resultName) (default [] (taskResults !! taskName));
  Some (TaskRunResult_Value r).

Definition runResultValue (taskName resultName : string) (runResults : gmap string (list CustomRunResult))
    : option string :=
  '(_, r) ← list_find (λ r, CustomRunResult_Name r = resultName) (default [] (runResults !! taskName));
  Some (CustomRunResult_Value r).

(** What one variable does to the result it is in: nothing more, it makes it
    invalid without an error, or with one. *)
Inductive verdict := Valid | Dropped | Invalid.

#[export] Instance verdict_eq_dec : EqDecision verdict.
Proof. solve_decision. Defined.

(** The result is missing: an error unless the task did not succeed. *)
Definition missing_result (taskstatus : gmap string string) (taskName : string) : verdict :=
  match taskstatus !! ("tasks." +:+ taskName +:+ ".status") with
  | Some status => if bool_decide (status = TaskRunReasonSuccessful) then Invalid else Dropped
  | None => Invalid
  end.

Section results.
Context (taskRunResults : gmap string (list TaskRunResult))
  (customTaskResults : gmap string (list CustomRunResult)) (taskstatus : gmap string string).

(** [resultValue.ArrayVal[intIdx]], where a string that is no number counts as
    zero and a negative index panics. *)
Definition array_result (r : Replacements) (variable stringIdx : string) (v : ParamValue)
    : outcome Empty_set (Replacements * verdict) :=
  if bool_decide (stringIdx ≠ "*") then
    let intIdx := (Atoi stringIdx).1 in
    if bool_decide (intIdx < Z.of_nat (length (ArrayVal v)))%Z then
      if bool_decide (intIdx < 0)%Z then Panic
      else match ArrayVal v !! Z.to_nat intIdx with
           | Some x => Ret (mkReplacements (<[variable := x]> (stringReplacements r))
                              (arrayReplacements r) (objectReplacements r), Valid)
           | None => Panic
           end
    else Ret (r, Invalid)
  else Ret (mkReplacements (stringReplacements r)
              (<[StripStarVarSubExpression variable := ArrayVal v]> (arrayReplacements r))
              (objectReplacements r), Valid).

(** [tasks.T.results.R], with an index or a star behind it. *)
Definition whole_result (r : Replacements) (variable taskName resultPart : string)
    : outcome Empty_set (Replacements * verdict) :=
  let '(resultName, stringIdx) := ParseResultName resultPart in
  match taskResultValue taskName resultName taskRunResults with
  | Some v =>
      if bool_decide (Type_ v = ParamTypeString) then
        Ret (mkReplacements (<[variable := StringVal v]> (stringReplacements r))
               (arrayReplacements r) (objectReplacements r), Valid)
      else if bool_decide (Type_ v = ParamTypeArray) then array_result r variable stringIdx v
      else if bool_decide (Type_ v = ParamTypeObject) then
        Ret (mkReplacements (stringReplacements r) (arrayReplacements r)
               (<[StripStarVarSubExpression variable := ObjectVal v]> (objectReplacements r)), Valid)
      else Ret (r, Valid)
  | None =>
      match runResultValue taskName resultName customTaskResults with
      | Some v => Ret (mkReplacements (<[variable := v]> (stringReplacements r))
                         (arrayReplacements r) (objectReplacements r), Valid)
      | None => Ret (r, missing_result taskstatus taskName)
      end
  end.

(** [tasks.T.results.R.key]. *)
Definition key_result (r : Replacements) (variable taskName resultPart objectKey : string)
    : Replacements * verdict :=
  match taskResultValue taskName (ParseResultName resultPart).1 taskRunResults with
  | Some v =>
      match ObjectVal v !! objectKey with
      | Some x => (mkReplacements (<[variable := x]> (stringReplacements r))
                     (arrayReplacements r) (objectReplacements r), Valid)
      | None => (r, Invalid)
      end
  | None => (r, missing_result taskstatus taskName)
  end.

Definition memoized (r : Replacements) (variable : string) : bool :=
  bool_decide (is_Some (stringReplacements r !! variable)) ||
  bool_decide (is_Some (arrayReplacements r !! variable)) ||
  bool_decide (is_Some (objectReplacements r !! variable)).

(** One round of the inner loop.  [variableParts[2]] is evaluated when the first
    part is [tasks] or [finally]. *)
Definition result_variable (r : Replacements) (variable : string)
    : outcome Empty_set (Replacements * verdict) :=
  if memoized r variable then Ret (r, Valid)
  else
    match Split variable "." with
    | [] => Panic
    | part0 :: parts =>
        if bool_decide (part0 ≠ ResultTaskPart) && bool_decide (part0 ≠ ResultFinallyPart)
        then Ret (r, Invalid)
        else
          match parts with
          | taskName :: part2 :: rest =>
              if bool_decide (part2 ≠ ResultResultPart) then Ret (r, Invalid)
              else
                match rest with
                | [resultPart] => whole_result r variable taskName resultPart
                | [resultPart; objectKey] => Ret (key_result r variable taskName resultPart objectKey)
                | _ => Ret (r, Invalid)
                end
          | _ => Panic
          end
    end.

(** The inner loop: the replacements, whether the result is valid, and the names
    added to the list of invalid results. *)
Fixpoint result_variables (name : string) (variables : list string) (r : Replacements)
    : outcome Empty_set (Replacements * bool * list string) :=
  match variables with
  | [] => Ret (r, true, [])
  | variable :: variables =>
      let* one := result_variable r variable in
      let '(r, v) := one in
      let* rest := result_variables name variables r in
      let '(r, valid, invalid) := rest in
      Ret (r, bool_decide (v = Valid) && valid,
           (if bool_decide (v = Invalid) then [name] else []) ++ invalid)
  end.

Fixpoint pipeline_results (results : list Param) (r : Replacements)
    : outcome Empty_set (list Param * list string) :=
  match results with
  | [] => Ret ([], [])
  | result :: results =>
      match PipelineResult_expressions result with
      | [] => pipeline_results results r
      | variables =>
          let* one := result_variables (Param_Name result) variables r in
          let '(r, valid, invalid) := one in
          let* rest := pipeline_results results r in
          let '(runResults, invalids) := rest in
          Ret ((if valid : bool
                then [mkParam (Param_Name result)
                        (ParamValue_ApplyReplacements (stringReplacements r) (arrayReplacements r)
                           (objectReplacements r) (Param_Value result))]
                else []) ++ runResults, invalid ++ invalids)
      end
  end.

(** [ApplyTaskResultsToPipelineResults]: the results and the names of the invalid
    ones, which are an error when there are any.  A [PipelineResult] and a
    [PipelineRunResult] are a name and a value. *)
Definition ApplyTaskResultsToPipelineResults (results : list Param)
    : outcome Empty_set (list Param * list string) :=
  pipeline_results results (mkReplacements ∅ ∅ ∅).

End results.

End apply.

(** ** A result that stops the controller *)

