(* ===== verification/Skip.v ===== *)
(** * Which tasks are skipped

    The part of [pkg/reconciler/pipelinerun/resources/pipelinerunresolution.go]
    that decides whether a task of a running pipeline is skipped, on the facts of
    [pipelinerunstate.go].

    The functions share and change the facts: the skip cache is filled and reset,
    the state's tasks get the results their parameters refer to, and the results
    caches of matrixed tasks are filled.  [M] threads the facts through.  The
    code recurses from a task to its parents with no bound of its own: [fuel]
    bounds the depth, [Err tt] says that it did not suffice, and the theorems
    below give a fuel that does. *)
From S2P Require Import Prelude GoStrings Json Regex Substitution SubstitutionSpec ResultRef Params When Matrix.
From S2P Require Import Runs Dag PipelineTasks ResolvedTasks ResultRefResolution Apply.

(** ** The facts *)

Inductive SkippingReason :=
| WhenExpressionsSkip | ParentTasksSkip | StoppingSkip | GracefullyCancelledSkip | GracefullyStoppedSkip
| MissingResultsSkip | PipelineTimedOutSkip | TasksTimedOutSkip | FinallyTimedOutSkip
| EmptyArrayInMatrixParams | NoSkip.

#[export] Instance SkippingReason_eq_dec : EqDecision SkippingReason.
Proof. solve_decision. Defined.

Record TaskSkipStatus := mkSkip { IsSkipped : bool; Reason : SkippingReason }.

#[export] Instance TaskSkipStatus_eq_dec : EqDecision TaskSkipStatus.
Proof. solve_decision. Defined.

(** The clock gives one time throughout a pass. *)
Record PipelineRunTimeoutsState := mkTimeoutsState {
  TS_StartTime : option Z;
  TS_FinallyStartTime : option Z;
  TS_PipelineTimeout : option Z;
  TS_TasksTimeout : option Z;
  TS_FinallyTimeout : option Z;
  TS_Now : Z
}.

Record PipelineRunFacts := mkFacts {
  State : PipelineRunState;
  SpecStatus : string;
  TasksGraph : Graph;
  FinalTasksGraph : Graph;
  TimeoutsState : PipelineRunTimeoutsState;
  SkipCache : gmap string TaskSkipStatus;
  ValidationFailedTask : list ResolvedPipelineTask
}.

Definition set_State (s : PipelineRunState) (f : PipelineRunFacts) : PipelineRunFacts :=
  mkFacts s (SpecStatus f) (TasksGraph f) (FinalTasksGraph f) (TimeoutsState f) (SkipCache f)
    (ValidationFailedTask f).

Definition set_SkipCache (c : gmap string TaskSkipStatus) (f : PipelineRunFacts) : PipelineRunFacts :=
  mkFacts (State f) (SpecStatus f) (TasksGraph f) (FinalTasksGraph f) (TimeoutsState f) c
    (ValidationFailedTask f).

Definition ResetSkippedCache (f : PipelineRunFacts) : PipelineRunFacts := set_SkipCache ∅ f.

Definition isTaskInGraph (name : string) (d : Graph) : bool := bool_decide (is_Some (Nodes d !! name)).
Definition isDAGTask (f : PipelineRunFacts) (name : string) : bool := isTaskInGraph name (TasksGraph f).
Definition isFinalTask (f : PipelineRunFacts) (name : string) : bool := isTaskInGraph name (FinalTasksGraph f).

(** [PipelineRunFacts.IsStopping]. *)
Definition IsStopping (f : PipelineRunFacts) : bool :=
  existsb (λ t, isDAGTask f (RPT_Name t) &&
    ((isFailure t || isValidationFailed (ValidationFailedTask f) t) &&
     negb (bool_decide (PT_OnError (RPT_PipelineTask t) = PipelineTaskContinue)))) (State f).

(** [PipelineRunFacts.IsRunning]. *)
Definition Facts_IsRunning (f : PipelineRunFacts) : bool :=
  existsb (λ t, isDAGTask f (RPT_Name t) && IsRunning t) (State f).

Definition IsCancelled (f : PipelineRunFacts) : bool :=
  bool_decide (SpecStatus f = PipelineRunSpecStatusCancelled).
Definition IsGracefullyCancelled (f : PipelineRunFacts) : bool :=
  bool_decide (SpecStatus f = PipelineRunSpecStatusCancelledRunFinally).
Definition IsGracefullyStopped (f : PipelineRunFacts) : bool :=
  bool_decide (SpecStatus f = PipelineRunSpecStatusStoppedRunFinally).

(** ** Computations on the facts *)

Definition M (A : Type) : Type := PipelineRunFacts → outcome unit (A * PipelineRunFacts).

#[export] Instance M_ret : MRet M := λ A a f, Ret (a, f).
#[export] Instance M_bind : MBind M := λ A B k m f,
  match m f with Ret (a, f) => k a f | Err e => Err e | Panic => Panic end.

Definition get_facts : M PipelineRunFacts := λ f, Ret (f, f).
Definition modify_facts (g : PipelineRunFacts → PipelineRunFacts) : M unit := λ f, Ret (tt, g f).
Definition panic {A} : M A := λ _, Panic.
Definition out_of_fuel {A} : M A := λ _, Err tt.

(** [for _, x := range xs { if body(x) { return true } }; return false]. *)
Fixpoint any_of {A} (body : A → M bool) (xs : list A) : M bool :=
  match xs with
  | [] => mret false
  | x :: xs => b ← body x; if b : bool then mret true else any_of body xs
  end.

(** [for _, x := range xs { if !body(x) { return false } }; return true]. *)
Fixpoint all_of {A} (body : A → M bool) (xs : list A) : M bool :=
  match xs with
  | [] => mret true
  | x :: xs => b ← body x; if b : bool then all_of body xs else mret false
  end.

(** A [*ResolvedPipelineTask]: a task of the state, or the copy that is the
    receiver of a method with a value receiver. *)
Inductive receiver := At (i : nat) | Copy (t : ResolvedPipelineTask).

Definition deref (r : receiver) : M ResolvedPipelineTask :=
  match r with
  | At i => λ f, match State f !! i with Some t => Ret (t, f) | None => Panic end
  | Copy t => mret t
  end.

(** [t.PipelineTask = pt]; a copy is updated in the hands of its caller. *)
Definition assign_PipelineTask (r : receiver) (pt : PipelineTask) : M receiver :=
  match r with
  | At i => modify_facts (λ f, set_State (alter (set_PipelineTask pt) i (State f)) f) ≫= λ _, mret (At i)
  | Copy t => mret (Copy (set_PipelineTask pt t))
  end.

(** [stateMap[name]], dereferenced at once: a missing entry is a nil pointer. *)
Definition task_pointer (name : string) : M nat :=
  λ f, match ToMap (State f) !! name with Some i => Ret (i, f) | None => Panic end.

(** [facts.TasksGraph.Nodes[name].Prev]. *)
Definition parents (name : string) : M (list string) :=
  λ f, match Nodes (TasksGraph f) !! name with Some n => Ret (Prev n, f) | None => Panic end.

Section skip.
Context `{MapOrder, SortSlice}.

Section open_recursion.
(** [Skip] on the tasks the one at hand depends on. *)
Context (Skip_ : receiver → M TaskSkipStatus).

(** [isDone] has a value receiver: what [Skip] does to the task itself is lost. *)
Definition isDone_ (i : nat) : M bool :=
  t ← deref (At i);
  s ← Skip_ (Copy t);
  f ← get_facts;
  mret (IsSkipped s || (isSuccessful t || (isFailure t || isValidationFailed (ValidationFailedTask f) t))).

Definition checkParentsDone (r : receiver) : M bool :=
  t ← deref r;
  f ← get_facts;
  if isFinalTask f (RPT_Name t) then mret true
  else ps ← parents (RPT_Name t); all_of (λ p, i ← task_pointer p; isDone_ i) ps.

Definition skipBecauseWhenExpressionsEvaluatedToFalse (r : receiver) : M bool :=
  b ← checkParentsDone r;
  if b : bool then
    t ← deref r;
    mret (negb (AllowsExecution (PT_When (RPT_PipelineTask t)) (RPT_EvaluatedCEL t)))
  else mret false.

Definition skipBecauseParentTaskWasSkipped (r : receiver) : M bool :=
  t ← deref r;
  ps ← parents (RPT_Name t);
  any_of (λ p, i ← task_pointer p; s ← Skip_ (At i);
               mret (IsSkipped s && negb (bool_decide (Reason s = WhenExpressionsSkip)))) ps.

(** [IsFinalTask]. *)
Definition IsFinalTask (r : receiver) : M bool :=
  t ← deref r; f ← get_facts; mret (isFinalTask f (RPT_Name t)).

(** The first operand of the condition under which a task with unresolved
    references is skipped: the error, and what the referenced task [pt] is. *)
Definition missing_is_skip (r : receiver) (pt : string) : M bool :=
  f ← get_facts;
  match ToMap (State f) !! pt with
  | None => mret false
  | Some i =>
      t ← deref r;
      if bool_decide (PT_OnError (RPT_PipelineTask t) = PipelineTaskContinue) then mret true
      else
        final ← IsFinalTask r;
        if final : bool then mret true
        else s ← Skip_ (At i); mret (bool_decide (Reason s = WhenExpressionsSkip))
  end.

Definition apply_to (r : receiver) (refs : ResolvedResultRefs) : M receiver :=
  t ← deref r;
  r ← assign_PipelineTask r (apply_results refs (RPT_PipelineTask t));
  _ ← modify_facts ResetSkippedCache;
  mret r.

(** [skipBecauseResultReferencesAreMissing] also gives the receiver back, with
    the results applied to it. *)
Definition skipBecauseResultReferencesAreMissing (r : receiver) : M (bool * receiver) :=
  b ← checkParentsDone r;
  t ← deref r;
  if b && hasResultReferences t then
    f ← get_facts;
    let '(state, resolved) := ResolveResultRefs (State f) [RPT_PipelineTask t] in
    _ ← modify_facts (set_State state);
    match resolved with
    | Panic => panic
    | Err (pt, _) =>
        missing ← missing_is_skip r pt;
        if missing : bool then mret (true, r)
        else r ← apply_to r []; mret (false, r)
    | Ret refs => r ← apply_to r refs; mret (false, r)
    end
  else mret (false, r).

(** The three timeouts. *)
Definition timeout_reached (start timeout : option Z) (now : Z) : bool :=
  match timeout, start with
  | Some d, Some s => if bool_decide (d = NoTimeoutDuration) then false else bool_decide (d < Since now s)%Z
  | _, _ => false
  end.

Definition skipBecausePipelineRunPipelineTimeoutReached (r : receiver) : M bool :=
  b ← checkParentsDone r;
  f ← get_facts;
  let ts := TimeoutsState f in
  mret (b && timeout_reached (TS_StartTime ts) (TS_PipelineTimeout ts) (TS_Now ts)).

Definition skipBecausePipelineRunTasksTimeoutReached (r : receiver) : M bool :=
  b ← checkParentsDone r;
  if b : bool then
    final ← IsFinalTask r;
    f ← get_facts;
    let ts := TimeoutsState f in
    mret (negb final && timeout_reached (TS_StartTime ts) (TS_TasksTimeout ts) (TS_Now ts))
  else mret false.

Definition skipBecausePipelineRunFinallyTimeoutReached (r : receiver) : M bool :=
  b ← checkParentsDone r;
  if b : bool then
    final ← IsFinalTask r;
    f ← get_facts;
    let ts := TimeoutsState f in
    mret (final && timeout_reached (TS_FinallyStartTime ts) (TS_FinallyTimeout ts) (TS_Now ts))
  else mret false.

Definition emptyArray (r : receiver) : M bool :=
  t ← deref r; mret (skipBecauseEmptyArrayInMatrixParams t).

(** [skip]: the reason of the first case that applies. *)
Definition skip_reason (r : receiver) : M SkippingReason :=
  t ← deref r;
  f ← get_facts;
  if isFinalTask f (RPT_Name t) || (isScheduled t || isValidationFailed (ValidationFailedTask f) t)
  then mret NoSkip
  else if IsStopping f then mret StoppingSkip
  else if IsGracefullyCancelled f then mret GracefullyCancelledSkip
  else if IsGracefullyStopped f then mret GracefullyStoppedSkip
  else
    b ← skipBecauseWhenExpressionsEvaluatedToFalse r;
    if b : bool then mret WhenExpressionsSkip else
    b ← skipBecauseParentTaskWasSkipped r;
    if b : bool then mret ParentTasksSkip else
    br ← skipBecauseResultReferencesAreMissing r;
    let '(b, r) := br : bool * receiver in
    if b then mret MissingResultsSkip else
    b ← skipBecausePipelineRunPipelineTimeoutReached r;
    if b : bool then mret PipelineTimedOutSkip else
    b ← skipBecausePipelineRunTasksTimeoutReached r;
    if b : bool then mret TasksTimedOutSkip else
    b ← emptyArray r;
    if b : bool then mret EmptyArrayInMatrixParams else
    mret NoSkip.

Definition skip_status (reason : SkippingReason) : TaskSkipStatus :=
  mkSkip (negb (bool_decide (reason = NoSkip))) reason.

Definition skip (r : receiver) : M TaskSkipStatus :=
  reason ← skip_reason r; mret (skip_status reason).

(** [facts.SkipCache[name] = t.skip(facts)] stores into the map that is there
    after the call. *)
Definition cached_skip (r : receiver) : M TaskSkipStatus :=
  t ← deref r;
  f ← get_facts;
  match SkipCache f !! RPT_Name t with
  | Some s => mret s
  | None =>
      s ← skip r;
      _ ← modify_facts (λ f, set_SkipCache (<[RPT_Name t := s]> (SkipCache f)) f);
      mret s
  end.

End open_recursion.

(** [Skip]. *)
Fixpoint Skip (fuel : nat) (r : receiver) : M TaskSkipStatus :=
  match fuel with
  | O => out_of_fuel
  | S fuel => cached_skip (Skip fuel) r
  end.

Definition isDone (fuel : nat) (i : nat) : M bool := isDone_ (Skip fuel) i.

(** ** All tasks of a graph *)

(** The indices of the state, in order. *)
Definition positions (f : PipelineRunFacts) : list nat := seq 0 (length (State f)).

Definition checkTasksDone (fuel : nat) (d : Graph) : M bool :=
  f ← get_facts;
  all_of (λ i, t ← deref (At i); if isTaskInGraph (RPT_Name t) d then isDone fuel i else mret true)
    (positions f).

Definition checkDAGTasksDone (fuel : nat) : M bool := f ← get_facts; checkTasksDone fuel (TasksGraph f).
Definition checkFinalTasksDone (fuel : nat) : M bool := f ← get_facts; checkTasksDone fuel (FinalTasksGraph f).

(** [IsFinallySkipped]. *)
Definition finally_reason (fuel : nat) (r : receiver) : M SkippingReason :=
  t ← deref r;
  if isScheduled t then mret NoSkip
  else
    dag_done ← checkDAGTasksDone fuel;
    f ← get_facts;
    if dag_done && isFinalTask f (RPT_Name t) then
      br ← skipBecauseResultReferencesAreMissing (Skip fuel) r;
      let '(b, r) := br : bool * receiver in
      if b then mret MissingResultsSkip else
      b ← skipBecauseWhenExpressionsEvaluatedToFalse (Skip fuel) r;
      if b : bool then mret WhenExpressionsSkip else
      b ← skipBecausePipelineRunPipelineTimeoutReached (Skip fuel) r;
      if b : bool then mret PipelineTimedOutSkip else
      b ← skipBecausePipelineRunFinallyTimeoutReached (Skip fuel) r;
      if b : bool then mret FinallyTimedOutSkip else
      b ← emptyArray r;
      if b : bool then mret EmptyArrayInMatrixParams else
      mret NoSkip
    else mret NoSkip.

Definition IsFinallySkipped (fuel : nat) (r : receiver) : M TaskSkipStatus :=
  reason ← finally_reason fuel r; mret (skip_status reason).

End skip.
