(* ===== verification/SkipSpec.v ===== *)
(** * What [Skip] computes

    [Skip] fills a cache, walks to the parents of a task as often as its cases
    ask for them, and resets the cache when it applies results.  The
    specification below has none of that: the status of every task is given by
    one equation in the statuses of its parents ([reason_with]).  For facts whose
    graph was built by [dag.Build] ([facts_wf]) and in which no task that may
    start still has results to be applied ([settled]), [Skip] returns the
    specified status for every content of the cache that agrees with it, in any
    order of calls, and leaves everything but the cache alone. *)
From S2P Require Import Prelude GoStrings Json Regex Substitution SubstitutionSpec ResultRef Params When Matrix.
From S2P Require Import Runs Dag DagCycles DagBuild PipelineTasks ResolvedTasks ResultRefResolution Apply Skip.

(** ** Well-formed facts *)

(** [x] has the parent [p] in the graph of the tasks. *)
Definition parent_of (f : PipelineRunFacts) : relation string :=
  λ x p, ∃ n, Nodes (TasksGraph f) !! x = Some n ∧ p ∈ Prev n.

Record facts_wf (f : PipelineRunFacts) : Prop := {
  wf_names : NoDup (RPT_Name <$> State f);
  wf_graph : ∀ t, t ∈ State f → isFinalTask f (RPT_Name t) = false →
    is_Some (Nodes (TasksGraph f) !! RPT_Name t);
  wf_parents : ∀ x p, parent_of f x p → p ∈ RPT_Name <$> State f;
  wf_acyclic : acyclic (parent_of f)
}.

(** The task of a name. *)
Definition task_named (f : PipelineRunFacts) (name : string) : option ResolvedPipelineTask :=
  i ← ToMap (State f) !! name; State f !! i.

Definition parents_of (f : PipelineRunFacts) (name : string) : list string :=
  match Nodes (TasksGraph f) !! name with Some n => Prev n | None => [] end.

Lemma ToMap_Some (s : PipelineRunState) name i :
  NoDup (RPT_Name <$> s) →
  ToMap s !! name = Some i ↔ ∃ t, s !! i = Some t ∧ RPT_Name t = name.
Proof.
  intros Hnd. unfold ToMap.
  assert (foldl (λ m '(i, rpt), <[RPT_Name rpt := i]> m) (∅ : gmap string nat) (imap pair s) =
          foldl (λ m ix, <[RPT_Name ix.2 := ix.1]> m) ∅ (imap pair s)) as ->.
  { generalize (imap pair s) (∅ : gmap string nat). intros l. 
    induction l as [|[j t] l IH]; intros m; [done|]. cbn [foldl]. apply IH. }
  rewrite (foldl_insert_lookup (λ ix : nat * ResolvedPipelineTask, RPT_Name ix.2) fst).
  - rewrite lookup_empty. split.
    + intros [([j t] & Hin & <- & <-)|[_ ?]]; try done.
      apply elem_of_lookup_imap_1 in Hin as (k & u & [= -> ->] & Hu). by exists u.
    + intros (t & Hi & <-). left. exists (i, t). split; [|done].
      exact (elem_of_lookup_imap_2 pair s t i Hi).
  - assert ((λ ix : nat * ResolvedPipelineTask, RPT_Name ix.2) <$> imap pair s = RPT_Name <$> s) as ->; [|done].
    apply list_eq. intros k. rewrite !list_lookup_fmap, list_lookup_imap. by destruct (s !! k).
Qed.

Lemma task_named_Some f name t :
  NoDup (RPT_Name <$> State f) →
  task_named f name = Some t ↔ t ∈ State f ∧ RPT_Name t = name.
Proof.
  intros Hnd. unfold task_named. rewrite bind_Some. setoid_rewrite (λ i, ToMap_Some _ name i Hnd). split.
  - intros (i & (u & Hu & <-) & Ht). simplify_eq. split; [by eapply list_elem_of_lookup_2|done].
  - intros [[i Hi]%list_elem_of_lookup <-]. exists i. eauto.
Qed.

(** ** The specification *)

Section spec.
Context `{MapOrder} (f : PipelineRunFacts).

(** A task is done when it is skipped or its runs are. *)
Definition done_with (s : TaskSkipStatus) (t : ResolvedPipelineTask) : bool :=
  IsSkipped s || (isSuccessful t || (isFailure t || isValidationFailed (ValidationFailedTask f) t)).

Section with_status.
Context (status : string → TaskSkipStatus).

Definition parent_done (p : string) : bool :=
  match task_named f p with Some t => done_with (status p) t | None => false end.

Definition ready_with (t : ResolvedPipelineTask) : bool :=
  isFinalTask f (RPT_Name t) || forallb parent_done (parents_of f (RPT_Name t)).

(** The cases before the one on missing results. *)
Definition early_reason (t : ResolvedPipelineTask) : option SkippingReason :=
  if isFinalTask f (RPT_Name t) || (isScheduled t || isValidationFailed (ValidationFailedTask f) t)
  then Some NoSkip
  else if IsStopping f then Some StoppingSkip
  else if IsGracefullyCancelled f then Some GracefullyCancelledSkip
  else if IsGracefullyStopped f then Some GracefullyStoppedSkip
  else if ready_with t && negb (AllowsExecution (PT_When (RPT_PipelineTask t)) (RPT_EvaluatedCEL t))
  then Some WhenExpressionsSkip
  else if existsb (λ p, IsSkipped (status p) && negb (bool_decide (Reason (status p) = WhenExpressionsSkip)))
            (parents_of f (RPT_Name t))
  then Some ParentTasksSkip
  else None.

(** The cases behind it. *)
Definition late_reason (t : ResolvedPipelineTask) : SkippingReason :=
  let ts := TimeoutsState f in
  if ready_with t && timeout_reached (TS_StartTime ts) (TS_PipelineTimeout ts) (TS_Now ts)
  then PipelineTimedOutSkip
  else if ready_with t && (negb (isFinalTask f (RPT_Name t)) &&
                           timeout_reached (TS_StartTime ts) (TS_TasksTimeout ts) (TS_Now ts))
  then TasksTimedOutSkip
  else if skipBecauseEmptyArrayInMatrixParams t then EmptyArrayInMatrixParams
  else NoSkip.

Definition reason_with (t : ResolvedPipelineTask) : SkippingReason :=
  match early_reason t with Some r => r | None => late_reason t end.

(** No task that is about to start still has results to be applied. *)
Definition settled_with : Prop :=
  ∀ t, t ∈ State f → hasResultReferences t = true → early_reason t = None → ready_with t = false.

Definition solution : Prop :=
  ∀ t, t ∈ State f → status (RPT_Name t) = skip_status (reason_with t).

End with_status.

(** The solution, by unfolding the equation to a depth. *)
Fixpoint status_to_depth (n : nat) (name : string) : TaskSkipStatus :=
  match n with
  | O => skip_status NoSkip
  | S n =>
      match task_named f name with
      | Some t => skip_status (reason_with (status_to_depth n) t)
      | None => skip_status NoSkip
      end
  end.

Definition expected_status : string → TaskSkipStatus :=
  status_to_depth (S (size (Nodes (TasksGraph f)))).

Definition settled : Prop := settled_with expected_status.

End spec.

(** ** Descending an acyclic graph *)

Section descend.
Context (f : PipelineRunFacts) (Hwf : facts_wf f).
Context (P : nat → string → Prop).
Context (step : ∀ n x, (∀ p, parent_of f x p → P n p) → P (S n) x).

Lemma descend_aux n (V : gset string) x :
  size (dom (Nodes (TasksGraph f)) ∖ V) < n → (∀ v, v ∈ V → tc (parent_of f) v x) → P n x.
Proof.
  revert V x. induction n as [|n IH]; intros V x Hn HV; [lia|]. apply step. intros p Hp.
  assert (x ∉ V) as Hx by (intros Hx; by apply (wf_acyclic f Hwf x), HV).
  apply (IH ({[x]} ∪ V)).
  - assert (x ∈ dom (Nodes (TasksGraph f))) as Hd.
    { destruct Hp as (nd & Hnd & _). apply elem_of_dom. by exists nd. }
    assert (dom (Nodes (TasksGraph f)) ∖ ({[x]} ∪ V) = (dom (Nodes (TasksGraph f)) ∖ V) ∖ {[x]}) as ->
      by set_solver.
    pose proof (size_remove (dom (Nodes (TasksGraph f)) ∖ V) x). set_solver by lia.
  - intros v [->%elem_of_singleton|Hv]%elem_of_union; [by apply tc_once|].
    apply tc_r with x; auto.
Qed.

(** A property that goes from the parents of a task at some depth to the task at
    the next one holds of every task at a depth above the number of tasks. *)
Lemma descend n x : size (Nodes (TasksGraph f)) < n → P n x.
Proof.
  intros Hn. apply (descend_aux n ∅); [|set_solver].
  by rewrite difference_empty_L, size_dom.
Qed.

End descend.

(** ** The specification has a solution *)

Lemma elem_of_parents_of f x p : p ∈ parents_of f x ↔ parent_of f x p.
Proof.
  unfold parents_of, parent_of. destruct (Nodes (TasksGraph f) !! x) as [n|]; [naive_solver|].
  split; [by intros ?%elem_of_nil|by intros (? & ? & _)].
Qed.

Lemma forallb_ext_in {A} (g1 g2 : A → bool) (l : list A) :
  (∀ x, x ∈ l → g1 x = g2 x) → forallb g1 l = forallb g2 l.
Proof.
  induction l as [|x l IH]; intros Hg; cbn; [done|].
  rewrite (Hg x), IH; [done| |left]. intros y Hy. apply Hg. by right.
Qed.

Lemma existsb_ext_in {A} (g1 g2 : A → bool) (l : list A) :
  (∀ x, x ∈ l → g1 x = g2 x) → existsb g1 l = existsb g2 l.
Proof.
  induction l as [|x l IH]; intros Hg; cbn; [done|].
  rewrite (Hg x), IH; [done| |left]. intros y Hy. apply Hg. by right.
Qed.

Section solution.
Context `{MapOrder} (f : PipelineRunFacts) (Hwf : facts_wf f).

Lemma ready_with_ext s1 s2 t :
  (∀ p, parent_of f (RPT_Name t) p → s1 p = s2 p) → ready_with f s1 t = ready_with f s2 t.
Proof.
  intros Hs. unfold ready_with. f_equal. apply forallb_ext_in. intros p Hp%elem_of_parents_of.
  unfold parent_done. by rewrite Hs.
Qed.

Lemma reason_with_ext s1 s2 t :
  (∀ p, parent_of f (RPT_Name t) p → s1 p = s2 p) → reason_with f s1 t = reason_with f s2 t.
Proof.
  intros Hs. unfold reason_with, early_reason, late_reason. rewrite (ready_with_ext s1 s2 t Hs).
  by rewrite (existsb_ext_in _ (λ p, IsSkipped (s2 p) && negb (bool_decide (Reason (s2 p) = WhenExpressionsSkip))))
    by (intros p Hp%elem_of_parents_of; by rewrite Hs).
Qed.

Lemma status_to_depth_stable n m x :
  size (Nodes (TasksGraph f)) < n → n ≤ m → status_to_depth f n x = status_to_depth f m x.
Proof.
  intros Hn. revert m. revert n x Hn.
  apply (descend f Hwf (λ n x, ∀ m, n ≤ m → status_to_depth f n x = status_to_depth f m x)).
  intros n x IH [|m] Hm; [lia|]. cbn [status_to_depth].
  destruct (task_named f x) as [t|] eqn:Ht; [|done].
  apply task_named_Some in Ht as [_ <-]; [|apply Hwf]. f_equal. apply reason_with_ext.
  intros p Hp. apply IH; [done|lia].
Qed.

Lemma expected_status_solution : solution f (expected_status f).
Proof.
  intros t Ht. unfold expected_status at 1.
  rewrite (status_to_depth_stable _ (S (S (size (Nodes (TasksGraph f)))))) by lia.
  change (status_to_depth f (S (S (size (Nodes (TasksGraph f))))) (RPT_Name t)) with
    (match task_named f (RPT_Name t) with
     | Some t => skip_status (reason_with f (expected_status f) t)
     | None => skip_status NoSkip end).
  assert (task_named f (RPT_Name t) = Some t) as ->; [|done].
  apply task_named_Some; [apply Hwf|done].
Qed.

End solution.

(** ** Computations that only fill the cache *)

Section computes.
Context `{MapOrder, SortSlice} (f : PipelineRunFacts) (Hwf : facts_wf f).

(** The statuses are looked at for the tasks of [D], a set closed under parents;
    [partial] says whether running out of fuel is allowed. *)
Context (D : string → Prop) (HD : ∀ x p, D x → parent_of f x p → D p) (partial : Prop).
Context (status : string → TaskSkipStatus).
Context (Hsol : ∀ t, t ∈ State f → D (RPT_Name t) → status (RPT_Name t) = skip_status (reason_with f status t)).
Context (Hset : ∀ t, t ∈ State f → D (RPT_Name t) → hasResultReferences t = true →
  early_reason f status t = None → ready_with f status t = false).

(** The caches that agree with the specification. *)
Definition coherent (c : gmap string TaskSkipStatus) : Prop :=
  ∀ name s, D name → c !! name = Some s → s = status name.

(** Caches that differ on tasks of [D] only. *)
Definition same_outside (c c' : gmap string TaskSkipStatus) : Prop :=
  ∀ name, ¬ D name → c' !! name = c !! name.

(** From the facts [f] with any coherent cache, [m] returns [a] and changes at
    most the cache. *)
Definition computes {A} (m : M A) (a : A) : Prop :=
  ∀ c, coherent c →
    (partial ∧ m (set_SkipCache c f) = Err tt) ∨
    ∃ c', coherent c' ∧ same_outside c c' ∧ m (set_SkipCache c f) = Ret (a, set_SkipCache c' f).

Lemma computes_pure {A} (m : M A) a :
  (∀ c, m (set_SkipCache c f) = Ret (a, set_SkipCache c f)) → computes m a.
Proof. intros Hm c Hc. right. by exists c. Qed.

Lemma computes_ret {A} (a : A) : computes (mret a) a.
Proof. by apply computes_pure. Qed.

Lemma computes_bind {A B} (m : M A) (k : A → M B) a b :
  computes m a → computes (k a) b → computes (m ≫= k) b.
Proof.
  intros Hm Hk c Hc. unfold mbind, M_bind. destruct (Hm c Hc) as [[Hp ->]|(c' & Hc' & Ho & ->)]; [by left|].
  destruct (Hk c' Hc') as [[Hp ->]|(c'' & Hc'' & Ho' & ->)]; [by left|right].
  exists c''. split_and!; [done| |done]. intros name Hn. by rewrite Ho', Ho.
Qed.

(** Reading the facts: the continuation must not depend on the cache. *)
Lemma computes_get {B} (k : PipelineRunFacts → M B) b :
  (∀ c, coherent c → computes (k (set_SkipCache c f)) b) → computes (get_facts ≫= k) b.
Proof. intros Hk c Hc. exact (Hk c Hc c Hc). Qed.

Definition denotes (r : receiver) (t : ResolvedPipelineTask) : Prop :=
  match r with At i => State f !! i = Some t | Copy u => u = t ∧ t ∈ State f end.

Lemma denotes_elem r t : denotes r t → t ∈ State f.
Proof. destruct r; cbn; [by apply list_elem_of_lookup_2|by intros [-> ?]]. Qed.

Lemma computes_deref r t : denotes r t → computes (deref r) t.
Proof.
  intros Hr. apply computes_pure. intros c. destruct r as [i|u]; cbn in *; [by rewrite Hr|].
  by destruct Hr as [-> _].
Qed.

Lemma computes_task_pointer t i : State f !! i = Some t → computes (task_pointer (RPT_Name t)) i.
Proof.
  intros Hi. apply computes_pure. intros c. unfold task_pointer.
  assert (ToMap (State f) !! RPT_Name t = Some i) as E.
  { apply ToMap_Some; [apply Hwf|]. eauto. }
  change (State (set_SkipCache c f)) with (State f). by rewrite E.
Qed.

Lemma computes_all_of {A} (body : A → M bool) (g : A → bool) xs :
  (∀ x, x ∈ xs → computes (body x) (g x)) → computes (all_of body xs) (forallb g xs).
Proof.
  induction xs as [|x xs IH]; intros Hb; cbn [all_of forallb]; [apply computes_ret|].
  eapply computes_bind; [apply Hb; left|].
  destruct (g x); [|apply computes_ret]. apply IH. intros y Hy. apply Hb. by right.
Qed.

Lemma computes_any_of {A} (body : A → M bool) (g : A → bool) xs :
  (∀ x, x ∈ xs → computes (body x) (g x)) → computes (any_of body xs) (existsb g xs).
Proof.
  induction xs as [|x xs IH]; intros Hb; cbn [any_of existsb]; [apply computes_ret|].
  eapply computes_bind; [apply Hb; left|].
  destruct (g x); [apply computes_ret|]. apply IH. intros y Hy. apply Hb. by right.
Qed.

Lemma computes_IsFinalTask r t : denotes r t → computes (IsFinalTask r) (isFinalTask f (RPT_Name t)).
Proof.
  intros Hr. eapply computes_bind; [by apply computes_deref|].
  apply computes_get. intros c _. apply computes_ret.
Qed.

Lemma parent_position x p : parent_of f x p → ∃ i t, State f !! i = Some t ∧ RPT_Name t = p.
Proof.
  intros Hp%(wf_parents f Hwf). apply list_elem_of_fmap in Hp as (t & -> & [i Hi]%list_elem_of_lookup). eauto.
Qed.

Section open_recursion.
Context (Skip_ : receiver → M TaskSkipStatus) (t : ResolvedPipelineTask) (Ht : t ∈ State f) (HDt : D (RPT_Name t)).
Context (HSkip : ∀ p r u, parent_of f (RPT_Name t) p → denotes r u → RPT_Name u = p →
  computes (Skip_ r) (status p)).

Lemma computes_isDone_ i u (Hi : State f !! i = Some u) :
  computes (Skip_ (Copy u)) (status (RPT_Name u)) →
  computes (isDone_ Skip_ i) (done_with f (status (RPT_Name u)) u).
Proof.
  intros Hs. eapply computes_bind; [by apply computes_deref|].
  eapply computes_bind; [exact Hs|]. apply computes_get. intros c _. apply computes_ret.
Qed.

Lemma computes_parents : isFinalTask f (RPT_Name t) = false →
  computes (parents (RPT_Name t)) (parents_of f (RPT_Name t)).
Proof.
  intros Hf. apply computes_pure. intros c. unfold parents, parents_of.
  change (TasksGraph (set_SkipCache c f)) with (TasksGraph f).
  destruct (wf_graph f Hwf t Ht Hf) as [n ->]. done.
Qed.

Lemma computes_checkParentsDone r : denotes r t →
  computes (checkParentsDone Skip_ r) (ready_with f status t).
Proof.
  intros Hr. unfold checkParentsDone, ready_with. eapply computes_bind; [by apply computes_deref|].
  apply computes_get. intros c _. change (isFinalTask (set_SkipCache c f)) with (isFinalTask f).
  destruct (isFinalTask f (RPT_Name t)) eqn:Hfin; [apply computes_ret|].
  eapply computes_bind; [by apply computes_parents|]. apply computes_all_of.
  intros p Hp%elem_of_parents_of. destruct (parent_position _ p Hp) as (i & u & Hi & <-).
  eapply computes_bind; [by apply computes_task_pointer|]. unfold parent_done.
  assert (task_named f (RPT_Name u) = Some u) as ->.
  { apply task_named_Some; [apply Hwf|]. split; [by eapply list_elem_of_lookup_2|done]. }
  apply (computes_isDone_ i u Hi). apply (HSkip _ _ u Hp); [|done].
  split; [done|by eapply list_elem_of_lookup_2].
Qed.

Lemma computes_when r : denotes r t →
  computes (skipBecauseWhenExpressionsEvaluatedToFalse Skip_ r)
    (ready_with f status t && negb (AllowsExecution (PT_When (RPT_PipelineTask t)) (RPT_EvaluatedCEL t))).
Proof.
  intros Hr. eapply computes_bind; [by apply computes_checkParentsDone|].
  destruct (ready_with f status t); [|apply computes_ret].
  eapply computes_bind; [by apply computes_deref|]. apply computes_ret.
Qed.

Lemma computes_parent_skipped r : denotes r t → isFinalTask f (RPT_Name t) = false →
  computes (skipBecauseParentTaskWasSkipped Skip_ r)
    (existsb (λ p, IsSkipped (status p) && negb (bool_decide (Reason (status p) = WhenExpressionsSkip)))
       (parents_of f (RPT_Name t))).
Proof.
  intros Hr Hfin. eapply computes_bind; [by apply computes_deref|].
  eapply computes_bind; [by apply computes_parents|]. apply computes_any_of.
  intros p Hp%elem_of_parents_of. destruct (parent_position _ p Hp) as (i & u & Hi & <-).
  eapply computes_bind; [by apply computes_task_pointer|].
  eapply computes_bind; [by apply (HSkip _ (At i) u Hp)|]. apply computes_ret.
Qed.

Lemma computes_missing r : denotes r t →
  ready_with f status t && hasResultReferences t = false →
  computes (skipBecauseResultReferencesAreMissing Skip_ r) (false, r).
Proof.
  intros Hr Href. eapply computes_bind; [by apply computes_checkParentsDone|].
  eapply computes_bind; [by apply computes_deref|]. rewrite Href. apply computes_ret.
Qed.

Lemma computes_pipeline_timeout r : denotes r t →
  computes (skipBecausePipelineRunPipelineTimeoutReached Skip_ r)
    (ready_with f status t && timeout_reached (TS_StartTime (TimeoutsState f))
       (TS_PipelineTimeout (TimeoutsState f)) (TS_Now (TimeoutsState f))).
Proof.
  intros Hr. eapply computes_bind; [by apply computes_checkParentsDone|].
  apply computes_get. intros c _. apply computes_ret.
Qed.

Lemma computes_tasks_timeout r : denotes r t →
  computes (skipBecausePipelineRunTasksTimeoutReached Skip_ r)
    (ready_with f status t && (negb (isFinalTask f (RPT_Name t)) &&
       timeout_reached (TS_StartTime (TimeoutsState f)) (TS_TasksTimeout (TimeoutsState f))
         (TS_Now (TimeoutsState f)))).
Proof.
  intros Hr. eapply computes_bind; [by apply computes_checkParentsDone|].
  destruct (ready_with f status t); [|apply computes_ret].
  eapply computes_bind; [by apply computes_IsFinalTask|].
  apply computes_get. intros c _. apply computes_ret.
Qed.

Lemma computes_finally_timeout r : denotes r t →
  computes (skipBecausePipelineRunFinallyTimeoutReached Skip_ r)
    (ready_with f status t && (isFinalTask f (RPT_Name t) &&
       timeout_reached (TS_FinallyStartTime (TimeoutsState f)) (TS_FinallyTimeout (TimeoutsState f))
         (TS_Now (TimeoutsState f)))).
Proof.
  intros Hr. eapply computes_bind; [by apply computes_checkParentsDone|].
  destruct (ready_with f status t); [|apply computes_ret].
  eapply computes_bind; [by apply computes_IsFinalTask|].
  apply computes_get. intros c _. apply computes_ret.
Qed.

Lemma computes_emptyArray r : denotes r t →
  computes (emptyArray r) (skipBecauseEmptyArrayInMatrixParams t).
Proof. intros Hr. eapply computes_bind; [by apply computes_deref|]. apply computes_ret. Qed.

(** A case of the switch. *)
Lemma computes_case {A} (m : M bool) (b : bool) (k1 k2 : M A) a :
  computes m b → computes (if b then k1 else k2) a →
  computes (m ≫= λ b : bool, if b then k1 else k2) a.
Proof. intros Hm Hk. by eapply computes_bind. Qed.

Lemma computes_late r : denotes r t →
  computes
    (b ← skipBecausePipelineRunPipelineTimeoutReached Skip_ r;
     if b : bool then mret PipelineTimedOutSkip else
     b ← skipBecausePipelineRunTasksTimeoutReached Skip_ r;
     if b : bool then mret TasksTimedOutSkip else
     b ← emptyArray r;
     if b : bool then mret EmptyArrayInMatrixParams else
     mret NoSkip) (late_reason f status t).
Proof.
  intros Hr. unfold late_reason.
  apply computes_case with (1 := computes_pipeline_timeout r Hr). case_match; [apply computes_ret|].
  apply computes_case with (1 := computes_tasks_timeout r Hr). case_match; [apply computes_ret|].
  apply computes_case with (1 := computes_emptyArray r Hr). case_match; apply computes_ret.
Qed.

Lemma computes_skip_reason r : denotes r t → computes (skip_reason Skip_ r) (reason_with f status t).
Proof.
  intros Hr. pose proof (Hset t Ht HDt) as Hst. unfold reason_with, early_reason in *.
  eapply computes_bind; [by apply computes_deref|].
  apply computes_get. intros c _.
  change (isFinalTask (set_SkipCache c f)) with (isFinalTask f).
  change (ValidationFailedTask (set_SkipCache c f)) with (ValidationFailedTask f).
  change (IsStopping (set_SkipCache c f)) with (IsStopping f).
  change (IsGracefullyCancelled (set_SkipCache c f)) with (IsGracefullyCancelled f).
  change (IsGracefullyStopped (set_SkipCache c f)) with (IsGracefullyStopped f).
  destruct (isFinalTask f (RPT_Name t)) eqn:Hfin; [apply computes_ret|]. cbn [orb] in *.
  destruct (isScheduled t || isValidationFailed (ValidationFailedTask f) t); [apply computes_ret|].
  destruct (IsStopping f); [apply computes_ret|].
  destruct (IsGracefullyCancelled f); [apply computes_ret|].
  destruct (IsGracefullyStopped f); [apply computes_ret|].
  apply computes_case with (1 := computes_when r Hr).
  destruct (ready_with f status t && negb _); [apply computes_ret|].
  apply computes_case with (1 := computes_parent_skipped r Hr Hfin).
  destruct (existsb _ _); [apply computes_ret|].
  eapply computes_bind; [apply (computes_missing r Hr)|by apply computes_late].
  destruct (hasResultReferences t); [|apply andb_false_r].
  rewrite Hst by done. done.
Qed.

Lemma computes_cached_skip r : denotes r t → computes (cached_skip Skip_ r) (status (RPT_Name t)).
Proof.
  intros Hr. eapply computes_bind; [by apply computes_deref|]. apply computes_get. intros c Hc.
  cbn [SkipCache set_SkipCache]. destruct (c !! RPT_Name t) as [s|] eqn:E.
  { rewrite <-(Hc _ _ HDt E). apply computes_ret. }
  rewrite (Hsol t Ht HDt).
  eapply computes_bind; [eapply computes_bind; [by apply computes_skip_reason|apply computes_ret]|].
  eapply computes_bind; [|apply computes_ret]. instantiate (1 := tt).
  intros c' Hc'. right. eexists. split_and!; [| |reflexivity].
  - intros name s Hn [[<- <-]|[_ Hs]]%lookup_insert_Some; [symmetry; by apply Hsol|by apply Hc'].
  - intros name Hn. rewrite lookup_insert_ne; [done|]. intros <-. by apply Hn.
Qed.

End open_recursion.

Lemma computes_Skip_step n x :
  (∀ p r t, parent_of f x p → denotes r t → RPT_Name t = p → computes (Skip n r) (status p)) →
  D x → ∀ r t, denotes r t → RPT_Name t = x → computes (Skip (S n) r) (status x).
Proof.
  intros IH Hx r t Hr <-. cbn [Skip].
  apply computes_cached_skip; [by eapply denotes_elem|done| |done].
  intros p r' u Hp Hr' Hu. by apply (IH p r' u).
Qed.

Lemma computes_Skip fuel r t : size (Nodes (TasksGraph f)) < fuel → denotes r t → D (RPT_Name t) →
  computes (Skip fuel r) (status (RPT_Name t)).
Proof.
  intros Hfuel Hr HDt.
  apply (descend f Hwf (λ n x, D x → ∀ r t, denotes r t → RPT_Name t = x → computes (Skip n r) (status x))
    ) with (n := fuel) (x := RPT_Name t) (r := r) (t := t) in Hfuel; [done| |done..].
  clear fuel r t Hfuel Hr HDt. intros n x IH Hx. apply computes_Skip_step; [|done].
  intros p r t Hp. apply (IH p Hp). by apply (HD x p).
Qed.

Lemma computes_Skip_partial fuel r t : partial → denotes r t → D (RPT_Name t) →
  computes (Skip fuel r) (status (RPT_Name t)).
Proof.
  intros Hp Hr HDt. remember (RPT_Name t) as x eqn:Hx. symmetry in Hx. revert x r t HDt Hr Hx.
  induction fuel as [|fuel IH]; intros x r t HDt Hr Hx; [by left|].
  apply (computes_Skip_step fuel x) with t; [|done..].
  intros p r' u Hpar Hr' Hu. apply (IH p r' u); [by apply (HD x p)|done..].
Qed.

End computes.

(** ** Facts from a pipeline *)

(** The facts the reconciler has are well formed: their graph is built from the
    pipeline's tasks, and their state has a task for each of them. *)
Lemma facts_wf_of_Build `{MapOrder} f (tasks : list PipelineTask) :
  NoDup (RPT_Name <$> State f) → BuildTasks tasks = Ret (TasksGraph f) →
  (∀ x, x ∈ PT_Name <$> tasks → x ∈ RPT_Name <$> State f) →
  (∀ t, t ∈ State f → isFinalTask f (RPT_Name t) = true ∨ RPT_Name t ∈ PT_Name <$> tasks) →
  facts_wf f.
Proof.
  intros Hnd HB Hin Hcase. pose proof (Build_spec tasks (PipelineTaskList_Deps tasks)) as Hs.
  unfold BuildTasks in HB. rewrite HB in Hs. destruct Hs as (_ & Hac & Hdeps & Hg).
  assert (∀ x p, parent_of f x p → depends (PipelineTaskList_Deps tasks) x p) as Hpar.
  { intros x p (n & Hn & Hp). unfold depends. by rewrite <-(graph_prev _ _ _ Hg x n Hn). }
  split; [done|..].
  - intros t Ht Hf. apply (graph_dom _ _ _ Hg). destruct (Hcase t Ht); [congruence|done].
  - intros x p Hp. apply Hin. by apply (Hdeps x p), Hpar.
  - intros x Hx. apply (Hac x). revert Hx. generalize x at 2 4. induction 1; [by apply tc_once, Hpar|].
    eapply tc_l; [by apply Hpar|done].
Qed.

(** Settledness is decidable. *)
Definition is_settled `{MapOrder} (f : PipelineRunFacts) : bool :=
  forallb (λ t, implb (hasResultReferences t && bool_decide (early_reason f (expected_status f) t = None))
                  (negb (ready_with f (expected_status f) t))) (State f).

Lemma is_settled_sound `{MapOrder} f : is_settled f = true → settled f.
Proof.
  unfold is_settled. rewrite forallb_forall. intros Hall t Ht Href Hearly.
  apply list_elem_of_In, Hall in Ht. rewrite Href, bool_decide_true in Ht by done. cbn in Ht.
  by apply negb_true_iff.
Qed.

(** On settled facts every call returns the specified status. *)
Lemma computes_Skip_all `{MapOrder, SortSlice} f (Hwf : facts_wf f) (Hset : settled f) fuel r t :
  size (Nodes (TasksGraph f)) < fuel → denotes f r t →
  computes f (λ _, True) False (expected_status f) (Skip fuel r) (expected_status f (RPT_Name t)).
Proof.
  intros Hfuel Hr. apply computes_Skip; try done.
  - intros u Hu _. by apply expected_status_solution.
  - intros u Hu _. by apply Hset.
Qed.


(** ** An example

    Four tasks: b and d run after a, c after b; a has succeeded, and b has a
    guard that fails. *)
Definition guarded_task (name : string) (runAfter : list string) (wes : WhenExpressions) : PipelineTask :=
  mkPipelineTask name "" (Some (mkTaskRef "task" "Task" "" "" [])) None wes 0 runAfter [] None [] "".

Definition task_run (name reason : string) (status : ConditionStatus) (results : list TaskRunResult) : TaskRun :=
  {| TaskRun_Name := name; TaskRun_CreationTimestamp := 0; TaskRun_OwnerReferences := []; TaskRun_Params := [];
     TaskRun_SpecStatus := ""; TaskRun_StatusMessage := ""; TaskRun_Timeout := None; TaskRun_Retries := 0;
     TaskRun_Conditions := [mkCondition ConditionSucceeded status reason ""]; TaskRun_StartTime := None;
     TaskRun_RetriesStatus := 0; TaskRun_Results := results |}.

(** A resolved task with the runs it has; the address is its position. *)
Definition resolved (ptr : nat) (pt : PipelineTask) (runs : list TaskRun) : ResolvedPipelineTask :=
  mkRPT [] runs false [] [] pt
    (Some (mkResolvedTask ptr "task" (ResolvedTask_TaskSpec (enum_task [])))) ∅ ∅.

Definition no_timeouts : PipelineRunTimeoutsState := mkTimeoutsState None None None None None 0.

(** Facts about [tasks] with their runs and no finally tasks. *)
Definition facts_of (g : Graph) (state : PipelineRunState) : PipelineRunFacts :=
  mkFacts state "" g newGraph no_timeouts ∅ [].

Definition graph_or_empty (o : outcome DagError Graph) : Graph :=
  match o with Ret g => g | _ => newGraph end.

Definition guarded_tasks : list PipelineTask :=
  [guarded_task "a" [] []; guarded_task "b" ["a"] [mkWhen "x" "in" ["y"] ""];
   guarded_task "c" ["b"] []; guarded_task "d" ["a"] []].

Definition guarded_facts : PipelineRunFacts :=
  facts_of (graph_or_empty (@BuildTasks stdpp_order guarded_tasks))
    (imap (λ i pt, resolved i pt (if bool_decide (PT_Name pt = "a")
                                  then [task_run "pr-a" "Succeeded" ConditionTrue []] else [])) guarded_tasks).

Lemma guarded_facts_wf : @facts_wf guarded_facts.
Proof.
  apply (@facts_wf_of_Build stdpp_order guarded_facts guarded_tasks).
  - apply (bool_decide_unpack _). vm_compute. exact I.
  - vm_compute. reflexivity.
  - intros x Hx. exact Hx.
  - intros t Ht. right. apply elem_of_lookup_imap_1 in Ht as (i & pt & -> & Ht).
    apply list_elem_of_lookup_2 in Ht. exact (list_elem_of_fmap_2 PT_Name _ _ Ht).
Defined.


(** ** When [Skip] does not end

    The text of a result may itself contain a reference.  When the results a task
    refers to are applied to it, its parameters may then refer to a task that is
    not one of its parents, even to the task itself. *)

Section diverges.
Context `{MapOrder, SortSlice} (f : PipelineRunFacts) (Hwf : facts_wf f).
Context (i : nat) (t : ResolvedPipelineTask) (Hi : State f !! i = Some t).

Abbreviation below := (tc (parent_of f) (RPT_Name t)).

Context (Hset : ∀ u, u ∈ State f → below (RPT_Name u) → hasResultReferences u = true →
  early_reason f (expected_status f) u = None → ready_with f (expected_status f) u = false).

Abbreviation computes_below := (computes f below True (expected_status f)).

(** From the facts with any such cache that has no entry for [t], [m] runs out
    of fuel. *)
Definition diverges {A} (m : M A) : Prop :=
  ∀ c, coherent below (expected_status f) c → c !! RPT_Name t = None → m (set_SkipCache c f) = Err tt.

Lemma diverges_bind_l {A B} (m : M A) (k : A → M B) : diverges m → diverges (m ≫= k).
Proof. intros Hm c Hc Hn. unfold mbind, M_bind. by rewrite Hm. Qed.

Lemma diverges_bind_r {A B} (m : M A) (k : A → M B) a :
  computes_below m a → diverges (k a) → diverges (m ≫= k).
Proof.
  intros Hm Hk c Hc Hn. unfold mbind, M_bind.
  destruct (Hm c Hc) as [[_ ->]|(c' & Hc' & Ho & ->)]; [done|]. apply Hk; [done|].
  rewrite Ho; [done|]. apply (wf_acyclic f Hwf).
Qed.

Lemma diverges_get {B} (k : PipelineRunFacts → M B) :
  (∀ c, c !! RPT_Name t = None → diverges (k (set_SkipCache c f))) → diverges (get_facts ≫= k).
Proof. intros Hk c Hc Hn. by apply (Hk c Hn c). Qed.

Lemma below_parent x p : below x → parent_of f x p → below p.
Proof. intros Hx Hp. by eapply tc_r. Qed.

Context (Hearly : early_reason f (expected_status f) t = None).
Context (Hready : ready_with f (expected_status f) t = true) (Href : hasResultReferences t = true).
Context (Hcont : PT_OnError (RPT_PipelineTask t) ≠ PipelineTaskContinue).
Context (e : RefError)
  (Hself : ResolveResultRefs (State f) [RPT_PipelineTask t] = (State f, Err (RPT_Name t, e))).

Lemma not_final : isFinalTask f (RPT_Name t) = false.
Proof. revert Hearly. unfold early_reason. by destruct (isFinalTask f (RPT_Name t)). Qed.

Section open_recursion.
Context (Skip_ : receiver → M TaskSkipStatus).
Context (HSkip : ∀ p r u, parent_of f (RPT_Name t) p → denotes f r u → RPT_Name u = p →
  computes_below (Skip_ r) (expected_status f p)).
Context (HSelf : diverges (Skip_ (At i))).

Lemma diverges_missing : diverges (skipBecauseResultReferencesAreMissing Skip_ (At i)).
Proof.
  assert (t ∈ State f) as Ht by by eapply list_elem_of_lookup_2.
  eapply diverges_bind_r; [by apply (computes_checkParentsDone f Hwf _ _ _ Skip_ t Ht HSkip)|].
  eapply diverges_bind_r; [by apply computes_deref|]. rewrite Hready, Href. cbn [andb].
  apply diverges_get. intros c _. cbn [State set_SkipCache]. rewrite Hself.
  eapply diverges_bind_r.
  { apply (computes_pure _ _ _ _ _ tt). intros c'. by destruct f. }
  apply diverges_bind_l. apply diverges_get. intros c' _. cbn [State set_SkipCache].
  assert (ToMap (State f) !! RPT_Name t = Some i) as ->.
  { apply ToMap_Some; [apply Hwf|]. eauto. }
  eapply diverges_bind_r; [by apply computes_deref|]. rewrite bool_decide_false by done.
  eapply diverges_bind_r; [by apply (computes_IsFinalTask f _ _ _ (At i) t)|]. rewrite not_final.
  by apply diverges_bind_l.
Qed.

Lemma diverges_skip_reason : diverges (skip_reason Skip_ (At i)).
Proof.
  assert (t ∈ State f) as Ht by by eapply list_elem_of_lookup_2.
  pose proof not_final as Hfin. generalize Hearly. unfold early_reason at 1. rewrite Hfin. cbn [orb].
  destruct (isScheduled t || isValidationFailed (ValidationFailedTask f) t) eqn:Hs; [done|].
  destruct (IsStopping f) eqn:H1; [done|]. destruct (IsGracefullyCancelled f) eqn:H2; [done|].
  destruct (IsGracefullyStopped f) eqn:H3; [done|].
  destruct (ready_with f (expected_status f) t && negb _) eqn:H4; [done|].
  destruct (existsb _ _) eqn:H5; [done|]. intros _.
  eapply diverges_bind_r; [by apply computes_deref|]. apply diverges_get. intros c _.
  change (isFinalTask (set_SkipCache c f)) with (isFinalTask f).
  change (ValidationFailedTask (set_SkipCache c f)) with (ValidationFailedTask f).
  change (IsStopping (set_SkipCache c f)) with (IsStopping f).
  change (IsGracefullyCancelled (set_SkipCache c f)) with (IsGracefullyCancelled f).
  change (IsGracefullyStopped (set_SkipCache c f)) with (IsGracefullyStopped f).
  rewrite Hfin, Hs, H1, H2, H3. cbn [orb].
  eapply diverges_bind_r; [by apply (computes_when f Hwf _ _ _ Skip_ t Ht HSkip)|]. rewrite H4.
  eapply diverges_bind_r; [by apply (computes_parent_skipped f Hwf _ _ _ Skip_ t Ht HSkip)|]. rewrite H5.
  apply diverges_bind_l, diverges_missing.
Qed.

End open_recursion.

Lemma diverges_Skip fuel : diverges (Skip fuel (At i)).
Proof.
  induction fuel as [|fuel IH]; [done|]. cbn [Skip].
  eapply diverges_bind_r; [by apply computes_deref|]. apply diverges_get. intros c Hn.
  cbn [SkipCache set_SkipCache]. rewrite Hn.
  apply diverges_bind_l, diverges_bind_l, diverges_skip_reason; [|done].
  intros p r u Hp Hr <-. apply computes_Skip_partial; try done.
  - exact below_parent.
  - intros v Hv _. by apply expected_status_solution.
  - by apply tc_once.
Qed.

End diverges.

(** C18: [Skip] need not end.  When a task that may start refers, after the results
    it refers to have been applied, to a result of its own (a task's result may
    hold any text, so also such a reference), [Skip] on it calls itself without
    end: no depth of recursion suffices. *)
Theorem Skip_self_reference_diverges `{MapOrder, SortSlice} f i t e :
  facts_wf f → State f !! i = Some t →
  (∀ u, u ∈ State f → tc (parent_of f) (RPT_Name t) (RPT_Name u) → hasResultReferences u = false) →
  early_reason f (expected_status f) t = None → ready_with f (expected_status f) t = true →
  hasResultReferences t = true → PT_OnError (RPT_PipelineTask t) ≠ PipelineTaskContinue →
  ResolveResultRefs (State f) [RPT_PipelineTask t] = (State f, Err (RPT_Name t, e)) →
  SkipCache f = ∅ →
  ∀ fuel, Skip fuel (At i) f = Err tt.
Proof.
  intros Hwf Hi Hanc Hearly Hready Href Hcont Hself Hc fuel.
  assert (f = set_SkipCache ∅ f) as -> by (rewrite <-Hc; by destruct f).
  apply (diverges_Skip f Hwf i t Hi) with e; try done.
  intros u Hu Hb Hr. by rewrite (Hanc u Hu Hb) in Hr.
Qed.

(** Task b takes the result r of a; a has run and its result is the text of a
    reference to b.  The first call of [Skip] applies it; when the cache is reset,
    as each application of results does, the second call does not end. *)
Definition evil_tasks : list PipelineTask :=
  [simple_task "a" [] []; simple_task "b" [] [string_param "p" "$(tasks.a.results.r)"]].

Definition evil_facts : PipelineRunFacts :=
  facts_of (graph_or_empty (@BuildTasks stdpp_order evil_tasks))
    [resolved 0 (simple_task "a" [] [])
       [task_run "pr-a" "Succeeded" ConditionTrue
          [mkTaskRunResult "r" "string" (NewStructuredValues "$(tasks.b.results.q)" [])]];
     resolved 1 (simple_task "b" [] [string_param "p" "$(tasks.a.results.r)"]) []].

Definition evil_facts_applied : PipelineRunFacts :=
  set_State (alter (set_PipelineTask (simple_task "b" [] [string_param "p" "$(tasks.b.results.q)"])) 1
    (State evil_facts)) evil_facts.

Lemma evil_facts_wf : facts_wf (ResetSkippedCache evil_facts_applied).
Proof.
  apply (@facts_wf_of_Build stdpp_order _ evil_tasks).
  - apply (bool_decide_unpack _). vm_compute. exact I.
  - vm_compute. reflexivity.
  - intros x Hx. exact Hx.
  - intros u Hu. right. apply (list_elem_of_fmap_2 RPT_Name) in Hu. exact Hu.
Qed.

Lemma Skip_self_reference_diverges_witness :
  (∃ cache, @Skip stdpp_order merge_sort_order 3 (At 1) evil_facts
    = Ret (mkSkip false NoSkip, set_SkipCache cache evil_facts_applied)) ∧
  ∀ fuel, @Skip stdpp_order merge_sort_order fuel (At 1) (ResetSkippedCache evil_facts_applied) = Err tt.
Proof.
  split; [eexists; vm_compute; reflexivity|]. intros fuel.
  apply (@Skip_self_reference_diverges stdpp_order merge_sort_order
    (ResetSkippedCache evil_facts_applied) 1
    (resolved 1 (simple_task "b" [] [string_param "p" "$(tasks.b.results.q)"]) []) (TaskNotFinished "b")).
  - exact evil_facts_wf.
  - reflexivity.
  - intros u Hu Hb. change (State (ResetSkippedCache evil_facts_applied)) with (State evil_facts_applied) in Hu.
    apply elem_of_cons in Hu as [-> |Hu%list_elem_of_singleton]; [vm_compute; reflexivity|].
    subst u. destruct (wf_acyclic _ evil_facts_wf "b" Hb).
  - vm_compute. reflexivity.
  - vm_compute. reflexivity.
  - vm_compute. reflexivity.
  - vm_compute. discriminate.
  - vm_compute. reflexivity.
  - reflexivity.
Defined.
