(* ===== verification/ValidateDependencies.v ===== *)
(** * Checks on a resolved pipeline

    [pkg/reconciler/pipelinerun/resources/validate_dependencies.go]: the result
    references of tasks and of pipeline results name declared results, and
    optional workspaces go to tasks that accept that. *)
From S2P Require Import Prelude GoStrings Json Regex Substitution SubstitutionSpec ResultRef Params When Matrix.
From S2P Require Import Runs Dag PipelineTasks ResolvedTasks ResultRefResolution Apply Skip SkipSpec.

Inductive DependencyError :=
| UnknownTask (task : string)
| NoTaskSpec (task : string)
| NotAResult (result task : string).

Section validate.
Context `{MapOrder}.

(** [validateResultRef] for one reference, on the map of the tasks. *)
Definition validateResultRef (state : PipelineRunState) (ref : ResultRef) : outcome DependencyError unit :=
  match i ← ToMap state !! Ref_PipelineTask ref; state !! i with
  | None => Err (UnknownTask (Ref_PipelineTask ref))
  | Some rpt =>
      if RPT_CustomTask rpt then Ret tt
      else
        match RPT_ResolvedTask rpt with
        | None => Err (NoTaskSpec (Ref_PipelineTask ref))
        | Some rt =>
            if bool_decide (Ref_Result ref ∈ TaskSpec_Results (ResolvedTask_TaskSpec rt)) then Ret tt
            else Err (NotAResult (Ref_Result ref) (Ref_PipelineTask ref))
        end
  end.

(** An error names the task or result the reference is in. *)
Definition within {E A} (name : string) (o : outcome E A) : outcome (string * E) A :=
  match o with Ret a => Ret a | Err e => Err (name, e) | Panic => Panic end.

Definition ValidatePipelineTaskResults (state : PipelineRunState) : outcome (string * DependencyError) unit :=
  ofold (λ _ rpt,
    ofold (λ _ ref, within (RPT_Name rpt) (validateResultRef state ref))
      (PipelineTaskResultRefs (RPT_PipelineTask rpt)) tt) state tt.

(** The results of the pipeline are names and values. *)
Definition ValidatePipelineResults (results : list Param) (state : PipelineRunState)
    : outcome (string * DependencyError) unit :=
  ofold (λ _ result,
    ofold (λ _ ref, within (Param_Name result) (validateResultRef state ref))
      (NewResultRefs (PipelineResult_expressions result)) tt) results tt.

(** The error names the pipeline's workspace and the task. *)
Definition ValidateOptionalWorkspaces (pipelineWorkspaces : list WorkspaceDeclaration) (state : PipelineRunState)
    : outcome (string * string) unit :=
  let optionalWorkspaces : gset string :=
    list_to_set (WorkspaceDecl_Name <$> filter (λ ws, WorkspaceDecl_Optional ws = true) pipelineWorkspaces) in
  ofold (λ _ rpt,
    ofold (λ _ pws,
      match RPT_ResolvedTask rpt with
      | None => Ret tt
      | Some rt =>
          if bool_decide (PTWorkspace_Workspace pws ∈ optionalWorkspaces) then
            ofold (λ _ tws,
              if bool_decide (WorkspaceDecl_Name tws = PTWorkspace_Name pws) && negb (WorkspaceDecl_Optional tws)
              then Err (PTWorkspace_Workspace pws, RPT_Name rpt) else Ret tt)
              (TaskSpec_Workspaces (ResolvedTask_TaskSpec rt)) tt
          else Ret tt
      end) (PT_Workspaces (RPT_PipelineTask rpt)) tt) state tt.

(** ** What they check *)

(** A loop that only checks succeeds when each check does. *)
Lemma ofold_check {E A} (check : A → outcome E unit) xs :
  ofold (λ _ x, check x) xs tt = Ret tt ↔ Forall (λ x, check x = Ret tt) xs.
Proof.
  induction xs as [|x xs IH]; cbn [ofold]; [by split|]. rewrite Forall_cons.
  destruct (check x) as [[]|e|]; cbn [obind]; rewrite ?IH; split; try done; by intros [? ?].
Qed.

Lemma within_Ret {E A} name (o : outcome E A) a : within name o = Ret a ↔ o = Ret a.
Proof. destruct o; naive_solver. Qed.

End validate.

(** A reference is to a custom task or to a result its task declares. *)
Definition declared (state : PipelineRunState) (ref : ResultRef) : Prop :=
  ∃ t, t ∈ state ∧ RPT_Name t = Ref_PipelineTask ref ∧
    (RPT_CustomTask t = true ∨
     ∃ rt, RPT_ResolvedTask t = Some rt ∧ Ref_Result ref ∈ TaskSpec_Results (ResolvedTask_TaskSpec rt)).

Lemma validateResultRef_Ret state ref : NoDup (RPT_Name <$> state) →
  validateResultRef state ref = Ret tt ↔ declared state ref.
Proof.
  intros Hnd. unfold validateResultRef, declared.
  destruct (ToMap state !! Ref_PipelineTask ref) as [i|] eqn:Ei; cbn [mbind option_bind].
  - apply ToMap_Some in Ei as (t & Hi & Hname); [|done]. rewrite Hi.
    assert (∀ u, u ∈ state → RPT_Name u = Ref_PipelineTask ref → u = t) as Huniq.
    { intros u [j Hj]%list_elem_of_lookup Hu. assert (i = j) as <-; [|congruence].
      apply (NoDup_lookup _ i j (Ref_PipelineTask ref) Hnd); rewrite list_lookup_fmap, ?Hi, ?Hj; cbn; congruence. }
    apply list_elem_of_lookup_2 in Hi. split.
    + intros E. exists t. split_and!; [done..|].
      destruct (RPT_CustomTask t); [by left|right]. destruct (RPT_ResolvedTask t) as [rt|]; [|done].
      exists rt. by case_bool_decide.
    + intros (u & Hu & Hun & Hor). rewrite (Huniq u Hu Hun) in Hor.
      destruct Hor as [-> |(rt & -> & Hr)]; [done|]. destruct (RPT_CustomTask t); [done|].
      by rewrite bool_decide_true.
  - split; [done|]. intros (t & [i Hi]%list_elem_of_lookup & Hname & _).
    assert (ToMap state !! Ref_PipelineTask ref = Some i) by (apply ToMap_Some; [done|by exists t]). congruence.
Qed.

(** C22: [ValidatePipelineTaskResults] accepts a resolved pipeline exactly when every
    result reference of every task, in its parameters, matrix, guards and embedded
    steps, names a task of the pipeline that is custom or declares that result. *)
Theorem ValidatePipelineTaskResults_iff `{MapOrder} state : NoDup (RPT_Name <$> state) →
  ValidatePipelineTaskResults state = Ret tt ↔
  ∀ t ref, t ∈ state → ref ∈ PipelineTaskResultRefs (RPT_PipelineTask t) → declared state ref.
Proof.
  intros Hnd. unfold ValidatePipelineTaskResults. rewrite ofold_check, Forall_forall.
  setoid_rewrite ofold_check. setoid_rewrite Forall_forall. setoid_rewrite within_Ret.
  setoid_rewrite (λ ref, validateResultRef_Ret state ref Hnd). naive_solver.
Qed.

Lemma ValidatePipelineTaskResults_iff_witness :
  @ValidatePipelineTaskResults stdpp_order (State evil_facts) ≠ Ret tt.
Proof.
  intros E. apply (@ValidatePipelineTaskResults_iff stdpp_order (State evil_facts)) with
    (t := resolved 1 (simple_task "b" [] [string_param "p" "$(tasks.a.results.r)"]) [])
    (ref := mkResultRef "a" "r" None "") in E.
  - destruct E as (t & Ht & Hn & [Hc|(rt & Hrt & Hr)]);
      apply elem_of_cons in Ht as [-> |Ht%list_elem_of_singleton]; subst; try discriminate.
    injection Hrt as <-. by apply elem_of_nil in Hr.
  - apply (bool_decide_unpack _). vm_compute. exact I.
  - right. left.
  - apply (bool_decide_unpack _). vm_compute. exact I.
Defined.
