(* ===== verification/PipelineRunState.v ===== *)
(** * The state of a PipelineRun

    [pkg/reconciler/pipelinerun/resources/pipelinerunstate.go]: what runs next,
    how the tasks are counted, the condition of the PipelineRun, and the status
    variables of its tasks.  [GetTaskRunsArtifacts] is left out with the
    artifacts. *)
From S2P Require Import Prelude GoStrings Json Regex Substitution SubstitutionSpec ResultRef Params When Matrix.
From S2P Require Import Runs Dag PipelineTasks ResolvedTasks ResultRefResolution Apply Skip.

(** ** Durations in messages *)

(** [time.Duration.String] of the Go standard library: a fraction with its
    trailing zeros dropped. *)
Fixpoint fmtFrac (prec : nat) (v : Z) (text : string) : string * Z :=
  match prec with
  | O => (text, v)
  | S prec =>
      let digit := (v mod 10)%Z in
      let text := if bool_decide (digit = 0)%Z && bool_decide (text = "") then "" else Itoa digit +:+ text in
      fmtFrac prec (v / 10)%Z text
  end.

Definition fraction (prec : nat) (v : Z) : string * Z :=
  let '(text, v) := fmtFrac prec v "" in
  (if bool_decide (text = "") then "" else "." +:+ text, v).

Definition Duration_String (d : Z) : string :=
  let u := Z.abs d in
  let sign := if bool_decide (d < 0)%Z then "-" else "" in
  if bool_decide (u < 10 ^ 9)%Z then
    if bool_decide (u = 0)%Z then "0s"
    else
      let '(prec, unit) :=
        if bool_decide (u < 1000)%Z then (0, "ns")
        else if bool_decide (u < 1000000)%Z then (3, bytes [194; 181]%N +:+ "s") else (6, "ms") in
      let '(frac, v) := fraction prec u in sign +:+ Itoa v +:+ frac +:+ unit
  else
    let '(frac, v) := fraction 9 u in
    let seconds := Itoa (v mod 60)%Z +:+ frac +:+ "s" in
    let m := (v / 60)%Z in
    let minutes := if bool_decide (0 < m)%Z then Itoa (m mod 60)%Z +:+ "m" else "" in
    let h := (m / 60)%Z in
    sign +:+ (if bool_decide (0 < h)%Z then Itoa h +:+ "h" else "") +:+ minutes +:+ seconds.

(** ** Questions about the tasks *)

Definition IsBeforeFirstTaskRun (state : PipelineRunState) : bool :=
  forallb (λ t, bool_decide (length (RPT_CustomRuns t) = 0) && bool_decide (length (RPT_TaskRuns t) = 0)) state.

(** [AdjustStartTime]: nil with a run to compare with is a nil dereference. *)
Definition adjust (start : option Z) (creation : Z) : outcome Empty_set (option Z) :=
  match start with
  | None => Panic
  | Some s => Ret (Some (if bool_decide (creation < s)%Z then creation else s))
  end.

Definition creation_times (rpt : ResolvedPipelineTask) : list Z :=
  (CustomRun_CreationTimestamp <$> RPT_CustomRuns rpt) ++ (TaskRun_CreationTimestamp <$> RPT_TaskRuns rpt).

Definition AdjustStartTime (state : PipelineRunState) (unadjustedStartTime : option Z)
    : outcome Empty_set (option Z) :=
  ofold adjust (state ≫= creation_times) unadjustedStartTime.

Section results.
Context `{MapOrder}.

Definition ConvertResultsMapToTaskRunResults (resultsMap : gmap string (list string)) : list TaskRunResult :=
  (λ '(result, val), mkTaskRunResult result ParamTypeArray (mkParamValue ParamTypeArray "" val ∅))
    <$> range_map resultsMap.

Definition GetTaskRunsResults (state : PipelineRunState) : outcome Empty_set (gmap string (list TaskRunResult)) :=
  ofold (λ results rpt,
    if IsCustomTask rpt then Ret results
    else if negb (isSuccessful rpt) then Ret results
    else if IsMatrixed (RPT_PipelineTask rpt) then
      match ConvertResultsMapToTaskRunResults (RPT_ResultsCache rpt) with
      | [] => Ret results
      | taskRunResults => Ret (<[RPT_Name rpt := taskRunResults]> results)
      end
    else
      match RPT_TaskRuns rpt with
      | [] => Panic
      | tr :: _ => Ret (<[RPT_Name rpt := TaskRun_Results tr]> results)
      end) state ∅.

Definition GetRunsResults (state : PipelineRunState) : gmap string (list CustomRunResult) :=
  foldl (λ results rpt,
    if negb (IsCustomTask rpt) then results
    else if negb (isSuccessful rpt) then results
    else match RPT_CustomRuns rpt with
         | [cr] => <[RPT_Name rpt := CustomRun_Results cr]> results
         | _ => results
         end) ∅ state.

(** ** Child references *)

Definition display_replacements (params : Params) : gmap string string :=
  foldl (λ m p, if bool_decide (Type_ (Param_Value p) = ParamTypeString)
                then <[ParamsPrefix +:+ "." +:+ Param_Name p := StringVal (Param_Value p)]> m else m) ∅ params.

Definition include_matches (replacements : gmap string string) (i : IncludeParams) : bool :=
  forallb (λ ip,
    match replacements !! (ParamsPrefix +:+ "." +:+ Param_Name ip) with
    | None => false
    | Some v => negb (bool_decide (Type_ (Param_Value ip) = ParamTypeString) &&
                      negb (bool_decide (StringVal (Param_Value ip) = v)))
    end) (Include_Params i).

(** [getDisplayName] with the parameters of the run. *)
Definition getDisplayName (pt : PipelineTask) (params : Params) : string :=
  let replacements := display_replacements params in
  let displayName :=
    if bool_decide (PT_DisplayName pt ≠ "")
    then Substitution.ApplyReplacements (PT_DisplayName pt) replacements else "" in
  match PT_Matrix pt with
  | None => displayName
  | Some m =>
      let dn := foldl (λ dn i,
        if bool_decide (Include_Name i = "") then dn
        else if include_matches replacements i
        then dn +:+ " " +:+ Substitution.ApplyReplacements (Include_Name i) replacements
        else dn) "" (Include m) in
      if bool_decide (dn ≠ "") then TrimSpace dn else displayName
  end.

Definition getChildRefForRun (t : ResolvedPipelineTask) (customRun : CustomRun) : ChildStatusReference :=
  mkChildRef "tekton.dev/v1beta1" CustomRunControllerName (CustomRun_Name customRun)
    (getDisplayName (RPT_PipelineTask t) (CustomRun_Params customRun)) (RPT_Name t)
    (PT_When (RPT_PipelineTask t)).

Definition getChildRefForTaskRun (t : ResolvedPipelineTask) (taskRun : TaskRun) : ChildStatusReference :=
  mkChildRef "tekton.dev/v1" TaskRunControllerName (TaskRun_Name taskRun)
    (getDisplayName (RPT_PipelineTask t) (TaskRun_Params taskRun)) (RPT_Name t)
    (PT_When (RPT_PipelineTask t)).

Definition child_refs_of (t : ResolvedPipelineTask) : list ChildStatusReference :=
  match RPT_TaskRuns t with
  | [] => getChildRefForRun t <$> RPT_CustomRuns t
  | trs => getChildRefForTaskRun t <$> trs
  end.

End results.

Section state.
Context `{MapOrder, SortSlice}.

(** [for _, x := range xs { acc = append(acc, body(x)...) }]. *)
Fixpoint collect {A B} (body : A → M (list B)) (xs : list A) : M (list B) :=
  match xs with
  | [] => mret []
  | x :: xs => ys ← body x; rest ← collect body xs; mret (ys ++ rest)
  end.

(** [GetChildReferences]: the results a finished task refers to are applied to
    every task of the state. *)
Definition GetChildReferences (fuel : nat) : M (list ChildStatusReference) :=
  f ← get_facts;
  collect (λ i,
    d ← isDone fuel i;
    _ ← (if d : bool then
           t ← deref (At i);
           f ← get_facts;
           let '(state, resolved) := ResolveResultRefs (State f) [RPT_PipelineTask t] in
           _ ← modify_facts (set_State state);
           match resolved with
           | Ret refs => modify_facts (λ f, set_State (ApplyTaskResults refs (State f)) f)
           | Err _ => mret tt
           | Panic => panic
           end
         else mret tt);
    t ← deref (At i);
    mret (child_refs_of t)) (positions f).

(** ** What runs next *)

(** [getNextTasks], as positions in the state. *)
Definition getNextTasks (state : PipelineRunState) (candidateTasks : gset string) : list nat :=
  omap (λ '(i, t),
    if bool_decide (RPT_Name t ∈ candidateTasks) && bool_decide (length (RPT_TaskRuns t) = 0) &&
       bool_decide (length (RPT_CustomRuns t) = 0)
    then Some i else None) (imap pair state).

(** [completedOrSkippedDAGTasks]. *)
Definition completedOrSkippedDAGTasks (fuel : nat) : M (list string) :=
  f ← get_facts;
  collect (λ i,
    t ← deref (At i);
    f ← get_facts;
    if isDAGTask f (RPT_Name t) then
      d ← isDone fuel i; mret (if d : bool then [RPT_Name t] else [])
    else mret []) (positions f).

(** [DAGExecutionQueue]: the error of [GetCandidateTasks] is a value here. *)
Definition DAGExecutionQueue (fuel : nat) : M (outcome DagError (list nat)) :=
  f ← get_facts;
  if IsCancelled f || IsGracefullyCancelled f then mret (Ret [])
  else
    completed ← completedOrSkippedDAGTasks fuel;
    f ← get_facts;
    match GetCandidateTasks (TasksGraph f) completed with
    | Err e => mret (Err e)
    | Panic => panic
    | Ret candidateTasks =>
        if negb (IsStopping f) && negb (IsGracefullyStopped f)
        then mret (Ret (getNextTasks (State f) candidateTasks)) else mret (Ret [])
    end.

Definition GetFinalTaskNames (f : PipelineRunFacts) : gset string :=
  list_to_set (filter (λ n, isFinalTask f n = true) (RPT_Name <$> State f)).

Definition GetTaskNames (f : PipelineRunFacts) : gset string :=
  list_to_set (filter (λ n, isFinalTask f n = false) (RPT_Name <$> State f)).

Definition GetFinalTasks (fuel : nat) : M (list nat) :=
  d ← checkDAGTasksDone fuel;
  if d : bool then f ← get_facts; mret (getNextTasks (State f) (GetFinalTaskNames f))
  else mret [].

Definition IsFinalTaskStarted (fuel : nat) : M bool :=
  d ← checkDAGTasksDone fuel;
  if d : bool then
    f ← get_facts;
    mret (existsb (λ t, isFinalTask f (RPT_Name t) && isScheduled t) (State f))
  else mret false.

(** ** Counting *)

Record pipelineRunStatusCount := mkCount {
  Count_Skipped : Z;
  Count_Succeeded : Z;
  Count_Failed : Z;
  Count_IgnoredFailed : Z;
  Count_Cancelled : Z;
  Count_Incomplete : Z;
  Count_SkippedDueToTimeout : Z;
  Count_ValidationFailed : Z
}.

(** The counters a task adds to, in the order of the cases. *)
Inductive tally :=
| TallySucceeded | TallyFailed | TallyCancelled | TallyIgnoredFailed | TallyValidationFailed
| TallySkippedDueToTimeout | TallySkipped | TallyIncomplete.

#[export] Instance tally_eq_dec : EqDecision tally.
Proof. solve_decision. Defined.

(** The case of the switch of [getPipelineTasksCount] a task falls in. *)
Definition tally_of (fuel : nat) (i : nat) : M tally :=
  t ← deref (At i);
  f ← get_facts;
  if isSuccessful t then mret TallySucceeded
  else if isCancelledForTimeOut t then mret TallyFailed
  else if isCancelled t then mret TallyCancelled
  else if isFailure t then
    if bool_decide (PT_OnError (RPT_PipelineTask t) = PipelineTaskContinue)
    then mret TallyIgnoredFailed else mret TallyFailed
  else if isValidationFailed (ValidationFailedTask f) t then mret TallyValidationFailed
  else
    s ← Skip fuel (At i);
    if bool_decide (Reason s = PipelineTimedOutSkip) then mret TallySkippedDueToTimeout else
    s ← Skip fuel (At i);
    if bool_decide (Reason s = TasksTimedOutSkip) then mret TallySkippedDueToTimeout else
    s ← IsFinallySkipped fuel (At i);
    if bool_decide (Reason s = FinallyTimedOutSkip) then mret TallySkippedDueToTimeout else
    s ← Skip fuel (At i);
    if IsSkipped s then mret TallySkipped else
    s ← IsFinallySkipped fuel (At i);
    if IsSkipped s then mret TallySkipped else
    mret TallyIncomplete.

(** What the case does to the counters. *)
Definition bump (s : pipelineRunStatusCount) (c : tally) : pipelineRunStatusCount :=
  let '(mkCount skipped succeeded failed ignored cancelled incomplete timeout validation) := s in
  match c with
  | TallySucceeded => mkCount skipped (succeeded + 1) failed ignored cancelled incomplete timeout validation
  | TallyFailed => mkCount skipped succeeded (failed + 1) ignored cancelled incomplete timeout validation
  | TallyCancelled => mkCount skipped succeeded failed ignored (cancelled + 1) incomplete timeout validation
  | TallyIgnoredFailed => mkCount skipped succeeded failed (ignored + 1) cancelled incomplete timeout validation
  | TallyValidationFailed => mkCount skipped succeeded failed ignored cancelled incomplete timeout (validation + 1)
  | TallySkippedDueToTimeout => mkCount (skipped + 1) succeeded failed ignored cancelled incomplete (timeout + 1) validation
  | TallySkipped => mkCount (skipped + 1) succeeded failed ignored cancelled incomplete timeout validation
  | TallyIncomplete => mkCount skipped succeeded failed ignored cancelled (incomplete + 1) timeout validation
  end%Z.

(** [for _, x := range xs { acc = body(acc, x) }]. *)
Fixpoint fold_of {A S} (body : S → A → M S) (xs : list A) (acc : S) : M S :=
  match xs with
  | [] => mret acc
  | x :: xs => acc ← body acc x; fold_of body xs acc
  end.

Definition getPipelineTasksCount (fuel : nat) : M pipelineRunStatusCount :=
  f ← get_facts;
  fold_of (λ s i, c ← tally_of fuel i; mret (bump s c)) (positions f) (mkCount 0 0 0 0 0 0 0 0).

(** ** The condition of the PipelineRun *)

(** Reading the message: [fmt.Sprintf] with [%d]. *)
Definition completed_message (s : pipelineRunStatusCount) : string :=
  let cmTasks := (Count_Succeeded s + Count_Failed s + Count_Cancelled s + Count_IgnoredFailed s)%Z in
  let totalFailedTasks := (Count_Failed s + Count_IgnoredFailed s)%Z in
  (if bool_decide (0 < Count_IgnoredFailed s)%Z
   then "Tasks Completed: " +:+ Itoa cmTasks +:+ " (Failed: " +:+ Itoa totalFailedTasks +:+ " (Ignored: " +:+
        Itoa (Count_IgnoredFailed s) +:+ "), Cancelled " +:+ Itoa (Count_Cancelled s) +:+ "), Skipped: " +:+
        Itoa (Count_Skipped s)
   else "Tasks Completed: " +:+ Itoa cmTasks +:+ " (Failed: " +:+ Itoa totalFailedTasks +:+ ", Cancelled " +:+
        Itoa (Count_Cancelled s) +:+ "), Skipped: " +:+ Itoa (Count_Skipped s)) +:+
  (if bool_decide (0 < Count_ValidationFailed s)%Z
   then ", Failed Validation: " +:+ Itoa (Count_ValidationFailed s) else "").

Definition running_message (s : pipelineRunStatusCount) : string :=
  let cmTasks := (Count_Succeeded s + Count_Failed s + Count_Cancelled s + Count_IgnoredFailed s)%Z in
  "Tasks Completed: " +:+ Itoa cmTasks +:+ " (Failed: " +:+ Itoa (Count_Failed s) +:+ ", Cancelled " +:+
  Itoa (Count_Cancelled s) +:+ "), Incomplete: " +:+ Itoa (Count_Incomplete s) +:+ ", Skipped: " +:+
  Itoa (Count_Skipped s).

Definition PipelineRunReasonRunning := "Running".
Definition PipelineRunReasonSuccessful := "Succeeded".
Definition PipelineRunReasonCompleted := "Completed".
Definition PipelineRunReasonFailed := "Failed".
Definition PipelineRunReasonCancelled := "Cancelled".
Definition PipelineRunReasonStopping := "PipelineRunStopping".
Definition PipelineRunReasonCancelledRunningFinally := "CancelledRunningFinally".
Definition PipelineRunReasonStoppedRunningFinally := "StoppedRunningFinally".
Definition PipelineRunReasonFailedValidation := "PipelineValidationFailed".

(** No task is incomplete. *)
Definition completed_condition (s : pipelineRunStatusCount) (pr : PipelineRun) : Condition :=
  let message := completed_message s in
  if bool_decide (0 < Count_ValidationFailed s)%Z
  then mkCondition ConditionSucceeded ConditionFalse PipelineRunReasonFailedValidation message
  else if bool_decide (0 < Count_Failed s)%Z || bool_decide (0 < Count_SkippedDueToTimeout s)%Z
  then mkCondition ConditionSucceeded ConditionFalse PipelineRunReasonFailed message
  else if PipelineRun_IsGracefullyCancelled pr || PipelineRun_IsGracefullyStopped pr
  then mkCondition ConditionSucceeded ConditionFalse PipelineRunReasonCancelled
         ("PipelineRun " +:+ Quote (PipelineRun_Name pr) +:+ " was cancelled")
  else if bool_decide (0 < Count_Cancelled s)%Z
  then mkCondition ConditionSucceeded ConditionFalse PipelineRunReasonCancelled message
  else mkCondition ConditionSucceeded ConditionTrue
         (if bool_decide (0 < Count_Skipped s)%Z then PipelineRunReasonCompleted else PipelineRunReasonSuccessful)
         message.

(** [GetPipelineConditionStatus]. *)
Definition GetPipelineConditionStatus (fuel : nat) (defaultMinutes now : Z) (pr : PipelineRun) : M Condition :=
  if PipelineRun_HasTimedOut defaultMinutes now pr then
    mret (mkCondition ConditionSucceeded ConditionFalse PipelineRunReasonTimedOut
      ("PipelineRun " +:+ Quote (PipelineRun_Name pr) +:+ " failed to finish within " +:+
       Quote (Duration_String (PipelineRun_PipelineTimeout defaultMinutes pr))))
  else
    s ← getPipelineTasksCount fuel;
    if bool_decide (Count_Incomplete s = 0%Z) then mret (completed_condition s pr)
    else
      reason ←
        (if PipelineRun_IsGracefullyCancelled pr then mret PipelineRunReasonCancelledRunningFinally
         else if PipelineRun_IsGracefullyStopped pr then mret PipelineRunReasonStoppedRunningFinally
         else if bool_decide (0 < Count_Cancelled s)%Z then mret PipelineRunReasonStopping
         else if bool_decide (0 < Count_Failed s)%Z then
           finals ← checkFinalTasksDone fuel;
           mret (if finals : bool then PipelineRunReasonStopping else PipelineRunReasonRunning)
         else mret PipelineRunReasonRunning);
      mret (mkCondition ConditionSucceeded ConditionUnknown reason (running_message s)).

(** ** Skipped tasks *)

Record SkippedTask := mkSkippedTask {
  SkippedTask_Name : string;
  SkippedTask_Reason : SkippingReason;
  SkippedTask_WhenExpressions : WhenExpressions
}.

(** [GetSkippedTasks], with every call the code makes. *)
Definition GetSkippedTasks (fuel : nat) : M (list SkippedTask) :=
  f ← get_facts;
  collect (λ i,
    s ← Skip fuel (At i);
    skipped ←
      (if IsSkipped s then
         s ← Skip fuel (At i); t ← deref (At i);
         mret [mkSkippedTask (RPT_Name t) (Reason s) (PT_When (RPT_PipelineTask t))]
       else mret []);
    s ← IsFinallySkipped fuel (At i);
    finallySkipped ←
      (if IsSkipped s then
         s1 ← IsFinallySkipped fuel (At i);
         s2 ← IsFinallySkipped fuel (At i);
         t ← deref (At i);
         mret [mkSkippedTask (RPT_Name t) (Reason s1)
                 (if bool_decide (Reason s2 = WhenExpressionsSkip) then PT_When (RPT_PipelineTask t) else [])]
       else mret []);
    mret (skipped ++ finallySkipped)) (positions f).

(** ** Status variables *)

Definition PipelineTaskStateNone := "None".
Definition PipelineTaskStatusPrefix := "tasks.".
Definition PipelineTaskStatusSuffix := ".status".
Definition PipelineTaskReasonSuffix := ".reason".
Definition PipelineTasksAggregateStatus := "tasks.status".

Definition task_status (t : ResolvedPipelineTask) : string :=
  if isSuccessful t then TaskRunReasonSuccessful
  else if haveAnyRunsFailed t then TaskRunReasonFailed
  else PipelineTaskStateNone.

(** The aggregate over the tasks of the graph, from the position on. *)
Fixpoint aggregate (fuel : nat) (ps : list nat) (status : string) : M string :=
  match ps with
  | [] => mret status
  | i :: ps =>
      t ← deref (At i);
      f ← get_facts;
      if isDAGTask f (RPT_Name t) then
        if (negb (IsCustomTask t) && haveAnyTaskRunsFailed t) || (IsCustomTask t && haveAnyCustomRunsFailed t)
        then mret PipelineRunReasonFailed
        else
          s ← Skip fuel (At i);
          aggregate fuel ps (if IsSkipped s then PipelineRunReasonCompleted else status)
      else aggregate fuel ps status
  end.

Definition GetPipelineTaskStatus (fuel : nat) : M (gmap string string) :=
  f ← get_facts;
  let tStatus := foldl (λ m t,
    if isDAGTask f (RPT_Name t) then
      <[PipelineTaskStatusPrefix +:+ RPT_Name t +:+ PipelineTaskReasonSuffix := getReason t]>
        (<[PipelineTaskStatusPrefix +:+ RPT_Name t +:+ PipelineTaskStatusSuffix := task_status t]> m)
    else m) ∅ (State f) in
  d ← checkDAGTasksDone fuel;
  f ← get_facts;
  aggregateStatus ←
    (if d : bool then aggregate fuel (positions f) PipelineRunReasonSuccessful
     else mret PipelineTaskStateNone);
  mret (<[PipelineTasksAggregateStatus := aggregateStatus]> tStatus).

Definition GetPipelineFinalTaskStatus (f : PipelineRunFacts) : gmap string string :=
  foldl (λ m t,
    if isFinalTask f (RPT_Name t) then
      <[PipelineTaskStatusPrefix +:+ RPT_Name t +:+ PipelineTaskStatusSuffix := task_status t]> m
    else m) ∅ (State f).

End state.
