(* ===== verification/PipelineRunStateSpec.v ===== *)
(** * What the state of a PipelineRun says

    On the facts of the previous file ([facts_wf], [settled]) the loops over the
    state compute plain functions of the statuses the specification of [Skip]
    gives: the counts, the condition of the PipelineRun, and the queue of the
    tasks to start. *)
From S2P Require Import Prelude GoStrings Json Regex Substitution SubstitutionSpec ResultRef Params When Matrix.
From S2P Require Import Runs Dag DagCycles DagBuild DagSchedule PipelineTasks ResolvedTasks ResultRefResolution.
From S2P Require Import Apply Skip SkipSpec PipelineRunState.

(** ** The specification *)

Section spec.
Context `{MapOrder} (f : PipelineRunFacts).

Abbreviation status := (expected_status f).

Definition task_done (t : ResolvedPipelineTask) : bool := done_with f (status (RPT_Name t)) t.

Definition graph_done (d : Graph) : bool :=
  forallb (λ t, if isTaskInGraph (RPT_Name t) d then task_done t else true) (State f).

(** The reason a finally task is skipped for, when all its results are there. *)
Definition final_reason (t : ResolvedPipelineTask) : SkippingReason :=
  let ts := TimeoutsState f in
  if isScheduled t then NoSkip
  else if graph_done (TasksGraph f) && isFinalTask f (RPT_Name t) then
    if negb (AllowsExecution (PT_When (RPT_PipelineTask t)) (RPT_EvaluatedCEL t)) then WhenExpressionsSkip
    else if timeout_reached (TS_StartTime ts) (TS_PipelineTimeout ts) (TS_Now ts) then PipelineTimedOutSkip
    else if timeout_reached (TS_FinallyStartTime ts) (TS_FinallyTimeout ts) (TS_Now ts) then FinallyTimedOutSkip
    else if skipBecauseEmptyArrayInMatrixParams t then EmptyArrayInMatrixParams
    else NoSkip
  else NoSkip.

(** The counter a task is counted in. *)
Definition expected_tally (t : ResolvedPipelineTask) : tally :=
  if isSuccessful t then TallySucceeded
  else if isCancelledForTimeOut t then TallyFailed
  else if isCancelled t then TallyCancelled
  else if isFailure t then
    if bool_decide (PT_OnError (RPT_PipelineTask t) = PipelineTaskContinue) then TallyIgnoredFailed else TallyFailed
  else if isValidationFailed (ValidationFailedTask f) t then TallyValidationFailed
  else if bool_decide (Reason (status (RPT_Name t)) = PipelineTimedOutSkip) ||
          (bool_decide (Reason (status (RPT_Name t)) = TasksTimedOutSkip) ||
           bool_decide (final_reason t = FinallyTimedOutSkip))
  then TallySkippedDueToTimeout
  else if IsSkipped (status (RPT_Name t)) then TallySkipped
  else if IsSkipped (skip_status (final_reason t)) then TallySkipped
  else TallyIncomplete.

(** A finally task that may start has no results left to be applied. *)
Definition finals_settled : Prop :=
  ∀ t, t ∈ State f → isFinalTask f (RPT_Name t) = true → hasResultReferences t = true →
    isScheduled t = true ∨ graph_done (TasksGraph f) = false.

Definition counts : pipelineRunStatusCount :=
  foldl bump (mkCount 0 0 0 0 0 0 0 0) (expected_tally <$> State f).

End spec.

(** ** Loops over the state *)

Section loops.
Context `{MapOrder, SortSlice} (f : PipelineRunFacts) (Hwf : facts_wf f) (Hset : settled f).
Context (fuel : nat) (Hfuel : size (Nodes (TasksGraph f)) < fuel).

Abbreviation gives m a := (computes f (λ _, True) False (expected_status f) m a).

Lemma positions_state (R : nat → ResolvedPipelineTask → Prop) :
  (∀ i t, State f !! i = Some t → R i t) → Forall2 R (positions f) (State f).
Proof.
  intros HR. apply Forall2_same_length_lookup_2; [apply length_seq|].
  intros k i t Hk Ht. apply lookup_seq in Hk as [-> _]. by apply HR.
Qed.

Lemma gives_all_of {A B} (body : A → M bool) (g : B → bool) xs ys :
  Forall2 (λ x y, gives (body x) (g y)) xs ys → gives (all_of body xs) (forallb g ys).
Proof.
  induction 1 as [|x y xs ys Hxy _ IH]; cbn [all_of forallb]; [apply computes_ret|].
  eapply computes_bind; [exact Hxy|]. destruct (g y); [done|apply computes_ret].
Qed.

Lemma gives_collect {A B C} (body : A → M (list C)) (g : B → list C) xs ys :
  Forall2 (λ x y, gives (body x) (g y)) xs ys → gives (collect body xs) (ys ≫= g).
Proof.
  induction 1 as [|x y xs ys Hxy _ IH]; [apply computes_ret|]. cbn [collect].
  eapply computes_bind; [exact Hxy|]. eapply computes_bind; [exact IH|apply computes_ret].
Qed.

Lemma gives_fold_of {A B S} (body : S → A → M S) (g : S → B → S) xs ys acc :
  Forall2 (λ x y, ∀ acc, gives (body acc x) (g acc y)) xs ys → gives (fold_of body xs acc) (foldl g acc ys).
Proof.
  intros Hf. revert acc. induction Hf as [|x y xs ys Hxy _ IH]; intros acc; [apply computes_ret|].
  cbn [fold_of foldl]. eapply computes_bind; [apply Hxy|apply IH].
Qed.

Lemma gives_Skip i t : State f !! i = Some t → gives (Skip fuel (At i)) (expected_status f (RPT_Name t)).
Proof. intros Hi. by apply computes_Skip_all. Qed.

Lemma gives_isDone i t : State f !! i = Some t → gives (isDone fuel i) (task_done f t).
Proof.
  intros Hi. apply computes_isDone_; [done|]. apply computes_Skip_all; [done..|].
  split; [done|by eapply list_elem_of_lookup_2].
Qed.

Lemma gives_checkTasksDone d : gives (checkTasksDone fuel d) (graph_done f d).
Proof.
  apply computes_get. intros c _. change (positions (set_SkipCache c f)) with (positions f).
  apply gives_all_of, positions_state. intros i t Hi.
  eapply computes_bind; [by apply computes_deref|].
  destruct (isTaskInGraph (RPT_Name t) d); [by apply gives_isDone|apply computes_ret].
Qed.

Lemma gives_checkDAGTasksDone : gives (checkDAGTasksDone fuel) (graph_done f (TasksGraph f)).
Proof. apply computes_get. intros c _. apply gives_checkTasksDone. Qed.

Lemma gives_checkFinalTasksDone : gives (checkFinalTasksDone fuel) (graph_done f (FinalTasksGraph f)).
Proof. apply computes_get. intros c _. apply gives_checkTasksDone. Qed.

Lemma final_ready t : isFinalTask f (RPT_Name t) = true → ready_with f (expected_status f) t = true.
Proof. unfold ready_with. by intros ->. Qed.

Lemma gives_parent t : ∀ p r u, parent_of f (RPT_Name t) p → denotes f r u → RPT_Name u = p →
  gives (Skip fuel r) (expected_status f p).
Proof. intros p r u _ Hr <-. by apply computes_Skip_all. Qed.

Context (Hfin : finals_settled f).

Lemma gives_IsFinallySkipped i t : State f !! i = Some t →
  gives (IsFinallySkipped fuel (At i)) (skip_status (final_reason f t)).
Proof.
  intros Hi. assert (t ∈ State f) as Ht by by eapply list_elem_of_lookup_2.
  pose proof (Hfin t Ht) as Hft. eapply computes_bind; [|apply computes_ret]. unfold final_reason.
  eapply computes_bind; [by apply computes_deref|].
  destruct (isScheduled t); [apply computes_ret|].
  eapply computes_bind; [apply gives_checkDAGTasksDone|]. apply computes_get. intros c _.
  change (isFinalTask (set_SkipCache c f)) with (isFinalTask f).
  destruct (graph_done f (TasksGraph f)); [|apply computes_ret]. cbn [andb].
  destruct (isFinalTask f (RPT_Name t)) eqn:Hf; [|apply computes_ret].
  pose proof (final_ready t Hf) as Hready.
  assert (hasResultReferences t = false) as Hno.
  { destruct (hasResultReferences t); [|done]. by destruct Hft. }
  eapply computes_bind.
  { apply (computes_missing f Hwf _ _ _ (Skip fuel) t Ht (gives_parent t) (At i) Hi).
    by rewrite Hno, andb_false_r. }
  apply computes_case with (1 := computes_when f Hwf _ _ _ (Skip fuel) t Ht (gives_parent t) (At i) Hi).
  rewrite Hready. cbn [andb]. case_match; [apply computes_ret|].
  apply computes_case with (1 := computes_pipeline_timeout f Hwf _ _ _ (Skip fuel) t Ht (gives_parent t) (At i) Hi).
  rewrite Hready. cbn [andb]. case_match; [apply computes_ret|].
  apply computes_case with (1 := computes_finally_timeout f Hwf _ _ _ (Skip fuel) t Ht (gives_parent t) (At i) Hi).
  rewrite Hready, Hf. cbn [andb]. case_match; [apply computes_ret|].
  apply computes_case with (1 := computes_emptyArray f _ _ _ t (At i) Hi).
  case_match; apply computes_ret.
Qed.

Lemma gives_tally i t : State f !! i = Some t → gives (tally_of fuel i) (expected_tally f t).
Proof.
  intros Hi. unfold expected_tally. eapply computes_bind; [by apply computes_deref|].
  apply computes_get. intros c _.
  change (ValidationFailedTask (set_SkipCache c f)) with (ValidationFailedTask f).
  destruct (isSuccessful t); [apply computes_ret|].
  destruct (isCancelledForTimeOut t); [apply computes_ret|].
  destruct (isCancelled t); [apply computes_ret|].
  destruct (isFailure t); [case_bool_decide; apply computes_ret|].
  destruct (isValidationFailed _ t); [apply computes_ret|].
  eapply computes_bind; [by apply gives_Skip|].
  destruct (bool_decide (Reason _ = PipelineTimedOutSkip)); [apply computes_ret|].
  eapply computes_bind; [by apply gives_Skip|].
  destruct (bool_decide (Reason _ = TasksTimedOutSkip)); [apply computes_ret|]. cbn [orb].
  eapply computes_bind; [by apply gives_IsFinallySkipped|]. cbn [Reason skip_status].
  destruct (bool_decide (final_reason f t = FinallyTimedOutSkip)); [apply computes_ret|].
  eapply computes_bind; [by apply gives_Skip|].
  destruct (IsSkipped (expected_status f (RPT_Name t))); [apply computes_ret|].
  eapply computes_bind; [by apply gives_IsFinallySkipped|].
  case_match; apply computes_ret.
Qed.

Lemma foldl_bump (g : ResolvedPipelineTask → tally) acc l :
  foldl (λ s t, bump s (g t)) acc l = foldl bump acc (g <$> l).
Proof. revert acc. induction l as [|t l IH]; intros acc; [done|]. apply IH. Qed.

Lemma gives_getPipelineTasksCount : gives (getPipelineTasksCount fuel) (counts f).
Proof.
  apply computes_get. intros c _. change (positions (set_SkipCache c f)) with (positions f).
  unfold counts. rewrite <-foldl_bump. apply gives_fold_of, positions_state.
  intros i t Hi acc. eapply computes_bind; [by apply gives_tally|apply computes_ret].
Qed.

End loops.

(** ** Counting *)

(** How many tasks are counted in [c]. *)
Definition number_of (ts : list tally) (c : tally) : Z := Z.of_nat (length (filter (λ t, t = c) ts)).

Lemma number_of_cons c t ts :
  number_of (t :: ts) c = ((if bool_decide (t = c) then 1 else 0) + number_of ts c)%Z.
Proof. unfold number_of. rewrite filter_cons. case_decide; case_bool_decide; try done; cbn [length]; lia. Qed.

Lemma foldl_bump_counts acc ts :
  let s := foldl bump acc ts in
  (Count_Succeeded s = Count_Succeeded acc + number_of ts TallySucceeded)%Z ∧
  (Count_Failed s = Count_Failed acc + number_of ts TallyFailed)%Z ∧
  (Count_IgnoredFailed s = Count_IgnoredFailed acc + number_of ts TallyIgnoredFailed)%Z ∧
  (Count_Cancelled s = Count_Cancelled acc + number_of ts TallyCancelled)%Z ∧
  (Count_ValidationFailed s = Count_ValidationFailed acc + number_of ts TallyValidationFailed)%Z ∧
  (Count_Incomplete s = Count_Incomplete acc + number_of ts TallyIncomplete)%Z ∧
  (Count_SkippedDueToTimeout s = Count_SkippedDueToTimeout acc + number_of ts TallySkippedDueToTimeout)%Z ∧
  (Count_Skipped s = Count_Skipped acc + number_of ts TallySkipped + number_of ts TallySkippedDueToTimeout)%Z.
Proof.
  revert acc. induction ts as [|t ts IH]; intros acc; cbn [foldl].
  { unfold number_of. cbn. lia. }
  destruct (IH (bump acc t)) as (-> & -> & -> & -> & -> & -> & -> & ->). rewrite !number_of_cons.
  destruct acc as [a1 a2 a3 a4 a5 a6 a7 a8], t; cbn [bump Count_Succeeded Count_Failed Count_IgnoredFailed Count_Cancelled
    Count_ValidationFailed Count_Incomplete Count_SkippedDueToTimeout Count_Skipped];
    repeat case_bool_decide; try done; lia.
Qed.

Lemma number_of_total ts :
  (number_of ts TallySucceeded + number_of ts TallyFailed + number_of ts TallyIgnoredFailed +
   number_of ts TallyCancelled + number_of ts TallyValidationFailed + number_of ts TallyIncomplete +
   number_of ts TallySkipped + number_of ts TallySkippedDueToTimeout = Z.of_nat (length ts))%Z.
Proof.
  induction ts as [|t ts IH]; [done|]. rewrite !number_of_cons. cbn [length].
  destruct t; repeat case_bool_decide; try done; lia.
Qed.

Lemma number_of_pos ts c : (0 < number_of ts c)%Z ↔ c ∈ ts.
Proof.
  unfold number_of. split.
  - intros Hp. destruct (filter (λ t, t = c) ts) as [|x l] eqn:E; [cbn in Hp; lia|].
    assert (x ∈ filter (λ t, t = c) ts) as Hx by (rewrite E; left).
    apply list_elem_of_filter in Hx as [-> Hx]. done.
  - intros Hc. assert (c ∈ filter (λ t, t = c) ts) as Hx by by apply list_elem_of_filter.
    destruct (filter _ ts); [by apply elem_of_nil in Hx|]. cbn [length]. lia.
Qed.

Lemma number_of_fmap {A} (g : A → tally) (P : A → Prop) `{!∀ a, Decision (P a)} c l :
  (∀ a, g a = c ↔ P a) → number_of (g <$> l) c = Z.of_nat (length (filter P l)).
Proof.
  intros HP. induction l as [|a l IH]; [done|]. rewrite fmap_cons, number_of_cons, IH, filter_cons.
  specialize (HP a). case_bool_decide; case_decide; cbn [length]; try lia; naive_solver.
Qed.

Lemma number_of_nonneg ts c : (0 ≤ number_of ts c)%Z.
Proof. unfold number_of. lia. Qed.

(** A task counts as incomplete when nothing about it is decided. *)
Lemma tally_incomplete `{MapOrder} f t :
  expected_tally f t = TallyIncomplete ↔ task_done f t = false ∧ final_reason f t = NoSkip.
Proof.
  unfold expected_tally, task_done, done_with.
  pose proof (isCancelled_isFailure t) as H1. pose proof (isCancelledForTimeOut_isCancelled t) as H2.
  destruct (isSuccessful t); [by rewrite orb_true_r; split; [done|intros [? _]]|].
  destruct (isFailure t).
  { rewrite orb_true_r. split; [|by intros [? _]].
    destruct (isCancelledForTimeOut t), (isCancelled t); try done. by case_bool_decide. }
  destruct (isCancelled t); [by specialize (H1 eq_refl)|].
  destruct (isCancelledForTimeOut t); [by specialize (H2 eq_refl)|]. cbn [orb].
  destruct (isValidationFailed _ t); [by rewrite orb_true_r; split; [done|intros [? _]]|].
  rewrite orb_false_r. assert (∃ r, expected_status f (RPT_Name t) = skip_status r) as [r ->].
  { unfold expected_status. cbn [status_to_depth]. destruct (task_named f (RPT_Name t)); by eexists. }
  by destruct r, (final_reason f t); cbn; naive_solver.
Qed.

(** What the computation of a value means on the facts themselves. *)
Lemma computes_run `{MapOrder} {A} f (m : M A) a :
  coherent (λ _, True) (expected_status f) (SkipCache f) →
  computes f (λ _, True) False (expected_status f) m a →
  ∃ cache, m f = Ret (a, set_SkipCache cache f).
Proof.
  intros Hc Hm. destruct (Hm _ Hc) as [[[] _]|(c' & _ & _ & E)]. exists c'. rewrite <-E. by destruct f.
Qed.

(** The facts at the start of a pass, with the fuel for their graph. *)
Record pass `{MapOrder} (f : PipelineRunFacts) (fuel : nat) : Prop := {
  pass_wf : facts_wf f;
  pass_settled : settled f;
  pass_finals : finals_settled f;
  pass_cache : coherent (λ _, True) (expected_status f) (SkipCache f);
  pass_fuel : size (Nodes (TasksGraph f)) < fuel
}.


(** ** The condition *)

Section condition.
Context `{MapOrder, SortSlice} (f : PipelineRunFacts).

Lemma counts_zero c : number_of (expected_tally f <$> State f) c = 0%Z ↔
  ∀ t, t ∈ State f → expected_tally f t ≠ c.
Proof.
  pose proof (number_of_nonneg (expected_tally f <$> State f) c) as Hn.
  pose proof (number_of_pos (expected_tally f <$> State f) c) as Hp. split.
  - intros Hz t Ht Hc. assert (c ∈ expected_tally f <$> State f) as Hin.
    { rewrite <-Hc. by apply list_elem_of_fmap_2. }
    apply Hp in Hin. lia.
  - intros Hall. destruct (decide (0 < number_of (expected_tally f <$> State f) c)%Z) as [Hpos|]; [|lia].
    apply Hp, list_elem_of_fmap in Hpos as (t & -> & Ht). by destruct (Hall t Ht).
Qed.

(** The condition of a PipelineRun whose tasks are all decided. *)
Lemma completed_condition_True pr :
  Count_Incomplete (counts f) = 0%Z →
  Condition_Status (completed_condition (counts f) pr) = ConditionTrue ↔
  PipelineRun_IsGracefullyCancelled pr = false ∧ PipelineRun_IsGracefullyStopped pr = false ∧
  ∀ t, t ∈ State f → expected_tally f t ∈ [TallySucceeded; TallyIgnoredFailed; TallySkipped].
Proof.
  intros Hinc. unfold completed_condition.
  destruct (foldl_bump_counts (mkCount 0 0 0 0 0 0 0 0) (expected_tally f <$> State f))
    as (_ & Hfail & _ & Hcan & Hval & Hi & Hto & _). fold (counts f) in *.
  cbn in Hfail, Hcan, Hval, Hto, Hi. rewrite Z.add_0_l in Hfail, Hcan, Hval, Hto, Hi.
  rewrite Hi in Hinc. rewrite Hfail, Hcan, Hval, Hto.
  pose proof (λ c, number_of_nonneg (expected_tally f <$> State f) c) as Hn.
  pose proof (Hn TallyFailed). pose proof (Hn TallyCancelled). pose proof (Hn TallyValidationFailed).
  pose proof (Hn TallySkippedDueToTimeout).
  assert ((∀ t, t ∈ State f → expected_tally f t ∈ [TallySucceeded; TallyIgnoredFailed; TallySkipped]) ↔
    number_of (expected_tally f <$> State f) TallyFailed = 0%Z ∧
    number_of (expected_tally f <$> State f) TallyCancelled = 0%Z ∧
    number_of (expected_tally f <$> State f) TallyValidationFailed = 0%Z ∧
    number_of (expected_tally f <$> State f) TallySkippedDueToTimeout = 0%Z) as ->.
  { rewrite !counts_zero. rewrite counts_zero in Hinc. split.
    - intros Hall. split_and!; intros t Ht Hc; specialize (Hall t Ht); rewrite Hc in Hall; set_solver.
    - intros (N1 & N2 & N3 & N4) t Ht. specialize (Hinc t Ht). specialize (N1 t Ht). specialize (N2 t Ht).
      specialize (N3 t Ht). specialize (N4 t Ht).
      by destruct (expected_tally f t); try done; rewrite !elem_of_cons; auto. }
  repeat case_bool_decide; cbn [orb];
    destruct (PipelineRun_IsGracefullyCancelled pr), (PipelineRun_IsGracefullyStopped pr);
    cbn [orb Condition_Status]; split; try done;
    first [intros (? & ? & ? & ? & ? & ?); done || lia | intros _; split_and!; done || lia].
Qed.

Lemma completed_condition_decided s pr :
  Condition_Status (completed_condition s pr) ≠ ConditionUnknown ∧
  Condition_Type (completed_condition s pr) = ConditionSucceeded.
Proof. unfold completed_condition. by repeat case_match. Qed.

End condition.


(** ** The queue *)

(** A task of the graph is done. *)
Definition dag_task_done `{MapOrder} (f : PipelineRunFacts) (x : string) : Prop :=
  ∃ t, t ∈ State f ∧ RPT_Name t = x ∧ isDAGTask f x = true ∧ task_done f t = true.

Definition done_names `{MapOrder} (f : PipelineRunFacts) : list string :=
  State f ≫= λ t, if isDAGTask f (RPT_Name t) then if task_done f t then [RPT_Name t] else [] else [].

Section queue.
Context `{MapOrder, SortSlice} (f : PipelineRunFacts) (fuel : nat) (Hpass : pass f fuel).

Lemma elem_of_done_names x : x ∈ done_names f ↔ dag_task_done f x.
Proof.
  unfold done_names, dag_task_done. rewrite list_elem_of_bind. split.
  - intros (t & Hx & Ht). destruct (isDAGTask f (RPT_Name t)) eqn:Hd; [|by apply elem_of_nil in Hx].
    destruct (task_done f t) eqn:Hdone; [|by apply elem_of_nil in Hx].
    apply list_elem_of_singleton in Hx as ->. exists t. by rewrite Hd.
  - intros (t & Ht & <- & Hd & Hdone). exists t. rewrite Hd, Hdone. split; [left|done].
Qed.

Lemma gives_completed :
  computes f (λ _, True) False (expected_status f) (completedOrSkippedDAGTasks fuel) (done_names f).
Proof.
  destruct Hpass as [Hwf Hset Hfin Hc Hfuel].
  apply computes_get. intros c _. change (positions (set_SkipCache c f)) with (positions f).
  apply gives_collect, positions_state. intros i t Hi.
  eapply computes_bind; [by apply computes_deref|]. apply computes_get. intros c' _.
  change (isDAGTask (set_SkipCache c' f)) with (isDAGTask f).
  destruct (isDAGTask f (RPT_Name t)); [|apply computes_ret].
  eapply computes_bind; [by apply gives_isDone|]. destruct (task_done f t); apply computes_ret.
Qed.

Lemma elem_of_getNextTasks (candidates : gset string) i :
  i ∈ getNextTasks (State f) candidates ↔
  ∃ t, State f !! i = Some t ∧ RPT_Name t ∈ candidates ∧ RPT_TaskRuns t = [] ∧ RPT_CustomRuns t = [].
Proof.
  unfold getNextTasks. rewrite list_elem_of_omap. split.
  - intros ([j t] & Hin & Hj). apply elem_of_lookup_imap_1 in Hin as (k & u & [= -> ->] & Hu).
    destruct (_ && _) eqn:E; [|done]. injection Hj as <-.
    rewrite !andb_true_iff, !bool_decide_eq_true, !length_zero_iff_nil in E. naive_solver.
  - intros (t & Hi & Hn & Ht & Hr). exists (i, t). split; [by apply (elem_of_lookup_imap_2 pair)|].
    by rewrite Ht, Hr, bool_decide_true.
Qed.

(** Names are unique. *)
Lemma same_name t u : t ∈ State f → u ∈ State f → RPT_Name t = RPT_Name u → t = u.
Proof.
  destruct Hpass as [Hwf _ _ _ _]. intros Ht Hu Hn.
  assert (task_named f (RPT_Name u) = Some t) as E1 by (apply task_named_Some; [apply Hwf|done]).
  assert (task_named f (RPT_Name u) = Some u) as E2 by (apply task_named_Some; [apply Hwf|done]).
  congruence.
Qed.

Context (tasks : list PipelineTask) (HB : BuildTasks tasks = Ret (TasksGraph f)).

Abbreviation keys := (PT_Name <$> tasks).
Abbreviation deps := (PipelineTaskList_Deps tasks).

Lemma built_graph : acyclic (depends deps) ∧
  (∀ pt prev, depends deps pt prev → pt ∈ keys ∧ prev ∈ keys) ∧ graph_of keys deps (TasksGraph f).
Proof.
  pose proof (Build_spec tasks deps) as Hs. unfold BuildTasks in HB. rewrite HB in Hs. by destruct Hs.
Qed.

Lemma built_parent x p : parent_of f x p ↔ depends deps x p.
Proof.
  destruct built_graph as (_ & Hdeps & Hg). split.
  - intros (n & Hn & Hp). unfold depends. by rewrite <-(graph_prev _ _ _ Hg x n Hn).
  - intros Hp. destruct (Hdeps x p Hp) as [Hx _]. apply (graph_dom _ _ _ Hg) in Hx as [n Hn].
    exists n. split; [done|]. by rewrite (graph_prev _ _ _ Hg x n Hn).
Qed.

Lemma built_dag x : isDAGTask f x = true ↔ x ∈ keys.
Proof.
  destruct built_graph as (_ & _ & Hg). unfold isDAGTask, isTaskInGraph.
  rewrite bool_decide_eq_true. apply (graph_dom _ _ _ Hg).
Qed.

Lemma elem_of_done_set x : x ∈ (list_to_set (done_names f) : gset string) ↔ dag_task_done f x.
Proof. by rewrite elem_of_list_to_set, elem_of_done_names. Qed.

(** A task of the state is ready in the sense of the graph when it is not done
    and its parents are. *)
Lemma ready_task t : t ∈ State f →
  ready keys deps (list_to_set (done_names f)) (RPT_Name t) ↔
  isDAGTask f (RPT_Name t) = true ∧ task_done f t = false ∧
  ∀ p, parent_of f (RPT_Name t) p → dag_task_done f p.
Proof.
  intros Ht. unfold ready. rewrite elem_of_done_set, <-built_dag.
  setoid_rewrite built_parent. setoid_rewrite elem_of_done_set. split.
  - intros (Hd & Hn & Hall). split_and!; [done| |done].
    destruct (task_done f t) eqn:E; [|done]. destruct Hn. by exists t.
  - intros (Hd & Hn & Hall). split_and!; [done| |done].
    intros (u & Hu & Hname & _ & Hdone). rewrite (same_name u t) in Hdone by done. congruence.
Qed.

Lemma queue_accepted cs :
  GetCandidateTasks (TasksGraph f) (done_names f) = Ret cs → ∀ i,
  i ∈ getNextTasks (State f) cs ↔ ∃ t, State f !! i = Some t ∧ isDAGTask f (RPT_Name t) = true ∧
    RPT_TaskRuns t = [] ∧ RPT_CustomRuns t = [] ∧ task_done f t = false ∧
    ∀ p, parent_of f (RPT_Name t) p → dag_task_done f p.
Proof.
  intros E i. destruct built_graph as (_ & Hdeps & Hg).
  pose proof (GetCandidateTasks_spec keys deps (TasksGraph f) (done_names f) Hg Hdeps) as Hs.
  cbn zeta in Hs. rewrite E in Hs. destruct Hs as [_ Hcs]. rewrite elem_of_getNextTasks.
  split; intros (t & Hi & Ht); exists t; apply list_elem_of_lookup_2 in Hi as Hin;
    pose proof (ready_task t Hin) as Hr; rewrite Hcs, Hr in *; naive_solver.
Qed.

Lemma queue_rejected e :
  GetCandidateTasks (TasksGraph f) (done_names f) = Err e → ∃ l, e = InvalidDoneTasks l ∧
  (∃ x, x ∈ l) ∧
  (∀ x, x ∈ l → dag_task_done f x ∧
     ¬ ∃ r, (∀ p, ¬ parent_of f r p) ∧ isDAGTask f r = true ∧
            rtc (λ p c, dag_task_done f p ∧ parent_of f c p) r x) ∧
  ¬ ∀ x p, dag_task_done f x → parent_of f x p → dag_task_done f p.
Proof.
  intros E. destruct built_graph as (Hac & Hdeps & Hg).
  pose proof (GetCandidateTasks_spec keys deps (TasksGraph f) (done_names f) Hg Hdeps) as Hs.
  cbn zeta in Hs. rewrite E in Hs. destruct e as [| | |l]; try done. destruct Hs as [Hne Hl].
  exists l. split; [done|]. assert (∃ x, x ∈ l) as [x0 Hx0] by (destruct l as [|x l]; [done|exists x; left]).
  split_and!; [by exists x0|..].
  - intros x Hx. apply Hl in Hx as [Hx Hv]. split; [by apply elem_of_done_names|].
    intros (r & Hroot & Hr & Hp). apply Hv. exists r. split.
    + apply (elem_of_getRoots keys deps _ Hg). split; [by apply built_dag|]. intros y Hy.
      apply (Hroot y). by apply built_parent.
    + revert Hp. apply rtc_subrel. intros p c [Hp Hcp]. split; [by apply elem_of_done_set|by apply built_parent].
  - intros Hcl. apply Hl in Hx0 as [Hx0 Hv]. apply Hv.
    apply (dep_closed_visited keys deps _ Hg Hdeps); [done| |by apply elem_of_done_set, elem_of_done_names].
    intros x Hx%elem_of_done_set. split.
    + destruct Hx as (t & _ & _ & Hd & _). by apply built_dag.
    + intros y Hy%built_parent. by apply elem_of_done_set, (Hcl x y).
Qed.

Context (Hcan : IsCancelled f = false) (Hgc : IsGracefullyCancelled f = false).

Lemma gives_queue (q : outcome DagError (list nat)) :
  match GetCandidateTasks (TasksGraph f) (done_names f) with
  | Err e => q = Err e
  | Panic => False
  | Ret cs => q = if negb (IsStopping f) && negb (IsGracefullyStopped f)
                  then Ret (getNextTasks (State f) cs) else Ret []
  end →
  computes f (λ _, True) False (expected_status f) (DAGExecutionQueue fuel) q.
Proof.
  intros Hqe. apply computes_get. intros c _.
  change (IsCancelled (set_SkipCache c f)) with (IsCancelled f).
  change (IsGracefullyCancelled (set_SkipCache c f)) with (IsGracefullyCancelled f).
  rewrite Hcan, Hgc. cbn [orb]. eapply computes_bind; [by apply gives_completed|].
  apply computes_get. intros c' _. change (TasksGraph (set_SkipCache c' f)) with (TasksGraph f).
  change (IsStopping (set_SkipCache c' f)) with (IsStopping f).
  change (IsGracefullyStopped (set_SkipCache c' f)) with (IsGracefullyStopped f).
  destruct (GetCandidateTasks _ _) as [cs|e|]; [|subst q; apply computes_ret|done].
  subst q. destruct (negb (IsStopping f) && negb (IsGracefullyStopped f)); apply computes_ret.
Qed.

End queue.


(** ** Examples *)

Lemma no_finals_settled `{MapOrder} f : FinalTasksGraph f = newGraph → finals_settled f.
Proof.
  intros Hf t _ Hfin. unfold isFinalTask, isTaskInGraph in Hfin. rewrite Hf in Hfin. cbn [Nodes newGraph] in Hfin.
  rewrite lookup_empty, bool_decide_eq_true in Hfin. by destruct Hfin.
Qed.

Lemma empty_cache_coherent D status : coherent D status ∅.
Proof. intros name s _ Hs. by rewrite lookup_empty in Hs. Qed.

Lemma guarded_pass : @pass stdpp_order guarded_facts 5.
Proof.
  split.
  - exact guarded_facts_wf.
  - apply is_settled_sound. vm_compute. reflexivity.
  - apply no_finals_settled. reflexivity.
  - apply empty_cache_coherent.
  - apply (bool_decide_unpack _). vm_compute. exact I.
Qed.


Definition plain_run : PipelineRun := example_run None None.



(** Tasks a and b are independent, c runs after b. *)
Definition forked_tasks : list PipelineTask :=
  [guarded_task "a" [] []; guarded_task "b" [] []; guarded_task "c" ["b"] []].

(** Task a has failed and b is running. *)
Definition stopping_facts : PipelineRunFacts :=
  facts_of (graph_or_empty (@BuildTasks stdpp_order forked_tasks))
    [resolved 0 (guarded_task "a" [] []) [task_run "pr-a" "Failed" ConditionFalse []];
     resolved 1 (guarded_task "b" [] []) [task_run "pr-b" "Running" ConditionUnknown []];
     resolved 2 (guarded_task "c" ["b"] []) []].

(** Task b runs after a and has a matrix with no values. *)
Definition empty_matrix_task : PipelineTask :=
  mkPipelineTask "b" "" (Some (mkTaskRef "task" "Task" "" "" [])) None [] 0 ["a"] []
    (Some (mkMatrix [array_param "os" []] [])) [] "".

(** Nothing has run yet. *)
Definition empty_matrix_facts : PipelineRunFacts :=
  facts_of (graph_or_empty (@BuildTasks stdpp_order [guarded_task "a" [] []; empty_matrix_task]))
    [resolved 0 (guarded_task "a" [] []) []; resolved 1 empty_matrix_task []].

